(** * Binding a GraphQL schema to Go resolvers: a model of
      [internal/exec/resolvable/resolvable.go] and [scalar/id.go].

    The Go code inspects resolver types through package [reflect] and walks the
    schema's type graph from package [types]; neither package is part of the
    files modelled here, so both are represented by data: a [TypeEnv] answers
    the questions the code asks of [reflect.Type], and a [Schema] holds the
    type nodes, addressed by reference as the Go pointers are.

    The builder allocates dispatch-tree nodes, keeps pointers to their
    [Resolvable]-typed slots and patches those slots in [finish]; the model
    therefore threads an explicit heap and the memoisation map through a
    state-and-error monad. *)

From Stdlib Require Import Ascii String.
From stdpp Require Import gmap strings list pretty.

Local Open Scope string_scope.
Local Open Scope list_scope.
Local Open Scope nat_scope.

(** ** Results of Go calls *)

(** A Go call here returns a value, returns a non-nil [error], or panics.
    [OutOfFuel] is an artefact of the model: recursive functions carry a
    bound on the depth of their recursion. *)
Inductive result (A : Type) : Type :=
| Ok (a : A)
| Err (msg : string)
| Panic (msg : string)
| OutOfFuel.
Arguments Ok {A} a.
Arguments Err {A} msg.
Arguments Panic {A} msg.
Arguments OutOfFuel {A}.

Definition is_Ok {A} (r : result A) : bool :=
  match r with Ok _ => true | _ => false end.

Definition is_Err {A} (r : result A) : bool :=
  match r with Err _ => true | _ => false end.

Definition rbind {A B} (r : result A) (k : A -> result B) : result B :=
  match r with
  | Ok a => k a
  | Err e => Err e
  | Panic e => Panic e
  | OutOfFuel => OutOfFuel
  end.

Notation "x <~ r ;; k" := (rbind r (fun x => k))
  (at level 100, r at next level, right associativity).

(** A call of a function that returns no [error] and is not part of the
    files modelled: it returns a value or it panics. *)
Inductive outcome (A : Type) : Type :=
| Returns (a : A)
| Panics (msg : string).
Arguments Returns {A} a.
Arguments Panics {A} msg.

Definition call {A} (o : outcome A) : result A :=
  match o with
  | Returns a => Ok a
  | Panics msg => Panic msg
  end.

(** ** Package strings *)

(** A Go string is a sequence of bytes.  [strings.ToLower] and
    [strings.EqualFold] work rune by rune with the Unicode tables; on text
    whose bytes are all below 0x80 every rune is one byte and the tables
    exchange exactly [A-Z] and [a-z].  That part is modelled here; text
    with other bytes is left to the [TypeEnv] below. *)
Module GoStrings.

(** Every byte is below [utf8.RuneSelf]. *)
Fixpoint isASCII (s : string) : bool :=
  match s with
  | EmptyString => true
  | String c s' => (nat_of_ascii c <? 128)%nat && isASCII s'
  end.

Definition lower (c : ascii) : ascii :=
  let n := nat_of_ascii c in
  if (65 <=? n)%nat && (n <=? 90)%nat then ascii_of_nat (n + 32) else c.

(** [strings.ToLower] on ASCII text. *)
Fixpoint lowerASCII (s : string) : string :=
  match s with
  | EmptyString => EmptyString
  | String c s' => String (lower c) (lowerASCII s')
  end.

(** [strings.EqualFold] on two ASCII texts. *)
Fixpoint equalFoldASCII (s t : string) : bool :=
  match s, t with
  | EmptyString, EmptyString => true
  | String a s', String b t' => Ascii.eqb (lower a) (lower b) && equalFoldASCII s' t'
  | _, _ => false
  end.

(** [strings.Replace(s, "_", "", -1)] *)
Fixpoint ReplaceUnderscore (s : string) : string :=
  match s with
  | EmptyString => EmptyString
  | String c s' =>
      if Ascii.eqb c "_"%char then ReplaceUnderscore s' else String c (ReplaceUnderscore s')
  end.

(** The double quote character, and [%q] on text that needs no escape. *)
Definition dq : string := String (ascii_of_nat 34) EmptyString.
Definition quote (s : string) : string := dq +:+ s +:+ dq.

(** A line feed followed by a tab. *)
Definition nl_tab : string :=
  String (ascii_of_nat 10) (String (ascii_of_nat 9) EmptyString).

End GoStrings.
Import GoStrings.

Definition stripUnderscore (s : string) : string := ReplaceUnderscore s.

(** ** Package reflect *)

Inductive Kind : Type :=
| KBool | KInt | KInt32 | KInt64 | KFloat32 | KFloat64 | KString
| KStruct | KPointer | KInterface | KSlice | KChan | KFunc | KMap | KArray.

Global Instance Kind_eq_dec : EqDecision Kind.
Proof. solve_decision. Defined.

(** A [reflect.Type].  The types [*T], [[]T] and [chan T] are built from
    their element type; every other type, a directed channel type such as
    [<-chan T] included, is identified by the text [String()] prints for it,
    and described by the [TypeEnv]. *)
Inductive rtype : Type :=
| TNamed (name : string)
| TPtr (elem : rtype)
| TSlice (elem : rtype)
| TChan (elem : rtype).

Global Instance rtype_eq_dec : EqDecision rtype.
Proof. solve_decision. Defined.

(** [t.String()]; the element of [chan T] is put in parentheses when it is
    a receive-only channel type. *)
Fixpoint rtype_String (t : rtype) : string :=
  match t with
  | TNamed n => n
  | TPtr e => "*" +:+ rtype_String e
  | TSlice e => "[]" +:+ rtype_String e
  | TChan e =>
      let s := rtype_String e in
      if String.prefix "<-chan " s then "chan (" +:+ s +:+ ")" else "chan " +:+ s
  end.

(** [reflect.Method]: [m_In] and [m_Out] are the parameter and result types
    of [Method.Type]; for a method of a non-interface type the receiver is
    the first parameter. *)
Record Method : Type := mkMethod {
  m_Name : string;
  m_In : list rtype;
  m_Out : list rtype;
}.

Record StructField : Type := mkStructField {
  sf_Name : string;
  sf_Type : rtype;
  sf_Anonymous : bool;
}.

(** What the program's type declarations say.  [methodsOf t] is the exported
    method set of [t] in the order of [t.Method(i)], which is the order of
    the names; [unmarshalerOf t] is [Some f] when [*t] implements
    [decode.Unmarshaler], [f] being its [ImplementsGraphQLType].

    The last two fields stand for the Unicode tables of package [strings]:
    [unicodeToLower s] is [strings.ToLower(s)] for a text [s] that is not
    ASCII, and [unicodeEqualFold s t] is [strings.EqualFold(s, t)] when one
    of the two is not ASCII.  Nothing is assumed about them. *)
Record TypeEnv : Type := mkTypeEnv {
  kindOf : string -> Kind;
  elemOf : string -> option rtype;
  fieldsOf : string -> list StructField;
  methodsOf : rtype -> list Method;
  unmarshalerOf : rtype -> option (string -> bool);
  unicodeToLower : string -> string;
  unicodeEqualFold : string -> string -> bool;
}.

Definition zeroMethod : Method := mkMethod EmptyString [] [].
Definition zeroStructField : StructField :=
  mkStructField EmptyString (TNamed EmptyString) false.

Definition int32Type : rtype := TNamed "int32".
Definition float64Type : rtype := TNamed "float64".
Definition stringType : rtype := TNamed "string".
Definition boolType : rtype := TNamed "bool".
Definition contextType : rtype := TNamed "context.Context".
Definition errorType : rtype := TNamed "error".

Section Reflect.
Variable env : TypeEnv.

Definition Kind_ (t : rtype) : Kind :=
  match t with
  | TNamed n => kindOf env n
  | TPtr _ => KPointer
  | TSlice _ => KSlice
  | TChan _ => KChan
  end.

Definition Elem (t : rtype) : result rtype :=
  match t with
  | TPtr e | TSlice e | TChan e => Ok e
  | TNamed n =>
      match elemOf env n with
      | Some e => Ok e
      | None => Panic ("reflect: Elem of invalid type " +:+ n)
      end
  end.

Definition NumMethod (t : rtype) : nat := length (methodsOf env t).

Definition Method_ (t : rtype) (i : Z) : result Method :=
  if (i <? 0)%Z then Panic "reflect: Method index out of range"
  else match methodsOf env t !! Z.to_nat i with
       | Some m => Ok m
       | None => Panic "reflect: Method index out of range"
       end.

(** [t.NumField()] and [t.Field(i)] panic unless [t] is a struct type. *)
Definition Fields_ (t : rtype) : result (list StructField) :=
  match t with
  | TNamed n =>
      if decide (kindOf env n = KStruct) then Ok (fieldsOf env n)
      else Panic ("reflect: NumField of non-struct type " +:+ n)
  | _ => Panic ("reflect: NumField of non-struct type " +:+ rtype_String t)
  end.

Definition Field_ (t : rtype) (i : nat) : result StructField :=
  fs <~ Fields_ t ;;
  match fs !! i with
  | Some f => Ok f
  | None => Panic "reflect: Field index out of bounds"
  end.

(** [t.FieldByIndex(index)]: after the first step a pointer to a struct is
    followed to the struct. *)
Fixpoint FieldByIndex_from (first : bool) (t : rtype) (f : StructField)
    (index : list nat) : result StructField :=
  match index with
  | [] => Ok f
  | x :: rest =>
      let ft :=
        if first then t
        else match sf_Type f with
             | TPtr e => if decide (Kind_ e = KStruct) then e else sf_Type f
             | TNamed n =>
                 match decide (kindOf env n = KPointer), elemOf env n with
                 | left _, Some e => if decide (Kind_ e = KStruct) then e else sf_Type f
                 | _, _ => sf_Type f
                 end
             | other => other
             end in
      f' <~ Field_ ft x ;;
      FieldByIndex_from false ft f' rest
  end.

Definition FieldByIndex (t : rtype) (index : list nat) : result StructField :=
  FieldByIndex_from true t (mkStructField EmptyString t false) index.

Definition unwrapPtr (t : rtype) : result rtype :=
  if decide (Kind_ t = KPointer) then Elem t else Ok t.

(** [strings.ToLower] *)
Definition ToLower (s : string) : string :=
  if isASCII s then lowerASCII s else unicodeToLower env s.

(** [strings.EqualFold] *)
Definition EqualFold (s t : string) : bool :=
  if isASCII s && isASCII t then equalFoldASCII s t else unicodeEqualFold env s t.

End Reflect.

(** Lookup in a Go map kept as a list of entries. *)
Fixpoint assoc {K V : Type} `{EqDecision K} (k : K) (l : list (K * V)) : option V :=
  match l with
  | [] => None
  | (k', v) :: l' => if decide (k' = k) then Some v else assoc k l'
  end.

(** ** Package types: the schema's type graph *)

(** A [types.Type] value is a pointer to a type node; [tyref] is that
    pointer, an index into the schema's store of nodes.  Two occurrences of
    [T!] in a schema are two [NonNull] nodes, as they are two allocations in
    Go. *)
Definition tyref : Type := nat.

Record InputValueDefinition : Type := mkInputValue {
  iv_Name : string;
  iv_Type : tyref;
}.

Record FieldDefinition : Type := mkFieldDef {
  fd_Name : string;
  fd_Arguments : list InputValueDefinition;
  fd_Type : tyref;
  fd_Directives : list string;
}.

Inductive TypeNode : Type :=
| ObjectTypeDefinition (name : string) (fields : list FieldDefinition)
| InterfaceTypeDefinition (name : string) (fields : list FieldDefinition)
    (possibleTypes : list tyref)
| Union (name : string) (unionMemberTypes : list tyref)
| ScalarTypeDefinition (name : string)
| EnumTypeDefinition (name : string)
| InputObject (name : string)
| List (ofType : tyref)
| NonNull (ofType : tyref).

Record DirectiveDefinition : Type := mkDirectiveDef {
  dd_Locations : list string;
  dd_Arguments : list InputValueDefinition;
}.

(** [sDirectives] lists the entries of the Go map [s.Directives] in the order
    in which a [range] over it visits them; Go leaves that order open, so
    statements about it hold for every list. *)
Record Schema : Type := mkSchema {
  sTypes : list TypeNode;
  RootOperationTypes : gmap string tyref;
  sDirectives : list (string * DirectiveDefinition);
}.

Definition lookupDirective (s : Schema) (n : string) : option DirectiveDefinition :=
  assoc n (sDirectives s).

Definition typeString (s : Schema) (t : tyref) : string :=
  match sTypes s !! t with
  | Some (ObjectTypeDefinition n _) | Some (InterfaceTypeDefinition n _ _)
  | Some (Union n _) | Some (ScalarTypeDefinition n) | Some (EnumTypeDefinition n)
  | Some (InputObject n) => n
  | _ => EmptyString
  end.

(** [unwrapNonNull] *)
Definition unwrapNonNull (s : Schema) (t : tyref) : tyref * bool :=
  match sTypes s !! t with
  | Some (NonNull ofType) => (ofType, true)
  | _ => (t, false)
  end.

(** ** Package directives *)

(** A directive implementation: the name it declares, whether it implements
    [directives.ResolverInterceptor], and its dynamic type. *)
Record Directive : Type := mkDirective {
  ImplementsDirective : string;
  isResolverInterceptor : bool;
  d_Type : rtype;
}.

(** ** Package scalar *)

Module Scalar.
(** [func (ID[T]) ImplementsGraphQLType(name string) bool] *)
Definition ID_ImplementsGraphQLType (name : string) : bool :=
  bool_decide (name = "ID").

(** The type [ID[T]] as reflect names it. *)
Definition ID (T : string) : rtype := TNamed ("scalar.ID[" +:+ T +:+ "]").
End Scalar.

(** ** The dispatch tree *)

Definition loc : Type := nat.

(** A value of interface type [Resolvable]: nil, or a pointer to a node. *)
Inductive Resolvable : Type :=
| RNil
| RObject (p : loc)
| RList (p : loc)
| RScalar (p : loc).

Global Instance Resolvable_eq_dec : EqDecision Resolvable.
Proof. solve_decision. Defined.

(** The packer builder is an outside service; a packer is identified by what
    it was built from. *)
Definition StructPacker : Type := (list InputValueDefinition * rtype)%type.

Record Field : Type := mkField {
  f_FieldDefinition : FieldDefinition;
  f_TypeName : string;
  f_MethodIndex : Z;
  f_FieldIndex : list nat;
  f_HasContext : bool;
  f_HasError : bool;
  f_ArgsPacker : option StructPacker;
  f_DirectivesPackers : gmap string StructPacker;
  f_ValueExec : Resolvable;
  f_TraceLabel : string;
}.

Definition UseMethodResolver (f : Field) : bool :=
  bool_decide (length (f_FieldIndex f) = 0%nat).

Record TypeAssertion : Type := mkTypeAssertion {
  ta_MethodIndex : Z;
  ta_TypeExec : Resolvable;
}.

Record Object : Type := mkObject {
  o_Name : string;
  o_Fields : gmap string loc;
  o_TypeAssertions : gmap string loc;
}.

(** Heap cells.  [CVar] is a local variable of type [Resolvable] whose
    address is taken ([&query]). *)
Inductive Cell : Type :=
| CObject (o : Object)
| CList (elem : Resolvable)
| CScalar
| CField (f : Field)
| CTypeAssertion (a : TypeAssertion)
| CVar (v : Resolvable).

(** The [Resolvable] slot of a cell, which a [*Resolvable] points to. *)
Definition slot (c : Cell) : option Resolvable :=
  match c with
  | CList e => Some e
  | CField f => Some (f_ValueExec f)
  | CTypeAssertion a => Some (ta_TypeExec a)
  | CVar v => Some v
  | _ => None
  end.

Definition setSlot (r : Resolvable) (c : Cell) : Cell :=
  match c with
  | CList _ => CList r
  | CField f =>
      CField (mkField (f_FieldDefinition f) (f_TypeName f) (f_MethodIndex f)
                (f_FieldIndex f) (f_HasContext f) (f_HasError f) (f_ArgsPacker f)
                (f_DirectivesPackers f) r (f_TraceLabel f))
  | CTypeAssertion a => CTypeAssertion (mkTypeAssertion (ta_MethodIndex a) r)
  | CVar _ => CVar r
  | other => other
  end.

(** ** The builder's state *)

Definition typePair : Type := (tyref * rtype)%type.

Record resMapEntry : Type := mkEntry {
  exec : Resolvable;
  targets : list loc;
}.

(** The mutable part of [execBuilder] and the heap it allocates in.
    [resMap] keeps its entries in insertion order; a key occurs once.
    [packerLog] records the calls made to the packer builder. *)
Record State : Type := mkState {
  heap : list Cell;
  resMap : list (typePair * resMapEntry);
  packerLog : list StructPacker;
}.

Definition M (A : Type) : Type := State -> result (A * State).

Definition ret {A} (a : A) : M A := fun st => Ok (a, st).

Definition bind {A B} (m : M A) (k : A -> M B) : M B :=
  fun st => r <~ m st ;; k (fst r) (snd r).

Definition fail {A} (msg : string) : M A := fun _ => Err msg.
Definition panic {A} (msg : string) : M A := fun _ => Panic msg.
Definition outOfFuel {A} : M A := fun _ => OutOfFuel.

Definition lift {A} (r : result A) : M A :=
  fun st => a <~ r ;; Ok (a, st).

Notation "x <- m ;; k" := (bind m (fun x => k))
  (at level 100, m at next level, right associativity).
Notation "m ;;; k" := (bind m (fun _ => k))
  (at level 100, right associativity).

(** [&Cell{...}]: allocate a cell, return its address. *)
Definition alloc (c : Cell) : M loc :=
  fun st => Ok (length (heap st), mkState (heap st ++ [c])%list (resMap st) (packerLog st)).

Definition lookupEntry (k : typePair) (m : list (typePair * resMapEntry)) : option resMapEntry :=
  assoc k m.

Fixpoint updateEntry (k : typePair) (f : resMapEntry -> resMapEntry)
    (m : list (typePair * resMapEntry)) : list (typePair * resMapEntry) :=
  match m with
  | [] => []
  | (k', e) :: m' =>
      if decide (k' = k) then (k', f e) :: m' else (k', e) :: updateEntry k f m'
  end.

(** ** Looking up members by name *)

Section Inspect.
Variable env : TypeEnv.

Fixpoint findMethod_from (ms : list Method) (name : string) (i : Z) : Z :=
  match ms with
  | [] => (-1)%Z
  | m :: ms' =>
      if EqualFold env (stripUnderscore name) (stripUnderscore (m_Name m)) then i
      else findMethod_from ms' name (i + 1)%Z
  end.

(** [findMethod] *)
Definition findMethod (t : rtype) (name : string) : Z :=
  findMethod_from (methodsOf env t) name 0%Z.

Definition isEmbeddedStruct (field : StructField) : bool :=
  bool_decide (Kind_ env (sf_Type field) = KStruct) && sf_Anonymous field.

(** The loop of [findField] from field [i] on; [rec] is [findField]
    itself, for the embedded structs. *)
Fixpoint findField_loop (rec : rtype -> string -> list nat -> result (list nat))
    (name : string) (index : list nat) (fs : list StructField) (i : nat)
    : result (list nat) :=
  match fs with
  | [] => Ok index
  | field :: rest =>
      let here :=
        if EqualFold env (stripUnderscore name) (stripUnderscore (sf_Name field))
        then Ok (index ++ [i])%list
        else findField_loop rec name index rest (S i) in
      if isEmbeddedStruct field then
        newIndex <~ rec (sf_Type field) name [i] ;;
        if bool_decide (1 < length newIndex) then Ok (index ++ newIndex)%list
        else here
      else here
  end.

(** [findField]; the fuel bounds the nesting of embedded structs. *)
Fixpoint findField (fuel : nat) (t : rtype) (name : string) (index : list nat)
    : result (list nat) :=
  match fuel with
  | O => OutOfFuel
  | S fuel' =>
      fs <~ Fields_ env t ;;
      findField_loop (findField fuel') name index fs 0
  end.

(** [count[fieldName]], zero when absent (also on the nil map). *)
Definition getCount (count : gmap string Z) (k : string) : Z :=
  default 0%Z (count !! k).

Fixpoint fieldCount_loop (rec : rtype -> gmap string Z -> result (gmap string Z))
    (count : gmap string Z) (fs : list StructField) : result (gmap string Z) :=
  match fs with
  | [] => Ok count
  | field :: rest =>
      let fieldName := ToLower env (stripUnderscore (sf_Name field)) in
      if isEmbeddedStruct field then
        count' <~ rec (sf_Type field) count ;;
        fieldCount_loop rec count' rest
      else
        fieldCount_loop rec (<[fieldName := (getCount count fieldName + 1)%Z]> count) rest
  end.

(** [fieldCount]; the nil map it returns for a non-struct is the empty
    map, which reads the same. *)
Fixpoint fieldCount (fuel : nat) (t : rtype) (count : gmap string Z)
    : result (gmap string Z) :=
  match fuel with
  | O => OutOfFuel
  | S fuel' =>
      if decide (Kind_ env t ≠ KStruct) then Ok ∅
      else
        fs <~ Fields_ env t ;;
        fieldCount_loop (fieldCount fuel') count fs
  end.

End Inspect.

(** ** The exec builder *)

Section Builder.
(** The read-only fields of [execBuilder], and the packer builder's
    behaviour: [packerError args t] is the error of
    [MakeStructPacker(args, t)], if it fails. *)
Variable env : TypeEnv.
Variable schema : Schema.
Variable directives : gmap string Directive.
Variable useFieldResolvers : bool.
Variable packerError : list InputValueDefinition -> rtype -> option string.

(** [b.packerBuilder.MakeStructPacker] *)
Definition MakeStructPacker (args : list InputValueDefinition) (t : rtype)
    : M StructPacker :=
  fun st =>
    match packerError args t with
    | Some e => Err e
    | None =>
        Ok ((args, t), mkState (heap st) (resMap st) (packerLog st ++ [(args, t)])%list)
    end.

(** [makeScalarExec]: the type switch is on [*resolverType]. *)
Definition makeScalarExec (tName : string) (resolverType : rtype) : M Resolvable :=
  let implementsType :=
    if decide (resolverType = int32Type) then bool_decide (tName = "Int")
    else if decide (resolverType = float64Type) then bool_decide (tName = "Float")
    else if decide (resolverType = stringType) then bool_decide (tName = "String")
    else if decide (resolverType = boolType) then bool_decide (tName = "Boolean")
    else match unmarshalerOf env resolverType with
         | Some ImplementsGraphQLType => ImplementsGraphQLType tName
         | None => false
         end in
  if negb implementsType then
    fail ("can not use " +:+ rtype_String resolverType +:+ " as " +:+ tName)
  else
    p <- alloc CScalar ;; ret (RScalar p).

(** [in[1:]] *)
Definition dropFirst (inp : list rtype) : result (list rtype) :=
  match inp with
  | [] => Panic "runtime error: slice bounds out of range [1:0]"
  | _ :: rest => Ok rest
  end.

(** [makeFieldExec], the block that validates a resolver method; it yields
    [argsPacker], [hasError] and [hasContext]. *)
Definition makeFieldExec_method (f : FieldDefinition) (m : Method)
    (methodHasReceiver : bool) : M (option StructPacker * bool * bool) :=
  inp <- lift (if methodHasReceiver then dropFirst (m_In m) else Ok (m_In m)) ;;
  let hasContext := bool_decide (head inp = Some contextType) in
  let inp := if hasContext then tail inp else inp in
  packed <-
    (if bool_decide (0 < length (fd_Arguments f)) then
       match inp with
       | [] => fail "must have `args struct { ... }` argument for field arguments"
       | in0 :: rest =>
           p <- MakeStructPacker (fd_Arguments f) in0 ;; ret (Some p, rest)
       end
     else ret (None, inp)) ;;
  let '(argsPacker, inp) := packed in
  if bool_decide (0 < length inp) then fail "too many arguments"
  else
    let maxNumOfReturns := 2 in
    if bool_decide (length (m_Out m) < maxNumOfReturns - 1) then
      fail "too few return values"
    else if bool_decide (maxNumOfReturns < length (m_Out m)) then
      fail "too many return values"
    else
      let hasError := bool_decide (length (m_Out m) = maxNumOfReturns) in
      if hasError && negb (bool_decide (m_Out m !! (maxNumOfReturns - 1) = Some errorType))
      then fail ("must have " +:+ quote "error" +:+ " as its last return value")
      else ret (argsPacker, hasError, hasContext).

(** [makeFieldExec], the loop over the field's directives. *)
Fixpoint makeFieldExec_directives (f : FieldDefinition) (ds : list string)
    (directivesPackers : gmap string StructPacker) : M (gmap string StructPacker) :=
  match ds with
  | [] => ret directivesPackers
  | n :: rest =>
      if bool_decide (n = "deprecated") then
        makeFieldExec_directives f rest directivesPackers
      else
        match directives !! n with
        | None =>
            fail ("directive " +:+ quote n +:+ " on field " +:+ quote (fd_Name f)
                    +:+ " does not have a visitor registered with the schema")
        | Some v =>
            if negb (isResolverInterceptor v) then
              makeFieldExec_directives f rest directivesPackers
            else
              let r := d_Type v in
              match lookupDirective schema n with
              | None =>
                  fail ("directive definition " +:+ quote n
                          +:+ " is not defined in the schema")
              | Some dd =>
                  p <- MakeStructPacker (dd_Arguments dd) r ;;
                  makeFieldExec_directives f rest (<[n := p]> directivesPackers)
              end
        end
  end.

(** [sub.TypeName()] on a root operation type. *)
Definition TypeName (t : tyref) : result string :=
  match sTypes schema !! t with
  | Some (ObjectTypeDefinition n _) | Some (InterfaceTypeDefinition n _ _)
  | Some (Union n _) | Some (ScalarTypeDefinition n) | Some (EnumTypeDefinition n)
  | Some (InputObject n) => Ok n
  | _ => Panic "runtime error: invalid memory address or nil pointer dereference"
  end.

(** [m.Type.Out(0)] *)
Definition Out0 (m : Method) : result rtype :=
  match m_Out m with
  | t :: _ => Ok t
  | [] => Panic "reflect: Function index out of bounds"
  end.

Section WithAssign.
(** [b.assignExec], to which the functions below recurse. *)
Variable assignExec : loc -> tyref -> rtype -> M unit.
(** The fuel left for the walks through embedded structs. *)
Variable fuel : nat.

(** [makeFieldExec] *)
Definition makeFieldExec (typeName : string) (f : FieldDefinition) (m : Method)
    (sf : StructField) (methodIndex : Z) (fieldIndex : list nat)
    (methodHasReceiver : bool) : M loc :=
  checked <-
    (if decide (methodIndex ≠ (-1)%Z) then makeFieldExec_method f m methodHasReceiver
     else ret (None, false, false)) ;;
  let '(argsPacker, hasError, hasContext) := checked in
  directivesPackers <- makeFieldExec_directives f (fd_Directives f) ∅ ;;
  fe <- alloc (CField
          (mkField f typeName methodIndex fieldIndex hasContext hasError argsPacker
             directivesPackers RNil
             ("GraphQL field: " +:+ typeName +:+ "." +:+ fd_Name f))) ;;
  out <-
    (if decide (methodIndex ≠ (-1)%Z) then
       out <- lift (Out0 m) ;;
       match RootOperationTypes schema !! "subscription" with
       | Some sub =>
           subName <- lift (TypeName sub) ;;
           if bool_decide (typeName = subName) && bool_decide (Kind_ env out = KChan)
           then lift (Elem env out)
           else ret out
       | None => ret out
       end
     else ret (sf_Type sf)) ;;
  assignExec fe (fd_Type f) out ;;;
  ret fe.

(** [makeObjectExec], the loop over the declared fields. *)
Fixpoint makeObjectExec_fields (typeName : string) (resolverType rt : rtype)
    (methodHasReceiver : bool) (fieldsCount : gmap string Z)
    (fields : list FieldDefinition) (Fields : gmap string loc)
    : M (gmap string loc) :=
  match fields with
  | [] => ret Fields
  | f :: rest =>
      let methodIndex := findMethod env resolverType (fd_Name f) in
      fieldIndex <-
        (if useFieldResolvers && bool_decide (methodIndex = (-1)%Z) then
           if bool_decide
                (1 < getCount fieldsCount (ToLower env (stripUnderscore (fd_Name f))))%Z
           then fail (rtype_String resolverType +:+ " does not resolve "
                        +:+ quote typeName +:+ ": ambiguous field "
                        +:+ quote (fd_Name f))
           else lift (findField env fuel rt (fd_Name f) [])
         else ret []) ;;
      if bool_decide (methodIndex = (-1)%Z) && bool_decide (length fieldIndex = 0) then
        let hint :=
          if bool_decide (findMethod env (TPtr resolverType) (fd_Name f) ≠ (-1)%Z)
          then " (hint: the method exists on the pointer type)"
          else EmptyString in
        fail (rtype_String resolverType +:+ " does not resolve " +:+ quote typeName
                +:+ ": missing method for field " +:+ quote (fd_Name f) +:+ hint)
      else
        member <-
          (if decide (methodIndex ≠ (-1)%Z) then
             m <- lift (Method_ env resolverType methodIndex) ;; ret (m, zeroStructField)
           else
             sf <- lift (FieldByIndex env rt fieldIndex) ;; ret (zeroMethod, sf)) ;;
        let '(m, sf) := member in
        fe <- (fun st =>
                 match makeFieldExec typeName f m sf methodIndex fieldIndex
                         methodHasReceiver st with
                 | Err err =>
                     let resolverName :=
                       if decide (methodIndex ≠ (-1)%Z) then m_Name m else sf_Name sf in
                     Err (err +:+ nl_tab +:+ "used by (" +:+ rtype_String resolverType
                            +:+ ")." +:+ resolverName)
                 | other => other
                 end) ;;
        makeObjectExec_fields typeName resolverType rt methodHasReceiver fieldsCount
          rest (<[fd_Name f := fe]> Fields)
  end.

(** [impl.Name] for [impl *types.ObjectTypeDefinition] *)
Definition implName (impl : tyref) : result string :=
  match sTypes schema !! impl with
  | Some (ObjectTypeDefinition n _) => Ok n
  | _ => Panic "runtime error: invalid memory address or nil pointer dereference"
  end.

(** [makeObjectExec], the loop over the possible types. *)
Fixpoint makeObjectExec_assertions (typeName : string) (resolverType : rtype)
    (methodHasReceiver : bool) (possibleTypes : list tyref)
    (typeAssertions : gmap string loc) : M (gmap string loc) :=
  match possibleTypes with
  | [] => ret typeAssertions
  | impl :: rest =>
      name <- lift (implName impl) ;;
      let methodIndex := findMethod env resolverType ("To" +:+ name) in
      if bool_decide (methodIndex = (-1)%Z) then
        fail (rtype_String resolverType +:+ " does not resolve " +:+ quote typeName
                +:+ ": missing method " +:+ quote ("To" +:+ name)
                +:+ " to convert to " +:+ quote name)
      else
        m <- lift (Method_ env resolverType methodIndex) ;;
        let expectedIn := if methodHasReceiver then 1 else 0 in
        if negb (bool_decide (length (m_In m) = expectedIn)) then
          fail (rtype_String resolverType +:+ " does not resolve " +:+ quote typeName
                  +:+ ": method " +:+ quote ("To" +:+ name)
                  +:+ " should't have any arguments")
        else if negb (bool_decide (length (m_Out m) = 2)) then
          fail (rtype_String resolverType +:+ " does not resolve " +:+ quote typeName
                  +:+ ": method " +:+ quote ("To" +:+ name)
                  +:+ " should return a value and a bool indicating success")
        else
          a <- alloc (CTypeAssertion (mkTypeAssertion methodIndex RNil)) ;;
          out <- lift (Out0 m) ;;
          assignExec a impl out ;;;
          makeObjectExec_assertions typeName resolverType methodHasReceiver rest
            (<[name := a]> typeAssertions)
  end.

(** [makeObjectExec] *)
Definition makeObjectExec (typeName : string) (fields : list FieldDefinition)
    (possibleTypes : list tyref) (nonNull : bool) (resolverType : rtype) : M loc :=
  if negb nonNull && negb (bool_decide (Kind_ env resolverType = KPointer))
     && negb (bool_decide (Kind_ env resolverType = KInterface))
  then fail (rtype_String resolverType +:+ " is not a pointer or interface")
  else
    let methodHasReceiver := negb (bool_decide (Kind_ env resolverType = KInterface)) in
    rt <- lift (unwrapPtr env resolverType) ;;
    fieldsCount <- lift (fieldCount env fuel rt ∅) ;;
    Fields <- makeObjectExec_fields typeName resolverType rt methodHasReceiver
                fieldsCount fields ∅ ;;
    typeAssertions <-
      (if negb useFieldResolvers
          || negb (bool_decide (Kind_ env resolverType = KInterface))
       then makeObjectExec_assertions typeName resolverType methodHasReceiver
              possibleTypes ∅
       else ret ∅) ;;
    alloc (CObject (mkObject typeName Fields typeAssertions)).

(** [makeExec] *)
Definition makeExec (t : tyref) (resolverType : rtype) : M Resolvable :=
  let '(t, nonNull) := unwrapNonNull schema t in
  match sTypes schema !! t with
  | Some (ObjectTypeDefinition name fields) =>
      p <- makeObjectExec name fields [] nonNull resolverType ;; ret (RObject p)
  | Some (InterfaceTypeDefinition name fields possibleTypes) =>
      p <- makeObjectExec name fields possibleTypes nonNull resolverType ;;
      ret (RObject p)
  | Some (Union name unionMemberTypes) =>
      p <- makeObjectExec name [] unionMemberTypes nonNull resolverType ;;
      ret (RObject p)
  | node =>
      resolverType <-
        (if negb nonNull then
           if negb (bool_decide (Kind_ env resolverType = KPointer)) then
             fail (rtype_String resolverType +:+ " is not a pointer")
           else lift (Elem env resolverType)
         else ret resolverType) ;;
      match node with
      | Some (ScalarTypeDefinition name) => makeScalarExec name resolverType
      | Some (EnumTypeDefinition _) => p <- alloc CScalar ;; ret (RScalar p)
      | Some (List ofType) =>
          if negb (bool_decide (Kind_ env resolverType = KSlice)) then
            fail (rtype_String resolverType +:+ " is not a slice")
          else
            e <- alloc (CList RNil) ;;
            elem <- lift (Elem env resolverType) ;;
            assignExec e ofType elem ;;;
            ret (RList e)
      | _ => panic ("invalid type: " +:+ typeString schema t)
      end
  end.

End WithAssign.

Definition getEntry (k : typePair) : M (option resMapEntry) :=
  fun st => Ok (lookupEntry k (resMap st), st).

Definition newEntry (k : typePair) : M unit :=
  fun st => Ok (tt, mkState (heap st) (resMap st ++ [(k, mkEntry RNil [])])%list
                      (packerLog st)).

Definition modifyEntry (k : typePair) (f : resMapEntry -> resMapEntry) : M unit :=
  fun st => Ok (tt, mkState (heap st) (updateEntry k f (resMap st)) (packerLog st)).

(** [assignExec].  The entry [ref] points to is the one stored under [k]:
    entries are never removed or replaced. *)
Fixpoint assignExec (fuel : nat) (target : loc) (t : tyref) (resolverType : rtype)
    : M unit :=
  match fuel with
  | O => outOfFuel
  | S fuel' =>
      let k : typePair := (t, resolverType) in
      ref <- getEntry k ;;
      (match ref with
       | None =>
           newEntry k ;;;
           e <- makeExec (assignExec fuel') fuel' t resolverType ;;
           modifyEntry k (fun r => mkEntry e (targets r))
       | Some _ => ret tt
       end) ;;;
      modifyEntry k (fun r => mkEntry (exec r) (targets r ++ [target])%list)
  end.

(** [*target = entry.exec] for every target of one entry *)
Definition patch (h : list Cell) (e : resMapEntry) : list Cell :=
  foldl (fun h target => alter (setSlot (exec e)) target h) h (targets e).

Variable packerFinish : list StructPacker -> option string.

(** [finish] *)
Definition finish : M unit :=
  fun st =>
    let h := foldl (fun h ke => patch h (snd ke)) (heap st) (resMap st) in
    match packerFinish (packerLog st) with
    | Some e => Err e
    | None => Ok (tt, mkState h (resMap st) (packerLog st))
    end.

End Builder.

(** ** Directive validation *)

(** [applyDirectives], the loop over the supplied implementations; [%T]
    prints the implementation's type. *)
Fixpoint applyDirectives_visitors (visitors : list Directive)
    (byName : gmap string Directive) : result (gmap string Directive) :=
  match visitors with
  | [] => Ok byName
  | v :: rest =>
      let name := ImplementsDirective v in
      match byName !! name with
      | Some existing =>
          Err ("multiple implementations registered for directive " +:+ quote name
                 +:+ ". Implementation types " +:+ rtype_String (d_Type existing)
                 +:+ " and " +:+ rtype_String (d_Type v))
      | None =>
          if negb (isResolverInterceptor v) then
            Err ("directive " +:+ quote name +:+ " (implemented by "
                   +:+ rtype_String (d_Type v)
                   +:+ ") does not implement a valid directive visitor function")
          else applyDirectives_visitors rest (<[name := v]> byName)
      end
  end.

Definition isSpecialDirective (name : string) : bool :=
  bool_decide (name = "include") || bool_decide (name = "skip")
  || bool_decide (name = "deprecated") || bool_decide (name = "specifiedBy").

Definition acceptedType (def : DirectiveDefinition) : bool :=
  existsb (fun l => bool_decide (l = "FIELD_DEFINITION")) (dd_Locations def).

(** [applyDirectives], the loop over the directives the schema declares. *)
Fixpoint applyDirectives_declared (defs : list (string * DirectiveDefinition))
    (byName : gmap string Directive) : result unit :=
  match defs with
  | [] => Ok tt
  | (name, def) :: rest =>
      if negb (acceptedType def) then applyDirectives_declared rest byName
      else
        match byName !! name with
        | None =>
            if isSpecialDirective name then applyDirectives_declared rest byName
            else Err ("no visitors have been registered for directive " +:+ quote name)
        | Some _ => applyDirectives_declared rest byName
        end
  end.

(** [applyDirectives] *)
Definition applyDirectives (s : Schema) (visitors : list Directive)
    : result (gmap string Directive) :=
  byName <~ applyDirectives_visitors visitors ∅ ;;
  _ <~ applyDirectives_declared (sDirectives s) byName ;;
  Ok byName.

(** ** The root binder *)

Definition Query : string := "Query".
Definition Mutation : string := "Mutation".
Definition Subscription : string := "Subscription".

(** A non-nil resolver value: its dynamic type, and for a method name the
    outcome of calling that method without arguments: [None] when the result
    is nil, [Some t] when it is not, [t] being the dynamic type of the value
    an interface result holds. *)
Record ResolverValue : Type := mkResolver {
  rv_Type : rtype;
  rv_Call : string -> option rtype;
}.

(** The value stored in [resolvers[op]]: the supplied resolver, or the result
    of its method [op], of type [t]. *)
Inductive RoleResolver : Type :=
| Supplied
| Returned (op : string) (t : rtype).

Record ResolvableSchema (Meta : Type) : Type := mkResolvableSchema {
  rs_Meta : Meta;
  rs_Schema : Schema;
  rs_Query : Resolvable;
  rs_Mutation : Resolvable;
  rs_Subscription : Resolvable;
  rs_QueryResolver : option RoleResolver;
  rs_MutationResolver : option RoleResolver;
  rs_SubscriptionResolver : option RoleResolver;
  rs_heap : list Cell;
}.
Arguments mkResolvableSchema {Meta}.
Arguments rs_Meta {Meta}.
Arguments rs_Schema {Meta}.
Arguments rs_Query {Meta}.
Arguments rs_Mutation {Meta}.
Arguments rs_Subscription {Meta}.
Arguments rs_QueryResolver {Meta}.
Arguments rs_MutationResolver {Meta}.
Arguments rs_SubscriptionResolver {Meta}.
Arguments rs_heap {Meta}.

Section Root.
Variable env : TypeEnv.
Variable packerError : list InputValueDefinition -> rtype -> option string.
Variable packerFinish : list StructPacker -> option string.
(** [newMeta] belongs to the package but not to the files modelled: what
    it returns, and whether it returns, is left open. *)
Variable Meta : Type.
Variable newMeta : Schema -> outcome Meta.

(** [rv.MethodByName(op)]: the method's type no longer has the receiver. *)
Definition MethodByName (t : rtype) (op : string) : option Method :=
  match find (fun m => bool_decide (m_Name m = op)) (methodsOf env t) with
  | Some m =>
      Some (mkMethod (m_Name m)
              (if decide (Kind_ env t = KInterface) then m_In m else tail (m_In m))
              (m_Out m))
  | None => None
  end.

(** [ApplyResolver], the body of the loop over the three operations: the
    value left in [resolvers[op]]. *)
Definition rootResolver (resolver : ResolverValue) (op : string) : result RoleResolver :=
  let rvType := rtype_String (rv_Type resolver) in
  match MethodByName (rv_Type resolver) op with
  | Some m =>
      if negb (bool_decide (length (m_In m) = 0)) then
        Err ("method " +:+ quote op +:+ " of " +:+ rvType
               +:+ " must not accept any arguments, got " +:+ pretty (length (m_In m)))
      else if negb (bool_decide (length (m_Out m) = 1)) then
        Err ("method " +:+ quote op +:+ " of " +:+ rvType
               +:+ " must have 1 return value, got " +:+ pretty (length (m_Out m)))
      else
        match m_Out m with
        | ot :: _ =>
            if negb (bool_decide (Kind_ env ot = KPointer))
               && negb (bool_decide (Kind_ env ot = KInterface))
            then Err ("method " +:+ quote op +:+ " of " +:+ rvType
                        +:+ " must return an interface or a pointer, got "
                        +:+ rtype_String ot)
            else
              match rv_Call resolver op with
              | None =>
                  Err ("method " +:+ quote op +:+ " of " +:+ rvType
                         +:+ " must return a non-nil result, got <nil>")
              | Some dyn =>
                  match Kind_ env ot with
                  | KPointer => e <~ Elem env ot ;; Ok (Returned op (TPtr e))
                  | KInterface => Ok (Returned op dyn)
                  | _ => Panic "ureachable"
                  end
              end
        | [] => Panic "reflect: Function index out of bounds"
        end
  | None => Ok Supplied
  end.

(** [reflect.TypeOf(resolvers[op])] *)
Definition TypeOf (resolver : ResolverValue) (r : RoleResolver) : rtype :=
  match r with
  | Supplied => rv_Type resolver
  | Returned _ t => t
  end.

Definition emptyState : State := mkState [] [] [].

(** [ApplyResolver], from [newBuilder] to [finish]: the three local
    variables live at addresses 0, 1 and 2. *)
Definition bindRoots (s : Schema) (ds : gmap string Directive)
    (useFieldResolvers : bool) (fuel : nat) (resolver : ResolverValue)
    (q m sub : RoleResolver) : M (loc * loc * loc) :=
  let assign := assignExec env s ds useFieldResolvers packerError fuel in
  query <- alloc (CVar RNil) ;;
  mutation <- alloc (CVar RNil) ;;
  subscription <- alloc (CVar RNil) ;;
  (match RootOperationTypes s !! "query" with
   | Some t => assign query t (TypeOf resolver q)
   | None => ret tt
   end) ;;;
  (match RootOperationTypes s !! "mutation" with
   | Some t => assign mutation t (TypeOf resolver m)
   | None => ret tt
   end) ;;;
  (match RootOperationTypes s !! "subscription" with
   | Some t => assign subscription t (TypeOf resolver sub)
   | None => ret tt
   end) ;;;
  finish packerFinish ;;;
  ret (query, mutation, subscription).

Definition readVar (h : list Cell) (p : loc) : Resolvable :=
  match h !! p with
  | Some (CVar v) => v
  | _ => RNil
  end.

(** [ApplyResolver]; [None] is the nil resolver. *)
Definition ApplyResolver (s : Schema) (resolver : option ResolverValue)
    (dirVisitors : list Directive) (useFieldResolvers : bool) (fuel : nat)
    : result (ResolvableSchema Meta) :=
  match resolver with
  | None =>
      meta <~ call (newMeta s) ;;
      Ok (mkResolvableSchema meta s RNil RNil RNil None None None [])
  | Some resolver =>
      ds <~ applyDirectives s dirVisitors ;;
      q <~ rootResolver resolver Query ;;
      m <~ rootResolver resolver Mutation ;;
      sub <~ rootResolver resolver Subscription ;;
      bound <~ bindRoots s ds useFieldResolvers fuel resolver q m sub emptyState ;;
      let '((query, mutation, subscription), st) := bound in
      meta <~ call (newMeta s) ;;
      Ok (mkResolvableSchema meta s
            (readVar (heap st) query)
            (readVar (heap st) mutation)
            (readVar (heap st) subscription)
            (Some q) (Some m) (Some sub) (heap st))
  end.

End Root.

(** ** Vocabulary for the statements about root operations *)

(** The key of [s.RootOperationTypes] that belongs to a role. *)
Definition roleKey (op : string) : string :=
  if bool_decide (op = Query) then "query"
  else if bool_decide (op = Mutation) then "mutation"
  else "subscription".

(** The address of the local variable that receives a role's tree. *)
Definition roleVar (op : string) : loc :=
  if bool_decide (op = Query) then 0
  else if bool_decide (op = Mutation) then 1
  else 2.

Definition roleResolver {Meta} (op : string) (rs : ResolvableSchema Meta)
    : option RoleResolver :=
  if bool_decide (op = Query) then rs_QueryResolver rs
  else if bool_decide (op = Mutation) then rs_MutationResolver rs
  else rs_SubscriptionResolver rs.

(** The state in which [ApplyResolver] starts to bind the roots. *)
Definition rootsState : State := mkState [CVar RNil; CVar RNil; CVar RNil] [] [].

(** A declared directive that needs an implementation and has none. *)
Definition unimplemented (byName : gmap string Directive)
    (d : string * DirectiveDefinition) : bool :=
  acceptedType (snd d) && negb (isSpecialDirective (fst d))
  && bool_decide (byName !! fst d = None).

(** The four ways in which a role method is malformed. *)
Definition malformedRootMethod (env : TypeEnv) (resolver : ResolverValue) (op : string)
    (m : Method) : Prop :=
  length (m_In m) ≠ 0
  ∨ length (m_Out m) ≠ 1
  ∨ (∃ ot, m_Out m = [ot] ∧ Kind_ env ot ≠ KPointer ∧ Kind_ env ot ≠ KInterface)
  ∨ rv_Call resolver op = None.

(** ** Vocabulary for the statements about the builder's state *)

(** Every [*Resolvable] the builder has recorded for patching. *)
Definition allTargets (m : list (typePair * resMapEntry)) : list loc :=
  concat (map (fun ke => targets (snd ke)) m).

(** A recorded target is the address of a cell with a [Resolvable] slot, and
    no address is recorded twice. *)
Record wf (st : State) : Prop := mkWf {
  wf_targets : NoDup (allTargets (resMap st));
  wf_slots : ∀ tg, tg ∈ allTargets (resMap st) →
             ∃ c, heap st !! tg = Some c ∧ is_Some (slot c);
}.

(** A target that may be handed to [assignExec]: the address of a cell with a
    slot that is not yet recorded. *)
Definition fresh (target : loc) (st : State) : Prop :=
  (∃ c, heap st !! target = Some c ∧ is_Some (slot c))
  ∧ target ∉ allTargets (resMap st).

(** How a state evolves while the builder runs: cells are only added, keys
    are only added, and a newly recorded target is one of [extra] or the
    address of a cell added since. *)
Record ext (extra : list loc) (st st' : State) : Prop := mkExt {
  ext_heap : heap st `prefix_of` heap st';
  ext_keys : ∀ k, is_Some (lookupEntry k (resMap st)) →
             is_Some (lookupEntry k (resMap st'));
  ext_targets : ∀ tg, tg ∈ allTargets (resMap st') →
                tg ∈ allTargets (resMap st) ∨ tg ∈ extra ∨ (length (heap st) ≤ tg)%nat;
}.

(** The type nodes a node refers to. *)
Definition children (n : TypeNode) : list tyref :=
  match n with
  | ObjectTypeDefinition _ fields => map fd_Type fields
  | InterfaceTypeDefinition _ fields possibleTypes =>
      (map fd_Type fields ++ possibleTypes)%list
  | Union _ unionMemberTypes => unionMemberTypes
  | List ofType | NonNull ofType => [ofType]
  | _ => []
  end.

(** [TS] contains, with a type reference, the references of its node. *)
Definition closedTypes (s : Schema) (TS : list tyref) : bool :=
  forallb (fun t =>
             match sTypes s !! t with
             | Some n => forallb (fun c => bool_decide (c ∈ TS)) (children n)
             | None => true
             end) TS.

(** [RS] contains, with a resolver type, its element type, the result types
    of its methods and the types of its fields. *)
Definition closedResolverTypes (env : TypeEnv) (RS : list rtype) : bool :=
  forallb (fun rt =>
             match Elem env rt with
             | Ok e => bool_decide (e ∈ RS)
             | _ => true
             end
             && forallb (fun m => forallb (fun o => bool_decide (o ∈ RS)) (m_Out m))
                  (methodsOf env rt)
             && match Fields_ env rt with
                | Ok fs => forallb (fun f => bool_decide (sf_Type f ∈ RS)) fs
                | _ => true
                end) RS.

(** Structs are embedded in [t] to a depth below [n]. *)
Fixpoint embedsWithin (env : TypeEnv) (n : nat) (t : rtype) : bool :=
  match n with
  | O => false
  | S n' =>
      match Fields_ env t with
      | Ok fs =>
          forallb (fun f => negb (isEmbeddedStruct env f)
                            || embedsWithin env n' (sf_Type f)) fs
      | _ => true
      end
  end.

(** The pairs of [TS] and [RS] not yet in the memoisation map. *)
Definition missing (TS : list tyref) (RS : list rtype) (st : State) : nat :=
  length (filter (fun k => lookupEntry k (resMap st) = None) (list_prod TS RS)).

(** The statements below are proved once for two readings, selected by
    [oof]: with [oof := True] running out of fuel is allowed and nothing is
    assumed about [TS], [RS] and [d]; with [oof := False] it is excluded, for
    fuel above [missing TS RS st + d]. *)
Definition enough (oof : Prop) (TS : list tyref) (RS : list rtype) (d n : nat)
    (st : State) : Prop :=
  oof ∨ (missing TS RS st + d < n)%nat.

Definition inTypes (oof : Prop) (TS : list tyref) (t : tyref) : Prop :=
  oof ∨ t ∈ TS.

Definition inResolverTypes (oof : Prop) (RS : list rtype) (rt : rtype) : Prop :=
  oof ∨ rt ∈ RS.

(** What a step of the builder, started in a state that extends [st0],
    leaves behind. *)
Definition good {A} (oof : Prop) (TS : list tyref) (RS : list rtype) (d n : nat)
    (extra : list loc) (st0 : State) (r : result (A * State)) : Prop :=
  match r with
  | Ok (_, st') => wf st' ∧ enough oof TS RS d n st' ∧ ext extra st0 st'
  | OutOfFuel => oof
  | _ => True
  end.

(** The specification [assignExec] meets at fuel [n]. *)
Definition assignSpec (oof : Prop) (TS : list tyref) (RS : list rtype) (d n : nat)
    (rec : loc → tyref → rtype → M unit) : Prop :=
  ∀ target t rt st,
    wf st → enough oof TS RS d n st → inTypes oof TS t → inResolverTypes oof RS rt →
    fresh target st →
    good oof TS RS d n [target] st (rec target t rt st).

(** A step that changes neither heap nor memoisation map. *)
Definition sameShape (st st' : State) : Prop :=
  heap st' = heap st ∧ resMap st' = resMap st.

(** ** Examples

    The examples name their types, methods and fields in ASCII.  For the
    Unicode part of their environments they take the ASCII functions, which
    no comparison of two ASCII names reaches. *)

(** ** Example: a type that refers to itself

    [type Query { self: Query, name: String! }] bound to [*R] with the
    methods [Name() string] and [Self() *R]. *)
Module SelfRef.

Definition R : rtype := TNamed "R".

Definition env : TypeEnv :=
  mkTypeEnv
    (fun n => if bool_decide (n = "R") then KStruct
              else if bool_decide (n = "string") then KString else KInt)
    (fun _ => None)
    (fun _ => [])
    (fun t => if bool_decide (t = TPtr R)
              then [mkMethod "Name" [TPtr R] [stringType];
                    mkMethod "Self" [TPtr R] [TPtr R]]
              else [])
    (fun _ => None)
    lowerASCII equalFoldASCII.

Definition schema : Schema :=
  mkSchema
    [ObjectTypeDefinition "Query" [mkFieldDef "self" [] 0 []; mkFieldDef "name" [] 2 []];
     ScalarTypeDefinition "String";
     NonNull 1]
    {["query" := 0]}
    [].

Definition resolver : ResolverValue := mkResolver (TPtr R) (fun _ => None).

Definition noPackerError : list InputValueDefinition → rtype → option string :=
  fun _ _ => None.
Definition packerFinishes : list StructPacker → option string := fun _ => None.

Definition TS : list tyref := [0; 1; 2].
Definition RS : list rtype := [TPtr R; R; stringType].

End SelfRef.

(** ** Example: a field without arguments on a method without parameters

    [hello: String!] bound to [func (r *R) Hello() string]. *)
Module Hello.

Definition R : rtype := TNamed "R".

Definition Hello : Method := mkMethod "Hello" [TPtr R] [stringType].

Definition env : TypeEnv :=
  mkTypeEnv
    (fun n => if bool_decide (n = "R") then KStruct
              else if bool_decide (n = "string") then KString else KInt)
    (fun _ => None)
    (fun _ => [])
    (fun t => if bool_decide (t = TPtr R) then [Hello] else [])
    (fun _ => None)
    lowerASCII equalFoldASCII.

Definition hello : FieldDefinition := mkFieldDef "hello" [] 2 [].

Definition schema : Schema :=
  mkSchema
    [ObjectTypeDefinition "Query" [hello]; ScalarTypeDefinition "String"; NonNull 1]
    {["query" := 0]}
    [].

Definition noPackerError : list InputValueDefinition → rtype → option string :=
  fun _ _ => None.

End Hello.

(** ** Example: a method with a context, arguments and an error result

    [greet(name: String!): String!] bound to
    [func (r *R) Greet(ctx context.Context, args struct{ Name string }) (string, error)]. *)
Module Greet.

Definition R : rtype := TNamed "R".
Definition Args : rtype := TNamed "struct { Name string }".

Definition Greet : Method :=
  mkMethod "Greet" [TPtr R; contextType; Args] [stringType; errorType].

Definition env : TypeEnv :=
  mkTypeEnv
    (fun n => if bool_decide (n = "string") then KString
              else if bool_decide (n = "context.Context") then KInterface
              else if bool_decide (n = "error") then KInterface else KStruct)
    (fun _ => None)
    (fun n => if bool_decide (n = "struct { Name string }")
              then [mkStructField "Name" stringType false] else [])
    (fun t => if bool_decide (t = TPtr R) then [Greet] else [])
    (fun _ => None)
    lowerASCII equalFoldASCII.

Definition greet : FieldDefinition :=
  mkFieldDef "greet" [mkInputValue "name" 2] 2 [].

Definition schema : Schema :=
  mkSchema
    [ObjectTypeDefinition "Query" [greet]; ScalarTypeDefinition "String"; NonNull 1]
    {["query" := 0]}
    [].

Definition noPackerError : list InputValueDefinition → rtype → option string :=
  fun _ _ => None.

End Greet.

(** The outcome of the checks of [makeFieldExec] on a method's results, once
    its parameters are accepted. *)
Definition checkedReturns (m : Method) (p : option StructPacker) (hasContext : bool)
    (st : State) : result (option StructPacker * bool * bool * State) :=
  match m_Out m with
  | [] => Err "too few return values"
  | [_] => Ok ((p, false, hasContext), st)
  | [_; o2] =>
      if decide (o2 = errorType) then Ok ((p, true, hasContext), st)
      else Err ("must have " +:+ quote "error" +:+ " as its last return value")
  | _ => Err "too many return values"
  end.

(** ** Example: an interface with one possible type

    [interface Node] with the possible type [User], bound to [*NodeR] with
    the method [ToUser], which returns a [*UserR] and a [bool], and to
    [*Other], which has no methods. *)
Module Poly.

Definition NodeR : rtype := TNamed "NodeR".
Definition UserR : rtype := TNamed "UserR".
Definition Other : rtype := TNamed "Other".

Definition ToUser : Method := mkMethod "ToUser" [TPtr NodeR] [TPtr UserR; boolType].

Definition env : TypeEnv :=
  mkTypeEnv
    (fun n => if bool_decide (n = "bool") then KBool else KStruct)
    (fun _ => None)
    (fun _ => [])
    (fun t => if bool_decide (t = TPtr NodeR) then [ToUser] else [])
    (fun _ => None)
    lowerASCII equalFoldASCII.

Definition schema : Schema :=
  mkSchema
    [InterfaceTypeDefinition "Node" [] [1]; ObjectTypeDefinition "User" []]
    {["query" := 1]}
    [].

Definition noPackerError : list InputValueDefinition → rtype → option string :=
  fun _ _ => None.

End Poly.

(** ** Vocabulary for the statements about data members *)

(** The data members of a struct: its fields and, in place of a struct
    embedded by value, that struct's data members. *)
Fixpoint dataMembers (env : TypeEnv) (fuel : nat) (t : rtype) : list StructField :=
  match fuel with
  | O => []
  | S fuel' =>
      match Fields_ env t with
      | Ok fs =>
          flat_map (fun f => if isEmbeddedStruct env f
                             then dataMembers env fuel' (sf_Type f) else [f]) fs
      | _ => []
      end
  end.

(** The name under which [fieldCount] counts a member or looks up a field. *)
Definition normalized (env : TypeEnv) (name : string) : string :=
  ToLower env (stripUnderscore name).

(** The data members whose normalized name is [key]. *)
Definition matching (env : TypeEnv) (fuel : nat) (t : rtype) (key : string)
    : list StructField :=
  filter (fun f => normalized env (sf_Name f) = key) (dataMembers env fuel t).

(** The methods of [t] have ASCII names. *)
Definition asciiMethods (env : TypeEnv) (t : rtype) : bool :=
  forallb (fun m => isASCII (m_Name m)) (methodsOf env t).

(** The fields of the struct [t] have ASCII names, and so have the fields of
    the structs it embeds by value. *)
Fixpoint asciiFields (env : TypeEnv) (fuel : nat) (t : rtype) : bool :=
  match fuel with
  | O => true
  | S fuel' =>
      match Fields_ env t with
      | Ok fs =>
          forallb (fun f => isASCII (sf_Name f)
                            && (negb (isEmbeddedStruct env f)
                                || asciiFields env fuel' (sf_Type f))) fs
      | _ => true
      end
  end.

(** ** Example: a data member of an embedded struct

    [type R struct { Inner }] with [type Inner struct { Name string }], and
    [type R2 struct { Inner2 }] with [type Inner2 struct { Name int64 }];
    the schema field is [name: String!]. *)
Module Embedded.

Definition R : rtype := TNamed "R".
Definition Inner : rtype := TNamed "Inner".
Definition R2 : rtype := TNamed "R2".
Definition Inner2 : rtype := TNamed "Inner2".
Definition int64Type : rtype := TNamed "int64".

Definition env : TypeEnv :=
  mkTypeEnv
    (fun n => if bool_decide (n ∈ ["R"; "Inner"; "R2"; "Inner2"]) then KStruct
              else if bool_decide (n = "string") then KString else KInt64)
    (fun _ => None)
    (fun n => if bool_decide (n = "R") then [mkStructField "Inner" Inner true]
              else if bool_decide (n = "Inner") then [mkStructField "Name" stringType false]
              else if bool_decide (n = "R2") then [mkStructField "Inner2" Inner2 true]
              else if bool_decide (n = "Inner2")
                   then [mkStructField "Name" int64Type false]
              else [])
    (fun _ => [])
    (fun _ => None)
    lowerASCII equalFoldASCII.

Definition name : FieldDefinition := mkFieldDef "name" [] 2 [].

Definition schema : Schema :=
  mkSchema
    [ObjectTypeDefinition "Query" [name]; ScalarTypeDefinition "String"; NonNull 1]
    {["query" := 0]}
    [].

Definition noPackerError : list InputValueDefinition → rtype → option string :=
  fun _ _ => None.

End Embedded.

(** ** Example: scalar types with the unmarshaler capability

    [scalar.ID[string]], and a struct type [NullInt] whose pointer has the
    method [ImplementsGraphQLType], which answers true for the name Int
    only. *)
Module Scalars.

Definition NullInt : rtype := TNamed "NullInt".
Definition int64Type : rtype := TNamed "int64".

Definition env : TypeEnv :=
  mkTypeEnv
    (fun n => if bool_decide (n = "int32") then KInt32
              else if bool_decide (n = "int64") then KInt64
              else if bool_decide (n = "NullInt") then KStruct else KString)
    (fun _ => None)
    (fun _ => [])
    (fun _ => [])
    (fun t => if bool_decide (t = Scalar.ID "string")
              then Some Scalar.ID_ImplementsGraphQLType
              else if bool_decide (t = NullInt)
                   then Some (fun name => bool_decide (name = "Int"))
              else None)
    lowerASCII equalFoldASCII.

End Scalars.

(** ** Example: a role method that returns nil

    [func (r *R) Mutation() *M { return nil }], and a schema without root
    operations that declares [directive @auth on FIELD_DEFINITION]. *)
Module NilMutation.

Definition R : rtype := TNamed "R".
Definition M : rtype := TNamed "M".

Definition env : TypeEnv :=
  mkTypeEnv
    (fun _ => KStruct)
    (fun _ => None)
    (fun _ => [])
    (fun t => if bool_decide (t = TPtr R) then [mkMethod "Mutation" [TPtr R] [TPtr M]]
              else [])
    (fun _ => None)
    lowerASCII equalFoldASCII.

Definition resolver : ResolverValue := mkResolver (TPtr R) (fun _ => None).

Definition schema : Schema := mkSchema [] ∅ [].

Definition auth : string * DirectiveDefinition :=
  ("auth", mkDirectiveDef ["FIELD_DEFINITION"] []).

Definition schemaWithAuth : Schema := mkSchema [] ∅ [auth].

Definition noPackerError : list InputValueDefinition → rtype → option string :=
  fun _ _ => None.
Definition packerFinishes : list StructPacker → option string := fun _ => None.

End NilMutation.

(** ** Example: methods named with underscores and capitals

    [*T] has the methods [FirstName], [First_Name] and [Other], each
    returning a string; that is the order of their names and so the order
    of [Method(i)]. *)
Module Names.

Definition T : rtype := TNamed "T".

Definition env : TypeEnv :=
  mkTypeEnv
    (fun n => if bool_decide (n = "T") then KStruct else KString)
    (fun _ => None)
    (fun _ => [])
    (fun t => if bool_decide (t = TPtr T)
              then [mkMethod "FirstName" [TPtr T] [stringType];
                    mkMethod "First_Name" [TPtr T] [stringType];
                    mkMethod "Other" [TPtr T] [stringType]]
              else [])
    (fun _ => None)
    lowerASCII equalFoldASCII.

End Names.

(** ** Example: an interface as resolver type

    [type Node interface { Name() string }], against the schema type
    [Query { id: String! }]. *)
Module Iface.

Definition Node : rtype := TNamed "Node".

Definition env : TypeEnv :=
  mkTypeEnv
    (fun n => if bool_decide (n = "Node") then KInterface else KString)
    (fun _ => None)
    (fun _ => [])
    (fun t => if bool_decide (t = Node) then [mkMethod "Name" [] [stringType]] else [])
    (fun _ => None)
    lowerASCII equalFoldASCII.

Definition id : FieldDefinition := mkFieldDef "id" [] 2 [].

Definition schema : Schema :=
  mkSchema
    [ObjectTypeDefinition "Query" [id]; ScalarTypeDefinition "String"; NonNull 1]
    {["query" := 0]}
    [].

Definition noPackerError : list InputValueDefinition → rtype → option string :=
  fun _ _ => None.

End Iface.

(** ** Vocabulary for the statements about [makeExec] *)

(** The nodes [makeExec] hands to [makeObjectExec]. *)
Definition objectLike (n : TypeNode) : bool :=
  match n with
  | ObjectTypeDefinition _ _ | InterfaceTypeDefinition _ _ _ | Union _ _ => true
  | _ => false
  end.

Definition isNonNull (n : TypeNode) : bool :=
  match n with NonNull _ => true | _ => false end.

(** ** Example: lists and enums

    [enum Color], [Color!], [[Color!]], [[Color!]!] as nodes 0 to 3. *)
Module Lists.

Definition env : TypeEnv :=
  mkTypeEnv (fun _ => KInt) (fun _ => None) (fun _ => []) (fun _ => []) (fun _ => None)
    lowerASCII equalFoldASCII.

Definition schema : Schema :=
  mkSchema [EnumTypeDefinition "Color"; NonNull 0; List 1; NonNull 2] ∅ [].

Definition intType : rtype := TNamed "int".

Definition noPackerError : list InputValueDefinition → rtype → option string :=
  fun _ _ => None.

End Lists.

(** ** Example: a subscription field that returns a channel

    [type Subscription { tick: String! }] bound to [*S] with the method
    [Tick() <-chan string]; the same method serves [type Query]. *)
Module Ticker.

Definition S : rtype := TNamed "S".

(** The type [<-chan string]. *)
Definition recvChan : rtype := TNamed "<-chan string".

Definition Tick : Method := mkMethod "Tick" [TPtr S] [recvChan].

Definition env : TypeEnv :=
  mkTypeEnv
    (fun n => if bool_decide (n = "S") then KStruct
              else if bool_decide (n = "<-chan string") then KChan else KString)
    (fun n => if bool_decide (n = "<-chan string") then Some stringType else None)
    (fun _ => [])
    (fun t => if bool_decide (t = TPtr S) then [Tick] else [])
    (fun _ => None)
    lowerASCII equalFoldASCII.

Definition tick : FieldDefinition := mkFieldDef "tick" [] 2 [].

Definition schema : Schema :=
  mkSchema
    [ObjectTypeDefinition "Subscription" [tick]; ScalarTypeDefinition "String";
     NonNull 1; ObjectTypeDefinition "Query" [tick]]
    {["subscription" := 0; "query" := 3]}
    [].

Definition noPackerError : list InputValueDefinition → rtype → option string :=
  fun _ _ => None.

End Ticker.

(** ** Example: a directive on a field

    [directive @auth(role: String!) on FIELD_DEFINITION], implemented by
    [*AuthDirective], and the field [secret: String! @auth @deprecated]. *)
Module Auth.

Definition authType : rtype := TPtr (TNamed "AuthDirective").

Definition auth : Directive := mkDirective "auth" true authType.

Definition byName : gmap string Directive := {["auth" := auth]}.

Definition authDef : DirectiveDefinition :=
  mkDirectiveDef ["FIELD_DEFINITION"] [mkInputValue "role" 2].

Definition secret : FieldDefinition :=
  mkFieldDef "secret" [] 2 ["auth"; "deprecated"].

Definition schema : Schema :=
  mkSchema
    [ObjectTypeDefinition "Query" [secret]; ScalarTypeDefinition "String"; NonNull 1]
    {["query" := 0]}
    [("auth", authDef)].

Definition noPackerError : list InputValueDefinition → rtype → option string :=
  fun _ _ => None.

End Auth.

(** ** Vocabulary for the statements about the finished tree *)

(** A [Resolvable] that is nil or points to a node of its own kind. *)
Definition valid (h : list Cell) (r : Resolvable) : Prop :=
  match r with
  | RNil => True
  | RObject p => ∃ o, h !! p = Some (CObject o)
  | RList p => ∃ e, h !! p = Some (CList e)
  | RScalar p => h !! p = Some CScalar
  end.

(** A field node dispatches to a method or to a data member, not both. *)
Definition fieldOK (fld : Field) : Prop :=
  ((0 ≤ f_MethodIndex fld)%Z ∧ f_FieldIndex fld = [])
  ∨ (f_MethodIndex fld = (-1)%Z ∧ f_FieldIndex fld ≠ []).

(** What [makeExec] passes to [makeObjectExec] for a node. *)
Definition objectParts (n : option TypeNode)
    : option (string * list FieldDefinition * list tyref) :=
  match n with
  | Some (ObjectTypeDefinition name fields) => Some (name, fields, [])
  | Some (InterfaceTypeDefinition name fields possibleTypes) =>
      Some (name, fields, possibleTypes)
  | Some (Union name unionMemberTypes) => Some (name, [], unionMemberTypes)
  | _ => None
  end.

(** An object node belongs to an object, interface or union of the schema:
    it has a field node for exactly the names of that type's fields, each
    made from a field of that name, and its type assertions are nodes for
    possible types of it. *)
Definition objectOK (s : Schema) (h : list Cell) (o : Object) : Prop :=
  ∃ (t : tyref) fields possibleTypes,
    objectParts (sTypes s !! t) = Some (o_Name o, fields, possibleTypes)
    ∧ (∀ n, is_Some (o_Fields o !! n) ↔ n ∈ map fd_Name fields)
    ∧ (∀ n fe, o_Fields o !! n = Some fe →
         ∃ fld, h !! fe = Some (CField fld)
                ∧ f_FieldDefinition fld ∈ fields
                ∧ fd_Name (f_FieldDefinition fld) = n
                ∧ f_TypeName fld = o_Name o)
    ∧ (∀ n a, o_TypeAssertions o !! n = Some a →
         (∃ impl, impl ∈ possibleTypes ∧ implName s impl = Ok n)
         ∧ ∃ ta, h !! a = Some (CTypeAssertion ta)).

Definition cellOK (s : Schema) (h : list Cell) (c : Cell) : Prop :=
  match c with
  | CObject o => objectOK s h o
  | CField fld => fieldOK fld ∧ valid h (f_ValueExec fld)
  | CList e => valid h e
  | CTypeAssertion a => (0 ≤ ta_MethodIndex a)%Z ∧ valid h (ta_TypeExec a)
  | CVar v => valid h v
  | CScalar => True
  end.

(** The builder's state between two steps: entries without a node belong to
    the pairs [K] under construction; a slot that is not yet recorded as a
    target is one of [X]; nodes and entries point to nodes of their kind. *)
Record built (s : Schema) (K : list typePair) (X : list loc) (st : State) : Prop :=
  mkBuilt {
  built_wf : wf st;
  built_keys : NoDup (map fst (resMap st));
  built_pending : ∀ k e, lookupEntry k (resMap st) = Some e → exec e = RNil → k ∈ K;
  built_slots : ∀ p c, heap st !! p = Some c → is_Some (slot c) →
                p ∈ X ∨ p ∈ allTargets (resMap st);
  built_execs : ∀ k e, lookupEntry k (resMap st) = Some e → valid (heap st) (exec e);
  built_cells : ∀ p c, heap st !! p = Some c → cellOK s (heap st) c;
}.

(** Cells, keys and the targets of an entry are only added. *)
Definition grows (st st' : State) : Prop :=
  heap st `prefix_of` heap st'
  ∧ ∀ k e, lookupEntry k (resMap st) = Some e →
      ∃ e', lookupEntry k (resMap st') = Some e'
            ∧ ∀ tg, tg ∈ targets e → tg ∈ targets e'.

(** The field nodes collected for an object of type [typeName]. *)
Definition fieldsOK (allFields : list FieldDefinition) (typeName : string)
    (h : list Cell) (Fields : gmap string loc) : Prop :=
  ∀ n fe, Fields !! n = Some fe →
    ∃ fld, h !! fe = Some (CField fld)
           ∧ f_FieldDefinition fld ∈ allFields
           ∧ fd_Name (f_FieldDefinition fld) = n
           ∧ f_TypeName fld = typeName.

(** The type assertions collected for an interface or union. *)
Definition assertionsOK (s : Schema) (possibleTypes : list tyref) (h : list Cell)
    (tas : gmap string loc) : Prop :=
  ∀ n a, tas !! n = Some a →
    (∃ impl, impl ∈ possibleTypes ∧ implName s impl = Ok n)
    ∧ ∃ ta, h !! a = Some (CTypeAssertion ta).

(** What [assignExec] keeps. *)
Definition treeSpec (s : Schema) (rec : loc → tyref → rtype → M unit) : Prop :=
  ∀ K X target t rt st st',
    built s K (target :: X) st → fresh target st →
    rec target t rt st = Ok (tt, st') →
    built s K X st' ∧ grows st st'.

(** A heap after some of its slots were assigned: patching keeps the kind
    of every cell, and what an object and a field node say besides their
    slot. *)
Definition patchedFrom (h h' : list Cell) : Prop :=
  ∀ p : loc, h' !! p = h !! p ∨ ∃ r, h' !! p = setSlot r <$> h !! p.

(** One of the three blocks of [ApplyResolver] that bind a root operation. *)
Definition bindRoot (env : TypeEnv) (s : Schema) (ds : gmap string Directive)
    (useFieldResolvers : bool)
    (packerError : list InputValueDefinition → rtype → option string) (fuel : nat)
    (key : string) (target : loc) (rt : rtype) : M unit :=
  match RootOperationTypes s !! key with
  | Some t => assignExec env s ds useFieldResolvers packerError fuel target t rt
  | None => ret tt
  end.

(** The entry of [resolvers] that belongs to a role. *)
Definition roleOf {A} (op : string) (q m sub : A) : A :=
  if bool_decide (op = Query) then q
  else if bool_decide (op = Mutation) then m
  else sub.

(** The dispatch tree of a role in the result of [ApplyResolver]. *)
Definition roleExec {Meta} (op : string) (rs : ResolvableSchema Meta) : Resolvable :=
  if bool_decide (op = Query) then rs_Query rs
  else if bool_decide (op = Mutation) then rs_Mutation rs
  else rs_Subscription rs.

(** ** Example: one type for two root operations

    [schema { query: Query, mutation: Query }] with the types, methods and
    resolver of the example [SelfRef]. *)
Module SharedRoot.

Definition schema : Schema :=
  mkSchema (sTypes SelfRef.schema) {["query" := 0; "mutation" := 0]} [].

End SharedRoot.

(** ** Package scalar: [NewID] and [MarshalJSON]

    [MarshalJSON] quotes the text that [fmt.Sprintf] prints for the value
    with [strconv.AppendQuote].  Neither function is part of the files
    modelled here: the text printed for a value is a parameter, and
    [AppendQuote] is represented on text of bytes below [utf8.RuneSelf], where
    it does not have to decode UTF-8; for other text the model has no
    result. *)
Module ScalarID.

(** [type ID[T any] struct { Value T }] *)
Record ID (T : Type) : Type := mkID { Value : T }.
Arguments mkID {T} Value.
Arguments Value {T} _.

(** [NewID] *)
Definition NewID {T : Type} (v : T) : ID T := mkID v.

Definition backslash : ascii := ascii_of_nat 92.
Definition dquote : ascii := ascii_of_nat 34.

(** [lowerhex[n]] *)
Definition hexDigit (n : nat) : ascii :=
  nth n (list_ascii_of_string "0123456789abcdef") "0"%char.

(** What [strconv.appendEscapedRune] appends for a rune below
    [utf8.RuneSelf], with the double quote as quote character and neither
    [ASCIIonly] nor [graphicOnly] set. *)
Definition appendEscapedRune (c : ascii) : string :=
  let n := nat_of_ascii c in
  if Ascii.eqb c dquote || Ascii.eqb c backslash then
    String backslash (String c EmptyString)
  else if (32 <=? n) && (n <=? 126) then String c EmptyString
  else
    match n with
    | 7 => String backslash "a"
    | 8 => String backslash "b"
    | 12 => String backslash "f"
    | 10 => String backslash "n"
    | 13 => String backslash "r"
    | 9 => String backslash "t"
    | 11 => String backslash "v"
    | _ => String backslash
             (String "x" (String (hexDigit (n / 16))
                            (String (hexDigit (n mod 16)) EmptyString)))
    end.

(** The loop of [strconv.appendQuotedWith]. *)
Fixpoint appendQuoted (s : string) : option string :=
  match s with
  | EmptyString => Some EmptyString
  | String c s' =>
      if 128 <=? nat_of_ascii c then None
      else option_map (fun rest => appendEscapedRune c +:+ rest) (appendQuoted s')
  end.

(** [strconv.AppendQuote(nil, s)] *)
Definition AppendQuote (s : string) : option string :=
  option_map (fun body => String dquote (body +:+ String dquote EmptyString))
    (appendQuoted s).

(** [func (id ID[T]) MarshalJSON() ([]byte, error)]: the bytes; the error is
    always nil.  [format v] is [fmt.Sprintf("%v", v)]. *)
Definition MarshalJSON {T : Type} (format : T → string) (id : ID T) : option string :=
  AppendQuote (format (Value id)).

(** Text that [AppendQuote] copies as it is: printable ASCII without the
    double quote and the backslash. *)
Definition plain (s : string) : bool :=
  forallb (fun c => (32 <=? nat_of_ascii c) && (nat_of_ascii c <=? 126)
                    && negb (Ascii.eqb c dquote) && negb (Ascii.eqb c backslash))
    (list_ascii_of_string s).

Definition printable (c : ascii) : bool :=
  (32 <=? nat_of_ascii c) && (nat_of_ascii c <=? 126).

(** Reading the escapes back; used to show that quoting loses nothing. *)
Definition hexVal (c : ascii) : option nat :=
  (fix find (l : list ascii) (i : nat) : option nat :=
     match l with
     | [] => None
     | d :: l' => if Ascii.eqb c d then Some i else find l' (S i)
     end) (list_ascii_of_string "0123456789abcdef") 0.

Definition unescapeLetter (d : ascii) : option ascii :=
  if Ascii.eqb d dquote then Some dquote
  else if Ascii.eqb d backslash then Some backslash
  else if Ascii.eqb d "a" then Some (ascii_of_nat 7)
  else if Ascii.eqb d "b" then Some (ascii_of_nat 8)
  else if Ascii.eqb d "f" then Some (ascii_of_nat 12)
  else if Ascii.eqb d "n" then Some (ascii_of_nat 10)
  else if Ascii.eqb d "r" then Some (ascii_of_nat 13)
  else if Ascii.eqb d "t" then Some (ascii_of_nat 9)
  else if Ascii.eqb d "v" then Some (ascii_of_nat 11)
  else None.

Fixpoint unescape (q : string) : option string :=
  match q with
  | EmptyString => Some EmptyString
  | String c q' =>
      if Ascii.eqb c backslash then
        match q' with
        | EmptyString => None
        | String d q'' =>
            if Ascii.eqb d "x" then
              match q'' with
              | String h (String l q3) =>
                  match hexVal h, hexVal l with
                  | Some a, Some b =>
                      option_map (String (ascii_of_nat (16 * a + b))) (unescape q3)
                  | _, _ => None
                  end
              | _ => None
              end
            else
              match unescapeLetter d with
              | Some x => option_map (String x) (unescape q'')
              | None => None
              end
        end
      else option_map (String c) (unescape q')
  end.

End ScalarID.

(** * Properties *)

(** ** Scalars *)

Lemma ID_not_primitive T :
  Scalar.ID T ≠ int32Type ∧ Scalar.ID T ≠ float64Type
  ∧ Scalar.ID T ≠ stringType ∧ Scalar.ID T ≠ boolType.
Proof. repeat split; discriminate. Qed.

(** What [makeScalarExec] returns when the switch sets [implementsType]. *)
Lemma makeScalarExec_accept env name rt st :
  makeScalarExec env name rt st =
    (if (if decide (rt = int32Type) then bool_decide (name = "Int")
         else if decide (rt = float64Type) then bool_decide (name = "Float")
         else if decide (rt = stringType) then bool_decide (name = "String")
         else if decide (rt = boolType) then bool_decide (name = "Boolean")
         else match unmarshalerOf env rt with
              | Some f => f name
              | None => false
              end)
     then Ok (RScalar (length (heap st)),
              mkState (heap st ++ [CScalar]) (resMap st) (packerLog st))
     else Err ("can not use " +:+ rtype_String rt +:+ " as " +:+ name)).
Proof.
  unfold makeScalarExec.
  repeat (case_decide; [destruct (bool_decide _); reflexivity|]).
  destruct (unmarshalerOf env rt) as [f|]; [destruct (f name)|]; reflexivity.
Qed.

(** C10: [ID[T].ImplementsGraphQLType(name)] is true exactly when [name] is
    "ID"; so when the capability of [*ID[T]] is that method, a resolver of
    type [ID[T]] binds to a scalar exactly when the scalar is named "ID", and
    binding then yields a fresh [Scalar] node. *)
Theorem ID_binds_only_to_ID env T name st
    (Hcap : unmarshalerOf env (Scalar.ID T) = Some Scalar.ID_ImplementsGraphQLType) :
  (Scalar.ID_ImplementsGraphQLType name = true ↔ name = "ID")
  ∧ (is_Ok (makeScalarExec env name (Scalar.ID T) st) = true ↔ name = "ID")
  ∧ (name = "ID" →
     makeScalarExec env name (Scalar.ID T) st =
       Ok (RScalar (length (heap st)),
           mkState (heap st ++ [CScalar]) (resMap st) (packerLog st)))
  ∧ (name ≠ "ID" →
     makeScalarExec env name (Scalar.ID T) st =
       Err ("can not use " +:+ rtype_String (Scalar.ID T) +:+ " as " +:+ name)).
Proof.
  assert (Hid : Scalar.ID_ImplementsGraphQLType name = true ↔ name = "ID").
  { unfold Scalar.ID_ImplementsGraphQLType. apply bool_decide_eq_true. }
  destruct (ID_not_primitive T) as (H1 & H2 & H3 & H4).
  rewrite makeScalarExec_accept.
  repeat (case_decide; [congruence|]).
  rewrite Hcap.
  split; [exact Hid|].
  destruct (Scalar.ID_ImplementsGraphQLType name) eqn:E.
  - assert (name = "ID") by (apply Hid; reflexivity).
    repeat split; try tauto; try congruence.
  - assert (name ≠ "ID") by (intros Hn; apply Hid in Hn; congruence).
    repeat split; simpl; try tauto; try congruence.
Qed.

(** C2 (amended): a built-in scalar name binds to its own host type; any
    other resolver type binds exactly when it is none of the four host
    primitives and its unmarshaler capability answers true for the scalar's
    name.  A type without that capability, such as a 64-bit integer, fails,
    and the error names the resolver type and the scalar. *)
Theorem builtin_scalar_binding env name host rt st
    (Hbuiltin : (name, host) ∈ [("Int", int32Type); ("Float", float64Type);
                                ("String", stringType); ("Boolean", boolType)]) :
  makeScalarExec env name host st =
    Ok (RScalar (length (heap st)),
        mkState (heap st ++ [CScalar])%list (resMap st) (packerLog st))
  ∧ (rt ≠ host →
     makeScalarExec env name rt st =
       if bool_decide (rt ∉ [int32Type; float64Type; stringType; boolType])
          && match unmarshalerOf env rt with
             | Some ImplementsGraphQLType => ImplementsGraphQLType name
             | None => false
             end
       then Ok (RScalar (length (heap st)),
                mkState (heap st ++ [CScalar])%list (resMap st) (packerLog st))
       else Err ("can not use " +:+ rtype_String rt +:+ " as " +:+ name))
  ∧ (rt ≠ host → unmarshalerOf env rt = None →
     makeScalarExec env name rt st =
       Err ("can not use " +:+ rtype_String rt +:+ " as " +:+ name)).
Proof.
  assert (Hcases : (name = "Int" ∧ host = int32Type) ∨ (name = "Float" ∧ host = float64Type)
                   ∨ (name = "String" ∧ host = stringType)
                   ∨ (name = "Boolean" ∧ host = boolType)).
  { repeat (apply elem_of_cons in Hbuiltin as [Hbuiltin|Hbuiltin];
            [inversion Hbuiltin; tauto|]).
    inversion Hbuiltin. }
  assert (Hmain : rt ≠ host →
     makeScalarExec env name rt st =
       if bool_decide (rt ∉ [int32Type; float64Type; stringType; boolType])
          && match unmarshalerOf env rt with
             | Some f => f name
             | None => false
             end
       then Ok (RScalar (length (heap st)),
                mkState (heap st ++ [CScalar])%list (resMap st) (packerLog st))
       else Err ("can not use " +:+ rtype_String rt +:+ " as " +:+ name)).
  { intros Hne. rewrite makeScalarExec_accept.
    destruct (decide (rt ∈ [int32Type; float64Type; stringType; boolType])) as [Hin|Hout].
    - rewrite (bool_decide_eq_false_2 (rt ∉ _)) by (intros Hn; exact (Hn Hin)). simpl.
      destruct Hcases as [[-> ->]|[[-> ->]|[[-> ->]|[-> ->]]]];
        repeat (apply elem_of_cons in Hin as [->|Hin];
                [first [congruence | reflexivity]|]);
        inversion Hin.
    - rewrite (bool_decide_eq_true_2 (rt ∉ _)) by assumption. simpl.
      repeat (case_decide; [subst rt; exfalso; apply Hout; rewrite !elem_of_cons; tauto|]).
      reflexivity. }
  split; [|split].
  - rewrite makeScalarExec_accept.
    destruct Hcases as [[-> ->]|[[-> ->]|[[-> ->]|[-> ->]]]]; reflexivity.
  - exact Hmain.
  - intros Hne Hnone. rewrite (Hmain Hne), Hnone, andb_false_r. reflexivity.
Qed.

(** ** The nil resolver *)



(** ** Directive validation *)

Lemma applyDirectives_visitors_spec visitors (byName : gmap string Directive) :
  match applyDirectives_visitors visitors byName with
  | Ok byName' =>
      NoDup (map ImplementsDirective visitors)
      ∧ Forall (fun v => isResolverInterceptor v = true
                         ∧ byName !! ImplementsDirective v = None) visitors
      ∧ byName' = foldl (fun m v => <[ImplementsDirective v := v]> m) byName visitors
  | Err _ =>
      ¬ (NoDup (map ImplementsDirective visitors)
         ∧ Forall (fun v => isResolverInterceptor v = true
                            ∧ byName !! ImplementsDirective v = None) visitors)
  | _ => False
  end.
Proof.
  revert byName. induction visitors as [|v rest IH]; intros byName; simpl.
  - repeat split; constructor.
  - destruct (byName !! ImplementsDirective v) eqn:Hl.
    { intros [_ HF]. inversion HF as [|? ? [_ Hn] _]. congruence. }
    destruct (isResolverInterceptor v) eqn:Hi; simpl.
    2:{ intros [_ HF]. inversion HF as [|? ? [Hn _] _]. congruence. }
    specialize (IH (<[ImplementsDirective v := v]> byName)).
    destruct (applyDirectives_visitors rest _) as [m'| | |].
    + destruct IH as (Hnd & HF & ->). split; [|split]; [| |reflexivity].
      * constructor; [|assumption].
        intros Hin. apply list_elem_of_fmap in Hin as (w & Hw & Hin).
        rewrite Forall_forall in HF. destruct (HF w Hin) as [_ Hnone].
        rewrite <- Hw, lookup_insert_eq in Hnone. discriminate.
      * constructor; [split; assumption|].
        eapply Forall_impl; [exact HF|]. intros w [Hw1 Hw2]. split; [assumption|].
        destruct (decide (ImplementsDirective v = ImplementsDirective w)) as [E|E].
        -- rewrite <- E, lookup_insert_eq in Hw2. discriminate.
        -- rewrite lookup_insert_ne in Hw2 by assumption. assumption.
    + intros [Hnd HF]. apply IH. inversion Hnd as [|? ? Hnotin Hnd']; subst.
      inversion HF as [|? ? _ HF']; subst. split; [assumption|].
      rewrite Forall_forall in HF' |- *. intros w Hin. destruct (HF' w Hin) as [Hw1 Hw2].
      split; [assumption|].
      rewrite lookup_insert_ne; [assumption|].
      intros E. apply Hnotin. rewrite E. apply list_elem_of_fmap. eauto.
    + assumption.
    + assumption.
Qed.

Lemma applyDirectives_declared_spec defs byName :
  applyDirectives_declared defs byName =
    match find (unimplemented byName) defs with
    | Some d => Err ("no visitors have been registered for directive " +:+ quote (fst d))
    | None => Ok tt
    end.
Proof.
  induction defs as [|[n def] rest IH]; simpl; [reflexivity|].
  unfold unimplemented at 1. simpl.
  destruct (acceptedType def); simpl; [|exact IH].
  destruct (byName !! n) eqn:Hl.
  - rewrite bool_decide_eq_false_2 by congruence. rewrite andb_false_r. exact IH.
  - rewrite bool_decide_eq_true_2 by reflexivity. rewrite andb_true_r.
    destruct (isSpecialDirective n); simpl; [exact IH|reflexivity].
Qed.

Lemma foldl_insert_lookup visitors (byName : gmap string Directive) n :
  (foldl (fun m v => <[ImplementsDirective v := v]> m) byName visitors !! n = None)
  ↔ (byName !! n = None ∧ n ∉ map ImplementsDirective visitors).
Proof.
  revert byName. induction visitors as [|v rest IH]; intros byName; simpl.
  - split; [intros H; split; [assumption|apply not_elem_of_nil]|tauto].
  - rewrite IH. rewrite not_elem_of_cons.
    destruct (decide (ImplementsDirective v = n)) as [->|E].
    + rewrite lookup_insert_eq. split; [intros [H _]; discriminate|tauto].
    + rewrite lookup_insert_ne by assumption. split; intros; intuition congruence.
Qed.

Lemma foldl_insert_keep rest (m : gmap string Directive) w :
  ImplementsDirective w ∉ map ImplementsDirective rest →
  m !! ImplementsDirective w = Some w →
  foldl (fun m v => <[ImplementsDirective v := v]> m) m rest
    !! ImplementsDirective w = Some w.
Proof.
  revert m. induction rest as [|u rest IH]; intros m Hnotin Hm; [exact Hm|].
  simpl. simpl in Hnotin. apply not_elem_of_cons in Hnotin as [Hne Hnotin].
  apply IH; [assumption|].
  rewrite lookup_insert_ne; [assumption|]. congruence.
Qed.

Lemma applyDirectives_valid_visitors s visitors :
  NoDup (map ImplementsDirective visitors) →
  Forall (fun v => isResolverInterceptor v = true) visitors →
  let byName := foldl (fun m v => <[ImplementsDirective v := v]> m) ∅ visitors in
  applyDirectives s visitors =
    match find (unimplemented byName) (sDirectives s) with
    | Some d => Err ("no visitors have been registered for directive " +:+ quote (fst d))
    | None => Ok byName
    end.
Proof.
  intros Hnd HF byName. unfold applyDirectives.
  pose proof (applyDirectives_visitors_spec visitors ∅) as Hv.
  destruct (applyDirectives_visitors visitors ∅) as [m'| | |]; try contradiction.
  - destruct Hv as (_ & _ & ->). simpl. fold byName.
    rewrite applyDirectives_declared_spec.
    destruct (find (unimplemented byName) (sDirectives s)); reflexivity.
  - exfalso. apply Hv. split; [assumption|].
    eapply Forall_impl; [exact HF|]. intros v Hvi. split; [assumption|].
    apply lookup_empty.
Qed.

(** C7: directive validation.  An error of [applyDirectives] is the error of
    [ApplyResolver], whatever the resolver's types are.  Two implementations
    with one name, or an implementation that is no resolver interceptor, make
    it fail.  With valid implementations it fails, naming the directive, as
    soon as the schema declares a directive with location FIELD_DEFINITION
    that has no implementation and is none of include, skip, deprecated,
    specifiedBy; and it succeeds, returning the implementations by name, when
    every declared directive has an implementation, is one of those four, or
    lacks the location FIELD_DEFINITION. *)
Theorem applyDirectives_validation s visitors :
  (∀ env packerError packerFinish Meta (newMeta : Schema → outcome Meta) resolver
     useFieldResolvers fuel e,
     applyDirectives s visitors = Err e →
     ApplyResolver env packerError packerFinish Meta newMeta s (Some resolver)
       visitors useFieldResolvers fuel = Err e)
  ∧ (¬ NoDup (map ImplementsDirective visitors) →
     is_Err (applyDirectives s visitors) = true)
  ∧ ((∃ v, v ∈ visitors ∧ isResolverInterceptor v = false) →
     is_Err (applyDirectives s visitors) = true)
  ∧ (NoDup (map ImplementsDirective visitors) →
     Forall (fun v => isResolverInterceptor v = true) visitors →
     ((∃ d, d ∈ sDirectives s ∧ "FIELD_DEFINITION" ∈ dd_Locations (snd d)
            ∧ (fst d ∉ map ImplementsDirective visitors)
            ∧ (fst d ∉ ["include"; "skip"; "deprecated"; "specifiedBy"])) →
      ∃ d, d ∈ sDirectives s ∧ "FIELD_DEFINITION" ∈ dd_Locations (snd d)
           ∧ (fst d ∉ map ImplementsDirective visitors)
           ∧ (fst d ∉ ["include"; "skip"; "deprecated"; "specifiedBy"])
           ∧ applyDirectives s visitors =
               Err ("no visitors have been registered for directive "
                      +:+ quote (fst d)))
     ∧ ((∀ d, d ∈ sDirectives s → "FIELD_DEFINITION" ∈ dd_Locations (snd d) →
              fst d ∈ map ImplementsDirective visitors
              ∨ fst d ∈ ["include"; "skip"; "deprecated"; "specifiedBy"]) →
        ∃ byName, applyDirectives s visitors = Ok byName
          ∧ (∀ v, v ∈ visitors → byName !! ImplementsDirective v = Some v)
          ∧ (∀ n, n ∉ map ImplementsDirective visitors → byName !! n = None))).
Proof.
  assert (Hacc : ∀ def, acceptedType def = true ↔ "FIELD_DEFINITION" ∈ dd_Locations def).
  { intros def. unfold acceptedType. rewrite existsb_exists. split.
    - intros (l & Hin & Hl). apply bool_decide_eq_true in Hl. subst l.
      apply list_elem_of_In. assumption.
    - intros Hin. exists "FIELD_DEFINITION". split; [apply list_elem_of_In; assumption|].
      apply bool_decide_eq_true. reflexivity. }
  assert (Hspec : ∀ n, isSpecialDirective n = true
                       ↔ n ∈ ["include"; "skip"; "deprecated"; "specifiedBy"]).
  { intros n. unfold isSpecialDirective. rewrite !orb_true_iff, !bool_decide_eq_true.
    rewrite !elem_of_cons. pose proof (not_elem_of_nil n). tauto. }
  assert (Hunimpl : ∀ d,
      unimplemented (foldl (fun m v => <[ImplementsDirective v := v]> m) ∅ visitors) d = true
      ↔ "FIELD_DEFINITION" ∈ dd_Locations (snd d)
        ∧ (fst d ∉ map ImplementsDirective visitors)
        ∧ (fst d ∉ ["include"; "skip"; "deprecated"; "specifiedBy"])).
  { intros d. unfold unimplemented.
    rewrite !andb_true_iff, negb_true_iff, bool_decide_eq_true, foldl_insert_lookup.
    rewrite Hacc, <- Hspec, lookup_empty.
    destruct (isSpecialDirective (fst d)); intuition congruence. }
  split; [|split; [|split]].
  - intros env pe pf Meta newMeta resolver flag fuel e He.
    unfold ApplyResolver. rewrite He. reflexivity.
  - intros Hdup. unfold applyDirectives.
    pose proof (applyDirectives_visitors_spec visitors ∅) as Hv.
    destruct (applyDirectives_visitors visitors ∅); try contradiction; [|reflexivity].
    destruct Hv as [Hnd _]. contradiction.
  - intros (v & Hin & Hv'). unfold applyDirectives.
    pose proof (applyDirectives_visitors_spec visitors ∅) as Hv.
    destruct (applyDirectives_visitors visitors ∅); try contradiction; [|reflexivity].
    destruct Hv as (_ & HF & _). rewrite Forall_forall in HF.
    destruct (HF v Hin). congruence.
  - intros Hnd HF. rewrite (applyDirectives_valid_visitors s visitors Hnd HF).
    split.
    + intros (d & Hin & Hd). 
      destruct (find _ (sDirectives s)) as [d'|] eqn:Hfind.
      * apply find_some in Hfind as [Hin' Hd'].
        exists d'. apply Hunimpl in Hd'. apply list_elem_of_In in Hin'. tauto.
      * exfalso. apply list_elem_of_In in Hin.
        pose proof (find_none _ _ Hfind d Hin) as Hn.
        apply Hunimpl in Hd. congruence.
    + intros Hall.
      destruct (find _ (sDirectives s)) as [d'|] eqn:Hfind.
      * exfalso. apply find_some in Hfind as [Hin' Hd'].
        apply Hunimpl in Hd'. apply list_elem_of_In in Hin'.
        destruct (Hall d' Hin'); tauto.
      * eexists. split; [reflexivity|]. split.
        -- clear Hfind Hall Hunimpl. generalize (∅ : gmap string Directive).
           induction visitors as [|w rest IH]; intros m v Hin; [inversion Hin|].
           simpl. inversion Hnd as [|? ? Hnotin Hnd']; subst.
           inversion HF as [|? ? _ HF']; subst.
           apply elem_of_cons in Hin as [->|Hin].
           ++ apply foldl_insert_keep; [assumption|]. apply lookup_insert_eq.
           ++ apply IH; assumption.
        -- intros n Hn. apply foldl_insert_lookup. split; [apply lookup_empty|assumption].
Qed.

(** ** Root resolvers *)

Lemma ApplyResolver_root_not_ok env packerError packerFinish Meta
    (newMeta : Schema → outcome Meta) s resolver visitors useFieldResolvers fuel op :
  op ∈ [Query; Mutation; Subscription] →
  is_Ok (rootResolver env resolver op) = false →
  is_Ok (ApplyResolver env packerError packerFinish Meta newMeta s (Some resolver)
           visitors useFieldResolvers fuel) = false.
Proof.
  intros Hop Hbad. unfold ApplyResolver.
  destruct (applyDirectives s visitors); simpl; try reflexivity.
  rewrite !elem_of_cons in Hop.
  destruct (rootResolver env resolver Query) eqn:Hq; simpl;
    try reflexivity; [|destruct Hop as [->|Hop]; [rewrite Hq in Hbad; discriminate|]..].
  all: destruct (rootResolver env resolver Mutation) eqn:Hm; simpl; try reflexivity.
  all: try (destruct Hop as [->|Hop]; [rewrite Hm in Hbad; discriminate|]).
  all: destruct (rootResolver env resolver Subscription) eqn:Hs; simpl; try reflexivity.
  all: try (destruct Hop as [->|Hop]; [rewrite Hs in Hbad; discriminate|]).
  all: try (exfalso; revert Hop; apply not_elem_of_nil).
  all: destruct Hop as [->|[->|[->|Hop]]]; try congruence;
    try (rewrite ?Hq, ?Hm, ?Hs in Hbad; discriminate);
    exfalso; revert Hop; apply not_elem_of_nil.
Qed.

Lemma rootResolver_malformed env resolver op m :
  MethodByName env (rv_Type resolver) op = Some m →
  malformedRootMethod env resolver op m →
  is_Err (rootResolver env resolver op) = true.
Proof.
  intros Hm Hbad. unfold rootResolver. rewrite Hm.
  destruct (decide (length (m_In m) = 0)) as [Hin|Hin].
  2:{ rewrite bool_decide_eq_false_2 by assumption. reflexivity. }
  rewrite bool_decide_eq_true_2 by assumption. simpl.
  destruct (decide (length (m_Out m) = 1)) as [Hout|Hout].
  2:{ rewrite bool_decide_eq_false_2 by assumption. reflexivity. }
  rewrite bool_decide_eq_true_2 by assumption. simpl.
  destruct (m_Out m) as [|ot [|? ?]] eqn:Houts; try discriminate.
  destruct (decide (Kind_ env ot = KPointer)) as [Hp|Hp];
    [|destruct (decide (Kind_ env ot = KInterface)) as [Hi|Hi]].
  - rewrite (bool_decide_eq_true_2 _ Hp). simpl.
    destruct (rv_Call resolver op) eqn:Hcall; [|reflexivity].
    exfalso. destruct Hbad as [?|[?|[(ot' & E & Hk & _)|?]]]; congruence.
  - rewrite (bool_decide_eq_false_2 _ Hp), (bool_decide_eq_true_2 _ Hi). simpl.
    destruct (rv_Call resolver op) eqn:Hcall; [|reflexivity].
    exfalso. destruct Hbad as [?|[?|[(ot' & E & _ & Hk)|?]]]; congruence.
  - rewrite (bool_decide_eq_false_2 _ Hp), (bool_decide_eq_false_2 _ Hi). reflexivity.
Qed.

(** C8: the role methods of all three roles are checked, and called, before
    the schema's root operation types are read.  A resolver with a malformed
    [Query], [Mutation] or [Subscription] method makes [ApplyResolver] fail
    for every schema, also one that declares no root operation at all, and
    the outcome does not depend on the root operation types. *)
Theorem malformed_role_method_fails env packerError packerFinish Meta
    (newMeta : Schema → outcome Meta) s resolver visitors useFieldResolvers fuel op m
    (Hop : op ∈ [Query; Mutation; Subscription])
    (Hm : MethodByName env (rv_Type resolver) op = Some m)
    (Hbad : malformedRootMethod env resolver op m) :
  is_Err (rootResolver env resolver op) = true
  ∧ is_Ok (ApplyResolver env packerError packerFinish Meta newMeta s (Some resolver)
             visitors useFieldResolvers fuel) = false
  ∧ ∀ roots,
      ApplyResolver env packerError packerFinish Meta newMeta
        (mkSchema (sTypes s) roots (sDirectives s)) (Some resolver)
        visitors useFieldResolvers fuel
      = ApplyResolver env packerError packerFinish Meta newMeta
          (mkSchema (sTypes s) ∅ (sDirectives s)) (Some resolver)
          visitors useFieldResolvers fuel.
Proof.
  pose proof (rootResolver_malformed env resolver op m Hm Hbad) as Herr.
  assert (Hnok : is_Ok (rootResolver env resolver op) = false).
  { destruct (rootResolver env resolver op); simpl in *; congruence. }
  split; [exact Herr|]. split.
  - apply ApplyResolver_root_not_ok with (op := op); assumption.
  - intros roots. unfold ApplyResolver, applyDirectives. simpl.
    destruct (applyDirectives_visitors visitors ∅); simpl; try reflexivity.
    destruct (applyDirectives_declared (sDirectives s) a); simpl; try reflexivity.
    rewrite !elem_of_cons in Hop.
    destruct (rootResolver env resolver Query) eqn:Hq; simpl; try reflexivity.
    destruct (rootResolver env resolver Mutation) eqn:Hmu; simpl; try reflexivity.
    destruct (rootResolver env resolver Subscription) eqn:Hs; simpl; try reflexivity.
    exfalso. destruct Hop as [->|[->|[->|Hop]]];
      try (rewrite ?Hq, ?Hmu, ?Hs in Hnok; discriminate).
    revert Hop. apply not_elem_of_nil.
Qed.

Lemma rootResolver_no_method env resolver op :
  MethodByName env (rv_Type resolver) op = None →
  rootResolver env resolver op = Ok Supplied.
Proof. intros H. unfold rootResolver. rewrite H. reflexivity. Qed.

Lemma rootResolver_cases env resolver op m :
  MethodByName env (rv_Type resolver) op = Some m →
  let rvType := rtype_String (rv_Type resolver) in
  (length (m_In m) ≠ 0 →
   rootResolver env resolver op =
     Err ("method " +:+ quote op +:+ " of " +:+ rvType
            +:+ " must not accept any arguments, got " +:+ pretty (length (m_In m))))
  ∧ (length (m_In m) = 0 → length (m_Out m) ≠ 1 →
     rootResolver env resolver op =
       Err ("method " +:+ quote op +:+ " of " +:+ rvType
              +:+ " must have 1 return value, got " +:+ pretty (length (m_Out m))))
  ∧ (∀ ot, length (m_In m) = 0 → m_Out m = [ot] →
       (Kind_ env ot ≠ KPointer → Kind_ env ot ≠ KInterface →
        rootResolver env resolver op =
          Err ("method " +:+ quote op +:+ " of " +:+ rvType
                 +:+ " must return an interface or a pointer, got " +:+ rtype_String ot))
       ∧ (Kind_ env ot = KPointer ∨ Kind_ env ot = KInterface →
          rv_Call resolver op = None →
          rootResolver env resolver op =
            Err ("method " +:+ quote op +:+ " of " +:+ rvType
                   +:+ " must return a non-nil result, got <nil>"))
       ∧ (∀ dyn, Kind_ env ot = KInterface → rv_Call resolver op = Some dyn →
            rootResolver env resolver op = Ok (Returned op dyn))
       ∧ (∀ dyn e, Kind_ env ot = KPointer → rv_Call resolver op = Some dyn →
            Elem env ot = Ok e →
            rootResolver env resolver op = Ok (Returned op (TPtr e)))).
Proof.
  intros Hm rvType. unfold rootResolver. rewrite Hm. fold rvType.
  split; [|split].
  - intros Hin. rewrite bool_decide_eq_false_2 by assumption. reflexivity.
  - intros Hin Hout. rewrite bool_decide_eq_true_2 by assumption.
    rewrite bool_decide_eq_false_2 by assumption. reflexivity.
  - intros ot Hin Hout. rewrite bool_decide_eq_true_2 by assumption.
    rewrite Hout. simpl.
    split; [|split; [|split]].
    + intros Hp Hi. rewrite (bool_decide_eq_false_2 _ Hp), (bool_decide_eq_false_2 _ Hi).
      reflexivity.
    + intros [Hk|Hk] Hcall; rewrite Hcall.
      * rewrite (bool_decide_eq_true_2 _ Hk). reflexivity.
      * rewrite (bool_decide_eq_true_2 (_ = KInterface) Hk), andb_false_r. reflexivity.
    + intros dyn Hk Hcall. rewrite Hcall.
      rewrite (bool_decide_eq_true_2 (_ = KInterface) Hk), andb_false_r, Hk. reflexivity.
    + intros dyn e Hk Hcall He. rewrite Hcall.
      rewrite (bool_decide_eq_true_2 _ Hk), Hk, He. reflexivity.
Qed.

Lemma ApplyResolver_first_root_error env packerError packerFinish Meta
    (newMeta : Schema → outcome Meta) s resolver visitors useFieldResolvers fuel op e ds pre post :
  rootResolver env resolver op = Err e →
  applyDirectives s visitors = Ok ds →
  [Query; Mutation; Subscription] = (pre ++ op :: post)%list →
  Forall (fun o => is_Ok (rootResolver env resolver o) = true) pre →
  ApplyResolver env packerError packerFinish Meta newMeta s (Some resolver)
    visitors useFieldResolvers fuel = Err e.
Proof.
  intros He Hds Hsplit Hpre. unfold ApplyResolver. rewrite Hds. simpl.
  destruct pre as [|o1 [|o2 [|o3 pre]]]; simpl in Hsplit.
  - inversion Hsplit; subst. rewrite He. reflexivity.
  - inversion Hsplit; subst. inversion Hpre as [|? ? H1 _]; subst.
    destruct (rootResolver env resolver Query); try discriminate. simpl.
    rewrite He. reflexivity.
  - inversion Hsplit; subst. inversion Hpre as [|? ? H1 Hpre']; subst.
    inversion Hpre' as [|? ? H2 _]; subst.
    destruct (rootResolver env resolver Query); try discriminate. simpl.
    destruct (rootResolver env resolver Mutation); try discriminate. simpl.
    rewrite He. reflexivity.
  - inversion Hsplit as [[E1 E2 E3 E4]]. destruct pre; discriminate.
Qed.

Lemma ApplyResolver_role_resolver env packerError packerFinish Meta
    (newMeta : Schema → outcome Meta) s resolver visitors useFieldResolvers fuel op r rs :
  op ∈ [Query; Mutation; Subscription] →
  rootResolver env resolver op = Ok r →
  ApplyResolver env packerError packerFinish Meta newMeta s (Some resolver)
    visitors useFieldResolvers fuel = Ok rs →
  roleResolver op rs = Some r.
Proof.
  intros Hop Hr. unfold ApplyResolver.
  destruct (applyDirectives s visitors); simpl; try discriminate.
  destruct (rootResolver env resolver Query) eqn:Hq; simpl; try discriminate.
  destruct (rootResolver env resolver Mutation) eqn:Hm; simpl; try discriminate.
  destruct (rootResolver env resolver Subscription) eqn:Hs; simpl; try discriminate.
  destruct (bindRoots _ _ _ _ _ _ _ _ _ _ _ _) as [[[[q mu] su] st]| | |];
    simpl; try discriminate.
  destruct (newMeta s) as [meta|msg]; simpl; [|discriminate].
  intros E. inversion E; subst rs. clear E.
  rewrite !elem_of_cons in Hop.
  destruct Hop as [->|[->|[->|Hop]]]; unfold roleResolver; simpl; try congruence.
  exfalso. revert Hop. apply not_elem_of_nil.
Qed.

(** ** Invariants of the builder *)

Lemma ext_refl X st : ext X st st.
Proof.
  constructor; [reflexivity|tauto|]. intros tg H. left. exact H.
Qed.

Lemma ext_trans X Y st0 st1 st2 :
  ext X st0 st1 → ext Y st1 st2 →
  (∀ y, y ∈ Y → y ∈ allTargets (resMap st0) ∨ y ∈ X ∨ length (heap st0) ≤ y) →
  ext X st0 st2.
Proof.
  intros [Hh1 Hk1 Ht1] [Hh2 Hk2 Ht2] HY. constructor.
  - etransitivity; eassumption.
  - intros k Hk. apply Hk2, Hk1, Hk.
  - intros tg Htg. destruct (Ht2 tg Htg) as [H|[H|H]].
    + apply Ht1, H.
    + apply HY, H.
    + right. right. apply prefix_length in Hh1. lia.
Qed.

Lemma ext_weaken X Y st0 st1 :
  ext X st0 st1 → (∀ x, x ∈ X → x ∈ Y) → ext Y st0 st1.
Proof.
  intros [Hh Hk Ht] HXY. constructor; [assumption|assumption|].
  intros tg Htg. destruct (Ht tg Htg) as [H|[H|H]]; auto.
Qed.

Lemma missing_mono TS RS st st' :
  (∀ k, is_Some (lookupEntry k (resMap st)) → is_Some (lookupEntry k (resMap st'))) →
  missing TS RS st' ≤ missing TS RS st.
Proof.
  intros Hk. unfold missing. generalize (list_prod TS RS) as K.
  induction K as [|k K IH]; [reflexivity|].
  rewrite !filter_cons.
  destruct (decide (lookupEntry k (resMap st') = None)) as [H'|H'];
    destruct (decide (lookupEntry k (resMap st) = None)) as [H|H]; simpl.
  - apply le_n_S, IH.
  - exfalso. destruct (lookupEntry k (resMap st)) eqn:E; [|congruence].
    destruct (Hk k) as [x Hx]; [rewrite E; eauto|]. congruence.
  - apply le_S, IH.
  - apply IH.
Qed.

Lemma enough_ext oof TS RS d n X st st' :
  enough oof TS RS d n st → ext X st st' → enough oof TS RS d n st'.
Proof.
  intros [H|H] Hext; [left; assumption|right].
  pose proof (missing_mono TS RS st st' (ext_keys _ _ _ Hext)). lia.
Qed.

Lemma enough_weaken oof TS RS d n n' st :
  enough oof TS RS d n st → n ≤ n' → enough oof TS RS d n' st.
Proof. intros [H|H] Hle; [left; assumption|right; lia]. Qed.

(** Sequencing: a step that is good from the current state keeps the whole
    run good from its origin. *)
Lemma good_bind {A B} oof TS RS d n X Y st0 st1 (m : M A) (k : A → M B) :
  ext X st0 st1 →
  (∀ y, y ∈ Y → y ∈ allTargets (resMap st0) ∨ y ∈ X ∨ length (heap st0) ≤ y) →
  good oof TS RS d n Y st1 (m st1) →
  (∀ a st2, m st1 = Ok (a, st2) → wf st2 → enough oof TS RS d n st2 →
            ext X st0 st2 → good oof TS RS d n X st0 (k a st2)) →
  good oof TS RS d n X st0 (bind m k st1).
Proof.
  intros Hext HY Hm Hk. unfold bind.
  destruct (m st1) as [[a st2]| | |] eqn:E; simpl in *; try exact I; [|exact Hm].
  destruct Hm as (Hwf & Hen & Hext2).
  apply Hk; try assumption; try reflexivity.
  eapply ext_trans; eassumption.
Qed.

Lemma sameShape_wf st st' : sameShape st st' → wf st → wf st'.
Proof.
  intros [Hh Hr] [H1 H2]. constructor; rewrite ?Hh, ?Hr; assumption.
Qed.

Lemma sameShape_ext X st st' : sameShape st st' → ext X st st'.
Proof.
  intros [Hh Hr]. constructor; rewrite ?Hh, ?Hr; [reflexivity|tauto|].
  intros tg H. left. exact H.
Qed.

Lemma sameShape_fresh tg st st' : sameShape st st' → fresh tg st → fresh tg st'.
Proof. intros [Hh Hr] [H1 H2]. split; rewrite ?Hh, ?Hr; assumption. Qed.

Lemma good_pure {A B} oof TS RS d n X st0 st1 (m : M A) (k : A → M B) :
  wf st1 → enough oof TS RS d n st1 → ext X st0 st1 →
  (m st1 = OutOfFuel → oof) →
  (∀ a st2, m st1 = Ok (a, st2) → sameShape st1 st2) →
  (∀ a st2, m st1 = Ok (a, st2) → wf st2 → enough oof TS RS d n st2 →
            ext X st0 st2 → good oof TS RS d n X st0 (k a st2)) →
  good oof TS RS d n X st0 (bind m k st1).
Proof.
  intros Hwf Hen Hext Hoof Hshape Hk.
  apply good_bind with (Y := []); try assumption.
  - intros y Hy. inversion Hy.
  - destruct (m st1) as [[a st2]| | |] eqn:E; simpl; try exact I; [|auto].
    pose proof (Hshape a st2 eq_refl) as Hs.
    split; [eapply sameShape_wf; eassumption|].
    split; [|apply sameShape_ext; assumption].
    eapply enough_ext; [eassumption|apply (sameShape_ext []); assumption].
Qed.

Lemma wf_lt st tg : wf st → tg ∈ allTargets (resMap st) → tg < length (heap st).
Proof.
  intros Hwf Htg. destruct (wf_slots _ Hwf tg Htg) as (c & Hc & _).
  eapply lookup_lt_Some, Hc.
Qed.

Lemma alloc_wf st c :
  wf st → wf (mkState (heap st ++ [c]) (resMap st) (packerLog st)).
Proof.
  intros [H1 H2]. constructor; simpl; [assumption|].
  intros tg Htg. destruct (H2 tg Htg) as (c' & Hc' & Hs).
  exists c'. split; [|assumption]. apply lookup_app_l_Some. assumption.
Qed.

Lemma alloc_ext st c :
  ext [] st (mkState (heap st ++ [c]) (resMap st) (packerLog st)).
Proof.
  constructor; simpl; [apply prefix_app_r; reflexivity|tauto|].
  intros tg H. left. exact H.
Qed.

Lemma alloc_fresh st c :
  wf st → is_Some (slot c) →
  fresh (length (heap st)) (mkState (heap st ++ [c]) (resMap st) (packerLog st)).
Proof.
  intros Hwf Hc. split; simpl.
  - exists c. split; [|assumption].
    rewrite lookup_app_r by lia. rewrite Nat.sub_diag. reflexivity.
  - intros Hin. apply (wf_lt _ _ Hwf) in Hin. lia.
Qed.

Lemma good_alloc {B} oof TS RS d n X st0 st1 c (k : loc → M B) :
  wf st1 → enough oof TS RS d n st1 → ext X st0 st1 →
  (∀ st2, st2 = mkState (heap st1 ++ [c]) (resMap st1) (packerLog st1) →
          wf st2 → enough oof TS RS d n st2 → ext X st0 st2 →
          good oof TS RS d n X st0 (k (length (heap st1)) st2)) →
  good oof TS RS d n X st0 (bind (alloc c) k st1).
Proof.
  intros Hwf Hen Hext Hk. unfold bind, alloc. simpl.
  apply Hk; [reflexivity|apply alloc_wf; assumption| |].
  - eapply enough_ext; [eassumption|apply alloc_ext].
  - eapply ext_trans; [eassumption|apply alloc_ext|]. intros y Hy. inversion Hy.
Qed.

(** The packer builder and the checks of a method's signature leave heap and
    map alone, and use no fuel. *)
Lemma MakeStructPacker_shape pe args t st :
  match MakeStructPacker pe args t st with
  | Ok (_, st') => sameShape st st'
  | OutOfFuel => False
  | _ => True
  end.
Proof.
  unfold MakeStructPacker. destruct (pe args t); [exact I|]. split; reflexivity.
Qed.

Lemma makeFieldExec_method_shape pe f m recv st :
  match makeFieldExec_method pe f m recv st with
  | Ok (_, st') => sameShape st st'
  | OutOfFuel => False
  | _ => True
  end.
Proof.
  unfold makeFieldExec_method, bind, lift, fail, ret, rbind.
  destruct (if recv then dropFirst (m_In m) else Ok (m_In m)) as [inp| | |] eqn:E; simpl;
    try exact I.
  all: try (destruct recv; [|discriminate]; unfold dropFirst in E;
            destruct (m_In m); discriminate).
  set (inp' := if bool_decide (head inp = Some contextType) then tail inp else inp).
  destruct (bool_decide (0 < length (fd_Arguments f))).
  - destruct inp' as [|in0 rest]; simpl; [exact I|].
    pose proof (MakeStructPacker_shape pe (fd_Arguments f) in0 st) as Hp.
    destruct (MakeStructPacker pe (fd_Arguments f) in0 st) as [[p st']| | |]; simpl;
      try exact I; [|contradiction].
    repeat (match goal with |- context [if ?b then _ else _] => destruct b end;
            simpl; try exact I); assumption.
  - simpl.
    repeat (match goal with |- context [if ?b then _ else _] => destruct b end;
            simpl; try exact I); split; reflexivity.
Qed.

Lemma makeFieldExec_directives_shape schema directives pe f ds acc st :
  match makeFieldExec_directives schema directives pe f ds acc st with
  | Ok (_, st') => sameShape st st'
  | OutOfFuel => False
  | _ => True
  end.
Proof.
  revert acc st. induction ds as [|n rest IH]; intros acc st; simpl.
  - split; reflexivity.
  - destruct (bool_decide (n = "deprecated")); [apply IH|].
    destruct (directives !! n) as [v|]; [|exact I].
    destruct (isResolverInterceptor v); simpl; [|apply IH].
    destruct (lookupDirective schema n) as [dd|]; [|exact I].
    unfold bind, rbind.
    pose proof (MakeStructPacker_shape pe (dd_Arguments dd) (d_Type v) st) as Hp.
    destruct (MakeStructPacker pe (dd_Arguments dd) (d_Type v) st) as [[p st']| | |];
      simpl; try exact I; [|contradiction].
    specialize (IH (<[n := p]> acc) st').
    destruct (makeFieldExec_directives _ _ _ _ _ _ st') as [[r st'']| | |]; try exact IH.
    destruct Hp as [Hh Hr], IH as [Hh' Hr']. split; congruence.
Qed.

(** ** What the closure conditions give *)

Lemma closedTypes_children s TS t n c :
  closedTypes s TS = true → t ∈ TS → sTypes s !! t = Some n → c ∈ children n →
  c ∈ TS.
Proof.
  unfold closedTypes. rewrite forallb_forall. intros Hcl Ht Hn Hc.
  specialize (Hcl t (proj1 (list_elem_of_In _ _) Ht)). rewrite Hn in Hcl.
  rewrite forallb_forall in Hcl.
  specialize (Hcl c (proj1 (list_elem_of_In _ _) Hc)).
  apply bool_decide_eq_true in Hcl. exact Hcl.
Qed.

Lemma closedResolverTypes_spec env RS rt :
  closedResolverTypes env RS = true → rt ∈ RS →
  (∀ e, Elem env rt = Ok e → e ∈ RS)
  ∧ (∀ m o, m ∈ methodsOf env rt → o ∈ m_Out m → o ∈ RS)
  ∧ (∀ fs f, Fields_ env rt = Ok fs → f ∈ fs → sf_Type f ∈ RS).
Proof.
  unfold closedResolverTypes. rewrite forallb_forall. intros Hcl Hrt.
  specialize (Hcl rt (proj1 (list_elem_of_In _ _) Hrt)).
  rewrite !andb_true_iff in Hcl. destruct Hcl as [[He Hm] Hf].
  split; [|split].
  - intros e Hel. rewrite Hel in He. apply bool_decide_eq_true in He. exact He.
  - intros m o Hin Ho. rewrite forallb_forall in Hm.
    specialize (Hm m (proj1 (list_elem_of_In _ _) Hin)). rewrite forallb_forall in Hm.
    specialize (Hm o (proj1 (list_elem_of_In _ _) Ho)).
    apply bool_decide_eq_true in Hm. exact Hm.
  - intros fs f Hfs Hin. rewrite Hfs in Hf. rewrite forallb_forall in Hf.
    specialize (Hf f (proj1 (list_elem_of_In _ _) Hin)).
    apply bool_decide_eq_true in Hf. exact Hf.
Qed.

Lemma inResolverTypes_Elem oof env RS rt e :
  oof ∨ closedResolverTypes env RS = true →
  inResolverTypes oof RS rt → Elem env rt = Ok e → inResolverTypes oof RS e.
Proof.
  intros [H|Hcl] [H'|Hrt] He; try (left; assumption). right.
  destruct (closedResolverTypes_spec env RS rt Hcl Hrt) as (HE & _ & _).
  apply HE, He.
Qed.

Lemma inResolverTypes_unwrapPtr oof env RS rt e :
  oof ∨ closedResolverTypes env RS = true →
  inResolverTypes oof RS rt → unwrapPtr env rt = Ok e → inResolverTypes oof RS e.
Proof.
  intros Hcl Hrt. unfold unwrapPtr. case_decide.
  - apply inResolverTypes_Elem; assumption.
  - intros E. inversion E; subst. assumption.
Qed.

Lemma Method_elem env rt i m : Method_ env rt i = Ok m → m ∈ methodsOf env rt.
Proof.
  unfold Method_. destruct (i <? 0)%Z; [discriminate|].
  destruct (methodsOf env rt !! Z.to_nat i) eqn:E; [|discriminate].
  intros H. inversion H; subst. eapply list_elem_of_lookup_2, E.
Qed.

Lemma inResolverTypes_Out0 oof env RS rt i m o :
  oof ∨ closedResolverTypes env RS = true →
  inResolverTypes oof RS rt → Method_ env rt i = Ok m → Out0 m = Ok o →
  inResolverTypes oof RS o.
Proof.
  intros [H|Hcl] [H'|Hrt] Hm Ho; try (left; assumption). right.
  destruct (closedResolverTypes_spec env RS rt Hcl Hrt) as (_ & HM & _).
  apply (HM m).
  - eapply Method_elem, Hm.
  - unfold Out0 in Ho. destruct (m_Out m) as [|o' ?]; [discriminate|].
    inversion Ho; subst. apply list_elem_of_here.
Qed.

Lemma Field_in env RS ft x f :
  closedResolverTypes env RS = true → ft ∈ RS → Field_ env ft x = Ok f →
  sf_Type f ∈ RS.
Proof.
  intros Hcl Hft. unfold Field_, rbind.
  destruct (Fields_ env ft) as [fs| | |] eqn:Hfs; try discriminate.
  destruct (fs !! x) as [f'|] eqn:Hx; [|discriminate].
  intros E. inversion E; subst.
  destruct (closedResolverTypes_spec env RS ft Hcl Hft) as (_ & _ & HF).
  apply (HF fs); [exact Hfs|].
  eapply list_elem_of_lookup_2, Hx.
Qed.

Lemma FieldByIndex_from_in env RS (isTop : bool) (t : rtype) (f : StructField) index sf :
  closedResolverTypes env RS = true →
  (if isTop then t ∈ RS else sf_Type f ∈ RS) →
  sf_Type f ∈ RS →
  FieldByIndex_from env isTop t f index = Ok sf → sf_Type sf ∈ RS.
Proof.
  intros Hcl. revert isTop t f. induction index as [|x rest IH]; intros isTop t f Hft Hf.
  - simpl. intros E. inversion E; subst. exact Hf.
  - simpl. unfold rbind.
    set (ft := if isTop then t else _).
    assert (Hin : ft ∈ RS).
    { subst ft. destruct isTop; [exact Hft|].
      destruct (sf_Type f) as [n|e0|e0|e0] eqn:Et; try exact Hf.
      - destruct (decide (kindOf env n = KPointer)); [|exact Hf].
        destruct (elemOf env n) as [e1|] eqn:Ee; [|exact Hf].
        case_decide; [|exact Hf].
        destruct (closedResolverTypes_spec env RS (TNamed n) Hcl Hf) as (HE & _ & _).
        apply HE. simpl. rewrite Ee. reflexivity.
      - case_decide; [|exact Hf].
        destruct (closedResolverTypes_spec env RS (TPtr e0) Hcl Hf) as (HE & _ & _).
        apply HE. reflexivity. }
    destruct (Field_ env ft x) as [f'| | |] eqn:Hx; try discriminate.
    pose proof (Field_in env RS ft x f' Hcl Hin Hx) as Hf'.
    apply IH; assumption.
Qed.

Lemma inResolverTypes_FieldByIndex oof env RS rt index sf :
  oof ∨ closedResolverTypes env RS = true →
  inResolverTypes oof RS rt → FieldByIndex env rt index = Ok sf →
  inResolverTypes oof RS (sf_Type sf).
Proof.
  intros [H|Hcl] [H'|Hrt] Hsf; try (left; assumption). right.
  eapply FieldByIndex_from_in; [exact Hcl| | |exact Hsf]; simpl; assumption.
Qed.

(** ** Fuel for the walks through embedded structs *)

Lemma embedsWithin_mono env n t : 
  embedsWithin env n t = true → ∀ n', n ≤ n' → embedsWithin env n' t = true.
Proof.
  revert t. induction n as [|n IH]; intros t H n' Hle; [discriminate|].
  destruct n' as [|n']; [lia|]. simpl in *.
  destruct (Fields_ env t) as [fs| | |]; try reflexivity.
  rewrite forallb_forall in H |- *. intros f Hf. specialize (H f Hf).
  apply orb_true_iff in H as [H|H]; [rewrite H; reflexivity|].
  apply orb_true_iff. right. apply IH; [assumption|lia].
Qed.

Lemma fieldCount_loop_fuel env rec fs count :
  (∀ f c, In f fs → isEmbeddedStruct env f = true → rec (sf_Type f) c ≠ OutOfFuel) →
  fieldCount_loop env rec count fs ≠ OutOfFuel.
Proof.
  revert count. induction fs as [|f rest IH]; intros count Hrec; simpl; [discriminate|].
  destruct (isEmbeddedStruct env f) eqn:Hemb.
  - unfold rbind. pose proof (Hrec f count (or_introl eq_refl) Hemb) as Hf.
    destruct (rec (sf_Type f) count); try discriminate; [|contradiction].
    apply IH. intros f' c Hin. apply Hrec. right. assumption.
  - apply IH. intros f' c Hin. apply Hrec. right. assumption.
Qed.

Lemma fieldCount_fuel env n t count :
  embedsWithin env n t = true → fieldCount env n t count ≠ OutOfFuel.
Proof.
  revert t count. induction n as [|n IH]; intros t count H; [discriminate|].
  simpl in *. case_decide; [discriminate|]. unfold rbind.
  destruct (Fields_ env t) as [fs| | |] eqn:Hfs; try discriminate.
  - apply fieldCount_loop_fuel. intros f c Hin Hemb. apply IH.
    rewrite forallb_forall in H. specialize (H f Hin). rewrite Hemb in H. exact H.
  - unfold Fields_ in Hfs. destruct t; try discriminate. case_decide; discriminate.
Qed.

Lemma findField_loop_fuel env rec name index fs i :
  (∀ f ix, In f fs → isEmbeddedStruct env f = true →
           rec (sf_Type f) name ix ≠ OutOfFuel) →
  findField_loop env rec name index fs i ≠ OutOfFuel.
Proof.
  revert i. induction fs as [|f rest IH]; intros i Hrec; simpl; [discriminate|].
  assert (Hrest : findField_loop env rec name index rest (S i) ≠ OutOfFuel).
  { apply IH. intros f' ix Hin. apply Hrec. right. assumption. }
  destruct (isEmbeddedStruct env f) eqn:Hemb.
  - unfold rbind. pose proof (Hrec f [i] (or_introl eq_refl) Hemb) as Hf.
    destruct (rec (sf_Type f) name [i]); try discriminate; [|contradiction].
    destruct (bool_decide _); [discriminate|].
    destruct (EqualFold _ _); [discriminate|assumption].
  - destruct (EqualFold _ _); [discriminate|assumption].
Qed.

Lemma findField_fuel env n t name index :
  embedsWithin env n t = true → findField env n t name index ≠ OutOfFuel.
Proof.
  revert t index. induction n as [|n IH]; intros t index H; [discriminate|].
  simpl in *. unfold rbind.
  destruct (Fields_ env t) as [fs| | |] eqn:Hfs; try discriminate.
  - apply findField_loop_fuel. intros f ix Hin Hemb. apply IH.
    rewrite forallb_forall in H. specialize (H f Hin). rewrite Hemb in H. exact H.
  - unfold Fields_ in Hfs. destruct t; try discriminate. case_decide; discriminate.
Qed.

(** ** The memoisation map *)

Lemma lookupEntry_app k m k' e :
  lookupEntry k (m ++ [(k', e)]) =
    match lookupEntry k m with
    | Some x => Some x
    | None => if decide (k' = k) then Some e else None
    end.
Proof.
  unfold lookupEntry. induction m as [|[k0 e0] m IH]; simpl; [reflexivity|].
  destruct (decide (k0 = k)); [reflexivity|exact IH].
Qed.

Lemma lookupEntry_update k f m k' :
  lookupEntry k' (updateEntry k f m) =
    if decide (k' = k) then f <$> lookupEntry k m else lookupEntry k' m.
Proof.
  unfold lookupEntry. induction m as [|[k0 e0] m IH]; simpl.
  - case_decide; reflexivity.
  - destruct (decide (k0 = k)) as [->|Hne]; simpl.
    + destruct (decide (k' = k)) as [->|Hne'].
      * rewrite !decide_True by reflexivity. reflexivity.
      * rewrite !decide_False by congruence. reflexivity.
    + destruct (decide (k0 = k')) as [->|Hne'].
      * rewrite !decide_False by congruence. reflexivity.
      * exact IH.
Qed.

Lemma allTargets_app m k e :
  allTargets (m ++ [(k, e)]) = allTargets m ++ targets e.
Proof.
  unfold allTargets. rewrite map_app, concat_app. simpl. rewrite app_nil_r. reflexivity.
Qed.

Lemma allTargets_update_exec k e m :
  allTargets (updateEntry k (fun r => mkEntry e (targets r)) m) = allTargets m.
Proof.
  unfold allTargets. induction m as [|[k0 e0] m IH]; simpl; [reflexivity|].
  destruct (decide (k0 = k)); simpl; [reflexivity|]. rewrite IH. reflexivity.
Qed.

Lemma allTargets_update_target k target m :
  allTargets (updateEntry k (fun r => mkEntry (exec r) (targets r ++ [target])) m)
    ≡ₚ (if decide (is_Some (lookupEntry k m)) then target :: allTargets m
        else allTargets m).
Proof.
  unfold allTargets, lookupEntry. induction m as [|[k0 e0] m IH]; simpl.
  - reflexivity.
  - destruct (decide (k0 = k)) as [->|Hne]; simpl.
    + rewrite <- app_assoc. simpl.
      rewrite <- Permutation_middle. reflexivity.
    + rewrite IH. destruct (decide (is_Some (assoc k m))).
      * rewrite <- Permutation_middle. reflexivity.
      * reflexivity.
Qed.

Lemma lookup_update_targets k target m e :
  lookupEntry k (updateEntry k (fun r => mkEntry (exec r) (targets r ++ [target])) m)
    = Some e → target ∈ targets e.
Proof.
  rewrite lookupEntry_update, decide_True by reflexivity.
  destruct (lookupEntry k m) as [r|]; simpl; [|discriminate].
  intros E. inversion E; subst. simpl. apply elem_of_app. right. apply list_elem_of_here.
Qed.

Lemma missing_newEntry TS RS st k e :
  k ∈ list_prod TS RS → lookupEntry k (resMap st) = None →
  missing TS RS (mkState (heap st) (resMap st ++ [(k, e)]) (packerLog st))
    < missing TS RS st.
Proof.
  intros Hk Hnone. unfold missing. simpl. revert Hk.
  generalize (list_prod TS RS) as K.
  assert (Hmono : ∀ K,
    length (filter (λ k0, lookupEntry k0 (resMap st ++ [(k, e)]) = None) K)
    ≤ length (filter (λ k0, lookupEntry k0 (resMap st) = None) K)).
  { induction K as [|k0 K IH]; [reflexivity|]. rewrite !filter_cons.
    destruct (decide (lookupEntry k0 (resMap st ++ [(k, e)]) = None)) as [H'|H'];
      destruct (decide (lookupEntry k0 (resMap st) = None)) as [H|H]; simpl.
    - apply le_n_S, IH.
    - exfalso. rewrite lookupEntry_app in H'.
      destruct (lookupEntry k0 (resMap st)); [discriminate|congruence].
    - apply le_S, IH.
    - apply IH. }
  induction K as [|k0 K IH]; intros Hk; [inversion Hk|].
  rewrite !filter_cons.
  apply elem_of_cons in Hk as [<-|Hk].
  - rewrite decide_False.
    2:{ rewrite lookupEntry_app, Hnone, decide_True by reflexivity. discriminate. }
    rewrite decide_True by assumption. simpl. apply le_n_S, Hmono.
  - specialize (IH Hk).
    destruct (decide (lookupEntry k0 (resMap st ++ [(k, e)]) = None)) as [H'|H'];
      destruct (decide (lookupEntry k0 (resMap st) = None)) as [H|H]; simpl.
    + apply le_n_S in IH. exact IH.
    + exfalso. rewrite lookupEntry_app in H'.
      destruct (lookupEntry k0 (resMap st)); [discriminate|congruence].
    + apply le_S. exact IH.
    + exact IH.
Qed.

Lemma newEntry_wf st k :
  wf st → wf (mkState (heap st) (resMap st ++ [(k, mkEntry RNil [])]) (packerLog st)).
Proof.
  intros [H1 H2]. constructor; simpl; rewrite allTargets_app, app_nil_r; assumption.
Qed.

Lemma newEntry_fresh st k target :
  fresh target st →
  fresh target (mkState (heap st) (resMap st ++ [(k, mkEntry RNil [])]) (packerLog st)).
Proof.
  intros [H1 H2]. split; simpl; [assumption|].
  rewrite allTargets_app, app_nil_r. assumption.
Qed.

Lemma fresh_ext target st st2 :
  fresh target st → ext [] st st2 → fresh target st2.
Proof.
  intros [(c & Hc & Hs) Hnot] [Hh Hk Ht]. split.
  - exists c. split; [|assumption]. eapply prefix_lookup_Some; eassumption.
  - intros Hin. destruct (Ht target Hin) as [H|[H|H]].
    + contradiction.
    + inversion H.
    + apply lookup_lt_Some in Hc. lia.
Qed.

(** Storing the node built for [k] in its entry. *)
Lemma setExec_wf st k e :
  wf st →
  wf (mkState (heap st) (updateEntry k (fun r => mkEntry e (targets r)) (resMap st))
        (packerLog st)).
Proof.
  intros [H1 H2]. constructor; simpl; rewrite allTargets_update_exec; assumption.
Qed.

Lemma setExec_ext st k e :
  ext [] st
    (mkState (heap st) (updateEntry k (fun r => mkEntry e (targets r)) (resMap st))
       (packerLog st)).
Proof.
  constructor; simpl.
  - reflexivity.
  - intros k' Hk'. rewrite lookupEntry_update. case_decide; [subst|assumption].
    destruct Hk' as [x Hx]. rewrite Hx. simpl. eauto.
  - intros tg. rewrite allTargets_update_exec. auto.
Qed.

(** Recording [target] in the entry of [k]. *)
Lemma recordTarget_wf st k target :
  wf st → fresh target st →
  wf (mkState (heap st)
        (updateEntry k (fun r => mkEntry (exec r) (targets r ++ [target])) (resMap st))
        (packerLog st)).
Proof.
  intros [H1 H2] [Hc Hnot]. constructor; simpl.
  - rewrite allTargets_update_target. case_decide; [|assumption].
    constructor; assumption.
  - intros tg. rewrite allTargets_update_target. case_decide; [|apply H2].
    intros Hin. apply elem_of_cons in Hin as [->|Hin]; [assumption|apply H2, Hin].
Qed.

Lemma recordTarget_ext st k target :
  ext [target] st
    (mkState (heap st)
       (updateEntry k (fun r => mkEntry (exec r) (targets r ++ [target])) (resMap st))
       (packerLog st)).
Proof.
  constructor; simpl.
  - reflexivity.
  - intros k' Hk'. rewrite lookupEntry_update. case_decide; [subst|assumption].
    destruct Hk' as [x Hx]. rewrite Hx. simpl. eauto.
  - intros tg. rewrite allTargets_update_target. case_decide; [|auto].
    intros Hin. apply elem_of_cons in Hin as [->|Hin]; [|auto].
    right. left. apply list_elem_of_here.
Qed.

(** One step of [assignExec]: on a hit nothing is built and the entry gains
    the target; on a miss the entry is created before [makeExec] runs. *)
Lemma assignExec_S env schema directives useFieldResolvers packerError n target t rt st :
  assignExec env schema directives useFieldResolvers packerError (S n) target t rt st =
    match lookupEntry (t, rt) (resMap st) with
    | Some _ =>
        Ok (tt, mkState (heap st)
                  (updateEntry (t, rt)
                     (fun r => mkEntry (exec r) (targets r ++ [target])) (resMap st))
                  (packerLog st))
    | None =>
        match makeExec env schema directives useFieldResolvers packerError
                (assignExec env schema directives useFieldResolvers packerError n) n
                t rt
                (mkState (heap st) (resMap st ++ [((t, rt), mkEntry RNil [])])
                   (packerLog st)) with
        | Ok (e, st2) =>
            Ok (tt, mkState (heap st2)
                      (updateEntry (t, rt)
                         (fun r => mkEntry (exec r) (targets r ++ [target]))
                         (updateEntry (t, rt) (fun r => mkEntry e (targets r))
                            (resMap st2)))
                      (packerLog st2))
        | Err e => Err e
        | Panic e => Panic e
        | OutOfFuel => OutOfFuel
        end
    end.
Proof.
  simpl. unfold bind, getEntry, newEntry, modifyEntry, ret, rbind. simpl.
  destruct (lookupEntry (t, rt) (resMap st)); [reflexivity|].
  destruct (makeExec _ _ _ _ _ _ _ _ _ _) as [[e st2]| | |]; reflexivity.
Qed.

Section Good.
Variable env : TypeEnv.
Variable schema : Schema.
Variable directives : gmap string Directive.
Variable useFieldResolvers : bool.
Variable packerError : list InputValueDefinition → rtype → option string.
Variable oof : Prop.
Variable TS : list tyref.
Variable RS : list rtype.
Variable d : nat.
Hypothesis HclosedT : oof ∨ closedTypes schema TS = true.
Hypothesis HclosedR : oof ∨ closedResolverTypes env RS = true.
Hypothesis Hdepth : oof ∨ ∀ rt, rt ∈ RS → embedsWithin env d rt = true.

Section Level.
Variable n : nat.
Variable rec : loc → tyref → rtype → M unit.
Hypothesis Hrec : assignSpec oof TS RS d n rec.
Variable fuel : nat.
Hypothesis Hfuel : oof ∨ d ≤ fuel.

Lemma good_ret {A} X st0 st (a : A) :
  wf st → enough oof TS RS d n st → ext X st0 st →
  good oof TS RS d n X st0 (ret a st).
Proof. intros. simpl. auto. Qed.

Lemma good_rec {B} X st0 st1 target t rt (k : unit → M B) :
  wf st1 → enough oof TS RS d n st1 → ext X st0 st1 →
  inTypes oof TS t → inResolverTypes oof RS rt → fresh target st1 →
  length (heap st0) ≤ target →
  (∀ st2, wf st2 → enough oof TS RS d n st2 → ext X st0 st2 →
          good oof TS RS d n X st0 (k tt st2)) →
  good oof TS RS d n X st0 (bind (rec target t rt) k st1).
Proof.
  intros Hwf Hen Hext Ht Hrt Hfresh Hlen Hk.
  apply good_bind with (Y := [target]); try assumption.
  - intros y Hy. apply list_elem_of_singleton in Hy. subst. auto.
  - apply Hrec; assumption.
  - intros [] st2 _. apply Hk.
Qed.

Lemma makeFieldExec_good typeName f m sf methodIndex fieldIndex recv X st0 st :
  wf st → enough oof TS RS d n st → ext X st0 st →
  inTypes oof TS (fd_Type f) →
  (methodIndex ≠ (-1)%Z → ∀ o, Out0 m = Ok o → inResolverTypes oof RS o) →
  (methodIndex = (-1)%Z → inResolverTypes oof RS (sf_Type sf)) →
  good oof TS RS d n X st0
    (makeFieldExec env schema directives packerError rec typeName f m sf methodIndex
       fieldIndex recv st).
Proof.
  intros Hwf Hen Hext Ht Hm Hsf. unfold makeFieldExec.
  apply good_pure; try assumption.
  { case_decide; [|discriminate].
    pose proof (makeFieldExec_method_shape packerError f m recv st) as H'.
    intros E. rewrite E in H'. contradiction. }
  { intros a st2. case_decide.
    - pose proof (makeFieldExec_method_shape packerError f m recv st) as H'.
      intros E. rewrite E in H'. exact H'.
    - intros E. inversion E; subst. split; reflexivity. }
  intros [[argsPacker hasError] hasContext] st1 _ Hwf1 Hen1 Hext1.
  apply good_pure; try assumption.
  { pose proof (makeFieldExec_directives_shape schema directives packerError f
                  (fd_Directives f) ∅ st1) as H'.
    intros E. rewrite E in H'. contradiction. }
  { intros a st2 E.
    pose proof (makeFieldExec_directives_shape schema directives packerError f
                  (fd_Directives f) ∅ st1) as H'.
    rewrite E in H'. exact H'. }
  intros directivesPackers st2 _ Hwf2 Hen2 Hext2.
  apply good_alloc; try assumption.
  intros st3 Hst3 Hwf3 Hen3 Hext3.
  set (fe := length (heap st2)).
  assert (Hfresh : fresh fe st3).
  { subst st3. apply alloc_fresh; [assumption|]. simpl. eauto. }
  assert (Hlen : length (heap st0) ≤ fe).
  { apply prefix_length. apply (ext_heap _ _ _ Hext2). }
  match goal with |- good _ _ _ _ _ _ _ (bind ?mm _ _) => set (outM := mm) end.
  assert (Hout : match outM st3 with
                 | Ok (out, st') => st' = st3 ∧ inResolverTypes oof RS out
                 | OutOfFuel => False
                 | _ => True
                 end).
  { subst outM. case_decide as Hidx.
    - unfold bind, lift, rbind, ret.
      destruct (Out0 m) as [out| | |] eqn:Ho; simpl; try exact I.
      2:{ unfold Out0 in Ho. destruct (m_Out m); discriminate. }
      pose proof (Hm Hidx out eq_refl) as Hin.
      destruct (RootOperationTypes schema !! "subscription") as [sub|]; simpl; [|auto].
      destruct (TypeName schema sub) as [subName| | |] eqn:Hs; simpl; try exact I.
      2:{ unfold TypeName in Hs.
          destruct (sTypes schema !! sub) as [[]|]; discriminate. }
      destruct (_ && _); simpl; [|auto].
      destruct (Elem env out) as [e| | |] eqn:He; simpl; try exact I.
      + split; [reflexivity|]. eapply inResolverTypes_Elem; eassumption.
      + unfold Elem in He. destruct out; try discriminate.
        destruct (elemOf env name); discriminate.
    - simpl. split; [reflexivity|]. apply Hsf. 
      destruct (decide (methodIndex = (-1)%Z)); [assumption|contradiction]. }
  apply good_pure; try assumption.
  { intros E. rewrite E in Hout. contradiction. }
  { intros a st4 E. rewrite E in Hout. destruct Hout as [-> _]. split; reflexivity. }
  intros out st4 E Hwf4 Hen4 Hext4.
  rewrite E in Hout. destruct Hout as [-> Hin].
  apply good_rec; try assumption.
  intros st5 Hwf5 Hen5 Hext5. apply good_ret; assumption.
Qed.

Lemma FieldByIndex_from_no_oof top t f index :
  FieldByIndex_from env top t f index ≠ OutOfFuel.
Proof.
  revert top t f. induction index as [|x rest IH]; intros top t f; simpl; [discriminate|].
  unfold rbind, Field_, rbind.
  match goal with |- context [Fields_ env ?ft] => generalize ft end.
  intros ft. destruct (Fields_ env ft) as [fs| | |] eqn:Hfs; try discriminate.
  - destruct (fs !! x); [apply IH|discriminate].
  - unfold Fields_ in Hfs. destruct ft; try discriminate. case_decide; discriminate.
Qed.

Lemma depth_ok rt :
  inResolverTypes oof RS rt → oof ∨ embedsWithin env fuel rt = true.
Proof.
  intros [H|Hrt]; [left; assumption|].
  destruct Hdepth as [H|Hd]; [left; assumption|].
  destruct Hfuel as [H|Hf]; [left; assumption|]. right.
  eapply embedsWithin_mono; [apply Hd, Hrt|exact Hf].
Qed.

Lemma makeObjectExec_fields_good typeName resolverType rt recv fieldsCount fields Fields
    X st0 st :
  wf st → enough oof TS RS d n st → ext X st0 st →
  inResolverTypes oof RS resolverType → inResolverTypes oof RS rt →
  (∀ f, f ∈ fields → inTypes oof TS (fd_Type f)) →
  good oof TS RS d n X st0
    (makeObjectExec_fields env schema directives useFieldResolvers packerError rec fuel
       typeName resolverType rt recv fieldsCount fields Fields st).
Proof.
  intros Hwf Hen Hext Hrt Hrt'. revert Fields st Hwf Hen Hext.
  induction fields as [|f rest IH]; intros Fields st Hwf Hen Hext Hfs; simpl.
  { auto. }
  apply good_pure; try assumption.
  { destruct (_ && _); [|discriminate].
    destruct (bool_decide _); [discriminate|]. unfold lift, rbind.
    destruct (findField env fuel rt (fd_Name f) []) eqn:E; try discriminate.
    intros _. destruct (depth_ok rt Hrt') as [H|H]; [assumption|].
    exfalso. eapply findField_fuel; eassumption. }
  { intros a st2. destruct (_ && _).
    - destruct (bool_decide _); [discriminate|]. unfold lift, rbind.
      destruct (findField env fuel rt (fd_Name f) []); try discriminate.
      intros E. inversion E; subst. split; reflexivity.
    - intros E. inversion E; subst. split; reflexivity. }
  intros fieldIndex st1 _ Hwf1 Hen1 Hext1.
  destruct (_ && _); [exact I|].
  match goal with |- good _ _ _ _ _ _ _ (bind ?mm _ _) => set (memM := mm) end.
  assert (Hmem : match memM st1 with
                 | Ok ((m, sf), st') =>
                     st' = st1
                     ∧ (findMethod env resolverType (fd_Name f) ≠ (-1)%Z →
                        ∀ o, Out0 m = Ok o → inResolverTypes oof RS o)
                     ∧ (findMethod env resolverType (fd_Name f) = (-1)%Z →
                        inResolverTypes oof RS (sf_Type sf))
                 | OutOfFuel => False
                 | _ => True
                 end).
  { subst memM. case_decide as Hidx.
    - unfold bind, lift, rbind, ret.
      destruct (Method_ env resolverType _) as [m| | |] eqn:Hm; simpl; try exact I.
      + split; [reflexivity|]. split; [|intros; contradiction].
        intros _ o Ho. eapply (inResolverTypes_Out0 oof env RS resolverType); eassumption.
      + unfold Method_ in Hm. destruct (_ <? _)%Z; [discriminate|].
        destruct (_ !! _); discriminate.
    - unfold bind, lift, rbind, ret.
      destruct (FieldByIndex env rt fieldIndex) as [sf| | |] eqn:Hsf; simpl; try exact I.
      + split; [reflexivity|]. split; [intros; contradiction|].
        intros _. eapply (inResolverTypes_FieldByIndex oof env RS rt); eassumption.
      + eapply FieldByIndex_from_no_oof, Hsf. }
  apply good_pure; try assumption.
  { intros E. rewrite E in Hmem. contradiction. }
  { intros a st2 E. rewrite E in Hmem. destruct a. destruct Hmem as [-> _].
    split; reflexivity. }
  intros [m sf] st2 E Hwf2 Hen2 Hext2.
  rewrite E in Hmem. destruct Hmem as (-> & Hm & Hsf).
  apply good_bind with (Y := []); try assumption.
  { intros y Hy. inversion Hy. }
  { pose proof (makeFieldExec_good typeName f m sf
                  (findMethod env resolverType (fd_Name f)) fieldIndex recv [] st1 st1
                  Hwf1 Hen1 (ext_refl _ _)) as Hg.
    destruct (makeFieldExec _ _ _ _ _ _ _ _ _ _ _ _ st1) as [[fe st']| | |];
      simpl; try exact I; apply Hg; try assumption;
      apply Hfs, list_elem_of_here. }
  intros fe st3 _ Hwf3 Hen3 Hext3.
  apply IH; try assumption.
  intros f' Hf'. apply Hfs. apply list_elem_of_further. assumption.
Qed.

Lemma makeObjectExec_assertions_good typeName resolverType recv possibleTypes acc
    X st0 st :
  wf st → enough oof TS RS d n st → ext X st0 st →
  inResolverTypes oof RS resolverType →
  (∀ t, t ∈ possibleTypes → inTypes oof TS t) →
  good oof TS RS d n X st0
    (makeObjectExec_assertions env schema rec typeName resolverType recv possibleTypes
       acc st).
Proof.
  intros Hwf Hen Hext Hrt. revert acc st Hwf Hen Hext.
  induction possibleTypes as [|impl rest IH]; intros acc st Hwf Hen Hext Hts; simpl.
  { auto. }
  unfold bind at 1, lift, rbind.
  destruct (implName schema impl) as [name| | |] eqn:Hname; simpl; try exact I.
  2:{ exfalso. unfold implName in Hname.
      destruct (sTypes schema !! impl) as [[]|]; discriminate. }
  destruct (bool_decide _); [exact I|].
  unfold bind at 1, lift, rbind.
  destruct (Method_ env resolverType _) as [m| | |] eqn:Hm; simpl; try exact I.
  2:{ exfalso. unfold Method_ in Hm. destruct (_ <? _)%Z; [discriminate|].
      destruct (_ !! _); discriminate. }
  destruct (negb _); [exact I|]. destruct (negb _); [exact I|].
  apply good_alloc; try assumption.
  intros st1 Hst1 Hwf1 Hen1 Hext1.
  set (a := length (heap st)).
  assert (Hfresh : fresh a st1).
  { subst st1. apply alloc_fresh; [assumption|]. simpl. eauto. }
  assert (Hlen : length (heap st0) ≤ a).
  { apply prefix_length. apply (ext_heap _ _ _ Hext). }
  unfold bind at 1, lift, rbind.
  destruct (Out0 m) as [out| | |] eqn:Ho; simpl; try exact I.
  2:{ exfalso. unfold Out0 in Ho. destruct (m_Out m); discriminate. }
  apply good_rec; try assumption.
  - apply Hts, list_elem_of_here.
  - eapply (inResolverTypes_Out0 oof env RS resolverType); eassumption.
  - intros st2 Hwf2 Hen2 Hext2. apply IH; try assumption.
    intros t Ht. apply Hts, list_elem_of_further, Ht.
Qed.

Lemma makeObjectExec_good typeName fields possibleTypes nonNull resolverType X st0 st :
  wf st → enough oof TS RS d n st → ext X st0 st →
  inResolverTypes oof RS resolverType →
  (∀ f, f ∈ fields → inTypes oof TS (fd_Type f)) →
  (∀ t, t ∈ possibleTypes → inTypes oof TS t) →
  good oof TS RS d n X st0
    (makeObjectExec env schema directives useFieldResolvers packerError rec fuel
       typeName fields possibleTypes nonNull resolverType st).
Proof.
  intros Hwf Hen Hext Hrt Hfs Hts. unfold makeObjectExec.
  destruct (_ && _); [exact I|].
  unfold bind at 1, lift, rbind.
  destruct (unwrapPtr env resolverType) as [rt| | |] eqn:Hrt'; simpl; try exact I.
  2:{ exfalso. unfold unwrapPtr, Elem in Hrt'. case_decide; [|discriminate].
      destruct resolverType; try discriminate. destruct (elemOf env name); discriminate. }
  assert (Hin : inResolverTypes oof RS rt).
  { eapply inResolverTypes_unwrapPtr; eassumption. }
  unfold bind at 1, lift, rbind.
  destruct (fieldCount env fuel rt ∅) as [fieldsCount| | |] eqn:Hfc; simpl; try exact I.
  2:{ destruct (depth_ok rt Hin) as [H|H]; [assumption|].
      exfalso. eapply fieldCount_fuel; eassumption. }
  apply good_bind with (Y := []); try assumption.
  { intros y Hy. inversion Hy. }
  { apply makeObjectExec_fields_good; try assumption. apply ext_refl. }
  intros Fields st1 _ Hwf1 Hen1 Hext1.
  apply good_bind with (Y := []); try assumption.
  { intros y Hy. inversion Hy. }
  { destruct (_ || _).
    - apply makeObjectExec_assertions_good; try assumption. apply ext_refl.
    - apply good_ret; try assumption. apply ext_refl. }
  intros typeAssertions st2 _ Hwf2 Hen2 Hext2.
  unfold alloc. simpl. split; [apply alloc_wf; assumption|]. split.
  - eapply enough_ext; [eassumption|apply alloc_ext].
  - eapply ext_trans; [eassumption|apply alloc_ext|]. intros y Hy. inversion Hy.
Qed.

Lemma good_alloc_val {A} X st0 st c (a : A) :
  wf st → enough oof TS RS d n st → ext X st0 st →
  good oof TS RS d n X st0
    (Ok (a, mkState (heap st ++ [c]) (resMap st) (packerLog st))).
Proof.
  intros Hwf Hen Hext. simpl. split; [apply alloc_wf; assumption|]. split.
  - eapply enough_ext; [eassumption|apply alloc_ext].
  - eapply ext_trans; [eassumption|apply alloc_ext|]. intros y Hy. inversion Hy.
Qed.

Lemma Elem_no_oof t : Elem env t ≠ OutOfFuel.
Proof.
  unfold Elem. destruct t; try discriminate. destruct (elemOf env name); discriminate.
Qed.

Lemma nullable_unwrap_shape (nonNull : bool) resolverType st :
  match (if negb nonNull then
           if negb (bool_decide (Kind_ env resolverType = KPointer)) then
             fail (rtype_String resolverType +:+ " is not a pointer")
           else lift (Elem env resolverType)
         else ret resolverType) st with
  | Ok (rt', st') =>
      st' = st ∧ (inResolverTypes oof RS resolverType → inResolverTypes oof RS rt')
  | OutOfFuel => False
  | _ => True
  end.
Proof.
  destruct (negb nonNull); [|simpl; auto].
  destruct (negb _); [exact I|]. unfold lift, rbind.
  destruct (Elem env resolverType) as [e| | |] eqn:He; try exact I.
  - split; [reflexivity|]. intros Hrt.
    eapply (inResolverTypes_Elem oof env RS resolverType); eassumption.
  - eapply Elem_no_oof, He.
Qed.

Lemma makeExec_good t resolverType X st0 st :
  wf st → enough oof TS RS d n st → ext X st0 st →
  inTypes oof TS t → inResolverTypes oof RS resolverType →
  good oof TS RS d n X st0
    (makeExec env schema directives useFieldResolvers packerError rec fuel t
       resolverType st).
Proof.
  intros Hwf Hen Hext Ht Hrt. unfold makeExec.
  assert (Hchild : ∀ t0 node c, inTypes oof TS t0 → sTypes schema !! t0 = Some node →
                     c ∈ children node → inTypes oof TS c).
  { intros t0 node c [H|H] Hnode Hc; [left; assumption|].
    destruct HclosedT as [H'|Hcl]; [left; assumption|]. right.
    eapply closedTypes_children; eassumption. }
  destruct (unwrapNonNull schema t) as [t' nonNull] eqn:Hun.
  assert (Ht' : inTypes oof TS t').
  { unfold unwrapNonNull in Hun. destruct (sTypes schema !! t) as [node|] eqn:Hnode.
    - destruct node; inversion Hun; subst; try assumption.
      eapply Hchild; [exact Ht|exact Hnode|]. simpl. apply list_elem_of_here.
    - inversion Hun; subst. assumption. }
  assert (Hobj : ∀ name fields possibleTypes,
             (∀ f, f ∈ fields → inTypes oof TS (fd_Type f)) →
             (∀ c, c ∈ possibleTypes → inTypes oof TS c) →
             good oof TS RS d n X st0
               (bind (makeObjectExec env schema directives useFieldResolvers packerError
                        rec fuel name fields possibleTypes nonNull resolverType)
                  (fun p => ret (RObject p)) st)).
  { intros name fields possibleTypes Hfs Hps.
    apply good_bind with (Y := []); try assumption.
    - intros y Hy. inversion Hy.
    - apply makeObjectExec_good; try assumption. apply ext_refl.
    - intros p st1 _ Hwf1 Hen1 Hext1. apply good_ret; assumption. }
  assert (Hfields : ∀ node (fields : list FieldDefinition),
             sTypes schema !! t' = Some node →
             (∀ f, f ∈ fields → fd_Type f ∈ children node) →
             ∀ f, f ∈ fields → inTypes oof TS (fd_Type f)).
  { intros node fields Hnode Hsub f Hf. eapply Hchild; [exact Ht'|exact Hnode|].
    apply Hsub, Hf. }
  assert (Hnull := nullable_unwrap_shape nonNull resolverType st).
  destruct (sTypes schema !! t') as [node|] eqn:Hnode.
  2:{ unfold bind at 1.
      match type of Hnull with match ?x with _ => _ end =>
        destruct x as [[rt' st']| | |] end; simpl; try exact I. contradiction. }
  destruct node as [name fields|name fields possibleTypes|name members|name|name|name
                    |ofType|ofType].
  - apply Hobj.
    + apply (Hfields _ fields eq_refl). intros f Hf. simpl.
      apply list_elem_of_fmap_2. assumption.
    + intros c Hc. inversion Hc.
  - apply Hobj.
    + apply (Hfields _ fields eq_refl). intros f Hf. simpl. apply elem_of_app. left.
      apply list_elem_of_fmap_2. assumption.
    + intros c Hc. eapply Hchild; [exact Ht'|exact Hnode|]. simpl.
      apply elem_of_app. right. assumption.
  - apply Hobj.
    + intros f Hf. inversion Hf.
    + intros c Hc. eapply Hchild; [exact Ht'|exact Hnode|]. simpl. assumption.
  - (* scalar *)
    unfold bind at 1.
    match type of Hnull with match ?x with _ => _ end =>
      destruct x as [[rt' st']| | |] end; simpl; try exact I; [|contradiction].
    destruct Hnull as [-> _]. rewrite makeScalarExec_accept.
    destruct (if decide _ then _ else _); [|exact I].
    exact (good_alloc_val X st0 st CScalar (RScalar (length (heap st))) Hwf Hen Hext).
  - (* enum *)
    unfold bind at 1.
    match type of Hnull with match ?x with _ => _ end =>
      destruct x as [[rt' st']| | |] end; simpl; try exact I; [|contradiction].
    destruct Hnull as [-> _].
    exact (good_alloc_val X st0 st CScalar (RScalar (length (heap st))) Hwf Hen Hext).
  - (* input object *)
    unfold bind at 1.
    match type of Hnull with match ?x with _ => _ end =>
      destruct x as [[rt' st']| | |] end; simpl; try exact I. contradiction.
  - (* list *)
    unfold bind at 1.
    match type of Hnull with match ?x with _ => _ end =>
      destruct x as [[rt' st']| | |] end; simpl; try exact I; [|contradiction].
    destruct Hnull as [-> Hrt2]. specialize (Hrt2 Hrt).
    destruct (negb _); [exact I|].
    apply good_alloc; try assumption.
    intros st1 Hst1 Hwf1 Hen1 Hext1.
    set (e := length (heap st)).
    assert (Hfresh : fresh e st1).
    { subst st1. apply alloc_fresh; [assumption|]. simpl. eauto. }
    assert (Hlen : length (heap st0) ≤ e).
    { apply prefix_length. apply (ext_heap _ _ _ Hext). }
    unfold bind at 1, lift, rbind.
    destruct (Elem env rt') as [elem| | |] eqn:He; simpl; try exact I.
    2:{ exfalso. eapply Elem_no_oof, He. }
    apply good_rec; try assumption.
    + eapply Hchild; [exact Ht'|exact Hnode|]. simpl. apply list_elem_of_here.
    + eapply (inResolverTypes_Elem oof env RS rt'); eassumption.
    + intros st2 Hwf2 Hen2 Hext2. apply good_ret; assumption.
  - (* non-null inside non-null *)
    unfold bind at 1.
    match type of Hnull with match ?x with _ => _ end =>
      destruct x as [[rt' st']| | |] end; simpl; try exact I. contradiction.
Qed.

End Level.
Lemma assignExec_good n :
  assignSpec oof TS RS d n
    (assignExec env schema directives useFieldResolvers packerError n).
Proof.
  induction n as [|n IH]; intros target t rt st Hwf Hen Ht Hrt Hfresh.
  { simpl. destruct Hen as [H|H]; [exact H|exfalso; lia]. }
  rewrite assignExec_S.
  destruct (lookupEntry (t, rt) (resMap st)) as [r|] eqn:Hl.
  - split; [apply recordTarget_wf; assumption|]. split.
    + eapply enough_ext; [exact Hen|apply recordTarget_ext].
    + apply recordTarget_ext.
  - set (st1 := mkState (heap st) (resMap st ++ [((t, rt), mkEntry RNil [])])
                  (packerLog st)).
    assert (Hwf1 : wf st1) by (apply newEntry_wf; assumption).
    assert (Hen1 : enough oof TS RS d n st1).
    { destruct Hen as [H|H]; [left; exact H|].
      destruct Ht as [H'|Ht]; [left; exact H'|].
      destruct Hrt as [H'|Hrt]; [left; exact H'|]. right.
      assert (Hk : (t, rt) ∈ list_prod TS RS).
      { apply list_elem_of_In, in_prod; apply list_elem_of_In; assumption. }
      pose proof (missing_newEntry TS RS st (t, rt) (mkEntry RNil []) Hk Hl) as Hlt.
      apply Nat.lt_le_trans with (missing TS RS st + d).
      - apply Nat.add_lt_mono_r. exact Hlt.
      - apply Nat.lt_succ_r. exact H. }
    assert (Hfuel : oof ∨ d ≤ n).
    { destruct Hen1 as [H|H]; [left; exact H|right; lia]. }
    pose proof (makeExec_good n _ IH n Hfuel t rt [] st1 st1 Hwf1 Hen1 (ext_refl _ _)
                  Ht Hrt) as Hg.
    destruct (makeExec _ _ _ _ _ _ _ _ _ st1) as [[e st2]| | |]; simpl; try exact I;
      [|exact Hg].
    destruct Hg as (Hwf2 & Hen2 & Hext2).
    set (st3 := mkState (heap st2)
                  (updateEntry (t, rt) (fun r => mkEntry e (targets r)) (resMap st2))
                  (packerLog st2)).
    assert (Hext01 : ext [] st st1).
    { constructor; simpl; [reflexivity| |].
      - intros k [x Hx]. rewrite lookupEntry_app, Hx. eauto.
      - intros tg. rewrite allTargets_app, app_nil_r. auto. }
    assert (Hext03 : ext [] st st3).
    { eapply ext_trans; [|apply setExec_ext|intros y Hy; inversion Hy].
      eapply ext_trans; [exact Hext01|exact Hext2|intros y Hy; inversion Hy]. }
    assert (Hwf3 : wf st3) by (apply setExec_wf; assumption).
    assert (Hfresh3 : fresh target st3) by (eapply fresh_ext; eassumption).
    assert (Hext : ext [target] st
                     (mkState (heap st3)
                        (updateEntry (t, rt)
                           (fun r => mkEntry (exec r) (targets r ++ [target]))
                           (resMap st3)) (packerLog st3))).
    { eapply ext_trans; [eapply ext_weaken; [exact Hext03|]|apply recordTarget_ext|].
      - intros x Hx. inversion Hx.
      - intros y Hy. auto. }
    split; [apply (recordTarget_wf st3); assumption|]. split; [|exact Hext].
    eapply enough_ext; [exact Hen|exact Hext].
Qed.

End Good.

(** ** finish *)

Lemma elem_of_allTargets (m : list (typePair * resMapEntry)) tg :
  tg ∈ allTargets m ↔ ∃ ke, ke ∈ m ∧ tg ∈ targets (snd ke).
Proof.
  unfold allTargets. induction m as [|ke m IH]; simpl.
  - split; [intros H; inversion H|intros (ke & H & _); inversion H].
  - rewrite elem_of_app, IH. split.
    + intros [H|(ke' & H1 & H2)].
      * exists ke. split; [apply list_elem_of_here|assumption].
      * exists ke'. split; [apply list_elem_of_further|]; assumption.
    + intros (ke' & H1 & H2). apply elem_of_cons in H1 as [->|H1]; eauto.
Qed.

Lemma patch_lookup h e p :
  NoDup (targets e) →
  patch h e !! p =
    if decide (p ∈ targets e) then setSlot (exec e) <$> h !! p else h !! p.
Proof.
  unfold patch. generalize (exec e) as r. intros r.
  revert h. induction (targets e) as [|tg rest IH]; intros h Hnd; cbn [foldl].
  - rewrite decide_False by apply not_elem_of_nil. reflexivity.
  - inversion Hnd as [|? ? Hnotin Hnd']; subst. rewrite (IH _ Hnd').
    destruct (decide (p = tg)) as [->|Hne].
    + rewrite decide_False by assumption.
      rewrite decide_True by apply list_elem_of_here.
      apply list_lookup_alter_eq.
    + rewrite list_lookup_alter_ne by congruence.
      destruct (decide (p ∈ rest)) as [Hin|Hout].
      * rewrite decide_True by (apply list_elem_of_further; assumption). reflexivity.
      * rewrite decide_False; [reflexivity|].
        intros Hin. apply elem_of_cons in Hin as [?|?]; contradiction.
Qed.

Lemma patchAll_lookup (m : list (typePair * resMapEntry)) h p :
  NoDup (allTargets m) →
  (∀ ke, ke ∈ m → p ∈ targets (snd ke) →
     foldl (fun h ke => patch h (snd ke)) h m !! p
       = setSlot (exec (snd ke)) <$> h !! p)
  ∧ (p ∉ allTargets m → foldl (fun h ke => patch h (snd ke)) h m !! p = h !! p).
Proof.
  revert h. induction m as [|[k e] m IH]; intros h Hnd.
  - split; [intros ke Hin; inversion Hin|reflexivity].
  - unfold allTargets in Hnd. simpl in Hnd. fold (allTargets m) in Hnd.
    apply NoDup_app in Hnd as (Hnd1 & Hdisj & Hnd2).
    destruct (IH (patch h e) Hnd2) as [IH1 IH2]. simpl. split.
    + intros ke Hin Hp. apply elem_of_cons in Hin as [->|Hin].
      * simpl in *. rewrite IH2 by (apply Hdisj; assumption).
        rewrite patch_lookup by assumption. rewrite decide_True by assumption.
        reflexivity.
      * rewrite (IH1 ke Hin Hp). rewrite patch_lookup by assumption.
        rewrite decide_False; [reflexivity|].
        intros Hpe. apply (Hdisj p Hpe). apply elem_of_allTargets. eauto.
    + intros Hnot. unfold allTargets in Hnot. simpl in Hnot. fold (allTargets m) in Hnot.
      apply not_elem_of_app in Hnot as [Hn1 Hn2].
      rewrite IH2 by assumption. rewrite patch_lookup by assumption.
      rewrite decide_False by assumption. reflexivity.
Qed.

Lemma slot_setSlot r c : is_Some (slot c) → slot (setSlot r c) = Some r.
Proof. destruct c; simpl; intros [x Hx]; try discriminate; reflexivity. Qed.

(** After [finish] every recorded target holds the node of its entry, and
    the other cells are as before. *)
Lemma finish_patches packerFinish st st' :
  wf st → finish packerFinish st = Ok (tt, st') →
  resMap st' = resMap st
  ∧ (∀ ke tg, ke ∈ resMap st → tg ∈ targets (snd ke) →
       ∃ c, heap st' !! tg = Some c ∧ slot c = Some (exec (snd ke)))
  ∧ (∀ p, p ∉ allTargets (resMap st) → heap st' !! p = heap st !! p).
Proof.
  intros [Hnd Hslots]. unfold finish.
  destruct (packerFinish (packerLog st)); [discriminate|].
  intros E. inversion E; subst st'. clear E. simpl.
  split; [reflexivity|]. split.
  - intros ke tg Hke Htg.
    destruct (patchAll_lookup (resMap st) (heap st) tg Hnd) as [H1 _].
    rewrite (H1 ke Hke Htg).
    destruct (Hslots tg) as (c & Hc & Hs).
    { apply elem_of_allTargets. eauto. }
    rewrite Hc. simpl. eexists. split; [reflexivity|]. apply slot_setSlot. assumption.
  - intros p Hp. apply (patchAll_lookup (resMap st) (heap st) p Hnd). assumption.
Qed.

(** Go leaves the order in which [finish] ranges over the map open; the
    patched heap does not depend on it. *)
Lemma finish_order_irrelevant st (entries : list (typePair * resMapEntry)) :
  wf st → entries ≡ₚ resMap st →
  foldl (fun h ke => patch h (snd ke)) (heap st) entries
  = foldl (fun h ke => patch h (snd ke)) (heap st) (resMap st).
Proof.
  intros [Hnd _] Hperm.
  assert (Hperm' : allTargets entries ≡ₚ allTargets (resMap st)).
  { unfold allTargets. rewrite Hperm. reflexivity. }
  assert (Hnd' : NoDup (allTargets entries)) by (rewrite Hperm'; assumption).
  apply list_eq. intros p.
  destruct (decide (p ∈ allTargets (resMap st))) as [Hin|Hout].
  - apply elem_of_allTargets in Hin as (ke & Hke & Hp).
    destruct (patchAll_lookup (resMap st) (heap st) p Hnd) as [H1 _].
    destruct (patchAll_lookup entries (heap st) p Hnd') as [H2 _].
    etransitivity; [apply (H2 ke); [rewrite Hperm|]; assumption|].
    symmetry. apply (H1 ke); assumption.
  - destruct (patchAll_lookup (resMap st) (heap st) p Hnd) as [_ H1].
    destruct (patchAll_lookup entries (heap st) p Hnd') as [_ H2].
    etransitivity; [apply H2; rewrite Hperm'; assumption|].
    symmetry. apply H1. assumption.
Qed.


(** ** Termination and sharing *)

Lemma assignExec_terminates env schema directives useFieldResolvers packerError
    TS RS d fuel target t rt st :
  closedTypes schema TS = true → closedResolverTypes env RS = true →
  (∀ rt, rt ∈ RS → embedsWithin env d rt = true) →
  t ∈ TS → rt ∈ RS → wf st → fresh target st →
  missing TS RS st + d < fuel →
  assignExec env schema directives useFieldResolvers packerError fuel target t rt st
    ≠ OutOfFuel.
Proof.
  intros HT HR Hd Ht Hrt Hwf Hfresh Hfuel E.
  pose proof (assignExec_good env schema directives useFieldResolvers packerError
                False TS RS d (or_intror HT) (or_intror HR) (or_intror Hd)
                fuel target t rt st Hwf (or_intror Hfuel) (or_intror Ht)
                (or_intror Hrt) Hfresh) as Hg.
  rewrite E in Hg. exact Hg.
Qed.

Lemma assignExec_invariant env schema directives useFieldResolvers packerError
    fuel target t rt st st' :
  wf st → fresh target st →
  assignExec env schema directives useFieldResolvers packerError fuel target t rt st
    = Ok (tt, st') →
  wf st' ∧ ext [target] st st'.
Proof.
  intros Hwf Hfresh E.
  pose proof (assignExec_good env schema directives useFieldResolvers packerError
                True [] [] 0 (or_introl I) (or_introl I) (or_introl I)
                fuel target t rt st Hwf (or_introl I) (or_introl I)
                (or_introl I) Hfresh) as Hg.
  rewrite E in Hg. destruct Hg as (H1 & _ & H2). split; assumption.
Qed.

Lemma makeExec_invariant env schema directives useFieldResolvers packerError
    fuel t rt st e st' :
  wf st →
  makeExec env schema directives useFieldResolvers packerError
    (assignExec env schema directives useFieldResolvers packerError fuel) fuel t rt st
    = Ok (e, st') →
  wf st' ∧ ext [] st st'.
Proof.
  intros Hwf E.
  pose proof (makeExec_good env schema directives useFieldResolvers packerError
                True [] [] 0 (or_introl I) (or_introl I) (or_introl I) fuel _
                (assignExec_good env schema directives useFieldResolvers packerError
                   True [] [] 0 (or_introl I) (or_introl I) (or_introl I) fuel)
                fuel (or_introl I) t rt [] st st Hwf (or_introl I) (ext_refl _ _)
                (or_introl I) (or_introl I)) as Hg.
  rewrite E in Hg. destruct Hg as (H1 & _ & H2). split; assumption.
Qed.

(** A successful [assignExec] leaves its target in the entry of its pair. *)
Lemma assignExec_records env schema directives useFieldResolvers packerError
    fuel target t rt st st' :
  wf st →
  assignExec env schema directives useFieldResolvers packerError fuel target t rt st
    = Ok (tt, st') →
  ∃ e, lookupEntry (t, rt) (resMap st') = Some e ∧ target ∈ targets e.
Proof.
  intros Hwf. destruct fuel as [|fuel]; [discriminate|].
  rewrite assignExec_S.
  destruct (lookupEntry (t, rt) (resMap st)) as [r|] eqn:Hl.
  - intros E. inversion E; subst st'. simpl.
    rewrite lookupEntry_update, decide_True, Hl by reflexivity. simpl.
    eexists. split; [reflexivity|]. simpl. apply elem_of_app. right.
    apply list_elem_of_here.
  - destruct (makeExec _ _ _ _ _ _ _ _ _ _) as [[e st2]| | |] eqn:Hm; try discriminate.
    intros E. inversion E; subst st'. simpl.
    apply makeExec_invariant in Hm as [_ Hext]; [|apply newEntry_wf; assumption].
    destruct (ext_keys _ _ _ Hext (t, rt)) as [r Hr].
    { simpl. rewrite lookupEntry_app, Hl, decide_True by reflexivity. eauto. }
    rewrite !lookupEntry_update, !decide_True, Hr by reflexivity. simpl.
    eexists. split; [reflexivity|]. simpl. apply elem_of_app. right.
    apply list_elem_of_here.
Qed.

(** Binding one root operation, when the schema declares it. *)
Lemma bindRoot_good env s ds useFieldResolvers packerError TS RS d n key target rt st :
  closedTypes s TS = true → closedResolverTypes env RS = true →
  (∀ rt, rt ∈ RS → embedsWithin env d rt = true) →
  (∀ t, RootOperationTypes s !! key = Some t → t ∈ TS) → rt ∈ RS →
  wf st → enough False TS RS d n st → fresh target st →
  good False TS RS d n [target] st
    ((match RootOperationTypes s !! key with
      | Some t => assignExec env s ds useFieldResolvers packerError n target t rt
      | None => ret tt
      end) st).
Proof.
  intros HT HR Hd Hroot Hrt Hwf Hen Hfresh.
  destruct (RootOperationTypes s !! key) as [t|].
  - apply (assignExec_good env s ds useFieldResolvers packerError False TS RS d
             (or_intror HT) (or_intror HR) (or_intror Hd)); try assumption.
    + right. apply Hroot. reflexivity.
    + right. assumption.
  - simpl. split; [assumption|]. split; [assumption|apply ext_refl].
Qed.

Lemma missing_le TS RS st : missing TS RS st ≤ length TS * length RS.
Proof.
  unfold missing. rewrite <- length_prod. apply length_filter.
Qed.

Lemma fresh_var st0 st X target :
  wf st0 → fresh target st0 → ext X st0 st → target ∉ X → fresh target st.
Proof.
  intros Hwf [(c & Hc & Hs) Hnot] [Hh Hk Ht] HX. split.
  - exists c. split; [|assumption]. eapply prefix_lookup_Some; eassumption.
  - intros Hin. destruct (Ht target Hin) as [H|[H|H]]; try contradiction.
    apply lookup_lt_Some in Hc. lia.
Qed.

Lemma bindRoots_terminates env packerError packerFinish s ds useFieldResolvers fuel
    resolver q m sub TS RS d :
  closedTypes s TS = true → closedResolverTypes env RS = true →
  (∀ rt, rt ∈ RS → embedsWithin env d rt = true) →
  (∀ key t, RootOperationTypes s !! key = Some t → t ∈ TS) →
  TypeOf resolver q ∈ RS → TypeOf resolver m ∈ RS → TypeOf resolver sub ∈ RS →
  length TS * length RS + d < fuel →
  bindRoots env packerError packerFinish s ds useFieldResolvers fuel resolver q m sub
    emptyState ≠ OutOfFuel.
Proof.
  intros HT HR Hd Hroots Hq Hm Hsub Hfuel.
  assert (Hwf0 : wf rootsState).
  { constructor; simpl; [constructor|]. intros tg H. inversion H. }
  assert (Hen0 : enough False TS RS d fuel rootsState).
  { right. pose proof (missing_le TS RS rootsState). lia. }
  assert (Hfr : ∀ i, i < 3 → fresh i rootsState).
  { intros i Hi. split; [|simpl; apply not_elem_of_nil].
    destruct i as [|[|[|i]]]; try lia; simpl; eauto. }
  unfold bindRoots. unfold bind at 1 2 3, alloc, emptyState, rbind. simpl.
  fold rootsState.
  pose proof (bindRoot_good env s ds useFieldResolvers packerError TS RS d fuel
                "query" 0 (TypeOf resolver q) rootsState HT HR Hd (Hroots "query") Hq
                Hwf0 Hen0 (Hfr 0 ltac:(lia))) as H1.
  unfold bind at 1, rbind.
  match type of H1 with good _ _ _ _ _ _ _ ?r =>
    destruct r as [[[] st1]| | |] end; try discriminate; [|contradiction].
  destruct H1 as (Hwf1 & Hen1 & Hext1). simpl.
  assert (Hfr1 : ∀ i, 0 < i < 3 → fresh i st1).
  { intros i Hi. eapply fresh_var; [exact Hwf0|apply Hfr; lia|exact Hext1|].
    intros Hin. apply list_elem_of_singleton in Hin. lia. }
  pose proof (bindRoot_good env s ds useFieldResolvers packerError TS RS d fuel
                "mutation" 1 (TypeOf resolver m) st1 HT HR Hd (Hroots "mutation") Hm
                Hwf1 Hen1 (Hfr1 1 ltac:(lia))) as H2.
  unfold bind at 1, rbind.
  match type of H2 with good _ _ _ _ _ _ _ ?r =>
    destruct r as [[[] st2]| | |] end; try discriminate; [|contradiction].
  destruct H2 as (Hwf2 & Hen2 & Hext2). simpl.
  assert (Hext02 : ext [0; 1] rootsState st2).
  { eapply ext_trans; [eapply ext_weaken; [exact Hext1|]|exact Hext2|].
    - intros x Hx. apply list_elem_of_singleton in Hx. subst. apply list_elem_of_here.
    - intros y Hy. apply list_elem_of_singleton in Hy. subst. right. left.
      apply list_elem_of_further, list_elem_of_here. }
  assert (Hfr2 : fresh 2 st2).
  { eapply fresh_var; [exact Hwf0|apply Hfr; lia|exact Hext02|].
    intros Hin. rewrite !elem_of_cons in Hin.
    destruct Hin as [?|[?|Hin]]; try lia. inversion Hin. }
  pose proof (bindRoot_good env s ds useFieldResolvers packerError TS RS d fuel
                "subscription" 2 (TypeOf resolver sub) st2 HT HR Hd
                (Hroots "subscription") Hsub Hwf2 Hen2 Hfr2) as H3.
  unfold bind at 1, rbind.
  match type of H3 with good _ _ _ _ _ _ _ ?r =>
    destruct r as [[[] st3]| | |] end; try discriminate; [|contradiction].
  simpl. unfold bind, finish, rbind, ret.
  destruct (packerFinish (packerLog st3)); discriminate.
Qed.

Lemma applyDirectives_no_oof s visitors : applyDirectives s visitors ≠ OutOfFuel.
Proof.
  unfold applyDirectives, rbind.
  pose proof (applyDirectives_visitors_spec visitors ∅) as Hv.
  destruct (applyDirectives_visitors visitors ∅); try discriminate; [|contradiction].
  rewrite applyDirectives_declared_spec. destruct (find _ _); discriminate.
Qed.

Lemma rootResolver_no_oof env resolver op : rootResolver env resolver op ≠ OutOfFuel.
Proof.
  unfold rootResolver. destruct (MethodByName _ _ _) as [m|]; [|discriminate].
  repeat (match goal with |- context [if ?b then _ else _] => destruct b end;
          try discriminate).
  destruct (m_Out m) as [|ot ?]; [discriminate|].
  repeat (match goal with |- context [if ?b then _ else _] => destruct b end;
          try discriminate).
  destruct (rv_Call resolver op); [|discriminate].
  destruct (Kind_ env ot); try discriminate.
  unfold rbind. destruct (Elem env ot) eqn:He; try discriminate.
  exfalso. eapply Elem_no_oof, He.
Qed.

(** C1: memoisation makes binding terminate and share nodes.
    (1) Over finite sets [TS] of schema types and [RS] of resolver types that
    are closed under what the builder follows, with structs embedded to a
    depth below [d], [assignExec] returns for every fuel above the number of
    pairs not yet in the map plus [d], and [ApplyResolver] returns for every
    fuel above [length TS * length RS + d]; a type that refers to itself is
    no obstacle.
    (2) When the map has an entry for the pair, [assignExec] builds nothing:
    the heap is unchanged and the entry only gains the target.
    (3) When it has none, the entry is created before [makeExec] runs, so
    that a nested encounter of the pair is case (2).
    (4) After [finish], every target recorded for a pair holds the node stored
    in the pair's entry, so the child slot filled at a later encounter is the
    very node built at the first one; the target of a successful [assignExec]
    is recorded under its pair, and the order in which [finish] visits the
    entries does not matter. *)
Theorem memoised_binding env schema directives useFieldResolvers packerError packerFinish :
  let assign := assignExec env schema directives useFieldResolvers packerError in
  (∀ TS RS d,
     closedTypes schema TS = true → closedResolverTypes env RS = true →
     (∀ rt, rt ∈ RS → embedsWithin env d rt = true) →
     (∀ fuel target t rt st,
        t ∈ TS → rt ∈ RS → wf st → fresh target st →
        missing TS RS st + d < fuel →
        assign fuel target t rt st ≠ OutOfFuel)
     ∧ (∀ Meta (newMeta : Schema → outcome Meta) resolver visitors fuel,
          (∀ key t, RootOperationTypes schema !! key = Some t → t ∈ TS) →
          (∀ op r, op ∈ [Query; Mutation; Subscription] →
                   rootResolver env resolver op = Ok r → TypeOf resolver r ∈ RS) →
          length TS * length RS + d < fuel →
          ApplyResolver env packerError packerFinish Meta newMeta schema
            (Some resolver) visitors useFieldResolvers fuel ≠ OutOfFuel))
  ∧ (∀ fuel target t rt st r,
       lookupEntry (t, rt) (resMap st) = Some r →
       assign (S fuel) target t rt st =
         Ok (tt, mkState (heap st)
                   (updateEntry (t, rt)
                      (fun r => mkEntry (exec r) (targets r ++ [target])) (resMap st))
                   (packerLog st)))
  ∧ (∀ fuel target t rt st,
       lookupEntry (t, rt) (resMap st) = None →
       assign (S fuel) target t rt st =
        (r <~ makeExec env schema directives useFieldResolvers packerError
                (assign fuel) fuel t rt
                (mkState (heap st) (resMap st ++ [((t, rt), mkEntry RNil [])])
                   (packerLog st)) ;;
         Ok (tt, mkState (heap (snd r))
                   (updateEntry (t, rt)
                      (fun r => mkEntry (exec r) (targets r ++ [target]))
                      (updateEntry (t, rt) (fun r' => mkEntry (fst r) (targets r'))
                         (resMap (snd r))))
                   (packerLog (snd r)))))
  ∧ (∀ fuel target t rt st st' st'',
       wf st → fresh target st →
       assign fuel target t rt st = Ok (tt, st') →
       finish packerFinish st' = Ok (tt, st'') →
       (∃ e, lookupEntry (t, rt) (resMap st') = Some e ∧ target ∈ targets e)
       ∧ (∀ ke tg, ke ∈ resMap st' → tg ∈ targets (snd ke) →
            ∃ c, heap st'' !! tg = Some c ∧ slot c = Some (exec (snd ke)))
       ∧ (∀ entries, entries ≡ₚ resMap st' →
            foldl (fun h ke => patch h (snd ke)) (heap st') entries = heap st'')).
Proof.
  intros assign. split; [|split; [|split]].
  - intros TS RS d HT HR Hd. split.
    + intros fuel target t rt st Ht Hrt Hwf Hfresh Hfuel.
      apply (assignExec_terminates env schema directives useFieldResolvers packerError
               TS RS d); assumption.
    + intros Meta newMeta resolver visitors fuel Hroots Hroles Hfuel.
      unfold ApplyResolver, rbind.
      destruct (applyDirectives schema visitors) as [ds| | |] eqn:Hds; try discriminate.
      2:{ exfalso. eapply applyDirectives_no_oof, Hds. }
      destruct (rootResolver env resolver Query) as [q| | |] eqn:Hq; try discriminate.
      2:{ exfalso. eapply rootResolver_no_oof, Hq. }
      destruct (rootResolver env resolver Mutation) as [m| | |] eqn:Hm; try discriminate.
      2:{ exfalso. eapply rootResolver_no_oof, Hm. }
      destruct (rootResolver env resolver Subscription) as [sub| | |] eqn:Hs;
        try discriminate.
      2:{ exfalso. eapply rootResolver_no_oof, Hs. }
      assert (Hops : ∀ op, op = Query ∨ op = Mutation ∨ op = Subscription →
                           op ∈ [Query; Mutation; Subscription]).
      { intros op Hop. rewrite !elem_of_cons. tauto. }
      pose proof (bindRoots_terminates env packerError packerFinish schema ds
                    useFieldResolvers fuel resolver q m sub TS RS d HT HR Hd Hroots
                    (Hroles Query q (Hops Query (or_introl eq_refl)) Hq)
                    (Hroles Mutation m
                       (Hops Mutation (or_intror (or_introl eq_refl))) Hm)
                    (Hroles Subscription sub
                       (Hops Subscription (or_intror (or_intror eq_refl))) Hs)
                    Hfuel) as Hb.
      destruct (bindRoots _ _ _ _ _ _ _ _ _ _ _ _) as [[[[a b] c] st]| | |];
        try discriminate; [|contradiction].
      destruct (newMeta schema); discriminate.
  - intros fuel target t rt st r Hl. unfold assign. rewrite assignExec_S, Hl.
    reflexivity.
  - intros fuel target t rt st Hl. unfold assign. rewrite assignExec_S, Hl.
    unfold rbind. destruct (makeExec _ _ _ _ _ _ _ _ _ _) as [[e st2]| | |];
      reflexivity.
  - intros fuel target t rt st st' st'' Hwf Hfresh Ha Hf.
    destruct (assignExec_invariant _ _ _ _ _ _ _ _ _ _ _ Hwf Hfresh Ha) as [Hwf' _].
    destruct (finish_patches packerFinish st' st'' Hwf' Hf) as (Hr & Hp & _).
    split; [exact (assignExec_records _ _ _ _ _ _ _ _ _ _ _ Hwf Ha)|]. split; [exact Hp|].
    intros entries Hperm.
    rewrite (finish_order_irrelevant st' entries Hwf' Hperm).
    unfold finish in Hf. destruct (packerFinish (packerLog st')); [discriminate|].
    inversion Hf. reflexivity.
Qed.

Lemma wf_rootsState : wf rootsState.
Proof. constructor; simpl; [constructor|]. intros tg H. inversion H. Qed.

Lemma fresh_rootsState i : i < 3 → fresh i rootsState.
Proof.
  intros Hi. split; [|simpl; apply not_elem_of_nil].
  destruct i as [|[|[|i]]]; try lia; simpl; eauto.
Qed.

Lemma memoised_binding_witness :
  ApplyResolver SelfRef.env SelfRef.noPackerError SelfRef.packerFinishes unit
    (fun _ => Returns tt) SelfRef.schema (Some SelfRef.resolver) [] false 11 ≠ OutOfFuel
  ∧ ∃ st' st'' c0 c3,
      assignExec SelfRef.env SelfRef.schema ∅ false SelfRef.noPackerError 10 0 0
        (TPtr SelfRef.R) rootsState = Ok (tt, st')
      ∧ finish SelfRef.packerFinishes st' = Ok (tt, st'')
      ∧ heap st'' !! 0 = Some c0 ∧ slot c0 = Some (RObject 6)
      ∧ heap st'' !! 3 = Some c3 ∧ slot c3 = Some (RObject 6)
      ∧ (∃ o, heap st'' !! 6 = Some (CObject o) ∧ o_Fields o !! "self" = Some 3).
Proof.
  destruct (memoised_binding SelfRef.env SelfRef.schema ∅ false SelfRef.noPackerError
              SelfRef.packerFinishes) as (Hterm & _ & _ & Hshare).
  split.
  - destruct (Hterm SelfRef.TS SelfRef.RS 1) as [_ Happly].
    + reflexivity.
    + reflexivity.
    + intros rt Hin. unfold SelfRef.RS in Hin. rewrite !elem_of_cons in Hin.
      destruct Hin as [->|[->|[->|Hin]]]; [reflexivity..|inversion Hin].
    + apply Happly.
      * intros key t Hl. unfold SelfRef.schema in Hl. simpl in Hl.
        destruct (decide (key = "query")) as [->|Hne].
        -- rewrite lookup_singleton_eq in Hl. inversion Hl. apply list_elem_of_here.
        -- rewrite lookup_singleton_ne in Hl by congruence. discriminate.
      * intros op r Hop Hr. rewrite !elem_of_cons in Hop.
        destruct Hop as [->|[->|[->|Hop]]]; [| | |inversion Hop];
          vm_compute in Hr; inversion Hr; apply list_elem_of_here.
      * vm_compute. lia.
  - eexists. eexists. eexists. eexists.
    split; [vm_compute; reflexivity|].
    split; [vm_compute; reflexivity|].
    match goal with |- ?h !! 0 = _ ∧ _ => set (heap'' := h) end.
    assert (Hpatched : ∀ tg, tg ∈ [3; 0] → ∃ c, heap'' !! tg = Some c
                                                  ∧ slot c = Some (RObject 6)).
    { intros tg Htg.
      eapply (Hshare 10 0 0 (TPtr SelfRef.R) rootsState _ _ wf_rootsState
                (fresh_rootsState 0 ltac:(lia))) with (ke := (_, mkEntry (RObject 6) [3; 0]));
        [vm_compute; reflexivity|vm_compute; reflexivity| |exact Htg].
      apply list_elem_of_here. }
    destruct (Hpatched 0) as (c0 & Hc0 & Hs0);
      [apply list_elem_of_further, list_elem_of_here|].
    destruct (Hpatched 3) as (c3 & Hc3 & Hs3); [apply list_elem_of_here|].
    vm_compute in Hc0. inversion Hc0; subst c0.
    vm_compute in Hc3. inversion Hc3; subst c3.
    split; [vm_compute; reflexivity|]. split; [exact Hs0|].
    split; [vm_compute; reflexivity|]. split; [exact Hs3|].
    eexists. split; [vm_compute; reflexivity|]. vm_compute. reflexivity.
Defined.


(** ** The signature of a resolver method *)

(** The checks of [makeFieldExec] on a method, case by case; [params] are
    the parameters after the receiver. *)
Lemma makeFieldExec_method_cases packerError f m (recv : bool) r params st :
  m_In m = (if recv then [r] else []) ++ params →
  let hasContext := bool_decide (head params = Some contextType) in
  let rest := if hasContext then tail params else params in
  makeFieldExec_method packerError f m recv st =
    match fd_Arguments f, rest with
    | [], [] => checkedReturns m None hasContext st
    | [], _ :: _ => Err "too many arguments"
    | _ :: _, [] => Err "must have `args struct { ... }` argument for field arguments"
    | _ :: _, a0 :: more =>
        match packerError (fd_Arguments f) a0 with
        | Some e => Err e
        | None =>
            match more with
            | [] => checkedReturns m (Some (fd_Arguments f, a0)) hasContext
                      (mkState (heap st) (resMap st)
                         (packerLog st ++ [(fd_Arguments f, a0)]))
            | _ :: _ => Err "too many arguments"
            end
        end
    end.
Proof.
  intros Hin hasContext rest.
  assert (Hret : ∀ p st',
    (if bool_decide (length (m_Out m) < 2 - 1) then fail "too few return values"
     else if bool_decide (2 < length (m_Out m)) then fail "too many return values"
     else if bool_decide (length (m_Out m) = 2)
             && negb (bool_decide (m_Out m !! (2 - 1) = Some errorType))
          then fail ("must have " +:+ quote "error" +:+ " as its last return value")
          else ret (p, bool_decide (length (m_Out m) = 2), hasContext)) st'
    = checkedReturns m p hasContext st').
  { intros p st'. unfold checkedReturns.
    destruct (m_Out m) as [|o1 [|o2 [|o3 outs]]]; try reflexivity.
    simpl. destruct (decide (o2 = errorType)) as [->|Hne].
    - rewrite bool_decide_eq_true_2 by reflexivity. reflexivity.
    - rewrite bool_decide_eq_false_2 by congruence. reflexivity. }
  unfold makeFieldExec_method.
  assert (Hdrop : (if recv then dropFirst (m_In m) else Ok (m_In m)) = Ok params).
  { rewrite Hin. destruct recv; reflexivity. }
  unfold bind at 1, lift, rbind. rewrite Hdrop. simpl.
  fold hasContext. fold rest.
  destruct (fd_Arguments f) as [|a args] eqn:Hargs; simpl.
  - unfold bind, ret, rbind. simpl.
    destruct rest as [|x more]; simpl; [apply Hret|reflexivity].
  - destruct rest as [|a0 more]; simpl; [reflexivity|].
    unfold bind, MakeStructPacker, rbind, ret.
    destruct (packerError (a :: args) a0); simpl; [reflexivity|].
    destruct more; simpl; [apply Hret|reflexivity].
Qed.

Lemma makeFieldExec_method_fails env schema directives packerError rec typeName f m sf
    methodIndex fieldIndex recv st :
  methodIndex ≠ (-1)%Z →
  is_Ok (makeFieldExec_method packerError f m recv st) = false →
  makeFieldExec env schema directives packerError rec typeName f m sf methodIndex
    fieldIndex recv st
  = match makeFieldExec_method packerError f m recv st with
    | Ok _ => OutOfFuel
    | Err e => Err e
    | Panic e => Panic e
    | OutOfFuel => OutOfFuel
    end.
Proof.
  intros Hidx Hbad. unfold makeFieldExec. unfold bind at 1, rbind.
  rewrite decide_True by assumption.
  destruct (makeFieldExec_method packerError f m recv st); try reflexivity.
  discriminate.
Qed.

(** A bound field: the cell [makeFieldExec] returns holds what the checks
    found. *)
Lemma makeFieldExec_bound env schema directives useFieldResolvers packerError fuel
    typeName f m sf methodIndex fieldIndex recv st fe st' :
  wf st →
  makeFieldExec env schema directives packerError
    (assignExec env schema directives useFieldResolvers packerError fuel)
    typeName f m sf methodIndex fieldIndex recv st = Ok (fe, st') →
  ∃ argsPacker hasError hasContext directivesPackers st1,
    (if decide (methodIndex ≠ (-1)%Z)
     then makeFieldExec_method packerError f m recv st
          = Ok ((argsPacker, hasError, hasContext), st1)
     else (argsPacker, hasError, hasContext) = (None, false, false))
    ∧ fe = length (heap st)
    ∧ heap st' !! fe =
        Some (CField (mkField f typeName methodIndex fieldIndex hasContext hasError
                        argsPacker directivesPackers RNil
                        ("GraphQL field: " +:+ typeName +:+ "." +:+ fd_Name f))).
Proof.
  intros Hwf. unfold makeFieldExec. unfold bind at 1, rbind.
  set (chk := (if decide (methodIndex ≠ (-1)%Z)
               then makeFieldExec_method packerError f m recv
               else ret (None, false, false)) st).
  assert (Hshape : match chk with Ok (_, st1) => sameShape st st1 | _ => True end).
  { subst chk. case_decide.
    - pose proof (makeFieldExec_method_shape packerError f m recv st) as H'.
      destruct (makeFieldExec_method packerError f m recv st) as [[? ?]| | |];
        try exact I; assumption.
    - simpl. split; reflexivity. }
  destruct chk as [[[[argsPacker hasError] hasContext] st1]| | |] eqn:Hchk;
    try discriminate.
  cbn [fst snd]. unfold bind at 1, rbind.
  pose proof (makeFieldExec_directives_shape schema directives packerError f
                (fd_Directives f) ∅ st1) as Hd.
  destruct (makeFieldExec_directives _ _ _ _ _ _ st1) as [[dp st2]| | |];
    try discriminate.
  cbn [fst snd]. unfold bind at 1, alloc, rbind. cbn [fst snd].
  set (cell := CField _).
  set (st3 := mkState (heap st2 ++ [cell]) (resMap st2) (packerLog st2)).
  unfold bind at 1, rbind.
  destruct ((if decide (methodIndex ≠ (-1)%Z) then _ else ret (sf_Type sf)) st3)
    as [[out st4]| | |] eqn:Hout; try discriminate.
  assert (st4 = st3) as ->.
  { revert Hout. case_decide.
    - unfold bind, lift, rbind, ret. destruct (Out0 m); try discriminate. simpl.
      destruct (RootOperationTypes schema !! "subscription"); simpl.
      + destruct (TypeName schema t); try discriminate. simpl.
        destruct (_ && _); simpl.
        * destruct (Elem env a); try discriminate. simpl.
          intros E; inversion E; reflexivity.
        * intros E; inversion E; reflexivity.
      + intros E; inversion E; reflexivity.
    - simpl. intros E; inversion E; reflexivity. }
  cbn [fst snd]. unfold bind at 1, rbind.
  destruct (assignExec _ _ _ _ _ _ _ _ _ st3) as [[[] st5]| | |] eqn:Ha; try discriminate.
  simpl. intros E. inversion E; subst fe st'. clear E.
  assert (Hwf2 : wf st2).
  { eapply sameShape_wf; [exact Hd|]. eapply sameShape_wf; [exact Hshape|exact Hwf]. }
  assert (Hlen : length (heap st2) = length (heap st)).
  { destruct Hd as [-> _]. destruct Hshape as [-> _]. reflexivity. }
  apply assignExec_invariant in Ha as [_ Hext].
  2:{ subst st3. apply alloc_wf. assumption. }
  2:{ subst st3. apply alloc_fresh; [assumption|]. subst cell. simpl. eauto. }
  exists argsPacker, hasError, hasContext, dp, st1.
  split; [|split; [exact Hlen|]].
  - revert Hchk. subst chk. case_decide; [tauto|]. simpl.
    intros E. inversion E. reflexivity.
  - eapply prefix_lookup_Some; [|exact (ext_heap _ _ _ Hext)].
    subst st3. simpl. rewrite lookup_app_r by lia. rewrite Nat.sub_diag. reflexivity.
Qed.

(** The steps of [makeFieldExec] after the checks of the method. *)
Lemma makeFieldExec_runs env schema directives packerError rec typeName f m sf
    methodIndex fieldIndex recv st argsPacker hasError hasContext st1 dp st2 out st3 :
  methodIndex ≠ (-1)%Z →
  makeFieldExec_method packerError f m recv st
  = Ok ((argsPacker, hasError, hasContext), st1) →
  makeFieldExec_directives schema directives packerError f (fd_Directives f) ∅ st1
  = Ok (dp, st2) →
  (o <~ Out0 m ;;
   match RootOperationTypes schema !! "subscription" with
   | Some sub =>
       subName <~ TypeName schema sub ;;
       if bool_decide (typeName = subName) && bool_decide (Kind_ env o = KChan)
       then Elem env o else Ok o
   | None => Ok o
   end) = Ok out →
  rec (length (heap st2)) (fd_Type f) out
    (mkState
       (heap st2 ++
        [CField (mkField f typeName methodIndex fieldIndex hasContext hasError
                   argsPacker dp RNil
                   ("GraphQL field: " +:+ typeName +:+ "." +:+ fd_Name f))])
       (resMap st2) (packerLog st2))
  = Ok (tt, st3) →
  makeFieldExec env schema directives packerError rec typeName f m sf methodIndex
    fieldIndex recv st
  = Ok (length (heap st2), st3).
Proof.
  intros Hidx Hchk Hdirs Hout Hrec. unfold makeFieldExec.
  unfold bind at 1, rbind. rewrite decide_True by assumption. rewrite Hchk.
  cbn [fst snd]. unfold bind at 1, rbind. rewrite Hdirs. cbn [fst snd].
  unfold bind at 1, alloc, rbind. cbn [fst snd].
  unfold bind at 1, rbind. rewrite decide_True by assumption.
  unfold rbind in Hout.
  unfold bind at 1, lift, rbind.
  destruct (Out0 m) as [o| | |]; try discriminate. cbn [fst snd].
  destruct (RootOperationTypes schema !! "subscription") as [sub|].
  - unfold bind at 1, lift, rbind.
    destruct (TypeName schema sub) as [subName| | |]; try discriminate. cbn [fst snd].
    destruct (bool_decide (typeName = subName) && bool_decide (Kind_ env o = KChan)).
    + unfold lift, rbind. rewrite Hout. cbn [fst snd].
      unfold bind at 1, rbind. rewrite Hrec. reflexivity.
    + inversion Hout; subst out. unfold ret. cbn [fst snd].
      unfold bind at 1, rbind. rewrite Hrec. reflexivity.
  - inversion Hout; subst out. unfold ret. cbn [fst snd].
    unfold bind at 1, rbind. rewrite Hrec. reflexivity.
Qed.

(** C3 (amended): the signature a resolver method must have.  With the
    receiver excluded (when the resolver type is no interface) and a leading
    [context.Context] consumed (recorded in [HasContext]): a field with
    arguments fails when no parameter remains for them; a parameter that
    remains after the one (if any) that takes the arguments makes binding
    fail; a field without arguments on a method without further parameters
    passes, and so does a field with arguments on a method whose one
    remaining parameter the packer builder accepts.  The method must return
    one or two values: none or more than two fail, and a second value must
    be of type [error] (recorded in [HasError]).  A method of such a
    signature passes the checks, with or without the leading context, and
    the field then binds when its directives and the type of its value do;
    the node records what the checks found. *)
Theorem field_method_signature env schema directives useFieldResolvers packerError fuel
    typeName f m sf methodIndex fieldIndex (recv : bool) r params st
    (Hidx : methodIndex ≠ (-1)%Z)
    (Hin : m_In m = (if recv then [r] else []) ++ params) :
  let hasContext := bool_decide (head params = Some contextType) in
  let rest := if hasContext then tail params else params in
  let rec := assignExec env schema directives useFieldResolvers packerError fuel in
  let run :=
    makeFieldExec env schema directives packerError rec
      typeName f m sf methodIndex fieldIndex recv st in
  let accepted :=
    match fd_Arguments f, rest with
    | [], [] => true
    | _ :: _, [a0] => bool_decide (packerError (fd_Arguments f) a0 = None)
    | _, _ => false
    end in
  let argsPacker :=
    match fd_Arguments f, rest with
    | _ :: _, a0 :: _ => Some (fd_Arguments f, a0)
    | _, _ => None
    end in
  let hasError := bool_decide (length (m_Out m) = 2) in
  let checked :=
    match argsPacker with
    | Some p => mkState (heap st) (resMap st) (packerLog st ++ [p])
    | None => st
    end in
  (fd_Arguments f ≠ [] → rest = [] →
   run = Err "must have `args struct { ... }` argument for field arguments")
  ∧ (fd_Arguments f = [] → rest ≠ [] → run = Err "too many arguments")
  ∧ (∀ a0 more, fd_Arguments f ≠ [] → rest = a0 :: more → more ≠ [] →
       packerError (fd_Arguments f) a0 = None → run = Err "too many arguments")
  ∧ (accepted = false → is_Ok run = false)
  ∧ (accepted = true → m_Out m = [] → run = Err "too few return values")
  ∧ (accepted = true → 2 < length (m_Out m) → run = Err "too many return values")
  ∧ (accepted = true → ∀ o1 o2, m_Out m = [o1; o2] → o2 ≠ errorType →
     run = Err ("must have " +:+ quote "error" +:+ " as its last return value"))
  ∧ (accepted = true →
     (length (m_Out m) = 1 ∨ ∃ o1, m_Out m = [o1; errorType]) →
     makeFieldExec_method packerError f m recv st
     = Ok ((argsPacker, hasError, hasContext), checked)
     ∧ ∀ dp st2 out st3,
         makeFieldExec_directives schema directives packerError f (fd_Directives f) ∅
           checked = Ok (dp, st2) →
         (o <~ Out0 m ;;
          match RootOperationTypes schema !! "subscription" with
          | Some sub =>
              subName <~ TypeName schema sub ;;
              if bool_decide (typeName = subName) && bool_decide (Kind_ env o = KChan)
              then Elem env o else Ok o
          | None => Ok o
          end) = Ok out →
         rec (length (heap st2)) (fd_Type f) out
           (mkState
              (heap st2 ++
               [CField (mkField f typeName methodIndex fieldIndex hasContext hasError
                          argsPacker dp RNil
                          ("GraphQL field: " +:+ typeName +:+ "." +:+ fd_Name f))])
              (resMap st2) (packerLog st2))
         = Ok (tt, st3) →
         run = Ok (length (heap st2), st3))
  ∧ (∀ fe st', wf st → run = Ok (fe, st') →
       accepted = true
       ∧ (length (m_Out m) = 1 ∨ ∃ o1, m_Out m = [o1; errorType])
       ∧ ∃ fld, heap st' !! fe = Some (CField fld)
           ∧ f_MethodIndex fld = methodIndex
           ∧ f_HasContext fld = hasContext
           ∧ f_HasError fld = hasError
           ∧ f_ArgsPacker fld = argsPacker).
Proof.
  intros hasContext rest rec run accepted argsPacker hasError checked.
  pose proof (makeFieldExec_method_cases packerError f m recv r params st Hin) as Hc.
  cbv zeta in Hc. fold hasContext in Hc. fold rest in Hc.
  assert (Hfail : ∀ e, makeFieldExec_method packerError f m recv st = Err e →
                       run = Err e).
  { intros e He. unfold run.
    rewrite (makeFieldExec_method_fails env schema directives packerError _ typeName f m
               sf methodIndex fieldIndex recv st Hidx); rewrite He; reflexivity. }
  split; [|split; [|split; [|split; [|split; [|split; [|split; [|split]]]]]]].
  - intros Hargs Hrest. apply Hfail. rewrite Hc, Hrest.
    destruct (fd_Arguments f); [contradiction|reflexivity].
  - intros Hargs Hrest. apply Hfail. rewrite Hc, Hargs.
    destruct rest; [contradiction|reflexivity].
  - intros a0 more Hargs Hrest Hmore Hp. apply Hfail. rewrite Hc, Hrest, Hp.
    destruct (fd_Arguments f); [contradiction|].
    destruct more; [contradiction|reflexivity].
  - intros Hacc. unfold run.
    assert (Hbad : is_Ok (makeFieldExec_method packerError f m recv st) = false).
    { rewrite Hc. subst accepted.
      destruct (fd_Arguments f) as [|a args]; destruct rest as [|a0 [|a1 more]];
        try discriminate; try reflexivity.
      - apply bool_decide_eq_false in Hacc.
        destruct (packerError (a :: args) a0); [reflexivity|contradiction].
      - destruct (packerError (a :: args) a0); reflexivity. }
    rewrite (makeFieldExec_method_fails env schema directives packerError _ typeName f m
               sf methodIndex fieldIndex recv st Hidx Hbad).
    destruct (makeFieldExec_method packerError f m recv st); reflexivity.
  - intros Hacc Hout. apply Hfail. rewrite Hc. unfold checkedReturns. rewrite Hout.
    subst accepted.
    destruct (fd_Arguments f) as [|a args]; destruct rest as [|a0 [|a1 more]];
      try discriminate; try reflexivity.
    apply bool_decide_eq_true in Hacc. rewrite Hacc. reflexivity.
  - intros Hacc Hout. apply Hfail. rewrite Hc. subst accepted.
    assert (Hret : ∀ p st',
      checkedReturns m p hasContext st' = Err "too many return values").
    { intros p st'. unfold checkedReturns.
      destruct (m_Out m) as [|o1 [|o2 [|o3 outs]]]; simpl in Hout; try lia.
      reflexivity. }
    destruct (fd_Arguments f) as [|a args]; destruct rest as [|a0 [|a1 more]];
      try discriminate; try apply Hret.
    apply bool_decide_eq_true in Hacc. rewrite Hacc. apply Hret.
  - intros Hacc o1 o2 Hout Hne. apply Hfail. rewrite Hc. unfold checkedReturns.
    rewrite Hout. subst accepted.
    destruct (decide (o2 = errorType)) as [?|_]; [contradiction|].
    destruct (fd_Arguments f) as [|a args]; destruct rest as [|a0 [|a1 more]];
      try discriminate; try reflexivity.
    apply bool_decide_eq_true in Hacc. rewrite Hacc. reflexivity.
  - intros Hacc Hout.
    assert (Hret : ∀ p st0,
      checkedReturns m p hasContext st0 = Ok ((p, hasError, hasContext), st0)).
    { intros p st0. unfold checkedReturns, hasError.
      destruct Hout as [Hone|[o1 Htwo]].
      - destruct (m_Out m) as [|o1 [|o2 outs]]; try discriminate. reflexivity.
      - rewrite Htwo. rewrite decide_True by reflexivity. reflexivity. }
    assert (Hchk : makeFieldExec_method packerError f m recv st
                   = Ok ((argsPacker, hasError, hasContext), checked)).
    { rewrite Hc. subst accepted argsPacker checked.
      destruct (fd_Arguments f) as [|a args]; destruct rest as [|a0 [|a1 more]];
        try discriminate.
      - apply Hret.
      - apply bool_decide_eq_true in Hacc. rewrite Hacc. apply Hret. }
    split; [exact Hchk|].
    intros dp st2 out st3 Hdirs Hval Hrec. unfold run.
    eapply makeFieldExec_runs; eassumption.
  - intros fe st' Hwf Hrun.
    destruct (makeFieldExec_bound env schema directives useFieldResolvers packerError
                fuel typeName f m sf methodIndex fieldIndex recv st fe st' Hwf Hrun)
      as (argsPacker' & hasError' & hasContext' & dp & st1 & Hchk & _ & Hcell).
    rewrite decide_True in Hchk by assumption. rewrite Hc in Hchk.
    assert (Hret : ∀ p st0,
      checkedReturns m p hasContext st0
      = Ok ((argsPacker', hasError', hasContext'), st1) →
      (length (m_Out m) = 1 ∨ ∃ o1, m_Out m = [o1; errorType])
      ∧ p = argsPacker' ∧ hasContext' = hasContext
      ∧ hasError' = hasError).
    { intros p st0. unfold checkedReturns, hasError.
      destruct (m_Out m) as [|o1 [|o2 [|o3 outs]]]; try discriminate.
      - intros E. inversion E; subst. simpl. tauto.
      - destruct (decide (o2 = errorType)) as [->|Hne]; [|discriminate].
        intros E. inversion E; subst. simpl. split; [right; eauto|tauto]. }
    assert (Hall : accepted = true
                   ∧ (length (m_Out m) = 1 ∨ ∃ o1, m_Out m = [o1; errorType])
                   ∧ argsPacker' = argsPacker
                   ∧ hasContext' = hasContext
                   ∧ hasError' = hasError).
    { subst accepted argsPacker.
      destruct (fd_Arguments f) as [|a args]; destruct rest as [|a0 [|a1 more]];
        try discriminate.
      - apply Hret in Hchk as (H1 & <- & H3 & H4). tauto.
      - destruct (packerError (a :: args) a0) eqn:Hp; [discriminate|].
        apply Hret in Hchk as (H1 & <- & H3 & H4).
        rewrite bool_decide_eq_true_2 by reflexivity. tauto.
      - destruct (packerError (a :: args) a0); discriminate. }
    destruct Hall as (H1 & H2 & H3 & H4 & H5).
    split; [exact H1|]. split; [exact H2|].
    eexists. split; [exact Hcell|]. simpl. subst. tauto.
Qed.

Lemma hello_bound :
  makeFieldExec Hello.env Hello.schema ∅ Hello.noPackerError
    (assignExec Hello.env Hello.schema ∅ false Hello.noPackerError 3)
    "Query" Hello.hello Hello.Hello zeroStructField 0%Z [] true emptyState
  = Ok (0, mkState
             [CField (mkField Hello.hello "Query" 0%Z [] false false None ∅ RNil
                        "GraphQL field: Query.hello");
              CScalar]
             [((2, stringType), mkEntry (RScalar 1) [0])]
             []).
Proof. reflexivity. Qed.

(** A field without arguments on a method that has no parameter besides the
    receiver binds: no parameter remains, the field declares none, and
    [makeFieldExec] succeeds. *)
Lemma no_parameters_no_arguments_binds :
  fd_Arguments Hello.hello = []
  ∧ tail (m_In Hello.Hello) = []
  ∧ is_Ok (makeFieldExec Hello.env Hello.schema ∅ Hello.noPackerError
             (assignExec Hello.env Hello.schema ∅ false Hello.noPackerError 3)
             "Query" Hello.hello Hello.Hello zeroStructField 0%Z [] true emptyState)
    = true.
Proof. rewrite hello_bound. repeat split. Qed.

(** [Greet] takes a context and the arguments and returns a string and an
    error: the field binds, and its node records all three. *)
Lemma field_method_signature_witness :
  ∃ st' fld,
    makeFieldExec Greet.env Greet.schema ∅ Greet.noPackerError
      (assignExec Greet.env Greet.schema ∅ false Greet.noPackerError 3)
      "Query" Greet.greet Greet.Greet zeroStructField 0%Z [] true emptyState
    = Ok (0, st')
    ∧ heap st' !! 0 = Some (CField fld)
    ∧ f_HasContext fld = true
    ∧ f_HasError fld = true
    ∧ f_ArgsPacker fld = Some ([mkInputValue "name" 2], Greet.Args).
Proof.
  destruct (field_method_signature Greet.env Greet.schema ∅ false Greet.noPackerError 3
              "Query" Greet.greet Greet.Greet zeroStructField 0%Z [] true
              (TPtr Greet.R) [contextType; Greet.Args] emptyState
              ltac:(discriminate) eq_refl)
    as (_ & _ & _ & _ & _ & _ & _ & Hpass & Hok).
  destruct (Hpass eq_refl (or_intror (ex_intro _ stringType eq_refl))) as [_ Hbinds].
  pose proof (fun st3 => Hbinds ∅ _ stringType st3 eq_refl eq_refl) as Hb.
  eassert (Hrun : makeFieldExec Greet.env Greet.schema ∅ Greet.noPackerError
                    (assignExec Greet.env Greet.schema ∅ false Greet.noPackerError 3)
                    "Query" Greet.greet Greet.Greet zeroStructField 0%Z [] true
                    emptyState = Ok (0, _)).
  { apply Hb. vm_compute. reflexivity. }
  destruct (Hok 0 _ ltac:(constructor; simpl; [constructor|intros ? H; inversion H])
              Hrun)
    as (_ & _ & fld & Hcell & _ & Hctx & Herr & Hargs).
  eexists. exists fld. split; [exact Hrun|]. split; [exact Hcell|].
  split; [exact Hctx|]. split; [exact Herr|exact Hargs].
Defined.


(** ** Conversion methods of interfaces and unions *)

(** One round of the loop over the possible types. *)
Lemma makeObjectExec_assertions_cons env schema rec typeName resolverType (recv : bool)
    impl rest acc st name :
  implName schema impl = Ok name →
  let methodIndex := findMethod env resolverType ("To" +:+ name) in
  makeObjectExec_assertions env schema rec typeName resolverType recv (impl :: rest)
    acc st =
    if bool_decide (methodIndex = (-1)%Z) then
      Err (rtype_String resolverType +:+ " does not resolve " +:+ quote typeName
             +:+ ": missing method " +:+ quote ("To" +:+ name)
             +:+ " to convert to " +:+ quote name)
    else
      m <~ Method_ env resolverType methodIndex ;;
      if negb (bool_decide (length (m_In m) = if recv then 1 else 0)) then
        Err (rtype_String resolverType +:+ " does not resolve " +:+ quote typeName
               +:+ ": method " +:+ quote ("To" +:+ name)
               +:+ " should't have any arguments")
      else if negb (bool_decide (length (m_Out m) = 2)) then
        Err (rtype_String resolverType +:+ " does not resolve " +:+ quote typeName
               +:+ ": method " +:+ quote ("To" +:+ name)
               +:+ " should return a value and a bool indicating success")
      else
        out <~ Out0 m ;;
        let a := length (heap st) in
        r <~ rec a impl out
               (mkState (heap st ++ [CTypeAssertion (mkTypeAssertion methodIndex RNil)])
                  (resMap st) (packerLog st)) ;;
        makeObjectExec_assertions env schema rec typeName resolverType recv rest
          (<[name := a]> acc) (snd r).
Proof.
  intros Hname methodIndex. simpl.
  unfold bind at 1, lift, rbind. rewrite Hname. simpl. fold methodIndex.
  destruct (bool_decide (methodIndex = (-1)%Z)); [reflexivity|].
  unfold bind at 1, lift, rbind.
  destruct (Method_ env resolverType methodIndex) as [m| | |]; try reflexivity. simpl.
  destruct (negb _); [reflexivity|]. destruct (negb _); [reflexivity|].
  unfold bind at 1, alloc, rbind. simpl.
  unfold bind at 1, lift, rbind.
  destruct (Out0 m) as [out| | |]; reflexivity.
Qed.

Lemma makeObjectExec_assertions_missing env schema rec typeName resolverType recv
    possibleTypes acc st impl name :
  impl ∈ possibleTypes → implName schema impl = Ok name →
  findMethod env resolverType ("To" +:+ name) = (-1)%Z →
  is_Ok (makeObjectExec_assertions env schema rec typeName resolverType recv
           possibleTypes acc st) = false.
Proof.
  intros Hin Hname Hidx. revert acc st.
  induction possibleTypes as [|impl' rest IH]; intros acc st; [inversion Hin|].
  destruct (implName schema impl') as [name'| | |] eqn:Hname'.
  2,3,4: simpl; unfold bind at 1, lift, rbind; rewrite Hname'; reflexivity.
  rewrite (makeObjectExec_assertions_cons env schema rec typeName resolverType recv
             impl' rest acc st name' Hname').
  apply elem_of_cons in Hin as [->|Hin].
  - assert (name' = name) as -> by congruence.
    rewrite Hidx. reflexivity.
  - destruct (bool_decide _); [reflexivity|]. unfold rbind.
    destruct (Method_ _ _ _); try reflexivity.
    destruct (negb _); [reflexivity|]. destruct (negb _); [reflexivity|].
    destruct (Out0 _); try reflexivity.
    destruct (rec _ _ _ _) as [[? ?]| | |]; try reflexivity.
    apply IH. assumption.
Qed.

Lemma makeObjectExec_assertions_ok env schema rec typeName resolverType (recv : bool)
    possibleTypes acc st tas st' :
  makeObjectExec_assertions env schema rec typeName resolverType recv possibleTypes
    acc st = Ok (tas, st') →
  (∀ n, is_Some (acc !! n) → is_Some (tas !! n))
  ∧ ∀ impl, impl ∈ possibleTypes →
      ∃ name m o1 o2,
        implName schema impl = Ok name
        ∧ findMethod env resolverType ("To" +:+ name) ≠ (-1)%Z
        ∧ Method_ env resolverType (findMethod env resolverType ("To" +:+ name)) = Ok m
        ∧ length (m_In m) = (if recv then 1 else 0)
        ∧ m_Out m = [o1; o2]
        ∧ is_Some (tas !! name).
Proof.
  revert acc st. induction possibleTypes as [|impl rest IH]; intros acc st.
  { simpl. intros E. inversion E; subst. split; [tauto|]. intros impl H. inversion H. }
  destruct (implName schema impl) as [name| | |] eqn:Hname.
  2,3,4: simpl; unfold bind at 1, lift, rbind; rewrite Hname; discriminate.
  rewrite (makeObjectExec_assertions_cons env schema rec typeName resolverType recv
             impl rest acc st name Hname).
  destruct (bool_decide _) eqn:Hidx; [discriminate|]. unfold rbind.
  apply bool_decide_eq_false in Hidx.
  destruct (Method_ _ _ _) as [m| | |] eqn:Hm; try discriminate.
  destruct (negb _) eqn:Hin; [discriminate|].
  destruct (negb (bool_decide (length (m_Out m) = 2))) eqn:Hout; [discriminate|].
  apply negb_false_iff, bool_decide_eq_true in Hin, Hout.
  destruct (Out0 m) as [out| | |] eqn:Ho; try discriminate.
  destruct (rec _ _ _ _) as [[[] st1]| | |]; try discriminate.
  intros Hrest. apply IH in Hrest as [Hmono Hall]. split.
  - intros n Hn. apply Hmono. destruct (decide (name = n)) as [->|Hne].
    + rewrite lookup_insert_eq. eauto.
    + rewrite lookup_insert_ne by assumption. assumption.
  - intros impl' Himpl. apply elem_of_cons in Himpl as [->|Himpl]; [|apply Hall, Himpl].
    destruct (m_Out m) as [|o1 [|o2 [|o3 outs]]] eqn:Houts; try discriminate.
    exists name, m, o1, o2. repeat split; try assumption.
    apply Hmono. rewrite lookup_insert_eq. eauto.
Qed.

Lemma makeObjectExec_unfold env schema directives useFieldResolvers packerError rec fuel
    typeName fields possibleTypes (nonNull : bool) resolverType st :
  makeObjectExec env schema directives useFieldResolvers packerError rec fuel typeName
    fields possibleTypes nonNull resolverType st =
    if negb nonNull && negb (bool_decide (Kind_ env resolverType = KPointer))
       && negb (bool_decide (Kind_ env resolverType = KInterface))
    then Err (rtype_String resolverType +:+ " is not a pointer or interface")
    else
      let recv := negb (bool_decide (Kind_ env resolverType = KInterface)) in
      rt <~ unwrapPtr env resolverType ;;
      fieldsCount <~ fieldCount env fuel rt ∅ ;;
      bound <~ makeObjectExec_fields env schema directives useFieldResolvers packerError
                 rec fuel typeName resolverType rt recv fieldsCount fields ∅ st ;;
      converted <~
        (if negb useFieldResolvers
            || negb (bool_decide (Kind_ env resolverType = KInterface))
         then makeObjectExec_assertions env schema rec typeName resolverType recv
                possibleTypes ∅ (snd bound)
         else Ok (∅, snd bound)) ;;
      Ok (length (heap (snd converted)),
          mkState
            (heap (snd converted)
               ++ [CObject (mkObject typeName (fst bound) (fst converted))])
            (resMap (snd converted)) (packerLog (snd converted))).
Proof.
  unfold makeObjectExec. destruct (_ && _); [reflexivity|].
  unfold bind at 1, lift, rbind.
  destruct (unwrapPtr env resolverType) as [rt| | |]; try reflexivity. simpl.
  unfold bind at 1, lift, rbind.
  destruct (fieldCount env fuel rt ∅) as [fc| | |]; try reflexivity. simpl.
  unfold bind at 1, rbind.
  destruct (makeObjectExec_fields _ _ _ _ _ _ _ _ _ _ _ _ _ _ _) as [[Fields st1]| | |];
    try reflexivity. simpl.
  unfold bind at 1, rbind.
  destruct (_ || _); simpl; [|reflexivity].
  destruct (makeObjectExec_assertions _ _ _ _ _ _ _ _ _) as [[tas st2]| | |];
    reflexivity.
Qed.

(** C5: conversion methods.  When method resolvers are in effect or the
    resolver type is no interface, every possible type [Impl] of an interface
    or union needs a method that [findMethod] finds for "To" followed by
    [Impl]'s name: a possible type without one makes binding fail, and, once
    the fields are bound, the loop's error, which names the method and the
    type, is the error of binding.  The method must have no parameter besides
    the receiver and two results; the possible type is then bound against the
    first result's type.  A successful binding has such a method, and a type
    assertion, for every possible type. *)
Theorem conversion_methods env schema directives useFieldResolvers packerError fuel
    typeName fields possibleTypes nonNull resolverType st
    (Hguard : negb useFieldResolvers
              || negb (bool_decide (Kind_ env resolverType = KInterface)) = true) :
  let rec := assignExec env schema directives useFieldResolvers packerError fuel in
  let recv := negb (bool_decide (Kind_ env resolverType = KInterface)) in
  let run :=
    makeObjectExec env schema directives useFieldResolvers packerError rec fuel
      typeName fields possibleTypes nonNull resolverType st in
  let loop := makeObjectExec_assertions env schema rec typeName resolverType recv in
  (∀ impl name,
     impl ∈ possibleTypes → implName schema impl = Ok name →
     findMethod env resolverType ("To" +:+ name) = (-1)%Z →
     is_Ok run = false)
  ∧ (∀ impl rest acc st1 name,
       implName schema impl = Ok name →
       let methodIndex := findMethod env resolverType ("To" +:+ name) in
       loop (impl :: rest) acc st1 =
         if bool_decide (methodIndex = (-1)%Z) then
           Err (rtype_String resolverType +:+ " does not resolve " +:+ quote typeName
                  +:+ ": missing method " +:+ quote ("To" +:+ name)
                  +:+ " to convert to " +:+ quote name)
         else
           m <~ Method_ env resolverType methodIndex ;;
           if negb (bool_decide (length (m_In m) = if recv then 1 else 0)) then
             Err (rtype_String resolverType +:+ " does not resolve " +:+ quote typeName
                    +:+ ": method " +:+ quote ("To" +:+ name)
                    +:+ " should't have any arguments")
           else if negb (bool_decide (length (m_Out m) = 2)) then
             Err (rtype_String resolverType +:+ " does not resolve " +:+ quote typeName
                    +:+ ": method " +:+ quote ("To" +:+ name)
                    +:+ " should return a value and a bool indicating success")
           else
             out <~ Out0 m ;;
             let a := length (heap st1) in
             r <~ rec a impl out
                    (mkState
                       (heap st1 ++ [CTypeAssertion (mkTypeAssertion methodIndex RNil)])
                       (resMap st1) (packerLog st1)) ;;
             loop rest (<[name := a]> acc) (snd r))
  ∧ (∀ rt fieldsCount Fields st1 e,
       negb nonNull && negb (bool_decide (Kind_ env resolverType = KPointer))
         && negb (bool_decide (Kind_ env resolverType = KInterface)) = false →
       unwrapPtr env resolverType = Ok rt →
       fieldCount env fuel rt ∅ = Ok fieldsCount →
       makeObjectExec_fields env schema directives useFieldResolvers packerError rec fuel
         typeName resolverType rt recv fieldsCount fields ∅ st = Ok (Fields, st1) →
       loop possibleTypes ∅ st1 = Err e →
       run = Err e)
  ∧ (∀ p st', run = Ok (p, st') →
       ∃ o, heap st' !! p = Some (CObject o) ∧ o_Name o = typeName
         ∧ ∀ impl, impl ∈ possibleTypes →
             ∃ name m o1 o2,
               implName schema impl = Ok name
               ∧ findMethod env resolverType ("To" +:+ name) ≠ (-1)%Z
               ∧ Method_ env resolverType
                   (findMethod env resolverType ("To" +:+ name)) = Ok m
               ∧ length (m_In m) = (if recv then 1 else 0)
               ∧ m_Out m = [o1; o2]
               ∧ is_Some (o_TypeAssertions o !! name)).
Proof.
  intros rec recv run loop. split; [|split; [|split]].
  - intros impl name Hin Hname Hidx. unfold run. rewrite makeObjectExec_unfold.
    destruct (_ && _); [reflexivity|]. cbv zeta. unfold rbind.
    destruct (unwrapPtr env resolverType); try reflexivity.
    destruct (fieldCount env fuel a ∅); try reflexivity.
    destruct (makeObjectExec_fields _ _ _ _ _ _ _ _ _ _ _ _ _ _ _) as [[Fields st1]| | |];
      try reflexivity.
    rewrite Hguard. cbn [fst snd].
    pose proof (makeObjectExec_assertions_missing env schema rec typeName resolverType
                  recv possibleTypes ∅ st1 impl name Hin Hname Hidx) as Hbad.
    fold recv.
    destruct (makeObjectExec_assertions _ _ _ _ _ _ _ _ _) as [[? ?]| | |];
      try reflexivity. discriminate.
  - intros impl rest acc st1 name Hname.
    apply (makeObjectExec_assertions_cons env schema rec typeName resolverType recv
             impl rest acc st1 name Hname).
  - intros rt fieldsCount Fields st1 e Hnull Hrt Hfc Hfields Hloop.
    unfold run. rewrite makeObjectExec_unfold, Hnull. cbv zeta. unfold rbind.
    rewrite Hrt, Hfc, Hguard. fold recv. rewrite Hfields. cbn [fst snd].
    unfold loop in Hloop. rewrite Hloop. reflexivity.
  - intros p st'. unfold run. rewrite makeObjectExec_unfold.
    destruct (_ && _); [discriminate|]. cbv zeta. unfold rbind.
    destruct (unwrapPtr env resolverType); try discriminate.
    destruct (fieldCount env fuel a ∅); try discriminate.
    destruct (makeObjectExec_fields _ _ _ _ _ _ _ _ _ _ _ _ _ _ _) as [[Fields st1]| | |];
      try discriminate.
    rewrite Hguard. cbn [fst snd]. fold recv.
    destruct (makeObjectExec_assertions _ _ _ _ _ _ _ _ _) as [[tas st2]| | |] eqn:Hloop;
      try discriminate.
    cbn [fst snd]. intros E. inversion E; subst p st'. clear E.
    exists (mkObject typeName Fields tas). simpl.
    split; [rewrite lookup_app_r by lia; rewrite Nat.sub_diag; reflexivity|].
    split; [reflexivity|].
    apply makeObjectExec_assertions_ok in Hloop as [_ Hall]. exact Hall.
Qed.

Lemma conversion_methods_witness :
  makeObjectExec Poly.env Poly.schema ∅ false Poly.noPackerError
    (assignExec Poly.env Poly.schema ∅ false Poly.noPackerError 3) 3
    "Node" [] [1] false (TPtr Poly.Other) emptyState
  = Err ("*Other does not resolve " +:+ quote "Node" +:+ ": missing method "
           +:+ quote "ToUser" +:+ " to convert to " +:+ quote "User")
  ∧ ∃ o, heap (mkState [CTypeAssertion (mkTypeAssertion 0 RNil);
                        CObject (mkObject "User" ∅ ∅);
                        CObject (mkObject "Node" ∅ {["User" := 0]})]
                 [((1, TPtr Poly.UserR), mkEntry (RObject 1) [0])] []) !! 2
         = Some (CObject o)
       ∧ is_Some (o_TypeAssertions o !! "User").
Proof.
  pose proof (conversion_methods Poly.env Poly.schema ∅ false Poly.noPackerError 3
                "Node" [] [1] false (TPtr Poly.Other) emptyState eq_refl)
    as (_ & _ & Herr & _).
  pose proof (conversion_methods Poly.env Poly.schema ∅ false Poly.noPackerError 3
                "Node" [] [1] false (TPtr Poly.NodeR) emptyState eq_refl)
    as (_ & _ & _ & Hok).
  split.
  - apply (Herr Poly.Other ∅ ∅ emptyState); reflexivity.
  - destruct (Hok 2 _ eq_refl) as (o & Hcell & _ & Hall).
    exists o. split; [exact Hcell|].
    destruct (Hall 1 (list_elem_of_here _ _)) as (name & m & o1 & o2 & Hname & _ & _ & _ & _ & Hsome).
    inversion Hname; subst name. exact Hsome.
Defined.


(** ** Data members and embedded structs *)

Lemma isASCII_stripUnderscore s : isASCII s = true → isASCII (stripUnderscore s) = true.
Proof.
  unfold stripUnderscore. induction s as [|c s IH]; simpl; [reflexivity|].
  rewrite andb_true_iff. intros [Hc Hs].
  destruct (Ascii.eqb c "_"); [exact (IH Hs)|].
  simpl. rewrite Hc. exact (IH Hs).
Qed.

Lemma equalFoldASCII_lowerASCII s t :
  equalFoldASCII s t = true ↔ lowerASCII s = lowerASCII t.
Proof.
  revert t. induction s as [|a s IH]; intros [|b t]; simpl; try (split; congruence).
  rewrite andb_true_iff, IH, Ascii.eqb_eq. split.
  - intros [-> ->]. reflexivity.
  - intros E. inversion E. tauto.
Qed.

(** On ASCII text [EqualFold] compares what [ToLower] returns. *)
Lemma EqualFold_ToLower env s t :
  isASCII s = true → isASCII t = true →
  EqualFold env s t = true ↔ ToLower env s = ToLower env t.
Proof.
  intros Hs Ht. unfold EqualFold, ToLower. rewrite Hs, Ht. simpl.
  apply equalFoldASCII_lowerASCII.
Qed.

Lemma EqualFold_normalized env a b :
  isASCII a = true → isASCII b = true →
  EqualFold env (stripUnderscore a) (stripUnderscore b) = true
  ↔ normalized env a = normalized env b.
Proof.
  intros Ha Hb. unfold normalized.
  apply EqualFold_ToLower; apply isASCII_stripUnderscore; assumption.
Qed.

Lemma isEmbeddedStruct_kind env f :
  isEmbeddedStruct env f = true → Kind_ env (sf_Type f) = KStruct.
Proof.
  unfold isEmbeddedStruct. rewrite andb_true_iff, bool_decide_eq_true. tauto.
Qed.

Lemma Fields_struct env t fs : Fields_ env t = Ok fs → Kind_ env t = KStruct.
Proof.
  unfold Fields_. destruct t; try discriminate. case_decide; [|discriminate].
  intros _. assumption.
Qed.

Lemma struct_Fields env t : Kind_ env t = KStruct → ∃ fs, Fields_ env t = Ok fs.
Proof.
  destruct t as [n| | |]; simpl; try discriminate. intros Hk.
  rewrite decide_True by assumption. eauto.
Qed.

(** [fieldCount] adds, for every key, the number of data members with that
    normalized name. *)
Lemma fieldCount_loop_spec env rec (members : StructField → list StructField) fs count :
  (∀ f c, f ∈ fs → isEmbeddedStruct env f = true →
     ∃ c', rec (sf_Type f) c = Ok c'
           ∧ ∀ k, getCount c' k
                  = (getCount c k
                     + Z.of_nat (length (filter (fun g => normalized env (sf_Name g) = k)
                                           (members f))))%Z) →
  ∃ count', fieldCount_loop env rec count fs = Ok count'
    ∧ ∀ k, getCount count' k
           = (getCount count k
              + Z.of_nat (length (filter (fun g => normalized env (sf_Name g) = k)
                                    (flat_map (fun f => if isEmbeddedStruct env f
                                                        then members f else [f]) fs))))%Z.
Proof.
  revert count. induction fs as [|f rest IH]; intros count Hrec.
  - exists count. split; [reflexivity|]. intros k. simpl. lia.
  - simpl. destruct (isEmbeddedStruct env f) eqn:Hemb.
    + destruct (Hrec f count (list_elem_of_here _ _) Hemb) as (c' & Hc' & Hk').
      unfold rbind. rewrite Hc'.
      destruct (IH c') as (c'' & Hc'' & Hk'').
      { intros g c Hg. apply Hrec. apply list_elem_of_further. assumption. }
      exists c''. split; [exact Hc''|]. intros k.
      rewrite Hk'', Hk', filter_app, length_app. lia.
    + fold (normalized env (sf_Name f)).
      destruct (IH (<[normalized env (sf_Name f) :=
                        (getCount count (normalized env (sf_Name f)) + 1)%Z]> count))
        as (c'' & Hc'' & Hk'').
      { intros g c Hg. apply Hrec. apply list_elem_of_further. assumption. }
      exists c''. split; [exact Hc''|]. intros k. rewrite Hk''.
      rewrite filter_app, length_app. unfold getCount at 1.
      destruct (decide (normalized env (sf_Name f) = k)) as [<-|Hne].
      * rewrite lookup_insert_eq. simpl. rewrite filter_cons_True by reflexivity.
        simpl. lia.
      * rewrite lookup_insert_ne by assumption. fold (getCount count k).
        simpl. rewrite filter_cons_False by assumption. simpl. lia.
Qed.

Lemma fieldCount_spec env n t count :
  embedsWithin env n t = true → Kind_ env t = KStruct →
  ∃ count', fieldCount env n t count = Ok count'
    ∧ ∀ k, getCount count' k
           = (getCount count k + Z.of_nat (length (matching env n t k)))%Z.
Proof.
  revert t count. induction n as [|n IH]; intros t count Hd Hk; [discriminate|].
  simpl in *. rewrite decide_False by (intros H; apply H, Hk).
  destruct (struct_Fields env t Hk) as [fs Hfs]. rewrite Hfs in *. unfold rbind.
  unfold matching. simpl. rewrite Hfs.
  apply fieldCount_loop_spec with (members := fun f => dataMembers env n (sf_Type f)).
  intros f c Hf Hemb. apply IH.
  - rewrite forallb_forall in Hd.
    specialize (Hd f (proj1 (list_elem_of_In _ _) Hf)). rewrite Hemb in Hd. exact Hd.
  - apply isEmbeddedStruct_kind. assumption.
Qed.

Lemma FieldByIndex_cons env t i p :
  FieldByIndex env t (i :: p) = (f <~ Field_ env t i ;; FieldByIndex_from env false t f p).
Proof. reflexivity. Qed.

Lemma FieldByIndex_from_embedded env t f p :
  Kind_ env (sf_Type f) = KStruct → p ≠ [] →
  FieldByIndex_from env false t f p = FieldByIndex env (sf_Type f) p.
Proof.
  intros Hk Hp. destruct p as [|x q]; [contradiction|].
  unfold FieldByIndex. simpl.
  destruct (sf_Type f) as [n|e|e|e] eqn:Et; simpl in Hk; try discriminate.
  destruct (decide (kindOf env n = KPointer)) as [Hptr|_]; [congruence|].
  reflexivity.
Qed.

Lemma Field_lookup env t fs i f :
  Fields_ env t = Ok fs → fs !! i = Some f → Field_ env t i = Ok f.
Proof. intros Hfs Hi. unfold Field_, rbind. rewrite Hfs, Hi. reflexivity. Qed.

(** What [findField] returns for a struct: [index] extended by a path, which
    is empty when nothing matches; a path that is not empty leads to a field
    that [EqualFold] matches and that has the property [P] of all fields in
    reach; and it is not empty when [EqualFold] matches a data member. *)
Lemma findField_loop_spec env rec name index t allfs (P : StructField → Prop)
    (members : StructField → list StructField) :
  Fields_ env t = Ok allfs →
  (∀ f, f ∈ allfs → P f) →
  (∀ f j, allfs !! j = Some f → isEmbeddedStruct env f = true →
     ∃ p, rec (sf_Type f) name [j] = Ok ([j] ++ p)
          ∧ (p ≠ [] → ∃ sf, FieldByIndex env (sf_Type f) p = Ok sf
                            ∧ P sf
                            ∧ EqualFold env (stripUnderscore name)
                                (stripUnderscore (sf_Name sf)) = true)
          ∧ ((∃ g, g ∈ members f
                   ∧ EqualFold env (stripUnderscore name)
                       (stripUnderscore (sf_Name g)) = true)
             → p ≠ [])) →
  ∀ fs i, drop i allfs = fs →
    ∃ p, findField_loop env rec name index fs i = Ok (index ++ p)
         ∧ (p ≠ [] → ∃ sf, FieldByIndex env t p = Ok sf
                           ∧ P sf
                           ∧ EqualFold env (stripUnderscore name)
                               (stripUnderscore (sf_Name sf)) = true)
         ∧ ((∃ g, g ∈ flat_map (fun f => if isEmbeddedStruct env f
                                         then members f else [f]) fs
                  ∧ EqualFold env (stripUnderscore name)
                      (stripUnderscore (sf_Name g)) = true)
            → p ≠ []).
Proof.
  intros Hfs HP Hrec fs. induction fs as [|f rest IH]; intros i Hdrop.
  - exists []. simpl. rewrite app_nil_r. split; [reflexivity|]. split; [tauto|].
    intros (g & Hg & _). inversion Hg.
  - assert (Hi : allfs !! i = Some f).
    { pose proof (lookup_drop allfs i 0) as Hl. rewrite Hdrop, Nat.add_0_r in Hl.
      symmetry. exact Hl. }
    assert (Hrest : drop (S i) allfs = rest).
    { pose proof (drop_drop allfs 1 i) as Hl. rewrite Hdrop in Hl.
      rewrite Nat.add_1_r in Hl. symmetry. exact Hl. }
    destruct (IH (S i) Hrest) as (pr & Hpr & Hprf & Hprc).
    assert (Hhere : ∃ p,
      (if EqualFold env (stripUnderscore name) (stripUnderscore (sf_Name f))
       then Ok (index ++ [i])
       else findField_loop env rec name index rest (S i)) = Ok (index ++ p)
      ∧ (p ≠ [] → ∃ sf, FieldByIndex env t p = Ok sf
                        ∧ P sf
                        ∧ EqualFold env (stripUnderscore name)
                            (stripUnderscore (sf_Name sf)) = true)
      ∧ ((EqualFold env (stripUnderscore name) (stripUnderscore (sf_Name f)) = true
          ∨ ∃ g, g ∈ flat_map (fun f => if isEmbeddedStruct env f
                                        then members f else [f]) rest
                 ∧ EqualFold env (stripUnderscore name)
                     (stripUnderscore (sf_Name g)) = true)
         → p ≠ [])).
    { destruct (EqualFold env (stripUnderscore name) (stripUnderscore (sf_Name f)))
        eqn:Heq.
      - exists [i]. split; [reflexivity|]. split; [|discriminate].
        intros _. exists f. split; [|split; [|exact Heq]].
        + rewrite FieldByIndex_cons, (Field_lookup env t allfs i f Hfs Hi). reflexivity.
        + apply HP. eapply list_elem_of_lookup_2, Hi.
      - exists pr. split; [exact Hpr|]. split; [exact Hprf|].
        intros [H|H]; [discriminate|apply Hprc, H]. }
    simpl. destruct (isEmbeddedStruct env f) eqn:Hemb.
    + destruct (Hrec f i Hi Hemb) as (p' & Hp' & Hp'f & Hp'c).
      unfold rbind. rewrite Hp'.
      destruct p' as [|x q].
      * simpl. destruct Hhere as (p & Hp & Hpf & Hpc).
        exists p. split; [exact Hp|]. split; [exact Hpf|].
        intros (g & Hg & Hgm). apply Hpc. simpl in Hg.
        apply elem_of_app in Hg as [Hg|Hg].
        -- exfalso. apply Hp'c; [eauto|reflexivity].
        -- right. eauto.
      * rewrite bool_decide_eq_true_2 by (simpl; lia).
        exists (i :: x :: q). split; [reflexivity|]. split; [|discriminate].
        intros _. destruct (Hp'f ltac:(discriminate)) as (sf & Hsf & HPsf & Hm).
        exists sf. split; [|split; [exact HPsf|exact Hm]].
        rewrite FieldByIndex_cons, (Field_lookup env t allfs i f Hfs Hi).
        change (FieldByIndex_from env false t f (x :: q) = Ok sf).
        rewrite FieldByIndex_from_embedded; [exact Hsf| |discriminate].
        apply isEmbeddedStruct_kind. assumption.
    + destruct Hhere as (p & Hp & Hpf & Hpc).
      exists p. split; [exact Hp|]. split; [exact Hpf|].
      intros (g & Hg & Hgm). apply Hpc. simpl in Hg.
      apply elem_of_cons in Hg as [->|Hg]; [left; exact Hgm|right; eauto].
Qed.

Lemma findField_spec env n t name index :
  embedsWithin env n t = true → Kind_ env t = KStruct →
  asciiFields env n t = true →
  ∃ p, findField env n t name index = Ok (index ++ p)
       ∧ (p ≠ [] → ∃ sf, FieldByIndex env t p = Ok sf
                         ∧ isASCII (sf_Name sf) = true
                         ∧ EqualFold env (stripUnderscore name)
                             (stripUnderscore (sf_Name sf)) = true)
       ∧ ((∃ g, g ∈ dataMembers env n t
                ∧ EqualFold env (stripUnderscore name)
                    (stripUnderscore (sf_Name g)) = true)
          → p ≠ []).
Proof.
  revert t index. induction n as [|n IH]; intros t index Hd Hk Ha; [discriminate|].
  simpl in *. destruct (struct_Fields env t Hk) as [fs Hfs]. rewrite Hfs in *.
  unfold rbind. rewrite forallb_forall in Ha.
  apply (findField_loop_spec env (findField env n) name index t fs
           (fun sf => isASCII (sf_Name sf) = true)
           (fun f => dataMembers env n (sf_Type f)) Hfs); [| |reflexivity].
  - intros f Hf. specialize (Ha f (proj1 (list_elem_of_In _ _) Hf)).
    apply andb_true_iff in Ha. tauto.
  - intros f j Hj Hemb.
    pose proof (proj1 (list_elem_of_In _ _) (list_elem_of_lookup_2 _ _ _ Hj)) as Hin.
    apply IH.
    + rewrite forallb_forall in Hd. specialize (Hd f Hin). rewrite Hemb in Hd. exact Hd.
    + apply isEmbeddedStruct_kind. assumption.
    + specialize (Ha f Hin). rewrite Hemb in Ha. apply andb_true_iff in Ha.
      destruct Ha as [_ Ha]. exact Ha.
Qed.

Lemma asciiFields_dataMembers env n t g :
  asciiFields env n t = true → g ∈ dataMembers env n t → isASCII (sf_Name g) = true.
Proof.
  revert t. induction n as [|n IH]; intros t Ha Hg; [inversion Hg|].
  simpl in *. destruct (Fields_ env t) as [fs| | |]; try (inversion Hg; fail).
  rewrite forallb_forall in Ha.
  apply list_elem_of_In in Hg. apply in_flat_map in Hg as (f & Hf & Hg).
  specialize (Ha f Hf). apply andb_true_iff in Ha as [Hname Hrec].
  destruct (isEmbeddedStruct env f); simpl in Hrec.
  - apply (IH (sf_Type f)); [exact Hrec|]. apply list_elem_of_In. exact Hg.
  - destruct Hg as [<-|[]]. exact Hname.
Qed.

Lemma matching_member env fuel t key :
  asciiFields env fuel t = true →
  matching env fuel t key ≠ [] →
  ∀ name, isASCII name = true → normalized env name = key →
    ∃ g, g ∈ dataMembers env fuel t
         ∧ EqualFold env (stripUnderscore name) (stripUnderscore (sf_Name g)) = true.
Proof.
  intros Ha Hne name Hascii Hname. unfold matching in Hne.
  destruct (filter _ _) as [|g l] eqn:Hf; [contradiction|].
  assert (Hg : g ∈ filter (fun f => normalized env (sf_Name f) = key)
                     (dataMembers env fuel t)).
  { rewrite Hf. apply list_elem_of_here. }
  apply list_elem_of_filter in Hg as [Hg1 Hg2].
  exists g. split; [exact Hg2|]. apply EqualFold_normalized.
  - exact Hascii.
  - eapply asciiFields_dataMembers; eassumption.
  - congruence.
Qed.

(** C4 (amended): a declared field without a matching method, with the
    fallback to data members enabled, on a resolver struct; the field's name
    and the names of the struct's fields, those of the structs it embeds by
    value included, are ASCII.  [fieldCount] counts under the field's
    normalized name (lower-cased, underscores stripped) the data members of
    the struct, those of the structs it embeds by value included.  When more
    than one is counted, binding fails with the ambiguity error that names
    the field.  When exactly one is counted, [findField] yields a path that
    is not empty and leads to a member whose normalized name is the field's;
    the field is then bound against that member's type: it binds when
    [makeFieldExec] succeeds, with that path recorded in the field's node and
    no method index, and an error of [makeFieldExec] fails the binding with
    the member named in it. *)
Theorem embedded_field_binding env schema directives packerError n fuel typeName
    resolverType rt recv fieldsCount f rest Fields st
    (Hwf : wf st)
    (Hnomethod : findMethod env resolverType (fd_Name f) = (-1)%Z)
    (Hk : Kind_ env rt = KStruct)
    (Hdepth : embedsWithin env fuel rt = true)
    (Hname : isASCII (fd_Name f) = true)
    (Hnames : asciiFields env fuel rt = true)
    (Hcount : fieldCount env fuel rt ∅ = Ok fieldsCount) :
  let rec := assignExec env schema directives true packerError n in
  let candidates := matching env fuel rt (normalized env (fd_Name f)) in
  let run :=
    makeObjectExec_fields env schema directives true packerError rec fuel typeName
      resolverType rt recv fieldsCount (f :: rest) Fields st in
  getCount fieldsCount (normalized env (fd_Name f)) = Z.of_nat (length candidates)
  ∧ (1 < length candidates →
     run = Err (rtype_String resolverType +:+ " does not resolve " +:+ quote typeName
                  +:+ ": ambiguous field " +:+ quote (fd_Name f)))
  ∧ (length candidates = 1 →
     ∃ path sf,
       path ≠ []
       ∧ findField env fuel rt (fd_Name f) [] = Ok path
       ∧ FieldByIndex env rt path = Ok sf
       ∧ normalized env (sf_Name sf) = normalized env (fd_Name f)
       ∧ match makeFieldExec env schema directives packerError rec typeName f
                 zeroMethod sf (-1)%Z path recv st with
         | Ok (fe, st1) =>
             (∃ fld, heap st1 !! fe = Some (CField fld)
                     ∧ f_FieldIndex fld = path ∧ f_MethodIndex fld = (-1)%Z)
             ∧ run = makeObjectExec_fields env schema directives true packerError rec
                       fuel typeName resolverType rt recv fieldsCount rest
                       (<[fd_Name f := fe]> Fields) st1
         | Err err =>
             run = Err (err +:+ nl_tab +:+ "used by (" +:+ rtype_String resolverType
                          +:+ ")." +:+ sf_Name sf)
         | Panic e => run = Panic e
         | OutOfFuel => run = OutOfFuel
         end).
Proof.
  intros rec candidates run.
  destruct (fieldCount_spec env fuel rt ∅ Hdepth Hk) as (c & Hc & Hgc).
  rewrite Hcount in Hc. inversion Hc; subst c. clear Hc.
  assert (Hn : getCount fieldsCount (normalized env (fd_Name f))
               = Z.of_nat (length candidates)).
  { rewrite Hgc. unfold getCount. rewrite lookup_empty. reflexivity. }
  split; [exact Hn|].
  unfold run. cbn [makeObjectExec_fields]. rewrite Hnomethod.
  fold (normalized env (fd_Name f)). rewrite Hn.
  rewrite (bool_decide_eq_true_2 ((-1)%Z = (-1)%Z)) by reflexivity.
  cbn [andb]. split.
  - intros Hmany. rewrite bool_decide_eq_true_2 by lia. reflexivity.
  - intros Hone. rewrite bool_decide_eq_false_2 by lia.
    destruct (findField_spec env fuel rt (fd_Name f) [] Hdepth Hk Hnames)
      as (path & Hpath & Hfound & Hsome).
    rewrite app_nil_l in Hpath.
    assert (Hne : path ≠ []).
    { apply Hsome.
      apply (matching_member env fuel rt (normalized env (fd_Name f)) Hnames);
        [|exact Hname|reflexivity].
      fold candidates. destruct candidates; [discriminate|congruence]. }
    destruct (Hfound Hne) as (sf & Hsf & Hasf & Hm).
    exists path, sf. split; [exact Hne|]. split; [exact Hpath|].
    split; [exact Hsf|]. split.
    { symmetry. apply EqualFold_normalized; assumption. }
    unfold bind, lift, rbind, ret. rewrite Hpath. cbn [fst snd].
    rewrite (bool_decide_eq_false_2 (length path = 0))
      by (destruct path; [contradiction|discriminate]).
    destruct (decide ((-1)%Z ≠ (-1)%Z)) as [Hx|_]; [exfalso; apply Hx; reflexivity|].
    rewrite Hsf. cbn [fst snd].
    destruct (makeFieldExec env schema directives packerError rec typeName f zeroMethod
                sf (-1)%Z path recv st) as [[fe st1]| | |] eqn:Hfe; try reflexivity.
    split; [|reflexivity].
    destruct (makeFieldExec_bound env schema directives true packerError n typeName f
                zeroMethod sf (-1)%Z path recv st fe st1 Hwf Hfe)
      as (ap & he & hc & dp & st0 & _ & _ & Hcell).
    eexists. split; [exact Hcell|]. split; reflexivity.
Qed.

(** The single data member that matches the field [name: String!] is
    [Name int64], inside the embedded [Inner2]; there is no method; and
    binding fails, on the member's type. *)
Lemma single_embedded_member_fails :
  findMethod Embedded.env (TPtr Embedded.R2) "name" = (-1)%Z
  ∧ matching Embedded.env 2 Embedded.R2 (normalized Embedded.env "name")
    = [mkStructField "Name" Embedded.int64Type false]
  ∧ makeExec Embedded.env Embedded.schema ∅ true Embedded.noPackerError
      (assignExec Embedded.env Embedded.schema ∅ true Embedded.noPackerError 4) 2
      0 (TPtr Embedded.R2) emptyState
    = Err ("can not use int64 as String" +:+ nl_tab +:+ "used by (*R2).Name").
Proof. repeat split; vm_compute; reflexivity. Qed.

Lemma embedded_field_binding_witness :
  ∃ path sf,
    path ≠ []
    ∧ findField Embedded.env 2 Embedded.R "name" [] = Ok path
    ∧ FieldByIndex Embedded.env Embedded.R path = Ok sf
    ∧ normalized Embedded.env (sf_Name sf) = normalized Embedded.env "name".
Proof.
  destruct (embedded_field_binding Embedded.env Embedded.schema ∅
              Embedded.noPackerError 4 2 "Query" (TPtr Embedded.R) Embedded.R true
              {["name" := 1%Z]} Embedded.name [] ∅ emptyState
              ltac:(constructor; simpl; [constructor|intros ? H; inversion H])
              eq_refl eq_refl eq_refl eq_refl eq_refl eq_refl)
    as (_ & _ & Hone).
  destruct (Hone eq_refl) as (path & sf & H1 & H2 & H3 & H4 & _).
  exists path, sf. repeat split; assumption.
Defined.


(** ** The statements at concrete inputs *)

Lemma ID_binds_only_to_ID_witness :
  makeScalarExec Scalars.env "ID" (Scalar.ID "string") emptyState
  = Ok (RScalar 0, mkState [CScalar] [] [])
  ∧ makeScalarExec Scalars.env "String" (Scalar.ID "string") emptyState
    = Err ("can not use " +:+ rtype_String (Scalar.ID "string") +:+ " as " +:+ "String").
Proof.
  split.
  - destruct (ID_binds_only_to_ID Scalars.env "string" "ID" emptyState eq_refl)
      as (_ & _ & Hok & _).
    exact (Hok eq_refl).
  - destruct (ID_binds_only_to_ID Scalars.env "string" "String" emptyState eq_refl)
      as (_ & _ & _ & Hfail).
    exact (Hfail ltac:(discriminate)).
Defined.

(** A type that is not [int32] and whose pointer implements the unmarshaler
    capability, answering true for "Int", binds to the scalar [Int]. *)
Lemma unmarshaler_binds_to_Int :
  Scalars.NullInt ≠ int32Type
  ∧ makeScalarExec Scalars.env "Int" Scalars.NullInt emptyState
    = Ok (RScalar 0, mkState [CScalar] [] []).
Proof. split; [discriminate|reflexivity]. Qed.

Lemma builtin_scalar_binding_witness :
  makeScalarExec Scalars.env "Int" int32Type emptyState
  = Ok (RScalar 0, mkState [CScalar] [] [])
  ∧ makeScalarExec Scalars.env "Int" Scalars.int64Type emptyState
    = Err ("can not use " +:+ rtype_String Scalars.int64Type +:+ " as " +:+ "Int").
Proof.
  destruct (builtin_scalar_binding Scalars.env "Int" int32Type Scalars.int64Type
              emptyState (list_elem_of_here _ _)) as (Hok & _ & Hfail).
  split; [exact Hok|].
  exact (Hfail ltac:(discriminate) eq_refl).
Defined.

Lemma applyDirectives_validation_witness :
  ∃ d, d ∈ sDirectives NilMutation.schemaWithAuth
       ∧ applyDirectives NilMutation.schemaWithAuth []
         = Err ("no visitors have been registered for directive " +:+ quote (fst d)).
Proof.
  destruct (applyDirectives_validation NilMutation.schemaWithAuth [])
    as (_ & _ & _ & Hvalid).
  destruct (Hvalid ltac:(constructor) ltac:(constructor)) as [Hmissing _].
  destruct Hmissing as (d & Hd & _ & _ & _ & Herr).
  - exists NilMutation.auth. split; [apply list_elem_of_here|].
    split; [apply list_elem_of_here|].
    split; [apply not_elem_of_nil|].
    simpl. rewrite !elem_of_cons.
    intros [H|[H|[H|[H|H]]]]; try discriminate. inversion H.
  - exists d. split; assumption.
Defined.

Lemma malformed_role_method_fails_witness :
  is_Err (rootResolver NilMutation.env NilMutation.resolver Mutation) = true
  ∧ is_Ok (ApplyResolver NilMutation.env NilMutation.noPackerError
             NilMutation.packerFinishes unit (fun _ => Returns tt) NilMutation.schema
             (Some NilMutation.resolver) [] false 3) = false.
Proof.
  destruct (malformed_role_method_fails NilMutation.env NilMutation.noPackerError
              NilMutation.packerFinishes unit (fun _ => Returns tt) NilMutation.schema
              NilMutation.resolver [] false 3 Mutation
              (mkMethod "Mutation" [] [TPtr NilMutation.M])
              (list_elem_of_further _ _ _ (list_elem_of_here _ _))
              eq_refl
              (or_intror (or_intror (or_intror eq_refl))))
    as (Hroot & Happly & _).
  split; assumption.
Defined.



(** ** Looking up methods *)

(** [findMethod_from] returns -1 when [EqualFold] matches no method, and
    otherwise the position of the first method it matches. *)
Lemma findMethod_from_match env ms name i :
  (0 ≤ i)%Z →
  let matches m :=
    EqualFold env (stripUnderscore name) (stripUnderscore (m_Name m)) in
  let r := findMethod_from env ms name i in
  (r = (-1)%Z ↔ ∀ m, m ∈ ms → matches m = false)
  ∧ (r ≠ (-1)%Z →
     (i ≤ r < i + Z.of_nat (length ms))%Z
     ∧ ∃ m, ms !! Z.to_nat (r - i) = Some m
            ∧ matches m = true
            ∧ ∀ j m', j < Z.to_nat (r - i) → ms !! j = Some m' → matches m' = false).
Proof.
  intros Hi matches. revert i Hi.
  induction ms as [|m ms IH]; intros i Hi; cbn [findMethod_from].
  - split; [|intros H; contradiction].
    split; [intros _ m Hm; inversion Hm|reflexivity].
  - fold (matches m). destruct (matches m) eqn:Heq.
    + split.
      * split; [lia|]. intros Hall. exfalso.
        specialize (Hall m (list_elem_of_here _ _)). congruence.
      * intros _. split; [cbn [length]; lia|].
        exists m. rewrite Z.sub_diag. split; [reflexivity|].
        split; [exact Heq|]. intros j m' Hj. simpl in Hj. lia.
    + destruct (IH (i + 1)%Z ltac:(lia)) as [IH1 IH2]. split.
      * rewrite IH1. split.
        -- intros Hall m' Hm'. apply elem_of_cons in Hm' as [->|Hm']; auto.
        -- intros Hall m' Hm'. apply Hall. apply list_elem_of_further. assumption.
      * intros Hr. destruct (IH2 Hr) as (Hrange & m' & Hm' & Hmatch & Hfirst).
        split; [cbn [length]; lia|].
        replace (Z.to_nat (findMethod_from env ms name (i + 1) - i))
          with (S (Z.to_nat (findMethod_from env ms name (i + 1) - (i + 1)))) by lia.
        exists m'. split; [exact Hm'|]. split; [exact Hmatch|].
        intros [|j] m'' Hj Hl.
        -- simpl in Hl. inversion Hl; subst. assumption.
        -- simpl in Hl. apply (Hfirst j m''); [lia|assumption].
Qed.

Lemma asciiMethods_elem env t m :
  asciiMethods env t = true → m ∈ methodsOf env t → isASCII (m_Name m) = true.
Proof.
  unfold asciiMethods. rewrite forallb_forall. intros H Hm.
  apply H, list_elem_of_In, Hm.
Qed.

Lemma no_match_normalized env name m :
  isASCII name = true → isASCII (m_Name m) = true →
  EqualFold env (stripUnderscore name) (stripUnderscore (m_Name m)) = false
  ↔ normalized env (m_Name m) ≠ normalized env name.
Proof.
  intros Hn Hm. pose proof (EqualFold_normalized env name (m_Name m) Hn Hm) as H.
  destruct (EqualFold env _ _).
  - split; [discriminate|]. intros Hne. exfalso. apply Hne. symmetry. apply H.
    reflexivity.
  - split; [|reflexivity]. intros _ E. symmetry in E. apply H in E. discriminate.
Qed.

(** For ASCII names: [findMethod] returns -1 exactly when no method of the
    type has the field's name up to case and underscores; otherwise it
    returns the index of the first such method, which [t.Method] accepts. *)
Theorem findMethod_first_match env t name
    (Hname : isASCII name = true) (Hnames : asciiMethods env t = true) :
  let i := findMethod env t name in
  (i = (-1)%Z ↔
   ∀ m, m ∈ methodsOf env t → normalized env (m_Name m) ≠ normalized env name)
  ∧ (i ≠ (-1)%Z →
     (0 ≤ i < Z.of_nat (NumMethod env t))%Z
     ∧ ∃ m, Method_ env t i = Ok m
            ∧ normalized env (m_Name m) = normalized env name
            ∧ ∀ j m', j < Z.to_nat i → methodsOf env t !! j = Some m' →
                      normalized env (m_Name m') ≠ normalized env name).
Proof.
  intros i. unfold i, findMethod, NumMethod.
  destruct (findMethod_from_match env (methodsOf env t) name 0 ltac:(lia)) as [H1 H2].
  split.
  - rewrite H1. split; intros Hall m Hm.
    + apply no_match_normalized; [exact Hname| |apply Hall, Hm].
      eapply asciiMethods_elem; eassumption.
    + apply no_match_normalized; [exact Hname| |apply Hall, Hm].
      eapply asciiMethods_elem; eassumption.
  - intros Hr. destruct (H2 Hr) as (Hrange & m & Hm & Hmatch & Hfirst).
    rewrite Z.sub_0_r in Hm, Hfirst. split; [lia|].
    exists m. split; [|split].
    + unfold Method_.
      destruct (Z.ltb_spec (findMethod_from env (methodsOf env t) name 0) 0); [lia|].
      rewrite Hm. reflexivity.
    + symmetry. apply EqualFold_normalized; [exact Hname| |exact Hmatch].
      eapply asciiMethods_elem; [exact Hnames|]. eapply list_elem_of_lookup_2, Hm.
    + intros j m' Hj Hl. apply no_match_normalized; [exact Hname| |eapply Hfirst; eassumption].
      eapply asciiMethods_elem; [exact Hnames|]. eapply list_elem_of_lookup_2, Hl.
Qed.

Lemma findMethod_from_normalized env ms a b i :
  isASCII a = true → isASCII b = true →
  (∀ m, m ∈ ms → isASCII (m_Name m) = true) →
  normalized env a = normalized env b →
  findMethod_from env ms a i = findMethod_from env ms b i.
Proof.
  intros Ha Hb Hms Hab. revert i.
  induction ms as [|m ms IH]; intros i; cbn [findMethod_from]; [reflexivity|].
  pose proof (Hms m (list_elem_of_here _ _)) as Hm.
  assert (E : EqualFold env (stripUnderscore a) (stripUnderscore (m_Name m))
              = EqualFold env (stripUnderscore b) (stripUnderscore (m_Name m))).
  { pose proof (EqualFold_normalized env a (m_Name m) Ha Hm) as Ea.
    pose proof (EqualFold_normalized env b (m_Name m) Hb Hm) as Eb.
    rewrite Hab in Ea.
    destruct (EqualFold env (stripUnderscore a) _);
      destruct (EqualFold env (stripUnderscore b) _); try reflexivity.
    - symmetry. apply Eb, Ea. reflexivity.
    - apply Ea, Eb. reflexivity. }
  rewrite E, IH; [reflexivity|].
  intros m' Hm'. apply Hms. apply list_elem_of_further. exact Hm'.
Qed.

(** Two ASCII names that differ only in case and underscores find the same
    method, among methods with ASCII names. *)
Theorem findMethod_insensitive env t a b
    (Ha : isASCII a = true) (Hb : isASCII b = true)
    (Hnames : asciiMethods env t = true)
    (Hab : ToLower env (stripUnderscore a) = ToLower env (stripUnderscore b)) :
  findMethod env t a = findMethod env t b.
Proof.
  apply findMethod_from_normalized; try assumption.
  intros m. apply asciiMethods_elem. exact Hnames.
Qed.

Lemma findMethod_insensitive_witness :
  findMethod Names.env (TPtr Names.T) "first_name"
  = findMethod Names.env (TPtr Names.T) "FIRSTNAME".
Proof.
  apply (findMethod_insensitive Names.env (TPtr Names.T) "first_name" "FIRSTNAME");
    reflexivity.
Defined.

Lemma findMethod_first_match_witness :
  findMethod Names.env (TPtr Names.T) "first_name" = 0%Z
  ∧ (∃ m, Method_ Names.env (TPtr Names.T) 0 = Ok m
          ∧ normalized Names.env (m_Name m) = normalized Names.env "first_name")
  ∧ findMethod Names.env (TPtr Names.T) "last_name" = (-1)%Z.
Proof.
  split; [reflexivity|].
  destruct (findMethod_first_match Names.env (TPtr Names.T) "first_name" eq_refl eq_refl)
    as [_ H].
  destruct (H ltac:(discriminate)) as (_ & m & Hm & Hn & _).
  split; [exists m; split; assumption|].
  apply (findMethod_first_match Names.env (TPtr Names.T) "last_name" eq_refl eq_refl).
  intros m' Hm'. unfold Names.env in Hm'. simpl in Hm'.
  rewrite !elem_of_cons in Hm'.
  destruct Hm' as [->|[->|[->|Hm']]]; [discriminate..|inversion Hm'].
Defined.

(** ** Looking up data members *)

(** [findField] on a struct whose fields, with those of the structs it
    embeds, have ASCII names and are nested less deep than the fuel, for an
    ASCII name: it returns [index] extended by a path; a path that is not
    empty leads, by [FieldByIndex], to a field whose name is the wanted one
    up to case and underscores; and the path is not empty when some data
    member of the struct or of the structs it embeds has such a name. *)
Theorem findField_finds_member env n t name index
    (Hdepth : embedsWithin env n t = true) (Hk : Kind_ env t = KStruct)
    (Hname : isASCII name = true) (Hnames : asciiFields env n t = true) :
  ∃ p, findField env n t name index = Ok (index ++ p)
       ∧ (p ≠ [] → ∃ sf, FieldByIndex env t p = Ok sf
                         ∧ normalized env (sf_Name sf) = normalized env name)
       ∧ (matching env n t (normalized env name) ≠ [] → p ≠ []).
Proof.
  destruct (findField_spec env n t name index Hdepth Hk Hnames)
    as (p & Hp & Hfound & Hsome).
  exists p. split; [exact Hp|]. split.
  - intros Hne. destruct (Hfound Hne) as (sf & Hsf & Hasf & Hm). exists sf.
    split; [exact Hsf|]. symmetry. apply EqualFold_normalized; assumption.
  - intros Hm. apply Hsome.
    eapply matching_member; [exact Hnames|exact Hm|exact Hname|reflexivity].
Qed.

Lemma findField_finds_member_witness :
  ∃ p, findField Embedded.env 2 Embedded.R "NAME" [7] = Ok ([7] ++ p) ∧ p ≠ [].
Proof.
  destruct (findField_finds_member Embedded.env 2 Embedded.R "NAME" [7] eq_refl eq_refl
              eq_refl eq_refl)
    as (p & Hp & _ & Hne).
  exists p. split; [exact Hp|]. apply Hne. discriminate.
Defined.

(** [fieldCount] returns the nil map for a type that is no struct; for a
    struct it adds to every name's count the number of data members, those of
    embedded structs included, with that normalized name. *)
Theorem fieldCount_counts env n t count (Hdepth : embedsWithin env n t = true) :
  (Kind_ env t ≠ KStruct → fieldCount env n t count = Ok ∅)
  ∧ (Kind_ env t = KStruct →
     ∃ count', fieldCount env n t count = Ok count'
       ∧ ∀ k, getCount count' k
              = (getCount count k + Z.of_nat (length (matching env n t k)))%Z).
Proof.
  split.
  - intros Hk. destruct n as [|n]; [discriminate|]. simpl.
    rewrite decide_True by assumption. reflexivity.
  - intros Hk. apply fieldCount_spec; assumption.
Qed.

Lemma fieldCount_counts_witness :
  ∃ count', fieldCount Embedded.env 2 Embedded.R {["name" := 4%Z]} = Ok count'
            ∧ getCount count' "name" = 5%Z.
Proof.
  destruct (fieldCount_counts Embedded.env 2 Embedded.R {["name" := 4%Z]} eq_refl)
    as [_ H].
  destruct (H eq_refl) as (count' & Hc & Hk).
  exists count'. split; [exact Hc|]. rewrite Hk. reflexivity.
Defined.

(** With the fallback to data members enabled, a field without a matching
    method on a resolver of interface type makes [makeObjectExec] panic:
    [fieldCount] returns the nil map, so no ambiguity is seen, and
    [findField] calls [NumField] on a type that is no struct. *)
Theorem field_fallback_on_interface_panics env schema directives packerError rec fuel
    typeName f rest possibleTypes nonNull resolverType st
    (Hiface : Kind_ env resolverType = KInterface)
    (Hnomethod : findMethod env resolverType (fd_Name f) = (-1)%Z)
    (Hfuel : 0 < fuel) :
  makeObjectExec env schema directives true packerError rec fuel typeName (f :: rest)
    possibleTypes nonNull resolverType st
  = Panic ("reflect: NumField of non-struct type " +:+ rtype_String resolverType).
Proof.
  destruct fuel as [|fuel']; [lia|].
  unfold makeObjectExec. rewrite Hiface.
  rewrite (bool_decide_eq_true_2 (KInterface = KInterface)) by reflexivity.
  rewrite (bool_decide_eq_false_2 (KInterface = KPointer)) by discriminate.
  rewrite andb_false_r.
  unfold unwrapPtr. rewrite Hiface.
  destruct (decide (KInterface = KPointer)) as [?|_]; [discriminate|].
  unfold bind at 1, lift, rbind. cbn [fst snd].
  unfold bind at 1, lift, rbind. cbn [fieldCount]. rewrite Hiface.
  destruct (decide (KInterface ≠ KStruct)) as [_|Hx]; [|exfalso; apply Hx; discriminate].
  cbn [fst snd]. unfold bind at 1, rbind.
  cbn [makeObjectExec_fields]. rewrite Hnomethod.
  rewrite (bool_decide_eq_true_2 ((-1)%Z = (-1)%Z)) by reflexivity.
  cbn [andb]. unfold getCount. rewrite lookup_empty. cbn [default].
  rewrite bool_decide_eq_false_2 by lia.
  unfold bind at 1, lift, rbind. cbn [findField].
  destruct resolverType as [name| | |]; simpl in Hiface; try discriminate.
  cbn [Fields_]. destruct (decide (kindOf env name = KStruct)) as [E|_]; [congruence|].
  reflexivity.
Qed.

Lemma field_fallback_on_interface_panics_witness :
  makeExec Iface.env Iface.schema ∅ true Iface.noPackerError
    (assignExec Iface.env Iface.schema ∅ true Iface.noPackerError 3) 3 0 Iface.Node
    emptyState
  = Panic "reflect: NumField of non-struct type Node".
Proof.
  unfold makeExec. cbn [unwrapNonNull Iface.schema sTypes lookup list_lookup].
  unfold bind, rbind.
  rewrite (field_fallback_on_interface_panics Iface.env Iface.schema ∅
             Iface.noPackerError _ 3 "Query" Iface.id [] [] false Iface.Node emptyState
             eq_refl eq_refl ltac:(lia)).
  reflexivity.
Defined.


(** ** Nullability and the kind of the resolver type *)

(** For a type that is no object, interface or union, binding [T!] against a
    resolver type [R] is binding [T] against [*R]; binding the nullable [T]
    against a type that is no pointer fails.  A nullable object, interface or
    union needs a resolver type that is a pointer or an interface. *)
Theorem nullable_is_pointer env schema directives useFieldResolvers packerError rec fuel
    (nn t : tyref) node st
    (Hnn : sTypes schema !! nn = Some (NonNull t))
    (Ht : sTypes schema !! t = Some node)
    (Hnode : isNonNull node = false) :
  let make := makeExec env schema directives useFieldResolvers packerError rec fuel in
  (objectLike node = false →
   (∀ rt, make nn rt st = make t (TPtr rt) st)
   ∧ (∀ rt, Kind_ env rt ≠ KPointer →
        make t rt st = Err (rtype_String rt +:+ " is not a pointer")))
  ∧ (objectLike node = true →
     ∀ rt, Kind_ env rt ≠ KPointer → Kind_ env rt ≠ KInterface →
       make t rt st = Err (rtype_String rt +:+ " is not a pointer or interface")).
Proof.
  intros make. unfold make, makeExec, unwrapNonNull. rewrite Hnn. cbv beta iota.
  destruct node; try discriminate Hnode; rewrite !Ht; cbv beta iota; rewrite ?Ht;
    (split; intros Hobj; [|try discriminate Hobj]; try discriminate Hobj).
  1-3: intros rt Hp Hi; unfold makeObjectExec; cbn [negb];
       rewrite (bool_decide_eq_false_2 _ Hp), (bool_decide_eq_false_2 _ Hi);
       reflexivity.
  all: split; [intros rt; reflexivity|].
  all: intros rt Hk; cbn [negb]; rewrite (bool_decide_eq_false_2 _ Hk); reflexivity.
Qed.

Lemma nullable_is_pointer_witness :
  makeExec Lists.env Lists.schema ∅ false Lists.noPackerError
    (assignExec Lists.env Lists.schema ∅ false Lists.noPackerError 3) 3 1 Lists.intType
    emptyState
  = makeExec Lists.env Lists.schema ∅ false Lists.noPackerError
      (assignExec Lists.env Lists.schema ∅ false Lists.noPackerError 3) 3 0
      (TPtr Lists.intType) emptyState
  ∧ makeExec Lists.env Lists.schema ∅ false Lists.noPackerError
      (assignExec Lists.env Lists.schema ∅ false Lists.noPackerError 3) 3 0
      Lists.intType emptyState
    = Err "int is not a pointer".
Proof.
  destruct (nullable_is_pointer Lists.env Lists.schema ∅ false Lists.noPackerError
              (assignExec Lists.env Lists.schema ∅ false Lists.noPackerError 3) 3
              1 0 (EnumTypeDefinition "Color") emptyState eq_refl eq_refl eq_refl)
    as [Hvalue _].
  destruct (Hvalue eq_refl) as [Hsame Hfail].
  split; [apply Hsame|]. apply (Hfail Lists.intType). discriminate.
Defined.

(** An enum is bound without a look at the resolver type: [T!] binds to every
    type and the nullable [T] to every pointer type, each time with a fresh
    [Scalar] node. *)
Theorem enum_binds_any_type env schema directives useFieldResolvers packerError rec fuel
    (nn t : tyref) name rt st
    (Hnn : sTypes schema !! nn = Some (NonNull t))
    (Ht : sTypes schema !! t = Some (EnumTypeDefinition name)) :
  let make := makeExec env schema directives useFieldResolvers packerError rec fuel in
  let bound := Ok (RScalar (length (heap st)),
                   mkState (heap st ++ [CScalar]) (resMap st) (packerLog st)) in
  make nn rt st = bound ∧ make t (TPtr rt) st = bound.
Proof.
  intros make bound. unfold make, makeExec, unwrapNonNull. rewrite Hnn. cbv beta iota.
  rewrite !Ht. cbv beta iota. rewrite ?Ht.
  split; reflexivity.
Qed.

Lemma enum_binds_any_type_witness :
  makeExec Lists.env Lists.schema ∅ false Lists.noPackerError
    (assignExec Lists.env Lists.schema ∅ false Lists.noPackerError 3) 3 1
    (TChan (TSlice Lists.intType)) emptyState
  = Ok (RScalar 0, mkState [CScalar] [] []).
Proof.
  apply (enum_binds_any_type Lists.env Lists.schema ∅ false Lists.noPackerError
           (assignExec Lists.env Lists.schema ∅ false Lists.noPackerError 3) 3
           1 0 "Color" (TChan (TSlice Lists.intType)) emptyState eq_refl eq_refl).
Defined.

(** A list type needs a resolver type of slice kind.  Against a slice,
    [makeExec] allocates the [List] node and binds the list's element type
    against the slice's element type: the node's [Elem] slot is recorded as a
    target of that pair. *)
Theorem list_binds_elements env schema directives useFieldResolvers packerError n fuel
    (nn t ofType : tyref) st
    (Hnn : sTypes schema !! nn = Some (NonNull t))
    (Ht : sTypes schema !! t = Some (List ofType))
    (Hwf : wf st) :
  let make :=
    makeExec env schema directives useFieldResolvers packerError
      (assignExec env schema directives useFieldResolvers packerError n) fuel in
  (∀ rt, Kind_ env rt ≠ KSlice →
     make nn rt st = Err (rtype_String rt +:+ " is not a slice"))
  ∧ (∀ e r st', make nn (TSlice e) st = Ok (r, st') →
       r = RList (length (heap st))
       ∧ heap st' !! length (heap st) = Some (CList RNil)
       ∧ ∃ entry, lookupEntry (ofType, e) (resMap st') = Some entry
                  ∧ length (heap st) ∈ targets entry).
Proof.
  intros make. unfold make, makeExec, unwrapNonNull. rewrite Hnn. cbv beta iota.
  rewrite !Ht. cbv beta iota. cbn [negb].
  split.
  - intros rt Hk. unfold bind at 1, ret, rbind. cbn [fst snd].
    rewrite (bool_decide_eq_false_2 _ Hk). reflexivity.
  - intros e r st'. unfold bind at 1, ret, rbind. cbn [fst snd Kind_].
    rewrite (bool_decide_eq_true_2 (KSlice = KSlice)) by reflexivity. cbn [negb].
    unfold bind at 1, alloc, rbind. cbn [fst snd].
    unfold bind at 1, lift, rbind. cbn [Elem fst snd].
    unfold bind at 1, rbind.
    set (st1 := mkState (heap st ++ [CList RNil]) (resMap st) (packerLog st)).
    destruct (assignExec env schema directives useFieldResolvers packerError n
                (length (heap st)) ofType e st1) as [[[] st2]| | |] eqn:Ha;
      try discriminate.
    cbn [fst snd ret]. intros E. inversion E; subst r st'. clear E.
    assert (Hwf1 : wf st1) by (apply alloc_wf; assumption).
    assert (Hfr : fresh (length (heap st)) st1).
    { apply alloc_fresh; [assumption|]. simpl. eauto. }
    split; [reflexivity|]. split.
    + destruct (assignExec_invariant _ _ _ _ _ _ _ _ _ _ _ Hwf1 Hfr Ha) as [_ Hext].
      eapply prefix_lookup_Some; [|exact (ext_heap _ _ _ Hext)].
      subst st1. simpl. rewrite lookup_app_r by lia. rewrite Nat.sub_diag. reflexivity.
    + exact (assignExec_records _ _ _ _ _ _ _ _ _ _ _ Hwf1 Ha).
Qed.

Lemma list_binds_elements_witness :
  makeExec Lists.env Lists.schema ∅ false Lists.noPackerError
    (assignExec Lists.env Lists.schema ∅ false Lists.noPackerError 3) 3 3
    Lists.intType emptyState
  = Err "int is not a slice"
  ∧ ∃ st', makeExec Lists.env Lists.schema ∅ false Lists.noPackerError
             (assignExec Lists.env Lists.schema ∅ false Lists.noPackerError 3) 3 3
             (TSlice Lists.intType) emptyState = Ok (RList 0, st')
           ∧ ∃ entry, lookupEntry (1, Lists.intType) (resMap st') = Some entry
                      ∧ 0 ∈ targets entry.
Proof.
  destruct (list_binds_elements Lists.env Lists.schema ∅ false Lists.noPackerError 3 3
              3 2 1 emptyState eq_refl eq_refl
              ltac:(constructor; simpl; [constructor|intros ? H; inversion H]))
    as [Hfail Hok].
  split; [apply (Hfail Lists.intType); discriminate|].
  eexists. split; [vm_compute; reflexivity|].
  destruct (Hok Lists.intType (RList 0) _ ltac:(vm_compute; reflexivity))
    as (_ & _ & Hentry).
  exact Hentry.
Defined.


(** ** The type a field's value is bound against *)

(** A successful [makeFieldExec] has called [assignExec] on the new field
    node, in the state right after its allocation. *)
Lemma makeFieldExec_assigns env schema directives useFieldResolvers packerError n
    typeName f m sf methodIndex fieldIndex recv st fe st' :
  wf st →
  makeFieldExec env schema directives packerError
    (assignExec env schema directives useFieldResolvers packerError n)
    typeName f m sf methodIndex fieldIndex recv st = Ok (fe, st') →
  ∃ st3 out,
    wf st3
    ∧ (if decide (methodIndex ≠ (-1)%Z) then
         ∃ o, Out0 m = Ok o
              ∧ match RootOperationTypes schema !! "subscription" with
                | Some sub =>
                    ∃ subName, TypeName schema sub = Ok subName
                      ∧ if bool_decide (typeName = subName)
                           && bool_decide (Kind_ env o = KChan)
                        then Elem env o = Ok out
                        else out = o
                | None => out = o
                end
       else out = sf_Type sf)
    ∧ assignExec env schema directives useFieldResolvers packerError n fe (fd_Type f)
        out st3 = Ok (tt, st').
Proof.
  intros Hwf. unfold makeFieldExec. unfold bind at 1, rbind.
  set (chk := (if decide (methodIndex ≠ (-1)%Z)
               then makeFieldExec_method packerError f m recv
               else ret (None, false, false)) st).
  assert (Hshape : match chk with Ok (_, st1) => sameShape st st1 | _ => True end).
  { subst chk. case_decide.
    - pose proof (makeFieldExec_method_shape packerError f m recv st) as H'.
      destruct (makeFieldExec_method packerError f m recv st) as [[? ?]| | |];
        try exact I; assumption.
    - simpl. split; reflexivity. }
  destruct chk as [[[[argsPacker hasError] hasContext] st1]| | |] eqn:Hchk;
    try discriminate.
  cbn [fst snd]. unfold bind at 1, rbind.
  pose proof (makeFieldExec_directives_shape schema directives packerError f
                (fd_Directives f) ∅ st1) as Hd.
  destruct (makeFieldExec_directives _ _ _ _ _ _ st1) as [[dp st2]| | |];
    try discriminate.
  cbn [fst snd]. unfold bind at 1, alloc, rbind. cbn [fst snd].
  set (cell := CField _).
  set (st3 := mkState (heap st2 ++ [cell]) (resMap st2) (packerLog st2)).
  assert (Hwf3 : wf st3).
  { subst st3. apply alloc_wf. eapply sameShape_wf; [exact Hd|].
    eapply sameShape_wf; [exact Hshape|exact Hwf]. }
  unfold bind at 1, rbind.
  destruct ((if decide (methodIndex ≠ (-1)%Z) then _ else ret (sf_Type sf)) st3)
    as [[out st4]| | |] eqn:Hout; try discriminate.
  cbn [fst snd]. unfold bind at 1, rbind.
  destruct (assignExec _ _ _ _ _ _ _ _ _ st4) as [[[] st5]| | |] eqn:Ha; try discriminate.
  simpl. intros E. inversion E; subst fe st'. clear E.
  exists st3, out. split; [exact Hwf3|].
  revert Hout. case_decide as Hidx.
  - unfold bind, lift, rbind, ret. destruct (Out0 m) as [o| | |]; try discriminate.
    cbn [fst snd].
    destruct (RootOperationTypes schema !! "subscription") as [sub|]; cbn [fst snd].
    + destruct (TypeName schema sub) as [subName| | |]; try discriminate. cbn [fst snd].
      destruct (bool_decide (typeName = subName) && bool_decide (Kind_ env o = KChan))
        eqn:Hb; cbn [fst snd].
      * destruct (Elem env o) as [e| | |] eqn:He; try discriminate. cbn [fst snd].
        intros E; inversion E; subst. split; [|exact Ha].
        exists o. split; [reflexivity|]. exists subName. split; [reflexivity|].
        rewrite Hb. exact He.
      * intros E; inversion E; subst. split; [|exact Ha].
        eexists. split; [reflexivity|]. exists subName. split; [reflexivity|].
        rewrite Hb. reflexivity.
    + intros E; inversion E; subst. split; [|exact Ha]. eexists. split; reflexivity.
  - simpl. intros E; inversion E; subst. split; [reflexivity|exact Ha].
Qed.

(** The pair under which a bound field's value slot is recorded.  A field
    bound to a data member is bound against the member's type.  A field bound
    to a method is bound against the method's first result type, except that
    for a field of the subscription root type a result of channel kind is
    replaced by its element type; a channel result of a field of any other
    type is not unwrapped. *)
Theorem field_value_type env schema directives useFieldResolvers packerError n
    typeName f m sf methodIndex fieldIndex recv st fe st'
    (Hwf : wf st)
    (Hrun : makeFieldExec env schema directives packerError
              (assignExec env schema directives useFieldResolvers packerError n)
              typeName f m sf methodIndex fieldIndex recv st = Ok (fe, st')) :
  let recorded out :=
    ∃ entry, lookupEntry (fd_Type f, out) (resMap st') = Some entry
             ∧ fe ∈ targets entry in
  (methodIndex = (-1)%Z → recorded (sf_Type sf))
  ∧ (∀ o sub e,
       methodIndex ≠ (-1)%Z → Out0 m = Ok o →
       RootOperationTypes schema !! "subscription" = Some sub →
       TypeName schema sub = Ok typeName →
       Kind_ env o = KChan → Elem env o = Ok e →
       recorded e)
  ∧ (∀ o,
       methodIndex ≠ (-1)%Z → Out0 m = Ok o →
       (RootOperationTypes schema !! "subscription" = None
        ∨ (∃ sub subName, RootOperationTypes schema !! "subscription" = Some sub
                          ∧ TypeName schema sub = Ok subName ∧ subName ≠ typeName)
        ∨ Kind_ env o ≠ KChan) →
       recorded o).
Proof.
  intros recorded.
  destruct (makeFieldExec_assigns _ _ _ _ _ _ _ _ _ _ _ _ _ _ _ _ Hwf Hrun)
    as (st3 & out & Hwf3 & Hout & Ha).
  pose proof (assignExec_records _ _ _ _ _ _ _ _ _ _ _ Hwf3 Ha) as Hrec.
  split; [|split].
  - intros Hidx. rewrite decide_False in Hout by (intros H; apply H; exact Hidx).
    subst out. exact Hrec.
  - intros o sub e Hidx Ho Hsub Hname Hk He.
    rewrite decide_True in Hout by assumption.
    destruct Hout as (o' & Ho' & Hcase). rewrite Ho in Ho'. inversion Ho'; subst o'.
    rewrite Hsub in Hcase. destruct Hcase as (subName & Hn & Hcase).
    rewrite Hname in Hn. inversion Hn; subst subName.
    rewrite !bool_decide_eq_true_2 in Hcase by (reflexivity || assumption).
    simpl in Hcase. rewrite He in Hcase. inversion Hcase; subst. exact Hrec.
  - intros o Hidx Ho Hcases.
    rewrite decide_True in Hout by assumption.
    destruct Hout as (o' & Ho' & Hcase). rewrite Ho in Ho'. inversion Ho'; subst o'.
    destruct Hcases as [Hnone|[(sub & subName & Hsub & Hn & Hne)|Hk]].
    + rewrite Hnone in Hcase. subst out. exact Hrec.
    + rewrite Hsub in Hcase. destruct Hcase as (subName' & Hn' & Hcase).
      rewrite Hn in Hn'. inversion Hn'; subst subName'.
      rewrite (bool_decide_eq_false_2 (typeName = subName)) in Hcase by congruence.
      simpl in Hcase. subst out. exact Hrec.
    + destruct (RootOperationTypes schema !! "subscription") as [sub|].
      * destruct Hcase as (subName & _ & Hcase).
        rewrite (bool_decide_eq_false_2 (Kind_ env o = KChan)) in Hcase by assumption.
        rewrite andb_false_r in Hcase. subst out. exact Hrec.
      * subst out. exact Hrec.
Qed.

Lemma field_value_type_witness :
  ∃ st', makeFieldExec Ticker.env Ticker.schema ∅ Ticker.noPackerError
           (assignExec Ticker.env Ticker.schema ∅ false Ticker.noPackerError 3)
           "Subscription" Ticker.tick Ticker.Tick zeroStructField 0%Z [] true emptyState
         = Ok (0, st')
         ∧ ∃ entry, lookupEntry (2, stringType) (resMap st') = Some entry
                    ∧ 0 ∈ targets entry.
Proof.
  eexists. split; [vm_compute; reflexivity|].
  destruct (field_value_type Ticker.env Ticker.schema ∅ false Ticker.noPackerError 3
              "Subscription" Ticker.tick Ticker.Tick zeroStructField 0%Z [] true
              emptyState 0 _
              ltac:(constructor; simpl; [constructor|intros ? H; inversion H])
              ltac:(vm_compute; reflexivity))
    as (_ & Hsub & _).
  exact (Hsub Ticker.recvChan 0 stringType ltac:(discriminate) eq_refl eq_refl
           eq_refl eq_refl eq_refl).
Defined.

(** A field bound to a data member gets no argument packer, no context and
    no error result, whatever arguments the schema field declares: the
    checks of the method signature are skipped, and the node records the
    path to the member. *)
Theorem data_member_field_unchecked env schema directives useFieldResolvers packerError
    n typeName f m sf fieldIndex recv st fe st'
    (Hwf : wf st)
    (Hrun : makeFieldExec env schema directives packerError
              (assignExec env schema directives useFieldResolvers packerError n)
              typeName f m sf (-1)%Z fieldIndex recv st = Ok (fe, st')) :
  ∃ fld, heap st' !! fe = Some (CField fld)
         ∧ f_FieldDefinition fld = f
         ∧ f_ArgsPacker fld = None
         ∧ f_HasContext fld = false
         ∧ f_HasError fld = false
         ∧ f_MethodIndex fld = (-1)%Z
         ∧ f_FieldIndex fld = fieldIndex
         ∧ UseMethodResolver fld = bool_decide (fieldIndex = []).
Proof.
  destruct (makeFieldExec_bound _ _ _ _ _ _ _ _ _ _ _ _ _ _ _ _ Hwf Hrun)
    as (ap & he & hc & dp & st1 & Hchk & _ & Hcell).
  rewrite decide_False in Hchk by (intros H; apply H; reflexivity).
  inversion Hchk; subst. eexists. split; [exact Hcell|]. simpl.
  repeat split. unfold UseMethodResolver. simpl.
  destruct fieldIndex; reflexivity.
Qed.

Lemma data_member_field_unchecked_witness :
  ∃ st' fld,
    makeFieldExec Embedded.env Embedded.schema ∅ Embedded.noPackerError
      (assignExec Embedded.env Embedded.schema ∅ true Embedded.noPackerError 3)
      "Query" (mkFieldDef "name" [mkInputValue "first" 1] 2 []) zeroMethod
      (mkStructField "Name" stringType false) (-1)%Z [0; 0] true emptyState
    = Ok (0, st')
    ∧ heap st' !! 0 = Some (CField fld)
    ∧ f_ArgsPacker fld = None
    ∧ UseMethodResolver fld = false.
Proof.
  eexists.
  destruct (data_member_field_unchecked Embedded.env Embedded.schema ∅ true
              Embedded.noPackerError 3 "Query"
              (mkFieldDef "name" [mkInputValue "first" 1] 2 []) zeroMethod
              (mkStructField "Name" stringType false) [0; 0] true emptyState 0 _
              ltac:(constructor; simpl; [constructor|intros ? H; inversion H])
              ltac:(vm_compute; reflexivity))
    as (fld & Hcell & _ & Hap & _ & _ & _ & _ & Huse).
  exists fld. split; [reflexivity|]. split; [exact Hcell|]. split; [exact Hap|].
  exact Huse.
Defined.


(** ** Binding a field by a method *)

(** A field for which [findMethod] finds a method is bound to that method,
    the first one whose name [EqualFold] matches with the field's once
    underscores are stripped, whether or not the fallback to data members is
    enabled and whatever data members the struct has: [makeFieldExec] runs
    with the method and an empty field path, and its error is reported with
    the method's name.  Without the fallback, a field without a method
    fails, with a hint when the pointer type has one. *)
Theorem field_binds_by_method env schema directives useFieldResolvers packerError rec
    fuel typeName resolverType rt recv fieldsCount f rest Fields st :
  let i := findMethod env resolverType (fd_Name f) in
  let run :=
    makeObjectExec_fields env schema directives useFieldResolvers packerError rec fuel
      typeName resolverType rt recv fieldsCount (f :: rest) Fields st in
  (i ≠ (-1)%Z →
   ∃ m, Method_ env resolverType i = Ok m
        ∧ EqualFold env (stripUnderscore (fd_Name f)) (stripUnderscore (m_Name m))
          = true
        ∧ (∀ j m', j < Z.to_nat i → methodsOf env resolverType !! j = Some m' →
             EqualFold env (stripUnderscore (fd_Name f)) (stripUnderscore (m_Name m'))
             = false)
        ∧ run =
            match makeFieldExec env schema directives packerError rec typeName f m
                    zeroStructField i [] recv st with
            | Ok (fe, st1) =>
                makeObjectExec_fields env schema directives useFieldResolvers
                  packerError rec fuel typeName resolverType rt recv fieldsCount rest
                  (<[fd_Name f := fe]> Fields) st1
            | Err err =>
                Err (err +:+ nl_tab +:+ "used by (" +:+ rtype_String resolverType
                       +:+ ")." +:+ m_Name m)
            | Panic e => Panic e
            | OutOfFuel => OutOfFuel
            end)
  ∧ (i = (-1)%Z → useFieldResolvers = false →
     run = Err (rtype_String resolverType +:+ " does not resolve " +:+ quote typeName
                  +:+ ": missing method for field " +:+ quote (fd_Name f)
                  +:+ (if bool_decide (findMethod env (TPtr resolverType) (fd_Name f)
                                       ≠ (-1)%Z)
                       then " (hint: the method exists on the pointer type)"
                       else ""))).
Proof.
  intros i run. split.
  - intros Hi.
    destruct (findMethod_from_match env (methodsOf env resolverType) (fd_Name f) 0
                ltac:(lia)) as [_ H].
    destruct (H Hi) as (Hrange & m & Hl & Hname & Hfirst).
    fold (findMethod env resolverType (fd_Name f)) in Hl, Hrange, Hfirst.
    fold i in Hl, Hrange, Hfirst. rewrite Z.sub_0_r in Hl, Hfirst.
    assert (Hm : Method_ env resolverType i = Ok m).
    { unfold Method_. destruct (Z.ltb_spec i 0); [lia|]. rewrite Hl. reflexivity. }
    exists m. split; [exact Hm|]. split; [exact Hname|]. split; [exact Hfirst|].
    unfold run. cbn [makeObjectExec_fields]. fold i.
    rewrite (bool_decide_eq_false_2 (i = (-1)%Z)) by assumption.
    rewrite andb_false_r. unfold bind at 1, ret, rbind. cbn [fst snd andb].
    destruct (decide (i ≠ (-1)%Z)) as [_|Hx]; [|contradiction].
    unfold bind at 1, rbind. unfold bind at 1, lift, rbind. rewrite Hm.
    cbn [fst snd ret]. unfold bind at 1, rbind.
    destruct (makeFieldExec env schema directives packerError rec typeName f m
                zeroStructField i [] recv st) as [[fe st1]| | |]; reflexivity.
  - intros Hi Hoff. unfold run. cbn [makeObjectExec_fields]. fold i.
    rewrite Hi, Hoff. reflexivity.
Qed.

Lemma field_binds_by_method_witness :
  ∃ m, Method_ Hello.env (TPtr Hello.R) 0 = Ok m
       ∧ EqualFold Hello.env (stripUnderscore "hello") (stripUnderscore (m_Name m))
         = true.
Proof.
  destruct (field_binds_by_method Hello.env Hello.schema ∅ true Hello.noPackerError
              (assignExec Hello.env Hello.schema ∅ true Hello.noPackerError 3) 3
              "Query" (TPtr Hello.R) Hello.R true ∅ Hello.hello [] ∅ emptyState)
    as [Hfound _].
  destruct (Hfound ltac:(discriminate)) as (m & Hm & Hname & _).
  exists m. split; assumption.
Defined.

(** With the fallback to data members enabled, a resolver of interface type
    needs no conversion methods: the possible types of an interface or union
    are not looked at, and the node gets no type assertions. *)
Theorem interface_resolver_needs_no_conversions env schema directives packerError rec
    fuel typeName fields possibleTypes nonNull resolverType st
    (Hiface : Kind_ env resolverType = KInterface) :
  let make := makeObjectExec env schema directives true packerError rec fuel typeName
                fields in
  make possibleTypes nonNull resolverType st = make [] nonNull resolverType st
  ∧ ∀ p st', make possibleTypes nonNull resolverType st = Ok (p, st') →
      ∃ o, heap st' !! p = Some (CObject o) ∧ o_TypeAssertions o = ∅.
Proof.
  intros make. unfold make. rewrite !makeObjectExec_unfold. rewrite Hiface.
  rewrite (bool_decide_eq_true_2 (KInterface = KInterface)) by reflexivity.
  cbn [negb orb]. split; [reflexivity|].
  intros p st'. destruct (_ && _); [discriminate|]. cbv zeta. unfold rbind.
  destruct (unwrapPtr env resolverType); try discriminate.
  destruct (fieldCount env fuel a ∅); try discriminate.
  destruct (makeObjectExec_fields _ _ _ _ _ _ _ _ _ _ _ _ _ _ _) as [[Fields st1]| | |];
    try discriminate.
  cbn [fst snd]. intros E. inversion E; subst. simpl.
  eexists. split.
  - rewrite lookup_app_r by lia. rewrite Nat.sub_diag. reflexivity.
  - reflexivity.
Qed.

Lemma interface_resolver_needs_no_conversions_witness :
  makeObjectExec Iface.env Iface.schema ∅ true Iface.noPackerError
    (assignExec Iface.env Iface.schema ∅ true Iface.noPackerError 3) 3 "Node" []
    [0] true Iface.Node emptyState
  = Ok (0, mkState [CObject (mkObject "Node" ∅ ∅)] [] []).
Proof.
  destruct (interface_resolver_needs_no_conversions Iface.env Iface.schema ∅
              Iface.noPackerError
              (assignExec Iface.env Iface.schema ∅ true Iface.noPackerError 3) 3 "Node"
              [] [0] true Iface.Node emptyState eq_refl) as [Hsame _].
  rewrite Hsame. reflexivity.
Defined.

(** ** Directives on fields *)

Lemma makeFieldExec_directives_spec schema directives packerError f ds acc st dp st' :
  (∀ n v, directives !! n = Some v → isResolverInterceptor v = true) →
  makeFieldExec_directives schema directives packerError f ds acc st = Ok (dp, st') →
  let packerOf n p :=
    ∃ v dd, directives !! n = Some v ∧ lookupDirective schema n = Some dd
            ∧ packerError (dd_Arguments dd) (d_Type v) = None
            ∧ p = (dd_Arguments dd, d_Type v) in
  (∀ n p, acc !! n = Some p → packerOf n p) →
  (∀ n p, dp !! n = Some p → packerOf n p)
  ∧ (∀ n, is_Some (acc !! n) → is_Some (dp !! n))
  ∧ (∀ n, n ∈ ds → n ≠ "deprecated" → is_Some (dp !! n))
  ∧ (∀ n, is_Some (dp !! n) → is_Some (acc !! n) ∨ (n ∈ ds ∧ n ≠ "deprecated")).
Proof.
  intros Hint. revert acc st. induction ds as [|n rest IH]; intros acc st; simpl.
  - unfold ret. intros E. inversion E; subst. intros Hacc.
    split; [exact Hacc|]. split; [tauto|]. split; [intros n H; inversion H|tauto].
  - destruct (bool_decide (n = "deprecated")) eqn:Hdep.
    + apply bool_decide_eq_true in Hdep. subst n. intros E Hacc.
      destruct (IH acc st E Hacc) as (H1 & H2 & H3 & H4).
      split; [exact H1|]. split; [exact H2|]. split.
      * intros n Hn Hne. apply elem_of_cons in Hn as [->|Hn]; [contradiction|auto].
      * intros n Hn. destruct (H4 n Hn) as [?|[? ?]]; [tauto|].
        right. split; [apply list_elem_of_further|]; assumption.
    + apply bool_decide_eq_false in Hdep.
      destruct (directives !! n) as [v|] eqn:Hv; [|discriminate].
      rewrite (Hint n v Hv). cbn [negb].
      destruct (lookupDirective schema n) as [dd|] eqn:Hdd; [|discriminate].
      unfold bind at 1, MakeStructPacker, rbind.
      destruct (packerError (dd_Arguments dd) (d_Type v)) eqn:Hpe; [discriminate|].
      cbn [fst snd]. intros E Hacc.
      destruct (IH _ _ E) as (H1 & H2 & H3 & H4).
      { intros n' p. destruct (decide (n' = n)) as [->|Hne].
        - rewrite lookup_insert_eq. intros E'. inversion E'; subst.
          exists v, dd. auto.
        - rewrite lookup_insert_ne by congruence. apply Hacc. }
      split; [exact H1|]. split; [|split].
      * intros n' Hn'. apply H2. destruct (decide (n' = n)) as [->|Hne].
        -- rewrite lookup_insert_eq. eauto.
        -- rewrite lookup_insert_ne by congruence. assumption.
      * intros n' Hn' Hne. apply elem_of_cons in Hn' as [->|Hn']; [|auto].
        apply H2. rewrite lookup_insert_eq. eauto.
      * intros n' Hn'. destruct (H4 n' Hn') as [Hin|[? ?]].
        -- destruct (decide (n' = n)) as [->|Hne].
           ++ right. split; [apply list_elem_of_here|assumption].
           ++ rewrite lookup_insert_ne in Hin by congruence. tauto.
        -- right. split; [apply list_elem_of_further|]; assumption.
Qed.

Lemma applyDirectives_registered s visitors byName :
  applyDirectives s visitors = Ok byName →
  ∀ n v, byName !! n = Some v →
    v ∈ visitors ∧ ImplementsDirective v = n ∧ isResolverInterceptor v = true.
Proof.
  unfold applyDirectives, rbind.
  pose proof (applyDirectives_visitors_spec visitors ∅) as Hv.
  destruct (applyDirectives_visitors visitors ∅) as [m| | |]; try discriminate.
  destruct (applyDirectives_declared (sDirectives s) m); try discriminate.
  intros E. inversion E; subst m. clear E.
  destruct Hv as (_ & Hall & ->).
  assert (Hgen : ∀ (vs : list Directive) (acc : gmap string Directive),
    (∀ n v, acc !! n = Some v →
       v ∈ visitors ∧ ImplementsDirective v = n ∧ isResolverInterceptor v = true) →
    (∀ v, v ∈ vs → v ∈ visitors ∧ isResolverInterceptor v = true) →
    ∀ n v, foldl (fun m v => <[ImplementsDirective v := v]> m) acc vs !! n = Some v →
      v ∈ visitors ∧ ImplementsDirective v = n ∧ isResolverInterceptor v = true).
  { induction vs as [|w vs IH]; intros acc Hacc Hvs n v; simpl; [apply Hacc|].
    apply IH.
    - intros n' v'. destruct (decide (n' = ImplementsDirective w)) as [->|Hne].
      + rewrite lookup_insert_eq. intros E. inversion E; subst.
        destruct (Hvs v' (list_elem_of_here _ _)). auto.
      + rewrite lookup_insert_ne by congruence. apply Hacc.
    - intros v' Hv'. apply Hvs. apply list_elem_of_further. assumption. }
  apply Hgen.
  - intros n v H. rewrite lookup_empty in H. discriminate.
  - intros v Hv. split; [assumption|].
    rewrite Forall_forall in Hall. apply Hall. assumption.
Qed.

(** With the directives that [applyDirectives] accepted, a field whose
    directives are processed without error has a packer for every directive
    on it except [deprecated], built from the arguments of the directive's
    definition and the type of its implementation; no other name has one.
    So a directive on a field is never passed over silently: each one besides
    [deprecated] is registered and defined, or binding fails. *)
Theorem field_directives_get_packers s visitors ds packerError f st dp st'
    (Hds : applyDirectives s visitors = Ok ds)
    (Hrun : makeFieldExec_directives s ds packerError f (fd_Directives f) ∅ st
            = Ok (dp, st')) :
  (∀ n, n ∈ fd_Directives f → n ≠ "deprecated" →
     ∃ v dd, v ∈ visitors ∧ ImplementsDirective v = n
             ∧ lookupDirective s n = Some dd
             ∧ dp !! n = Some (dd_Arguments dd, d_Type v))
  ∧ (∀ n, is_Some (dp !! n) → n ∈ fd_Directives f ∧ n ≠ "deprecated")
  ∧ heap st' = heap st ∧ resMap st' = resMap st.
Proof.
  pose proof (applyDirectives_registered s visitors ds Hds) as Hreg.
  destruct (makeFieldExec_directives_spec s ds packerError f (fd_Directives f) ∅ st dp
              st' (fun n v H => proj2 (proj2 (Hreg n v H))) Hrun)
    as (H1 & _ & H3 & H4).
  { intros n p H. rewrite lookup_empty in H. discriminate. }
  split; [|split].
  - intros n Hn Hne. destruct (H3 n Hn Hne) as [p Hp].
    destruct (H1 n p Hp) as (v & dd & Hv & Hdd & _ & ->).
    destruct (Hreg n v Hv) as (Hin & Hname & _).
    exists v, dd. auto.
  - intros n Hn. destruct (H4 n Hn) as [[p Hp]|H]; [|exact H].
    rewrite lookup_empty in Hp. discriminate.
  - pose proof (makeFieldExec_directives_shape s ds packerError f (fd_Directives f) ∅ st)
      as Hshape.
    rewrite Hrun in Hshape. exact Hshape.
Qed.

Lemma field_directives_get_packers_witness :
  ∃ v dd, v ∈ [Auth.auth] ∧ ImplementsDirective v = "auth"
          ∧ lookupDirective Auth.schema "auth" = Some dd
          ∧ (<["auth" := ([mkInputValue "role" 2], Auth.authType)]> ∅
               : gmap string StructPacker) !! "auth"
            = Some (dd_Arguments dd, d_Type v).
Proof.
  destruct (field_directives_get_packers Auth.schema [Auth.auth] Auth.byName
              Auth.noPackerError Auth.secret emptyState
              (<["auth" := ([mkInputValue "role" 2], Auth.authType)]> ∅)
              (mkState [] [] [([mkInputValue "role" 2], Auth.authType)])
              eq_refl eq_refl) as (Hall & _).
  exact (Hall "auth" ltac:(apply list_elem_of_here) ltac:(discriminate)).
Defined.


(** ** The shape of the tree *)

Lemma valid_prefix h h' r : h `prefix_of` h' → valid h r → valid h' r.
Proof.
  intros Hp. destruct r; simpl; [tauto| | |].
  - intros [o Ho]. exists o. eapply prefix_lookup_Some; eassumption.
  - intros [e He]. exists e. eapply prefix_lookup_Some; eassumption.
  - intros H. eapply prefix_lookup_Some; eassumption.
Qed.

Lemma cellOK_prefix s h h' c : h `prefix_of` h' → cellOK s h c → cellOK s h' c.
Proof.
  intros Hp. destruct c as [o|e| |fld|a|v]; simpl; try tauto.
  - intros (t & fields & possible & Hparts & Hdom & Hfields & Htas).
    exists t, fields, possible. split; [exact Hparts|]. split; [exact Hdom|]. split.
    + intros n fe Hn. destruct (Hfields n fe Hn) as (fld & Hfld & Hrest).
      exists fld. split; [|exact Hrest]. eapply prefix_lookup_Some; eassumption.
    + intros n a Hn. destruct (Htas n a Hn) as (Himpl & ta & Hta).
      split; [exact Himpl|]. exists ta. eapply prefix_lookup_Some; eassumption.
  - apply valid_prefix. assumption.
  - intros [H1 H2]. split; [assumption|]. eapply valid_prefix; eassumption.
  - intros [H1 H2]. split; [assumption|]. eapply valid_prefix; eassumption.
  - apply valid_prefix. assumption.
Qed.

Lemma grows_refl st : grows st st.
Proof. split; [reflexivity|eauto]. Qed.

Lemma grows_trans st1 st2 st3 : grows st1 st2 → grows st2 st3 → grows st1 st3.
Proof.
  intros [H1 H2] [H3 H4]. split; [etransitivity; eassumption|].
  intros k e Hk. destruct (H2 k e Hk) as (e' & Hk' & Ht).
  destruct (H4 k e' Hk') as (e'' & Hk'' & Ht'). eauto.
Qed.

Lemma grows_alloc st c pl :
  grows st (mkState (heap st ++ [c]) (resMap st) pl).
Proof. split; simpl; [apply prefix_app_r; reflexivity|eauto]. Qed.

Lemma grows_is_Some st st' k :
  grows st st' → is_Some (lookupEntry k (resMap st)) →
  is_Some (lookupEntry k (resMap st')).
Proof. intros [_ H] [e He]. destruct (H k e He) as (e' & He' & _). eauto. Qed.

Lemma lookupEntry_None {V} (k : typePair) (m : list (typePair * V)) :
  assoc k m = None ↔ k ∉ map fst m.
Proof.
  induction m as [|[k' e] m IH]; simpl.
  - split; [intros _ H; inversion H|reflexivity].
  - case_decide as Hk.
    + subst. split; [discriminate|]. intros H. exfalso. apply H, list_elem_of_here.
    + rewrite IH. rewrite not_elem_of_cons. split; [auto|tauto].
Qed.

Lemma lookupEntry_elem (m : list (typePair * resMapEntry)) ke :
  NoDup (map fst m) → ke ∈ m ↔ lookupEntry (fst ke) m = Some (snd ke).
Proof.
  unfold lookupEntry. induction m as [|[k' e] m IH]; simpl; intros Hnd.
  - split; [intros H; inversion H|discriminate].
  - inversion Hnd as [|? ? Hnot Hnd']; subst. case_decide as Hk.
    + split.
      * intros Hin. apply elem_of_cons in Hin as [->|Hin]; [reflexivity|].
        exfalso. apply Hnot. rewrite Hk. apply list_elem_of_fmap. eauto.
      * intros E. inversion E. destruct ke; simpl in *; subst. apply list_elem_of_here.
    + rewrite <- (IH Hnd'). rewrite elem_of_cons. split; [|tauto].
      intros [->|H]; [|exact H]. simpl in Hk. congruence.
Qed.

Lemma updateEntry_keys k f (m : list (typePair * resMapEntry)) :
  map fst (updateEntry k f m) = map fst m.
Proof.
  induction m as [|[k' e] m IH]; simpl; [reflexivity|].
  case_decide; simpl; [reflexivity|]. rewrite IH. reflexivity.
Qed.

Lemma built_weaken s K X X' st :
  built s K X st → (∀ x, x ∈ X → x ∈ X') → built s K X' st.
Proof.
  intros [H1 H0 H2 H3 H4 H5] HX. constructor; try assumption.
  intros p c Hp Hs. destruct (H3 p c Hp Hs); auto.
Qed.

Lemma built_log s K X st pl :
  built s K X st → built s K X (mkState (heap st) (resMap st) pl).
Proof.
  intros [[H0 H0'] H1 H2 H3 H4 H5]. constructor; simpl; try assumption.
  constructor; assumption.
Qed.

(** Allocating a cell: its slot, if it has one, is not yet a target. *)
Lemma built_alloc s K X st c :
  built s K X st → cellOK s (heap st ++ [c]) c →
  built s K (length (heap st) :: X)
    (mkState (heap st ++ [c]) (resMap st) (packerLog st)).
Proof.
  intros [H1 H0 H2 H3 H4 H5] Hc.
  assert (Hpre : heap st `prefix_of` heap st ++ [c]) by (apply prefix_app_r; reflexivity).
  constructor; simpl.
  - apply alloc_wf. assumption.
  - assumption.
  - assumption.
  - intros p c' Hp Hs. apply lookup_app_Some in Hp as [Hp|[Hlen Hp]].
    + destruct (H3 p c' Hp Hs); [left; apply list_elem_of_further|right]; assumption.
    + left. destruct (p - length (heap st)) as [|x] eqn:E; [|destruct x; discriminate].
      replace p with (length (heap st)) by lia. apply list_elem_of_here.
  - intros k e Hk. eapply valid_prefix; [exact Hpre|]. eapply H4. eassumption.
  - intros p c' Hp. apply lookup_app_Some in Hp as [Hp|[Hlen Hp]].
    + eapply cellOK_prefix; [exact Hpre|]. eapply H5. eassumption.
    + destruct (p - length (heap st)) as [|x] eqn:E; [|destruct x; discriminate].
      simpl in Hp. inversion Hp; subst. assumption.
Qed.

(** Allocating a cell without a slot. *)
Lemma built_alloc_node s K X st c :
  built s K X st → cellOK s (heap st ++ [c]) c → slot c = None →
  built s K X (mkState (heap st ++ [c]) (resMap st) (packerLog st)).
Proof.
  intros Hb Hc Hs. pose proof (built_alloc s K X st c Hb Hc) as [H1 H0 H2 H3 H4 H5].
  constructor; try assumption.
  intros p c' Hp Hs'. destruct (H3 p c' Hp Hs') as [Hin|Hin]; [|auto].
  apply elem_of_cons in Hin as [->|Hin]; [|auto].
  simpl in Hp. rewrite lookup_app_r in Hp by lia. rewrite Nat.sub_diag in Hp.
  simpl in Hp. inversion Hp; subst. rewrite Hs in Hs'. destruct Hs'. discriminate.
Qed.

Lemma built_newEntry s K X st k :
  built s K X st → lookupEntry k (resMap st) = None →
  built s (k :: K) X
    (mkState (heap st) (resMap st ++ [(k, mkEntry RNil [])]) (packerLog st)).
Proof.
  intros [H1 H0 H2 H3 H4 H5] Hnone. constructor; simpl.
  - apply newEntry_wf. assumption.
  - rewrite map_app. simpl. apply NoDup_app. split; [assumption|].
    split; [|apply NoDup_singleton].
    intros x Hx Hx'. apply list_elem_of_singleton in Hx'. subst.
    apply lookupEntry_None in Hnone. contradiction.
  - intros k' e. rewrite lookupEntry_app.
    destruct (lookupEntry k' (resMap st)) as [x|] eqn:Hl.
    + intros E He. inversion E; subst. apply list_elem_of_further. eapply H2; eassumption.
    + case_decide; [|discriminate]. subst. intros _ _. apply list_elem_of_here.
  - intros p c Hp Hs. rewrite allTargets_app. simpl. rewrite app_nil_r. eauto.
  - intros k' e. rewrite lookupEntry_app.
    destruct (lookupEntry k' (resMap st)) as [x|] eqn:Hl.
    + intros E. inversion E; subst. eapply H4. eassumption.
    + case_decide; [|discriminate]. intros E. inversion E. exact I.
  - assumption.
Qed.

Lemma built_setExec s K X st k e :
  built s (k :: K) X st → e ≠ RNil → valid (heap st) e →
  built s K X
    (mkState (heap st) (updateEntry k (fun r => mkEntry e (targets r)) (resMap st))
       (packerLog st)).
Proof.
  intros [H1 H0 H2 H3 H4 H5] Hne Hv. constructor; simpl.
  - apply setExec_wf. assumption.
  - rewrite updateEntry_keys. assumption.
  - intros k' e'. rewrite lookupEntry_update. case_decide as Hk.
    + subst. destruct (lookupEntry k (resMap st)); [|discriminate].
      simpl. intros E He. inversion E; subst. simpl in He. contradiction.
    + intros Hl He. specialize (H2 k' e' Hl He).
      apply elem_of_cons in H2 as [?|?]; [congruence|assumption].
  - intros p c Hp Hs. rewrite allTargets_update_exec. eauto.
  - intros k' e'. rewrite lookupEntry_update. case_decide as Hk.
    + subst. destruct (lookupEntry k (resMap st)); [|discriminate].
      simpl. intros E. inversion E; subst. assumption.
    + apply H4.
  - assumption.
Qed.

Lemma built_recordTarget s K X st k target :
  built s K (target :: X) st → fresh target st →
  is_Some (lookupEntry k (resMap st)) →
  built s K X
    (mkState (heap st)
       (updateEntry k (fun r => mkEntry (exec r) (targets r ++ [target])) (resMap st))
       (packerLog st)).
Proof.
  intros [H1 H0 H2 H3 H4 H5] Hfresh Hk. constructor; simpl.
  - apply recordTarget_wf; assumption.
  - rewrite updateEntry_keys. assumption.
  - intros k' e'. rewrite lookupEntry_update. case_decide as Hkk.
    + subst. destruct (lookupEntry k (resMap st)) as [r|] eqn:Hl; [|discriminate].
      simpl. intros E He. inversion E; subst. simpl in He. eapply H2; eassumption.
    + apply H2.
  - intros p c Hp Hs. rewrite allTargets_update_target.
    rewrite decide_True by assumption.
    destruct (H3 p c Hp Hs) as [Hin|Hin].
    + apply elem_of_cons in Hin as [->|Hin]; [right; apply list_elem_of_here|auto].
    + right. apply list_elem_of_further. assumption.
  - intros k' e'. rewrite lookupEntry_update. case_decide as Hkk.
    + subst. destruct (lookupEntry k (resMap st)) as [r|] eqn:Hl; [|discriminate].
      simpl. intros E. inversion E; subst. simpl. eapply H4. eassumption.
    + apply H4.
  - assumption.
Qed.

Lemma grows_update st k f :
  (∀ r tg, tg ∈ targets r → tg ∈ targets (f r)) →
  grows st (mkState (heap st) (updateEntry k f (resMap st)) (packerLog st)).
Proof.
  intros Hf. split; simpl; [reflexivity|]. intros k' e Hk'. rewrite lookupEntry_update.
  case_decide; [subst; rewrite Hk'; simpl|]; eauto.
Qed.

(** What a successful [makeFieldExec] did: it allocated the field node and
    called [assignExec] on it. *)
Lemma makeFieldExec_steps env schema directives packerError rec typeName f m sf
    methodIndex fieldIndex recv st fe st' :
  makeFieldExec env schema directives packerError rec typeName f m sf methodIndex
    fieldIndex recv st = Ok (fe, st') →
  ∃ argsPacker hasError hasContext dp pl out,
    fe = length (heap st)
    ∧ rec fe (fd_Type f) out
        (mkState
           (heap st ++ [CField (mkField f typeName methodIndex fieldIndex hasContext
                                  hasError argsPacker dp RNil
                                  ("GraphQL field: " +:+ typeName +:+ "." +:+ fd_Name f))])
           (resMap st) pl) = Ok (tt, st').
Proof.
  unfold makeFieldExec. unfold bind at 1, rbind.
  set (chk := (if decide (methodIndex ≠ (-1)%Z)
               then makeFieldExec_method packerError f m recv
               else ret (None, false, false)) st).
  assert (Hshape : match chk with Ok (_, st1) => sameShape st st1 | _ => True end).
  { subst chk. case_decide.
    - pose proof (makeFieldExec_method_shape packerError f m recv st) as H'.
      destruct (makeFieldExec_method packerError f m recv st) as [[? ?]| | |];
        try exact I; assumption.
    - simpl. split; reflexivity. }
  destruct chk as [[[[argsPacker hasError] hasContext] st1]| | |] eqn:Hchk;
    try discriminate.
  cbn [fst snd]. unfold bind at 1, rbind.
  pose proof (makeFieldExec_directives_shape schema directives packerError f
                (fd_Directives f) ∅ st1) as Hd.
  destruct (makeFieldExec_directives _ _ _ _ _ _ st1) as [[dp st2]| | |];
    try discriminate.
  cbn [fst snd]. unfold bind at 1, alloc, rbind. cbn [fst snd].
  destruct Hshape as [Hh1 Hr1]. destruct Hd as [Hh2 Hr2].
  rewrite Hh2, Hh1, Hr2, Hr1.
  unfold bind at 1, rbind.
  match goal with |- context [(if decide _ then _ else _) ?st3] =>
    destruct ((if decide (methodIndex ≠ (-1)%Z) then _ else ret (sf_Type sf)) st3)
      as [[out st4]| | |] eqn:Hout end; try discriminate.
  assert (Hst4 : st4 = mkState
            (heap st ++ [CField (mkField f typeName methodIndex fieldIndex hasContext
                                   hasError argsPacker dp RNil
                                   ("GraphQL field: " +:+ typeName +:+ "." +:+ fd_Name f))])
            (resMap st) (packerLog st2)).
  { revert Hout. case_decide.
    - unfold bind, lift, rbind, ret. destruct (Out0 m); try discriminate. simpl.
      destruct (RootOperationTypes schema !! "subscription"); simpl.
      + destruct (TypeName schema t); try discriminate. simpl.
        destruct (_ && _); simpl.
        * destruct (Elem env a); try discriminate. simpl.
          intros E; inversion E; reflexivity.
        * intros E; inversion E; reflexivity.
      + intros E; inversion E; reflexivity.
    - simpl. intros E; inversion E; reflexivity. }
  subst st4. cbn [fst snd]. unfold bind at 1, rbind.
  match goal with |- context [rec ?a ?b ?c ?d] =>
    destruct (rec a b c d) as [[[] st5]| | |] eqn:Ha end; try discriminate.
  simpl. intros E. inversion E; subst fe st'. clear E.
  exists argsPacker, hasError, hasContext, dp, (packerLog st2), out.
  split; [reflexivity|exact Ha].
Qed.

(** What a successful round of the loop over the fields did. *)
Lemma makeObjectExec_fields_step env schema directives useFieldResolvers packerError rec
    fuel typeName resolverType rt recv fieldsCount f rest Fields st Fields' st' :
  makeObjectExec_fields env schema directives useFieldResolvers packerError rec fuel
    typeName resolverType rt recv fieldsCount (f :: rest) Fields st = Ok (Fields', st') →
  ∃ m sf fieldIndex fe st1,
    let i := findMethod env resolverType (fd_Name f) in
    ((i ≠ (-1)%Z ∧ fieldIndex = []) ∨ (i = (-1)%Z ∧ fieldIndex ≠ []))
    ∧ makeFieldExec env schema directives packerError rec typeName f m sf i fieldIndex
        recv st = Ok (fe, st1)
    ∧ makeObjectExec_fields env schema directives useFieldResolvers packerError rec fuel
        typeName resolverType rt recv fieldsCount rest (<[fd_Name f := fe]> Fields) st1
      = Ok (Fields', st').
Proof.
  cbn [makeObjectExec_fields]. unfold bind at 1, rbind.
  set (i := findMethod env resolverType (fd_Name f)).
  match goal with |- context [(if ?b then ?x else ?y) st] =>
    destruct ((if b then x else y) st) as [[fieldIndex st0]| | |] eqn:Hidx end;
    try discriminate.
  assert (Hst0 : st0 = st ∧ (i ≠ (-1)%Z → fieldIndex = [])).
  { revert Hidx. destruct (useFieldResolvers && bool_decide (i = (-1)%Z)) eqn:Hb.
    - apply andb_true_iff in Hb as [_ Hb]. apply bool_decide_eq_true in Hb.
      case_bool_decide; [unfold fail; intros E; discriminate E|].
      unfold lift, rbind.
      destruct (findField env fuel rt (fd_Name f) []); try discriminate.
      intros E. inversion E; subst. split; [reflexivity|]. tauto.
    - unfold ret. intros E. inversion E; subst. tauto. }
  destruct Hst0 as [-> Hnil]. cbn [fst snd].
  destruct (bool_decide (i = (-1)%Z) && bool_decide (length fieldIndex = 0)) eqn:Hchk;
    [discriminate|].
  unfold bind at 1, rbind.
  match goal with |- context [(if decide (i ≠ (-1)%Z) then ?x else ?y) st] =>
    destruct ((if decide (i ≠ (-1)%Z) then x else y) st) as [[[m sf] st0]| | |] eqn:Hmem
  end; try discriminate.
  assert (st0 = st) as ->.
  { revert Hmem. destruct (decide (i ≠ (-1)%Z)); unfold bind, lift, rbind, ret.
    - destruct (Method_ env resolverType i); try discriminate.
      simpl. intros E. inversion E. reflexivity.
    - destruct (FieldByIndex env rt fieldIndex); try discriminate.
      simpl. intros E. inversion E. reflexivity. }
  cbn [fst snd]. unfold bind at 1, rbind.
  destruct (makeFieldExec env schema directives packerError rec typeName f m sf i
              fieldIndex recv st) as [[fe st1]| | |] eqn:Hfe; try discriminate.
  cbn [fst snd]. intros Hrest.
  exists m, sf, fieldIndex, fe, st1. split; [|split; [exact Hfe|exact Hrest]].
  destruct (decide (i = (-1)%Z)) as [Hi|Hi].
  - right. split; [exact Hi|]. rewrite (bool_decide_eq_true_2 _ Hi) in Hchk.
    simpl in Hchk. apply bool_decide_eq_false in Hchk.
    intros ->. apply Hchk. reflexivity.
  - left. split; [exact Hi|auto].
Qed.

(** What a successful [makeExec] did. *)
Lemma makeExec_steps env schema directives useFieldResolvers packerError rec fuel
    (t : tyref) rt st r st' :
  makeExec env schema directives useFieldResolvers packerError rec fuel t rt st
    = Ok (r, st') →
  let t' := fst (unwrapNonNull schema t) in
  let nonNull := snd (unwrapNonNull schema t) in
  (∃ name fields possibleTypes p,
     objectParts (sTypes schema !! t') = Some (name, fields, possibleTypes)
     ∧ makeObjectExec env schema directives useFieldResolvers packerError rec fuel name
         fields possibleTypes nonNull rt st = Ok (p, st')
     ∧ r = RObject p)
  ∨ (r = RScalar (length (heap st))
     ∧ st' = mkState (heap st ++ [CScalar]) (resMap st) (packerLog st))
  ∨ (∃ ofType elem,
       r = RList (length (heap st))
       ∧ rec (length (heap st)) ofType elem
           (mkState (heap st ++ [CList RNil]) (resMap st) (packerLog st))
         = Ok (tt, st')).
Proof.
  unfold makeExec. destruct (unwrapNonNull schema t) as [t' nonNull]. cbn [fst snd].
  assert (Hobj : ∀ name fields possibleTypes,
    objectParts (sTypes schema !! t') = Some (name, fields, possibleTypes) →
    (p <- makeObjectExec env schema directives useFieldResolvers packerError rec fuel
            name fields possibleTypes nonNull rt ;; ret (RObject p)) st = Ok (r, st') →
    ∃ name fields possibleTypes p,
      objectParts (sTypes schema !! t') = Some (name, fields, possibleTypes)
      ∧ makeObjectExec env schema directives useFieldResolvers packerError rec fuel name
          fields possibleTypes nonNull rt st = Ok (p, st')
      ∧ r = RObject p).
  { intros name fields possible Hparts. unfold bind, ret, rbind.
    destruct (makeObjectExec _ _ _ _ _ _ _ _ _ _ _ _ _) as [[p st1]| | |] eqn:Hm;
      try discriminate.
    simpl. intros E. inversion E; subst. exists name, fields, possible, p. auto. }
  destruct (sTypes schema !! t')
    as [[name fields|name fields possible|name members|name|name|name|ofType|ofType]|]
    eqn:Hnode.
  1-3: intros E; left; eapply Hobj; [reflexivity|exact E].
  all: unfold bind at 1, rbind.
  all: match goal with |- context [(if negb ?nn then ?x else ?y) ?s0] =>
         destruct ((if negb nn then x else y) s0) as [[rt' st0]| | |] eqn:Hrt
       end; try (intros E; discriminate E).
  all: assert (st0 = st) as ->
         by (revert Hrt; destruct (negb _);
             [destruct (negb _); [intros E; discriminate E|]; unfold lift, rbind;
              destruct (Elem env rt); try (intros E; discriminate E);
              intros E; inversion E; reflexivity
             |unfold ret; intros E; inversion E; reflexivity]).
  all: cbn [fst snd].
  all: try (intros E; cbv [panic] in E; discriminate E).
  - rewrite makeScalarExec_accept. destruct (if decide _ then _ else _);
      [|intros E; discriminate E].
    intros E. inversion E; subst. right. left. split; reflexivity.
  - unfold bind, alloc, ret, rbind. simpl. intros E. inversion E; subst.
    right. left. split; reflexivity.
  - destruct (negb (bool_decide (Kind_ env rt' = KSlice)));
      [intros E; cbv [fail] in E; discriminate E|].
    unfold bind at 1, alloc, rbind. cbn [fst snd].
    unfold bind at 1, lift, rbind.
    destruct (Elem env rt') as [elem| | |]; try (intros E; discriminate E).
    cbn [fst snd]. unfold bind at 1, rbind.
    match goal with |- context [rec ?a ?b ?c ?d] =>
      destruct (rec a b c d) as [[[] st5]| | |] eqn:Ha end;
      try (intros E; discriminate E).
    simpl. intros E. inversion E; subst. right. right.
    exists ofType, elem. split; [reflexivity|exact Ha].
Qed.

Lemma findMethod_nonneg env t name :
  findMethod env t name ≠ (-1)%Z → (0 ≤ findMethod env t name)%Z.
Proof.
  intros H. destruct (findMethod_from_match env (methodsOf env t) name 0 ltac:(lia)) as [_ H2].
  destruct (H2 H) as [Hr _]. unfold findMethod. lia.
Qed.

Lemma fieldsOK_prefix fs typeName h h' Fields :
  h `prefix_of` h' → fieldsOK fs typeName h Fields → fieldsOK fs typeName h' Fields.
Proof.
  intros Hp H n fe Hn. destruct (H n fe Hn) as (fld & Hfld & Hrest).
  exists fld. split; [|exact Hrest]. eapply prefix_lookup_Some; eassumption.
Qed.

Lemma assertionsOK_prefix s pts h h' tas :
  h `prefix_of` h' → assertionsOK s pts h tas → assertionsOK s pts h' tas.
Proof.
  intros Hp H n a Hn. destruct (H n a Hn) as (Himpl & ta & Hta).
  split; [exact Himpl|]. exists ta. eapply prefix_lookup_Some; eassumption.
Qed.

Section TreeInv.
Variable env : TypeEnv.
Variable s : Schema.
Variable directives : gmap string Directive.
Variable useFieldResolvers : bool.
Variable packerError : list InputValueDefinition → rtype → option string.

Section TreeLevel.
Variable rec : loc → tyref → rtype → M unit.
Hypothesis Hrec : treeSpec s rec.
Variable fuel : nat.

(** Allocating a cell with a slot and handing the slot to [assignExec]. *)
Lemma alloc_assign_tree K X st pl c t rt st' :
  built s K X st → cellOK s (heap st ++ [c]) c → is_Some (slot c) →
  rec (length (heap st)) t rt (mkState (heap st ++ [c]) (resMap st) pl) = Ok (tt, st') →
  built s K X st' ∧ grows st st' ∧ heap st' !! length (heap st) = Some c.
Proof.
  intros Hb Hc Hs Hr.
  pose proof (built_log s K X st pl Hb) as Hb1.
  pose proof (built_alloc s K X _ c Hb1 Hc) as Hb2. simpl in Hb2.
  assert (Hfr : fresh (length (heap st))
                  (mkState (heap st ++ [c]) (resMap st) pl)).
  { exact (alloc_fresh (mkState (heap st) (resMap st) pl) c (built_wf _ _ _ _ Hb1) Hs). }
  destruct (Hrec K X _ t rt _ st' Hb2 Hfr Hr) as [Hb3 Hg].
  split; [exact Hb3|]. split.
  - eapply grows_trans; [|exact Hg]. apply grows_alloc.
  - eapply prefix_lookup_Some; [|exact (proj1 Hg)]. simpl.
    rewrite lookup_app_r by lia. rewrite Nat.sub_diag. reflexivity.
Qed.

Lemma makeFieldExec_tree typeName f m sf methodIndex fieldIndex recv K X st fe st' :
  built s K X st →
  ((0 ≤ methodIndex)%Z ∧ fieldIndex = []) ∨ (methodIndex = (-1)%Z ∧ fieldIndex ≠ []) →
  makeFieldExec env s directives packerError rec typeName f m sf methodIndex fieldIndex
    recv st = Ok (fe, st') →
  built s K X st' ∧ grows st st'
  ∧ ∃ fld, heap st' !! fe = Some (CField fld)
           ∧ f_FieldDefinition fld = f ∧ f_TypeName fld = typeName.
Proof.
  intros Hb Hidx Hrun.
  destruct (makeFieldExec_steps _ _ _ _ _ _ _ _ _ _ _ _ _ _ _ Hrun)
    as (ap & he & hc & dp & pl & out & -> & Hr).
  edestruct (alloc_assign_tree K X st pl) as (Hb' & Hg & Hcell);
    [exact Hb| | |exact Hr|].
  - simpl. split; [exact Hidx|exact I].
  - simpl. eauto.
  - split; [exact Hb'|]. split; [exact Hg|].
    eexists. split; [exact Hcell|]. split; reflexivity.
Qed.

Lemma makeObjectExec_fields_tree allFields typeName resolverType rt recv fieldsCount
    fields :
  ∀ Fields K X st Fields' st',
    built s K X st →
    (∀ f, f ∈ fields → f ∈ allFields) →
    fieldsOK allFields typeName (heap st) Fields →
    makeObjectExec_fields env s directives useFieldResolvers packerError rec fuel
      typeName resolverType rt recv fieldsCount fields Fields st = Ok (Fields', st') →
    built s K X st' ∧ grows st st'
    ∧ fieldsOK allFields typeName (heap st') Fields'
    ∧ ∀ n, is_Some (Fields' !! n) ↔ is_Some (Fields !! n) ∨ n ∈ map fd_Name fields.
Proof.
  induction fields as [|f rest IH]; intros Fields K X st Fields' st' Hb Hin Hok Hrun.
  - simpl in Hrun. inversion Hrun; subst.
    split; [exact Hb|]. split; [apply grows_refl|]. split; [exact Hok|].
    intros n. simpl. split; [tauto|]. intros [H|H]; [exact H|inversion H].
  - destruct (makeObjectExec_fields_step _ _ _ _ _ _ _ _ _ _ _ _ _ _ _ _ _ _ Hrun)
      as (m & sf & fieldIndex & fe & st1 & Hidx & Hfe & Hrest).
    cbv zeta in Hidx.
    edestruct (makeFieldExec_tree typeName f m sf) as (Hb1 & Hg1 & fld & Hfld & Hdef & Hname);
      [exact Hb| |exact Hfe|].
    { destruct Hidx as [[Hi ->]|[Hi Hne]]; [left|right; tauto].
      split; [|reflexivity]. apply findMethod_nonneg. exact Hi. }
    edestruct (IH (<[fd_Name f := fe]> Fields)) as (Hb2 & Hg2 & Hok2 & Hdom);
      [exact Hb1| | |exact Hrest|].
    { intros g Hg. apply Hin. apply list_elem_of_further. assumption. }
    { intros n fe'. destruct (decide (n = fd_Name f)) as [->|Hne].
      - rewrite lookup_insert_eq. intros E. inversion E; subst fe'.
        exists fld. split; [exact Hfld|]. rewrite Hdef.
        split; [apply Hin, list_elem_of_here|]. split; [reflexivity|exact Hname].
      - rewrite lookup_insert_ne by congruence. intros Hl.
        eapply fieldsOK_prefix; [exact (proj1 Hg1)|exact Hok|exact Hl]. }
    split; [exact Hb2|]. split; [eapply grows_trans; eassumption|].
    split; [exact Hok2|]. intros n. rewrite Hdom. simpl.
    destruct (decide (n = fd_Name f)) as [->|Hne].
    + rewrite lookup_insert_eq. split; [intros _; right; apply list_elem_of_here|].
      intros _. left. eauto.
    + rewrite lookup_insert_ne by congruence. rewrite elem_of_cons. tauto.
Qed.

Lemma makeObjectExec_assertions_tree allPossible typeName resolverType recv
    possibleTypes :
  ∀ acc K X st tas st',
    built s K X st →
    (∀ impl, impl ∈ possibleTypes → impl ∈ allPossible) →
    assertionsOK s allPossible (heap st) acc →
    makeObjectExec_assertions env s rec typeName resolverType recv possibleTypes acc st
      = Ok (tas, st') →
    built s K X st' ∧ grows st st' ∧ assertionsOK s allPossible (heap st') tas.
Proof.
  induction possibleTypes as [|impl rest IH]; intros acc K X st tas st' Hb Hin Hok Hrun.
  - simpl in Hrun. inversion Hrun; subst.
    split; [exact Hb|]. split; [apply grows_refl|exact Hok].
  - destruct (implName s impl) as [name| | |] eqn:Himpl.
    2-4: cbn [makeObjectExec_assertions] in Hrun;
         unfold bind at 1, lift, rbind in Hrun; rewrite Himpl in Hrun; discriminate.
    rewrite (makeObjectExec_assertions_cons env s rec typeName resolverType recv impl
               rest acc st name Himpl) in Hrun. cbv zeta in Hrun.
    set (i := findMethod env resolverType ("To" +:+ name)) in *.
    destruct (bool_decide (i = (-1)%Z)) eqn:Hi; [discriminate|].
    apply bool_decide_eq_false in Hi.
    unfold rbind in Hrun.
    destruct (Method_ env resolverType i) as [m| | |]; try discriminate.
    destruct (negb (bool_decide (length (m_In m) = if recv then 1 else 0)));
      [discriminate|].
    destruct (negb (bool_decide (length (m_Out m) = 2))); [discriminate|].
    destruct (Out0 m) as [out| | |]; try discriminate.
    match type of Hrun with context [rec ?a ?b ?c ?d] =>
      destruct (rec a b c d) as [[[] st1]| | |] eqn:Hr end; try discriminate.
    cbn [snd] in Hrun.
    edestruct (alloc_assign_tree K X st (packerLog st)) as (Hb1 & Hg1 & Hcell);
      [exact Hb| | |exact Hr|].
    { simpl. split; [|exact I]. apply findMethod_nonneg. exact Hi. }
    { simpl. eauto. }
    edestruct (IH (<[name := length (heap st)]> acc)) as (Hb2 & Hg2 & Hok2);
      [exact Hb1| | |exact Hrun|].
    { intros g Hg. apply Hin. apply list_elem_of_further. assumption. }
    { intros n a. destruct (decide (n = name)) as [->|Hne].
      - rewrite lookup_insert_eq. intros E. inversion E; subst a. split.
        + exists impl. split; [apply Hin, list_elem_of_here|exact Himpl].
        + eexists. exact Hcell.
      - rewrite lookup_insert_ne by congruence. intros Hl.
        eapply assertionsOK_prefix; [exact (proj1 Hg1)|exact Hok|exact Hl]. }
    split; [exact Hb2|]. split; [eapply grows_trans; eassumption|exact Hok2].
Qed.

Lemma makeObjectExec_tree (t : tyref) typeName fields possibleTypes nonNull resolverType
    K X st p st' :
  objectParts (sTypes s !! t) = Some (typeName, fields, possibleTypes) →
  built s K X st →
  makeObjectExec env s directives useFieldResolvers packerError rec fuel typeName fields
    possibleTypes nonNull resolverType st = Ok (p, st') →
  built s K X st' ∧ grows st st' ∧ ∃ o, heap st' !! p = Some (CObject o).
Proof.
  intros Hparts Hb. rewrite makeObjectExec_unfold.
  destruct (_ && _); [discriminate|]. cbv zeta. unfold rbind.
  destruct (unwrapPtr env resolverType) as [rt| | |]; try discriminate.
  destruct (fieldCount env fuel rt ∅) as [fieldsCount| | |]; try discriminate.
  destruct (makeObjectExec_fields _ _ _ _ _ _ _ _ _ _ _ _ _ _ _) as [[Fields st1]| | |]
    eqn:Hfields; try discriminate.
  cbn [fst snd].
  edestruct (makeObjectExec_fields_tree fields typeName resolverType rt)
    as (Hb1 & Hg1 & Hok1 & Hdom); [exact Hb| | |exact Hfields|].
  { auto. }
  { intros n fe H. rewrite lookup_empty in H. discriminate. }
  match goal with |- context [if ?g then ?x else ?y] =>
    destruct (if g then x else y) as [[tas st2]| | |] eqn:Htas end; try discriminate.
  assert (Hb2 : built s K X st2 ∧ grows st1 st2
                ∧ assertionsOK s possibleTypes (heap st2) tas).
  { revert Htas. destruct (_ || _).
    - intros Htas.
      eapply (makeObjectExec_assertions_tree possibleTypes typeName resolverType);
        [exact Hb1| | |exact Htas]; [auto|].
      intros n a H. rewrite lookup_empty in H. discriminate.
    - intros E. inversion E; subst. split; [exact Hb1|]. split; [apply grows_refl|].
      intros n a H. rewrite lookup_empty in H. discriminate. }
  destruct Hb2 as (Hb2 & Hg2 & Hok2). cbn [fst snd].
  intros E. inversion E; subst p st'. clear E.
  assert (Hpre : heap st2 `prefix_of` heap st2 ++ [CObject (mkObject typeName Fields tas)])
    by (apply prefix_app_r; reflexivity).
  split; [|split].
  - apply built_alloc_node; [exact Hb2| |reflexivity].
    simpl. exists t, fields, possibleTypes. simpl. split; [exact Hparts|]. split.
    + intros n. rewrite Hdom. split; [intros [[x Hx]|H]; [|exact H]|tauto].
      rewrite lookup_empty in Hx. discriminate.
    + split.
      * eapply fieldsOK_prefix; [|exact Hok1]. etransitivity; [exact (proj1 Hg2)|exact Hpre].
      * eapply assertionsOK_prefix; [exact Hpre|exact Hok2].
  - eapply grows_trans; [exact Hg1|]. eapply grows_trans; [exact Hg2|].
    apply grows_alloc.
  - eexists. simpl. rewrite lookup_app_r by lia. rewrite Nat.sub_diag. reflexivity.
Qed.

Lemma makeExec_tree (t : tyref) rt K X st r st' :
  built s K X st →
  makeExec env s directives useFieldResolvers packerError rec fuel t rt st = Ok (r, st') →
  built s K X st' ∧ grows st st' ∧ r ≠ RNil ∧ valid (heap st') r.
Proof.
  intros Hb Hrun.
  destruct (makeExec_steps _ _ _ _ _ _ _ _ _ _ _ _ Hrun)
    as [(name & fields & possible & p & Hparts & Hobj & ->)
       |[[-> ->]|(ofType & elem & -> & Hr)]].
  - destruct (makeObjectExec_tree _ _ _ _ _ _ K X st p st' Hparts Hb Hobj)
      as (Hb' & Hg & o & Ho).
    split; [exact Hb'|]. split; [exact Hg|]. split; [discriminate|]. simpl. eauto.
  - split; [apply built_alloc_node; [exact Hb|exact I|reflexivity]|].
    split; [apply grows_alloc|]. split; [discriminate|]. simpl.
    rewrite lookup_app_r by lia. rewrite Nat.sub_diag. reflexivity.
  - edestruct (alloc_assign_tree K X st (packerLog st)) as (Hb' & Hg & Hcell);
      [exact Hb| | |exact Hr|].
    { exact I. }
    { simpl. eauto. }
    split; [exact Hb'|]. split; [exact Hg|]. split; [discriminate|]. simpl. eauto.
Qed.

End TreeLevel.

Lemma assignExec_tree n :
  treeSpec s (assignExec env s directives useFieldResolvers packerError n).
Proof.
  induction n as [|n IH]; intros K X target t rt st st' Hb Hfresh; [discriminate|].
  rewrite assignExec_S.
  assert (Hadd : ∀ (r : resMapEntry) tg,
            tg ∈ targets r → tg ∈ targets (mkEntry (exec r) (targets r ++ [target]))).
  { intros r tg Htg. simpl. apply elem_of_app. auto. }
  destruct (lookupEntry (t, rt) (resMap st)) as [r|] eqn:Hl.
  - intros E. inversion E; subst st'. clear E. split.
    + apply built_recordTarget; [exact Hb|exact Hfresh|]. rewrite Hl. eauto.
    + apply grows_update. exact Hadd.
  - set (st1 := mkState (heap st) (resMap st ++ [((t, rt), mkEntry RNil [])])
                  (packerLog st)).
    destruct (makeExec _ _ _ _ _ _ _ _ _ st1) as [[e st2]| | |] eqn:Hm; try discriminate.
    intros E. inversion E; subst st'. clear E.
    assert (Hb1 : built s ((t, rt) :: K) (target :: X) st1)
      by (apply built_newEntry; assumption).
    destruct (makeExec_tree _ IH n t rt _ _ st1 e st2 Hb1 Hm) as (Hb2 & Hg2 & Hne & Hv).
    destruct (makeExec_invariant _ _ _ _ _ _ _ _ _ _ _ (built_wf _ _ _ _ Hb1) Hm)
      as [_ Hext].
    assert (Hfr2 : fresh target st2).
    { eapply fresh_ext; [|exact Hext]. apply newEntry_fresh. exact Hfresh. }
    pose proof (built_setExec s K (target :: X) st2 (t, rt) e Hb2 Hne Hv) as Hb3.
    set (st3 := mkState (heap st2)
                  (updateEntry (t, rt) (fun r => mkEntry e (targets r)) (resMap st2))
                  (packerLog st2)) in *.
    assert (Hg23 : grows st2 st3) by (apply grows_update; auto).
    assert (Hfr3 : fresh target st3).
    { eapply fresh_ext; [exact Hfr2|]. apply setExec_ext. }
    assert (Hk3 : is_Some (lookupEntry (t, rt) (resMap st3))).
    { apply (grows_is_Some st2 st3 _ Hg23). apply (grows_is_Some st1 st2 _ Hg2).
      subst st1. simpl. rewrite lookupEntry_app, Hl, decide_True by reflexivity. eauto. }
    split.
    + exact (built_recordTarget s K X st3 (t, rt) target Hb3 Hfr3 Hk3).
    + eapply grows_trans; [|apply (grows_update st3); exact Hadd].
      eapply grows_trans; [|exact Hg23].
      eapply grows_trans; [|exact Hg2].
      split; simpl; [reflexivity|]. intros k e' Hk. rewrite lookupEntry_app, Hk. eauto.
Qed.

End TreeInv.

(** ** The finished tree *)

Lemma built_rootsState s : built s [] [0; 1; 2] rootsState.
Proof.
  constructor; simpl.
  - apply wf_rootsState.
  - constructor.
  - intros k e H. discriminate.
  - intros p c Hp _. left. apply lookup_lt_Some in Hp. simpl in Hp.
    rewrite !elem_of_cons. lia.
  - intros k e H. discriminate.
  - intros p c Hp. destruct p as [|[|[|p]]]; simpl in Hp; inversion Hp; exact I.
Qed.

(** What [ApplyResolver] did when it returns a schema for a resolver that is
    not nil. *)
Lemma ApplyResolver_steps env packerError packerFinish Meta (newMeta : Schema → outcome Meta) s
    resolver visitors useFieldResolvers fuel rs :
  ApplyResolver env packerError packerFinish Meta newMeta s (Some resolver) visitors
    useFieldResolvers fuel = Ok rs →
  ∃ ds q m sub st1 st2 st3 st4 meta,
    applyDirectives s visitors = Ok ds
    ∧ rootResolver env resolver Query = Ok q
    ∧ rootResolver env resolver Mutation = Ok m
    ∧ rootResolver env resolver Subscription = Ok sub
    ∧ bindRoot env s ds useFieldResolvers packerError fuel "query" 0
        (TypeOf resolver q) rootsState = Ok (tt, st1)
    ∧ bindRoot env s ds useFieldResolvers packerError fuel "mutation" 1
        (TypeOf resolver m) st1 = Ok (tt, st2)
    ∧ bindRoot env s ds useFieldResolvers packerError fuel "subscription" 2
        (TypeOf resolver sub) st2 = Ok (tt, st3)
    ∧ finish packerFinish st3 = Ok (tt, st4)
    ∧ newMeta s = Returns meta
    ∧ rs = mkResolvableSchema meta s (readVar (heap st4) 0)
             (readVar (heap st4) 1) (readVar (heap st4) 2) (Some q) (Some m) (Some sub)
             (heap st4).
Proof.
  unfold ApplyResolver.
  destruct (applyDirectives s visitors) as [ds| | |]; simpl; try discriminate.
  destruct (rootResolver env resolver Query) as [q| | |]; simpl; try discriminate.
  destruct (rootResolver env resolver Mutation) as [m| | |]; simpl; try discriminate.
  destruct (rootResolver env resolver Subscription) as [sub| | |]; simpl;
    try discriminate.
  unfold bindRoots. unfold bind at 1 2 3, alloc, emptyState, rbind. simpl.
  fold rootsState. unfold bind at 1, rbind.
  fold (bindRoot env s ds useFieldResolvers packerError fuel "query" 0
          (TypeOf resolver q)).
  destruct (bindRoot _ _ _ _ _ _ "query" _ _ _) as [[[] st1]| | |] eqn:H1;
    try discriminate.
  cbn [fst snd]. unfold bind at 1, rbind.
  fold (bindRoot env s ds useFieldResolvers packerError fuel "mutation" 1
          (TypeOf resolver m)).
  destruct (bindRoot _ _ _ _ _ _ "mutation" _ _ _) as [[[] st2]| | |] eqn:H2;
    try discriminate.
  cbn [fst snd]. unfold bind at 1, rbind.
  fold (bindRoot env s ds useFieldResolvers packerError fuel "subscription" 2
          (TypeOf resolver sub)).
  destruct (bindRoot _ _ _ _ _ _ "subscription" _ _ _) as [[[] st3]| | |] eqn:H3;
    try discriminate.
  cbn [fst snd]. unfold bind at 1, rbind.
  destruct (finish packerFinish st3) as [[[] st4]| | |] eqn:H4; try discriminate.
  simpl. destruct (newMeta s) as [meta|msg] eqn:Hmeta; simpl; [|discriminate].
  intros E. inversion E; subst rs.
  exists ds, q, m, sub, st1, st2, st3, st4, meta. repeat split; assumption.
Qed.

(** What [ApplyResolver] returns when each of its steps succeeds. *)
Lemma ApplyResolver_from_steps env packerError packerFinish Meta
    (newMeta : Schema → outcome Meta) s resolver visitors useFieldResolvers fuel
    ds q m sub st1 st2 st3 st4 meta :
  applyDirectives s visitors = Ok ds →
  rootResolver env resolver Query = Ok q →
  rootResolver env resolver Mutation = Ok m →
  rootResolver env resolver Subscription = Ok sub →
  bindRoot env s ds useFieldResolvers packerError fuel "query" 0
    (TypeOf resolver q) rootsState = Ok (tt, st1) →
  bindRoot env s ds useFieldResolvers packerError fuel "mutation" 1
    (TypeOf resolver m) st1 = Ok (tt, st2) →
  bindRoot env s ds useFieldResolvers packerError fuel "subscription" 2
    (TypeOf resolver sub) st2 = Ok (tt, st3) →
  finish packerFinish st3 = Ok (tt, st4) →
  newMeta s = Returns meta →
  ApplyResolver env packerError packerFinish Meta newMeta s (Some resolver) visitors
    useFieldResolvers fuel
  = Ok (mkResolvableSchema meta s (readVar (heap st4) 0) (readVar (heap st4) 1)
          (readVar (heap st4) 2) (Some q) (Some m) (Some sub) (heap st4)).
Proof.
  intros Hds Hq Hm Hsub H1 H2 H3 H4 Hmeta.
  unfold ApplyResolver. rewrite Hds, Hq, Hm, Hsub. simpl.
  unfold bindRoots. unfold bind at 1 2 3, alloc, emptyState, rbind. simpl.
  fold rootsState. unfold bind at 1, rbind.
  fold (bindRoot env s ds useFieldResolvers packerError fuel "query" 0
          (TypeOf resolver q)).
  rewrite H1. cbn [fst snd]. unfold bind at 1, rbind.
  fold (bindRoot env s ds useFieldResolvers packerError fuel "mutation" 1
          (TypeOf resolver m)).
  rewrite H2. cbn [fst snd]. unfold bind at 1, rbind.
  fold (bindRoot env s ds useFieldResolvers packerError fuel "subscription" 2
          (TypeOf resolver sub)).
  rewrite H3. cbn [fst snd]. unfold bind at 1, rbind.
  rewrite H4. simpl. rewrite Hmeta. reflexivity.
Qed.

Lemma bindRoot_tree env s ds useFieldResolvers packerError fuel key target rt st st' :
  built s [] [0; 1; 2] st → target ∈ [0; 1; 2] → fresh target st →
  bindRoot env s ds useFieldResolvers packerError fuel key target rt st = Ok (tt, st') →
  built s [] [0; 1; 2] st' ∧ grows st st'
  ∧ (∀ i, i ≠ target → fresh i st → fresh i st')
  ∧ match RootOperationTypes s !! key with
    | Some t => ∃ e, lookupEntry (t, rt) (resMap st') = Some e ∧ target ∈ targets e
    | None => st' = st
    end.
Proof.
  intros Hb Htarget Hfresh. unfold bindRoot.
  destruct (RootOperationTypes s !! key) as [t|].
  - intros Hrun.
    assert (Hb' : built s [] (target :: [0; 1; 2]) st).
    { eapply built_weaken; [exact Hb|]. intros x Hx. apply list_elem_of_further. exact Hx. }
    destruct (assignExec_tree env s ds useFieldResolvers packerError fuel [] _ target t
                rt st st' Hb' Hfresh Hrun) as [Hb1 Hg].
    destruct (assignExec_invariant _ _ _ _ _ _ _ _ _ _ _ (built_wf _ _ _ _ Hb) Hfresh Hrun)
      as [_ Hext].
    split; [exact Hb1|]. split; [exact Hg|]. split.
    + intros i Hi Hfi. eapply fresh_var; [exact (built_wf _ _ _ _ Hb)|exact Hfi|exact Hext|].
      intros Hin. apply list_elem_of_singleton in Hin. contradiction.
    + exact (assignExec_records _ _ _ _ _ _ _ _ _ _ _ (built_wf _ _ _ _ Hb) Hrun).
  - unfold ret. intros E. inversion E; subst st'.
    split; [exact Hb|]. split; [apply grows_refl|]. split; [auto|reflexivity].
Qed.

(** What [finish] does to a cell. *)
Lemma finish_heap packerFinish st st' :
  wf st → finish packerFinish st = Ok (tt, st') →
  ∀ p, ((p ∉ allTargets (resMap st)) ∧ heap st' !! p = heap st !! p)
       ∨ ∃ ke, ke ∈ resMap st ∧ p ∈ targets (snd ke)
               ∧ heap st' !! p = setSlot (exec (snd ke)) <$> heap st !! p.
Proof.
  intros [Hnd _]. unfold finish.
  destruct (packerFinish (packerLog st)); [discriminate|].
  intros E. inversion E; subst st'. clear E. simpl. intros p.
  destruct (patchAll_lookup (resMap st) (heap st) p Hnd) as [H1 H2].
  destruct (decide (p ∈ allTargets (resMap st))) as [Hin|Hout].
  - right. apply elem_of_allTargets in Hin as (ke & Hke & Hp).
    exists ke. split; [exact Hke|]. split; [exact Hp|]. apply H1; assumption.
  - left. split; [exact Hout|]. apply H2. exact Hout.
Qed.

Lemma valid_patched h h' r : patchedFrom h h' → valid h r → valid h' r.
Proof.
  intros Hp. destruct r as [|p|p|p]; simpl; [tauto| | |].
  - intros [o Ho]. destruct (Hp p) as [E|[r E]]; rewrite E, Ho; simpl; eauto.
  - intros [e He]. destruct (Hp p) as [E|[r E]]; rewrite E, He; simpl; eauto.
  - intros Hs. destruct (Hp p) as [E|[r E]]; rewrite E; rewrite Hs; reflexivity.
Qed.

Lemma cellOK_patched s h h' c : patchedFrom h h' → cellOK s h c → cellOK s h' c.
Proof.
  intros Hp. destruct c as [o|e| |fld|a|v]; simpl; try tauto.
  - intros (t & fields & possible & Hparts & Hdom & Hfields & Htas).
    exists t, fields, possible. split; [exact Hparts|]. split; [exact Hdom|]. split.
    + intros n fe Hn. destruct (Hfields n fe Hn) as (fld & Hfld & Hrest).
      destruct (Hp fe) as [E|[r E]]; rewrite E, Hfld; simpl; eauto.
    + intros n a Hn. destruct (Htas n a Hn) as (Himpl & ta & Hta).
      split; [exact Himpl|]. destruct (Hp a) as [E|[r E]]; rewrite E, Hta; simpl; eauto.
  - apply valid_patched. assumption.
  - intros [H1 H2]. split; [assumption|]. eapply valid_patched; eassumption.
  - intros [H1 H2]. split; [assumption|]. eapply valid_patched; eassumption.
  - apply valid_patched. assumption.
Qed.

Lemma cellOK_setSlot s h r c : cellOK s h c → valid h r → cellOK s h (setSlot r c).
Proof. destruct c; simpl; tauto. Qed.

(** The state in which [finish] runs, and what [finish] makes of it. *)
Lemma finish_tree s packerFinish X st st' :
  built s [] X st → finish packerFinish st = Ok (tt, st') →
  (∀ (p : loc) c, heap st' !! p = Some c →
     cellOK s (heap st') c
     ∧ (p ∉ X → ∀ r, slot c = Some r → r ≠ RNil))
  ∧ (∀ k e tg, lookupEntry k (resMap st) = Some e → tg ∈ targets e →
       exec e ≠ RNil ∧ valid (heap st') (exec e)
       ∧ ∃ c, heap st !! tg = Some c ∧ heap st' !! tg = Some (setSlot (exec e) c))
  ∧ (∀ p, p ∉ allTargets (resMap st) → heap st' !! p = heap st !! p).
Proof.
  intros Hb Hfin.
  pose proof (finish_heap packerFinish st st' (built_wf _ _ _ _ Hb) Hfin) as Hheap.
  assert (Hpatched : patchedFrom (heap st) (heap st')).
  { intros p. destruct (Hheap p) as [[_ E]|(ke & _ & _ & E)]; eauto. }
  assert (Hentry : ∀ ke, ke ∈ resMap st →
            exec (snd ke) ≠ RNil ∧ valid (heap st') (exec (snd ke))).
  { intros ke Hke. apply (lookupEntry_elem _ _ (built_keys _ _ _ _ Hb)) in Hke. split.
    - intros Hnil. pose proof (built_pending _ _ _ _ Hb _ _ Hke Hnil) as Hin.
      inversion Hin.
    - eapply valid_patched; [exact Hpatched|]. eapply built_execs; eassumption. }
  split; [|split].
  - intros p c Hc. destruct (Hheap p) as [[Hout E]|(ke & Hke & Hp & E)].
    + rewrite E in Hc. split.
      * eapply cellOK_patched; [exact Hpatched|]. eapply built_cells; eassumption.
      * intros HX r Hs. exfalso.
        destruct (built_slots _ _ _ _ Hb p c Hc) as [?|?]; [rewrite Hs; eauto| |];
          contradiction.
    + rewrite E in Hc. destruct (heap st !! p) as [c0|] eqn:Hc0; [|discriminate].
      simpl in Hc. inversion Hc; subst c. destruct (Hentry ke Hke) as [Hne Hv]. split.
      * apply cellOK_setSlot; [|exact Hv].
        eapply cellOK_patched; [exact Hpatched|]. eapply built_cells; eassumption.
      * intros _ r Hs. destruct c0; simpl in Hs; inversion Hs; subst; assumption.
  - intros k e tg Hk Htg.
    assert (Hke : (k, e) ∈ resMap st)
      by (apply (lookupEntry_elem _ (k, e) (built_keys _ _ _ _ Hb)); exact Hk).
    destruct (Hentry _ Hke) as [Hne Hv]. split; [exact Hne|]. split; [exact Hv|].
    destruct (wf_slots _ (built_wf _ _ _ _ Hb) tg) as (c & Hc & _).
    { apply elem_of_allTargets. exists (k, e). auto. }
    exists c. split; [exact Hc|].
    destruct (Hheap tg) as [[Hout _]|(ke & Hke' & Hp & E)].
    + exfalso. apply Hout. apply elem_of_allTargets. exists (k, e). auto.
    + assert (ke = (k, e)) as ->.
      { pose proof (wf_targets _ (built_wf _ _ _ _ Hb)) as Hnd.
        clear -Hnd Hke Hke' Hp Htg. revert Hnd Hke Hke'.
        unfold allTargets. induction (resMap st) as [|x m IH]; intros Hnd Hke Hke';
          [inversion Hke|].
        simpl in Hnd. apply NoDup_app in Hnd as (_ & Hdisj & Hnd).
        apply elem_of_cons in Hke as [<-|Hke]; apply elem_of_cons in Hke' as [->|Hke'].
        - reflexivity.
        - exfalso. apply (Hdisj tg Htg). fold (allTargets m).
          apply elem_of_allTargets. eauto.
        - exfalso. apply (Hdisj tg Hp). fold (allTargets m).
          apply elem_of_allTargets. exists (k, e). auto.
        - apply IH; assumption. }
      rewrite E, Hc. reflexivity.
  - intros p Hp. destruct (Hheap p) as [[_ E]|(ke & Hke & Hin & _)]; [exact E|].
    exfalso. apply Hp. apply elem_of_allTargets. eauto.
Qed.

(** The state in which [finish] runs when the three roots are bound. *)
Lemma roots_bound env s ds useFieldResolvers packerError fuel resolver q m sub
    st1 st2 st3 :
  bindRoot env s ds useFieldResolvers packerError fuel "query" 0
    (TypeOf resolver q) rootsState = Ok (tt, st1) →
  bindRoot env s ds useFieldResolvers packerError fuel "mutation" 1
    (TypeOf resolver m) st1 = Ok (tt, st2) →
  bindRoot env s ds useFieldResolvers packerError fuel "subscription" 2
    (TypeOf resolver sub) st2 = Ok (tt, st3) →
  built s [] [0; 1; 2] st3
  ∧ (∀ i, i < 3 → heap st3 !! i = Some (CVar RNil))
  ∧ ∀ op, op ∈ [Query; Mutation; Subscription] →
      match RootOperationTypes s !! roleKey op with
      | Some t =>
          ∃ e, lookupEntry (t, TypeOf resolver (roleOf op q m sub)) (resMap st3) = Some e
               ∧ roleVar op ∈ targets e
      | None => roleVar op ∉ allTargets (resMap st3)
      end.
Proof.
  intros H1 H2 H3.
  pose proof (built_rootsState s) as Hb0.
  destruct (bindRoot_tree _ _ _ _ _ _ _ 0 _ _ _ Hb0
              ltac:(rewrite !elem_of_cons; tauto) (fresh_rootsState 0 ltac:(lia)) H1)
    as (Hb1 & Hg1 & Hfr1 & Hq).
  destruct (bindRoot_tree _ _ _ _ _ _ _ 1 _ _ _ Hb1
              ltac:(rewrite !elem_of_cons; tauto)
              (Hfr1 1 ltac:(lia) (fresh_rootsState 1 ltac:(lia))) H2)
    as (Hb2 & Hg2 & Hfr2 & Hm).
  destruct (bindRoot_tree _ _ _ _ _ _ _ 2 _ _ _ Hb2
              ltac:(rewrite !elem_of_cons; tauto)
              (Hfr2 2 ltac:(lia) (Hfr1 2 ltac:(lia) (fresh_rootsState 2 ltac:(lia)))) H3)
    as (Hb3 & Hg3 & Hfr3 & Hsub).
  split; [exact Hb3|].
  assert (Hg13 : grows st1 st3) by (eapply grows_trans; eassumption).
  split.
  - intros i Hi. eapply prefix_lookup_Some;
      [|exact (proj1 (grows_trans _ _ _ Hg1 Hg13))].
    destruct i as [|[|[|i]]]; try reflexivity. lia.
  - intros op Hop. rewrite !elem_of_cons in Hop.
    destruct Hop as [->|[->|[->|Hop]]]; [| | |inversion Hop].
    + change (roleKey Query) with "query". change (roleVar Query) with 0.
      change (roleOf Query q m sub) with q.
      destruct (RootOperationTypes s !! "query") as [t|].
      * destruct Hq as (e & He & Hin). destruct (proj2 Hg13 _ _ He) as (e' & He' & Ht).
        eauto.
      * subst st1. apply (Hfr3 0 ltac:(lia)). apply (Hfr2 0 ltac:(lia)).
        apply (fresh_rootsState 0). lia.
    + change (roleKey Mutation) with "mutation". change (roleVar Mutation) with 1.
      change (roleOf Mutation q m sub) with m.
      destruct (RootOperationTypes s !! "mutation") as [t|].
      * destruct Hm as (e & He & Hin). destruct (proj2 Hg3 _ _ He) as (e' & He' & Ht).
        eauto.
      * subst st2. apply (Hfr3 1 ltac:(lia)). apply (Hfr1 1 ltac:(lia)).
        apply (fresh_rootsState 1). lia.
    + change (roleKey Subscription) with "subscription".
      change (roleVar Subscription) with 2.
      change (roleOf Subscription q m sub) with sub.
      destruct (RootOperationTypes s !! "subscription") as [t|].
      * exact Hsub.
      * subst st3. apply (Hfr2 2 ltac:(lia)). apply (Hfr1 2 ltac:(lia)).
        apply (fresh_rootsState 2). lia.
Qed.

(** The state before [finish] and the result, for a resolver that is not
    nil. *)
Lemma ApplyResolver_tree env packerError packerFinish Meta
    (newMeta : Schema → outcome Meta) s
    resolver visitors useFieldResolvers fuel rs :
  ApplyResolver env packerError packerFinish Meta newMeta s (Some resolver) visitors
    useFieldResolvers fuel = Ok rs →
  ∃ st3 st4,
    built s [] [0; 1; 2] st3
    ∧ finish packerFinish st3 = Ok (tt, st4)
    ∧ rs_heap rs = heap st4
    ∧ (∀ i, i < 3 → heap st3 !! i = Some (CVar RNil))
    ∧ ∀ op, op ∈ [Query; Mutation; Subscription] →
        ∃ r, roleResolver op rs = Some r
             ∧ roleExec op rs = readVar (heap st4) (roleVar op)
             ∧ match RootOperationTypes s !! roleKey op with
               | Some t => ∃ e, lookupEntry (t, TypeOf resolver r) (resMap st3) = Some e
                                ∧ roleVar op ∈ targets e
               | None => roleVar op ∉ allTargets (resMap st3)
               end.
Proof.
  intros Hrun.
  destruct (ApplyResolver_steps _ _ _ _ _ _ _ _ _ _ _ Hrun)
    as (ds & q & m & sub & st1 & st2 & st3 & st4 & meta
        & _ & _ & _ & _ & H1 & H2 & H3 & H4 & _ & ->).
  destruct (roots_bound _ _ _ _ _ _ _ _ _ _ _ _ _ H1 H2 H3) as (Hb3 & Hvars & Hroots).
  exists st3, st4. split; [exact Hb3|]. split; [exact H4|]. split; [reflexivity|].
  split; [exact Hvars|].
  intros op Hop. exists (roleOf op q m sub). split; [|split; [|exact (Hroots op Hop)]].
  - rewrite !elem_of_cons in Hop.
    destruct Hop as [->|[->|[->|Hop]]]; [reflexivity..|inversion Hop].
  - rewrite !elem_of_cons in Hop.
    destruct Hop as [->|[->|[->|Hop]]]; [reflexivity..|inversion Hop].
Qed.

(** In the schema [ApplyResolver] returns, no slot of the dispatch tree is
    nil and every pointer leads to a node of its kind: an object node belongs
    to an object, interface or union of the schema and has a field node for
    exactly the names of that type's fields; a field node dispatches to a
    method or to a data member, not both; and the value slot of every field,
    the element slot of every list and the slot of every type assertion
    holds a node. *)
Theorem dispatch_tree_complete env packerError packerFinish Meta
    (newMeta : Schema → outcome Meta) s resolver visitors useFieldResolvers fuel rs
    (Hrun : ApplyResolver env packerError packerFinish Meta newMeta s (Some resolver)
              visitors useFieldResolvers fuel = Ok rs) :
  ∀ (p : loc) c, rs_heap rs !! p = Some c →
    cellOK s (rs_heap rs) c
    ∧ (3 ≤ p → ∀ r, slot c = Some r → r ≠ RNil ∧ valid (rs_heap rs) r).
Proof.
  destruct (ApplyResolver_tree _ _ _ _ _ _ _ _ _ _ _ Hrun)
    as (st3 & st4 & Hb & Hfin & Hheap & _ & _).
  destruct (finish_tree s packerFinish _ st3 st4 Hb Hfin) as (Hcells & _ & _).
  rewrite Hheap. intros p c Hc. destruct (Hcells p c Hc) as [Hok Hnil].
  split; [exact Hok|]. intros Hp r Hs. split.
  - apply Hnil; [|exact Hs]. rewrite !elem_of_cons. intros [?|[?|[?|H]]]; try lia.
    inversion H.
  - destruct c; simpl in Hs; inversion Hs; subst; simpl in Hok; tauto.
Qed.

Lemma dispatch_tree_complete_witness :
  ∃ rs, ApplyResolver SelfRef.env SelfRef.noPackerError SelfRef.packerFinishes unit
          (fun _ => Returns tt) SelfRef.schema (Some SelfRef.resolver) [] false 11 = Ok rs
        ∧ ∀ (p : loc) c, rs_heap rs !! p = Some c → 3 ≤ p →
            ∀ r, slot c = Some r → r ≠ RNil.
Proof.
  eexists. split; [vm_compute; reflexivity|].
  intros p c Hc Hp r Hs.
  destruct (dispatch_tree_complete SelfRef.env SelfRef.noPackerError
              SelfRef.packerFinishes unit (fun _ => Returns tt) SelfRef.schema SelfRef.resolver
              [] false 11 _ ltac:(vm_compute; reflexivity) p c Hc) as [_ H].
  exact (proj1 (H Hp r Hs)).
Defined.

(** [ApplyResolver] returns a tree for a role exactly when the schema
    declares the role's root operation; the tree is then the node stored for
    the pair of the root type and the type of the role's resolver. *)
Theorem declared_roots_are_bound env packerError packerFinish Meta
    (newMeta : Schema → outcome Meta) s resolver visitors useFieldResolvers fuel rs op
    (Hop : op ∈ [Query; Mutation; Subscription])
    (Hrun : ApplyResolver env packerError packerFinish Meta newMeta s (Some resolver)
              visitors useFieldResolvers fuel = Ok rs) :
  (roleExec op rs ≠ RNil ↔ is_Some (RootOperationTypes s !! roleKey op))
  ∧ valid (rs_heap rs) (roleExec op rs).
Proof.
  destruct (ApplyResolver_tree _ _ _ _ _ _ _ _ _ _ _ Hrun)
    as (st3 & st4 & Hb & Hfin & Hheap & Hvars & Hroots).
  destruct (finish_tree s packerFinish _ st3 st4 Hb Hfin) as (_ & Htargets & Hother).
  destruct (Hroots op Hop) as (r & _ & -> & Hroot).
  assert (Hvar : heap st3 !! roleVar op = Some (CVar RNil)).
  { apply Hvars. rewrite !elem_of_cons in Hop.
    destruct Hop as [->|[->|[->|Hop]]]; [| | |inversion Hop]; vm_compute; lia. }
  rewrite Hheap. unfold readVar.
  destruct (RootOperationTypes s !! roleKey op) as [t|].
  - destruct Hroot as (e & He & Hin).
    destruct (Htargets _ _ _ He Hin) as (Hne & Hv & c & Hc & Hc').
    rewrite Hvar in Hc. inversion Hc; subst c. rewrite Hc'. simpl.
    split; [|exact Hv]. split; [eauto|intros _; exact Hne].
  - rewrite (Hother _ Hroot), Hvar. simpl. split; [|exact I].
    split; [intros H; contradiction|intros [x Hx]; discriminate].
Qed.

Lemma declared_roots_are_bound_witness :
  ∃ rs, ApplyResolver SelfRef.env SelfRef.noPackerError SelfRef.packerFinishes unit
          (fun _ => Returns tt) SelfRef.schema (Some SelfRef.resolver) [] false 11 = Ok rs
        ∧ roleExec Query rs ≠ RNil ∧ ¬ (roleExec Mutation rs ≠ RNil).
Proof.
  eexists. split; [vm_compute; reflexivity|]. split.
  - apply (declared_roots_are_bound SelfRef.env SelfRef.noPackerError
             SelfRef.packerFinishes unit (fun _ => Returns tt) SelfRef.schema SelfRef.resolver []
             false 11 _ Query ltac:(apply list_elem_of_here)
             ltac:(vm_compute; reflexivity)).
    vm_compute. eauto.
  - intros H.
    apply (declared_roots_are_bound SelfRef.env SelfRef.noPackerError
             SelfRef.packerFinishes unit (fun _ => Returns tt) SelfRef.schema SelfRef.resolver []
             false 11 _ Mutation
             ltac:(apply list_elem_of_further, list_elem_of_here)
             ltac:(vm_compute; reflexivity)) in H.
    vm_compute in H. destruct H as [x Hx]. discriminate.
Defined.

(** Two roles whose root operations have the same type and whose resolvers
    have the same type get the same node: the second is not built again. *)
Theorem roots_share_nodes env packerError packerFinish Meta
    (newMeta : Schema → outcome Meta) s resolver visitors useFieldResolvers fuel rs
    op1 op2 t r1 r2
    (Hop1 : op1 ∈ [Query; Mutation; Subscription])
    (Hop2 : op2 ∈ [Query; Mutation; Subscription])
    (Hrun : ApplyResolver env packerError packerFinish Meta newMeta s (Some resolver)
              visitors useFieldResolvers fuel = Ok rs)
    (Ht1 : RootOperationTypes s !! roleKey op1 = Some t)
    (Ht2 : RootOperationTypes s !! roleKey op2 = Some t)
    (Hr1 : roleResolver op1 rs = Some r1)
    (Hr2 : roleResolver op2 rs = Some r2)
    (Hsame : TypeOf resolver r1 = TypeOf resolver r2) :
  roleExec op1 rs = roleExec op2 rs ∧ roleExec op1 rs ≠ RNil.
Proof.
  destruct (ApplyResolver_tree _ _ _ _ _ _ _ _ _ _ _ Hrun)
    as (st3 & st4 & Hb & Hfin & Hheap & Hvars & Hroots).
  destruct (finish_tree s packerFinish _ st3 st4 Hb Hfin) as (_ & Htargets & _).
  assert (Hvar : ∀ op, op ∈ [Query; Mutation; Subscription] →
            heap st3 !! roleVar op = Some (CVar RNil)).
  { intros op Hop. apply Hvars. rewrite !elem_of_cons in Hop.
    destruct Hop as [->|[->|[->|Hop]]]; [| | |inversion Hop]; vm_compute; lia. }
  destruct (Hroots op1 Hop1) as (r1' & Hr1' & -> & Hroot1).
  destruct (Hroots op2 Hop2) as (r2' & Hr2' & -> & Hroot2).
  rewrite Hr1 in Hr1'. inversion Hr1'; subst r1'.
  rewrite Hr2 in Hr2'. inversion Hr2'; subst r2'.
  rewrite Ht1 in Hroot1. rewrite Ht2 in Hroot2. rewrite <- Hsame in Hroot2.
  destruct Hroot1 as (e & He & Hin1). destruct Hroot2 as (e' & He' & Hin2).
  rewrite He in He'. inversion He'; subst e'.
  destruct (Htargets _ _ _ He Hin1) as (Hne & _ & c1 & Hc1 & Hc1').
  destruct (Htargets _ _ _ He Hin2) as (_ & _ & c2 & Hc2 & Hc2').
  rewrite (Hvar op1 Hop1) in Hc1. inversion Hc1; subst c1.
  rewrite (Hvar op2 Hop2) in Hc2. inversion Hc2; subst c2.
  unfold readVar. rewrite Hc1', Hc2'. simpl. split; [reflexivity|exact Hne].
Qed.

Lemma roots_share_nodes_witness :
  ∃ rs, ApplyResolver SelfRef.env SelfRef.noPackerError SelfRef.packerFinishes unit
          (fun _ => Returns tt) SharedRoot.schema (Some SelfRef.resolver) [] false 11 = Ok rs
        ∧ rs_Query rs = rs_Mutation rs ∧ rs_Query rs ≠ RNil.
Proof.
  eexists. split; [vm_compute; reflexivity|].
  apply (roots_share_nodes SelfRef.env SelfRef.noPackerError SelfRef.packerFinishes
           unit (fun _ => Returns tt) SharedRoot.schema SelfRef.resolver [] false 11 _
           Query Mutation 0 Supplied Supplied
           ltac:(apply list_elem_of_here)
           ltac:(apply list_elem_of_further, list_elem_of_here)
           ltac:(vm_compute; reflexivity) eq_refl eq_refl eq_refl eq_refl eq_refl).
Defined.


(** ** The contract of a role method *)

Lemma finish_runs packerFinish st :
  packerFinish (packerLog st) = None → ∃ st', finish packerFinish st = Ok (tt, st').
Proof. intros H. unfold finish. rewrite H. eauto. Qed.

(** C6: the contract of a role method.  For a role in Query, Mutation,
    Subscription: a method of that exact name must take no arguments, return
    one value of pointer or interface kind, and return it non-nil; each
    violation has its own error, which is the error of [ApplyResolver] when
    nothing failed before it, and in every case [ApplyResolver] does not
    succeed.  A well-formed method's result becomes the role's resolver.
    Without such a method the supplied resolver is the role's resolver.
    Then, for a schema with any root operations: when the directives are
    valid, the role methods of the other roles are well formed, each
    declared root type binds against the type of its role's resolver (for
    this role the type of the supplied resolver), the packer builder
    finishes and [newMeta] returns, [ApplyResolver] returns a schema in
    which the role's resolver is the supplied one and, if the role's root
    operation is declared, the role's dispatch tree is the node built for
    the pair of that root type and the supplied resolver's type. *)
Theorem root_method_contract env packerError packerFinish Meta
    (newMeta : Schema → outcome Meta) s resolver visitors useFieldResolvers fuel op
    (Hop : op ∈ [Query; Mutation; Subscription]) :
  let rvType := rtype_String (rv_Type resolver) in
  let apply :=
    ApplyResolver env packerError packerFinish Meta newMeta s (Some resolver)
      visitors useFieldResolvers fuel in
  (∀ m, MethodByName env (rv_Type resolver) op = Some m →
     (length (m_In m) ≠ 0 →
      rootResolver env resolver op =
        Err ("method " +:+ quote op +:+ " of " +:+ rvType
               +:+ " must not accept any arguments, got " +:+ pretty (length (m_In m))))
     ∧ (length (m_In m) = 0 → length (m_Out m) ≠ 1 →
        rootResolver env resolver op =
          Err ("method " +:+ quote op +:+ " of " +:+ rvType
                 +:+ " must have 1 return value, got " +:+ pretty (length (m_Out m))))
     ∧ (∀ ot, length (m_In m) = 0 → m_Out m = [ot] →
          (Kind_ env ot ≠ KPointer → Kind_ env ot ≠ KInterface →
           rootResolver env resolver op =
             Err ("method " +:+ quote op +:+ " of " +:+ rvType
                    +:+ " must return an interface or a pointer, got "
                    +:+ rtype_String ot))
          ∧ (Kind_ env ot = KPointer ∨ Kind_ env ot = KInterface →
             rv_Call resolver op = None →
             rootResolver env resolver op =
               Err ("method " +:+ quote op +:+ " of " +:+ rvType
                      +:+ " must return a non-nil result, got <nil>"))
          ∧ (∀ dyn, Kind_ env ot = KInterface → rv_Call resolver op = Some dyn →
               rootResolver env resolver op = Ok (Returned op dyn))
          ∧ (∀ dyn e, Kind_ env ot = KPointer → rv_Call resolver op = Some dyn →
               Elem env ot = Ok e →
               rootResolver env resolver op = Ok (Returned op (TPtr e)))))
  ∧ (is_Ok (rootResolver env resolver op) = false → is_Ok apply = false)
  ∧ (∀ e ds pre post,
       rootResolver env resolver op = Err e →
       applyDirectives s visitors = Ok ds →
       [Query; Mutation; Subscription] = (pre ++ op :: post)%list →
       Forall (fun o => is_Ok (rootResolver env resolver o) = true) pre →
       apply = Err e)
  ∧ (∀ r rs, rootResolver env resolver op = Ok r → apply = Ok rs →
       roleResolver op rs = Some r)
  ∧ (MethodByName env (rv_Type resolver) op = None →
     rootResolver env resolver op = Ok Supplied
     ∧ ∀ ds q m sub st1 st2 st3 meta,
         applyDirectives s visitors = Ok ds →
         rootResolver env resolver Query = Ok q →
         rootResolver env resolver Mutation = Ok m →
         rootResolver env resolver Subscription = Ok sub →
         bindRoot env s ds useFieldResolvers packerError fuel "query" 0
           (TypeOf resolver q) rootsState = Ok (tt, st1) →
         bindRoot env s ds useFieldResolvers packerError fuel "mutation" 1
           (TypeOf resolver m) st1 = Ok (tt, st2) →
         bindRoot env s ds useFieldResolvers packerError fuel "subscription" 2
           (TypeOf resolver sub) st2 = Ok (tt, st3) →
         packerFinish (packerLog st3) = None →
         newMeta s = Returns meta →
         TypeOf resolver (roleOf op q m sub) = rv_Type resolver
         ∧ ∃ rs, apply = Ok rs
             ∧ rs_Schema rs = s
             ∧ roleResolver op rs = Some Supplied
             ∧ (RootOperationTypes s !! roleKey op = None → roleExec op rs = RNil)
             ∧ ∀ t, RootOperationTypes s !! roleKey op = Some t →
                 ∃ e, lookupEntry (t, rv_Type resolver) (resMap st3) = Some e
                      ∧ roleExec op rs = exec e
                      ∧ exec e ≠ RNil
                      ∧ valid (rs_heap rs) (exec e)).
Proof.
  intros rvType apply. split; [|split; [|split; [|split]]].
  - intros m Hm. exact (rootResolver_cases env resolver op m Hm).
  - apply ApplyResolver_root_not_ok. assumption.
  - intros e ds pre post. apply ApplyResolver_first_root_error.
  - intros r rs. apply ApplyResolver_role_resolver. assumption.
  - intros Hno. pose proof (rootResolver_no_method env resolver op Hno) as Hsup.
    split; [exact Hsup|].
    intros ds q m sub st1 st2 st3 meta Hds Hq Hm Hsub H1 H2 H3 Hfin Hmeta.
    assert (Hrole : roleOf op q m sub = Supplied).
    { rewrite !elem_of_cons in Hop.
      destruct Hop as [->|[->|[->|Hop]]]; [| | |inversion Hop];
        unfold roleOf; simpl; congruence. }
    split; [rewrite Hrole; reflexivity|].
    destruct (finish_runs packerFinish st3 Hfin) as [st4 H4].
    pose proof (ApplyResolver_from_steps env packerError packerFinish Meta newMeta s
                  resolver visitors useFieldResolvers fuel ds q m sub st1 st2 st3 st4
                  meta Hds Hq Hm Hsub H1 H2 H3 H4 Hmeta) as Hrun.
    fold apply in Hrun.
    destruct (roots_bound _ _ _ _ _ _ _ _ _ _ _ _ _ H1 H2 H3) as (Hb3 & Hvars & Hroots).
    destruct (finish_tree s packerFinish _ st3 st4 Hb3 H4) as (_ & Htargets & Hother).
    eexists. split; [exact Hrun|]. split; [reflexivity|].
    assert (Hexec : roleExec op
                      (mkResolvableSchema meta s (readVar (heap st4) 0)
                         (readVar (heap st4) 1) (readVar (heap st4) 2) (Some q) (Some m)
                         (Some sub) (heap st4))
                    = readVar (heap st4) (roleVar op)).
    { rewrite !elem_of_cons in Hop.
      destruct Hop as [->|[->|[->|Hop]]]; [reflexivity..|inversion Hop]. }
    assert (Hvar : heap st3 !! roleVar op = Some (CVar RNil)).
    { apply Hvars. rewrite !elem_of_cons in Hop.
      destruct Hop as [->|[->|[->|Hop]]]; [| | |inversion Hop]; vm_compute; lia. }
    split; [|split].
    + rewrite <- Hrole. rewrite !elem_of_cons in Hop.
      destruct Hop as [->|[->|[->|Hop]]]; [reflexivity..|inversion Hop].
    + intros Hnone. rewrite Hexec. specialize (Hroots op Hop). rewrite Hnone in Hroots.
      unfold readVar. rewrite (Hother _ Hroots), Hvar. reflexivity.
    + intros t Ht. rewrite Hexec. specialize (Hroots op Hop).
      rewrite Ht, Hrole in Hroots. simpl in Hroots.
      destruct Hroots as (e & He & Hin).
      destruct (Htargets _ _ _ He Hin) as (Hne & Hv & c & Hc & Hc').
      rewrite Hvar in Hc. inversion Hc; subst c.
      exists e. split; [exact He|]. split; [|split; [exact Hne|exact Hv]].
      unfold readVar. rewrite Hc'. reflexivity.
Qed.

(** The role method [Mutation] of [NilMutation] returns nil.  The resolver
    of [SelfRef] has no role method: against a schema whose query and
    mutation are of the type [Query] it serves both roles, and the tree of
    each is the node built for that type and the resolver's type. *)
Lemma root_method_contract_witness :
  rootResolver NilMutation.env NilMutation.resolver Mutation
  = Err ("method " +:+ quote Mutation +:+ " of "
           +:+ rtype_String (rv_Type NilMutation.resolver)
           +:+ " must return a non-nil result, got <nil>")
  ∧ ∃ rs,
      ApplyResolver SelfRef.env SelfRef.noPackerError SelfRef.packerFinishes unit
        (fun _ => Returns tt) SharedRoot.schema (Some SelfRef.resolver) [] false 11
      = Ok rs
      ∧ roleResolver Mutation rs = Some Supplied
      ∧ roleExec Mutation rs = RObject 6
      ∧ (∃ o, rs_heap rs !! 6 = Some (CObject o))
      ∧ roleExec Subscription rs = RNil.
Proof.
  split.
  - destruct (root_method_contract NilMutation.env NilMutation.noPackerError
                NilMutation.packerFinishes unit (fun _ => Returns tt) NilMutation.schema
                NilMutation.resolver [] false 3 Mutation
                (list_elem_of_further _ _ _ (list_elem_of_here _ _)))
      as (Hshape & _).
    destruct (Hshape (mkMethod "Mutation" [] [TPtr NilMutation.M]) eq_refl)
      as (_ & _ & Hout).
    destruct (Hout (TPtr NilMutation.M) eq_refl eq_refl) as (_ & Hnil & _).
    exact (Hnil (or_introl eq_refl) eq_refl).
  - pose proof (root_method_contract SelfRef.env SelfRef.noPackerError
                  SelfRef.packerFinishes unit (fun _ => Returns tt) SharedRoot.schema
                  SelfRef.resolver [] false 11) as Hc.
    destruct (Hc Mutation (list_elem_of_further _ _ _ (list_elem_of_here _ _)))
      as (_ & _ & _ & _ & Hm).
    destruct (Hc Subscription
                (list_elem_of_further _ _ _
                   (list_elem_of_further _ _ _ (list_elem_of_here _ _))))
      as (_ & _ & _ & _ & Hs).
    destruct (Hm eq_refl) as [_ Hmut]. destruct (Hs eq_refl) as [_ Hsub].
    eassert (H1 : bindRoot SelfRef.env SharedRoot.schema ∅ false SelfRef.noPackerError
                    11 "query" 0 (TPtr SelfRef.R) rootsState = Ok (tt, _))
      by (vm_compute; reflexivity).
    match type of H1 with _ = Ok (tt, ?st1) =>
      eassert (H2 : bindRoot SelfRef.env SharedRoot.schema ∅ false
                      SelfRef.noPackerError 11 "mutation" 1 (TPtr SelfRef.R) st1
                    = Ok (tt, _))
        by (vm_compute; reflexivity)
    end.
    match type of H2 with _ = Ok (tt, ?st2) =>
      assert (H3 : bindRoot SelfRef.env SharedRoot.schema ∅ false
                     SelfRef.noPackerError 11 "subscription" 2 (TPtr SelfRef.R) st2
                   = Ok (tt, st2))
        by (vm_compute; reflexivity)
    end.
    destruct (Hmut ∅ Supplied Supplied Supplied _ _ _ tt eq_refl eq_refl eq_refl eq_refl
                H1 H2 H3 eq_refl eq_refl)
      as (_ & rs & Hrun & _ & Hres & _ & Hbound).
    destruct (Hsub ∅ Supplied Supplied Supplied _ _ _ tt eq_refl eq_refl eq_refl eq_refl
                H1 H2 H3 eq_refl eq_refl)
      as (_ & rs' & Hrun' & _ & _ & Hnone & _).
    rewrite Hrun in Hrun'. inversion Hrun'; subst rs'.
    exists rs. split; [exact Hrun|]. split; [exact Hres|].
    destruct (Hbound 0 eq_refl) as (e & He & Hexec & _ & Hv).
    vm_compute in He. inversion He; subst e. simpl in Hexec, Hv.
    split; [exact Hexec|]. split; [exact Hv|].
    apply Hnone. reflexivity.
Defined.


(** ** Marshalling an ID *)

Lemma unescape_appendEscapedRune c t :
  nat_of_ascii c < 128 →
  ScalarID.unescape (ScalarID.appendEscapedRune c +:+ t)
  = option_map (String c) (ScalarID.unescape t).
Proof.
  destruct c as [b0 b1 b2 b3 b4 b5 b6 b7]. intros H.
  destruct b7; [exfalso; destruct b0, b1, b2, b3, b4, b5, b6; vm_compute in H; lia|].
  clear H. destruct b0, b1, b2, b3, b4, b5, b6; reflexivity.
Qed.

Lemma unescape_appendQuoted s b :
  ScalarID.appendQuoted s = Some b → ScalarID.unescape b = Some s.
Proof.
  revert b. induction s as [|c s IH]; intros b; cbn [ScalarID.appendQuoted].
  - intros E. inversion E. reflexivity.
  - destruct (Nat.leb_spec 128 (nat_of_ascii c)) as [|Hc]; [intros E; discriminate E|].
    destruct (ScalarID.appendQuoted s) as [rest|]; [|intros E; discriminate E].
    cbn [option_map]. intros E. inversion E; subst b.
    rewrite unescape_appendEscapedRune by exact Hc.
    rewrite (IH rest eq_refl). reflexivity.
Qed.

Lemma string_length_app (a b : string) :
  String.length (a +:+ b) = String.length a + String.length b.
Proof. induction a as [|x a IH]; simpl; [reflexivity|]. rewrite IH. reflexivity. Qed.

Lemma string_app_inv_tail (a b t : string) : a +:+ t = b +:+ t → a = b.
Proof.
  intros E.
  assert (El : String.length a = String.length b).
  { apply (f_equal String.length) in E. rewrite !string_length_app in E. lia. }
  revert b E El. induction a as [|x a IH]; intros [|y b] E El; simpl in *;
    try discriminate; [reflexivity|].
  inversion E. f_equal. apply IH; [assumption|lia].
Qed.

Lemma printable_appendEscapedRune c :
  nat_of_ascii c < 128 →
  forallb ScalarID.printable (list_ascii_of_string (ScalarID.appendEscapedRune c)) = true.
Proof.
  destruct c as [b0 b1 b2 b3 b4 b5 b6 b7]. intros H.
  destruct b7; [exfalso; destruct b0, b1, b2, b3, b4, b5, b6; vm_compute in H; lia|].
  clear H. destruct b0, b1, b2, b3, b4, b5, b6; reflexivity.
Qed.

Lemma list_ascii_of_string_app a b :
  list_ascii_of_string (a +:+ b) = list_ascii_of_string a ++ list_ascii_of_string b.
Proof. induction a as [|x a IH]; simpl; [reflexivity|]. rewrite IH. reflexivity. Qed.

(** An ID whose text is printable ASCII without double quote and backslash
    is marshalled to that text between double quotes. *)
Theorem MarshalJSON_plain {T : Type} (format : T → string) (v : T)
    (Hplain : ScalarID.plain (format v) = true) :
  ScalarID.MarshalJSON format (ScalarID.NewID v) = Some (quote (format v)).
Proof.
  unfold ScalarID.MarshalJSON, ScalarID.NewID, ScalarID.AppendQuote. simpl.
  assert (Hbody : ScalarID.appendQuoted (format v) = Some (format v)).
  { revert Hplain. unfold ScalarID.plain. generalize (format v) as s.
    induction s as [|c s IH];
      cbn [list_ascii_of_string forallb ScalarID.appendQuoted]; [reflexivity|].
    rewrite !andb_true_iff, !negb_true_iff. intros [[[[H1 H2] H3] H4] Hrest].
    destruct (Nat.leb_spec 128 (nat_of_ascii c)) as [Hbig|_];
      [apply Nat.leb_le in H2; lia|].
    rewrite (IH Hrest). cbn [option_map]. unfold ScalarID.appendEscapedRune.
    rewrite H3, H4, H1, H2. reflexivity. }
  rewrite Hbody. reflexivity.
Qed.

Lemma MarshalJSON_plain_witness :
  ScalarID.MarshalJSON (fun s : string => s) (ScalarID.NewID "user-42_A")
  = Some (quote "user-42_A").
Proof.
  apply (MarshalJSON_plain (fun s : string => s) "user-42_A"). reflexivity.
Defined.

(** Marshalling loses nothing and produces one line of printable ASCII: two
    IDs with the same bytes have the same text, and the bytes are a double
    quote, printable characters, and a double quote. *)
Theorem MarshalJSON_injective {T : Type} (format : T → string)
    (id id' : ScalarID.ID T) q
    (Hq : ScalarID.MarshalJSON format id = Some q)
    (Hq' : ScalarID.MarshalJSON format id' = Some q) :
  format (ScalarID.Value id) = format (ScalarID.Value id')
  ∧ forallb ScalarID.printable (list_ascii_of_string q) = true
  ∧ ∃ body, q = String ScalarID.dquote (body +:+ String ScalarID.dquote EmptyString).
Proof.
  unfold ScalarID.MarshalJSON, ScalarID.AppendQuote in *.
  destruct (ScalarID.appendQuoted (format (ScalarID.Value id))) as [b|] eqn:Hb;
    [|discriminate].
  destruct (ScalarID.appendQuoted (format (ScalarID.Value id'))) as [b'|] eqn:Hb';
    [|discriminate].
  simpl in Hq, Hq'. inversion Hq; subst q. inversion Hq' as [E].
  apply string_app_inv_tail in E. subst b'.
  split; [|split].
  - apply unescape_appendQuoted in Hb, Hb'. congruence.
  - simpl. rewrite list_ascii_of_string_app, forallb_app. simpl.
    rewrite andb_true_r. clear Hq Hq' Hb'. revert b Hb.
    generalize (format (ScalarID.Value id)) as s.
    induction s as [|c s IH]; intros b; cbn [ScalarID.appendQuoted].
    + intros E. inversion E. reflexivity.
    + destruct (Nat.leb_spec 128 (nat_of_ascii c)) as [|Hc]; [intros E; discriminate E|].
      destruct (ScalarID.appendQuoted s) as [rest|]; [|intros E; discriminate E].
      cbn [option_map]. intros E. inversion E; subst b.
      rewrite list_ascii_of_string_app, forallb_app.
      rewrite (printable_appendEscapedRune c Hc). apply (IH rest eq_refl).
  - eauto.
Qed.

Lemma MarshalJSON_injective_witness :
  ∃ q, ScalarID.MarshalJSON (fun s : string => s) (ScalarID.NewID ("a" +:+ nl_tab))
       = Some q
       ∧ forallb ScalarID.printable (list_ascii_of_string q) = true.
Proof.
  eexists. split; [reflexivity|].
  apply (MarshalJSON_injective (fun s : string => s) (ScalarID.NewID ("a" +:+ nl_tab))
           (ScalarID.NewID ("a" +:+ nl_tab)) _ eq_refl eq_refl).
Defined.


(** The cells of the returned heap, with the address of a cell that is not
    one of the three root variables. *)
Lemma ApplyResolver_cells env packerError packerFinish Meta (newMeta : Schema → outcome Meta) s
    resolver visitors useFieldResolvers fuel rs :
  ApplyResolver env packerError packerFinish Meta newMeta s (Some resolver) visitors
    useFieldResolvers fuel = Ok rs →
  ∀ (p : loc) c, rs_heap rs !! p = Some c →
    cellOK s (rs_heap rs) c
    ∧ ((∀ v, c ≠ CVar v) → ∀ r, slot c = Some r → r ≠ RNil).
Proof.
  intros Hrun.
  destruct (ApplyResolver_tree _ _ _ _ _ _ _ _ _ _ _ Hrun)
    as (st3 & st4 & Hb & Hfin & Hheap & Hvars & _).
  destruct (finish_tree s packerFinish _ st3 st4 Hb Hfin) as (Hcells & _ & _).
  pose proof (finish_heap packerFinish st3 st4 (built_wf _ _ _ _ Hb) Hfin) as Hpatch.
  rewrite Hheap. intros p c Hc. destruct (Hcells p c Hc) as [Hok Hnil].
  split; [exact Hok|]. intros Hvar. apply Hnil.
  rewrite !elem_of_cons. intros Hp.
  assert (Hlt : p < 3) by (destruct Hp as [?|[?|[?|H]]]; [lia..|inversion H]).
  specialize (Hvars p Hlt).
  unfold loc in *.
  destruct (Hpatch p) as [[_ E]|(ke & _ & _ & E)]; rewrite E, Hvars in Hc;
    simpl in Hc; inversion Hc; subst c; eapply Hvar; reflexivity.
Qed.

(** On every field node of the returned tree [UseMethodResolver] tells
    whether the node has a method index: it is true with an index that is not
    negative and an empty field path, or false with the index -1 and a path
    that is not empty. *)
Theorem UseMethodResolver_agrees env packerError packerFinish Meta
    (newMeta : Schema → outcome Meta) s resolver visitors useFieldResolvers fuel rs
    (Hrun : ApplyResolver env packerError packerFinish Meta newMeta s (Some resolver)
              visitors useFieldResolvers fuel = Ok rs) :
  ∀ (p : loc) fld, rs_heap rs !! p = Some (CField fld) →
    (UseMethodResolver fld = true ∧ (0 ≤ f_MethodIndex fld)%Z ∧ f_FieldIndex fld = [])
    ∨ (UseMethodResolver fld = false ∧ f_MethodIndex fld = (-1)%Z
       ∧ f_FieldIndex fld ≠ []).
Proof.
  intros p fld Hp.
  destruct (ApplyResolver_cells _ _ _ _ _ _ _ _ _ _ _ Hrun p _ Hp) as [[Hok _] _].
  unfold UseMethodResolver. destruct Hok as [[Hi Hnil]|[Hi Hne]].
  - left. rewrite Hnil. auto.
  - right. split; [|auto]. apply bool_decide_eq_false.
    destruct (f_FieldIndex fld); [contradiction|discriminate].
Qed.

Lemma UseMethodResolver_agrees_witness :
  ∃ rs, ApplyResolver SelfRef.env SelfRef.noPackerError SelfRef.packerFinishes unit
          (fun _ => Returns tt) SelfRef.schema (Some SelfRef.resolver) [] false 11 = Ok rs
        ∧ ∀ (p : loc) fld, rs_heap rs !! p = Some (CField fld) →
            UseMethodResolver fld = true ∨ f_MethodIndex fld = (-1)%Z.
Proof.
  eexists. split; [vm_compute; reflexivity|].
  intros p fld Hp.
  destruct (UseMethodResolver_agrees SelfRef.env SelfRef.noPackerError
              SelfRef.packerFinishes unit (fun _ => Returns tt) SelfRef.schema SelfRef.resolver
              [] false 11 _ ltac:(vm_compute; reflexivity) p fld Hp)
    as [(H & _)|(_ & H & _)]; [left|right]; exact H.
Defined.

(** Every object node of the returned tree is made for an object, interface
    or union type of the schema: it carries that type's name and has, for
    each field the type declares, a field node under the field's name, made
    from a field of that name for this type, whose value slot holds a node;
    it has no field node under another name. *)
Theorem object_nodes_match_schema env packerError packerFinish Meta
    (newMeta : Schema → outcome Meta) s resolver visitors useFieldResolvers fuel rs
    (Hrun : ApplyResolver env packerError packerFinish Meta newMeta s (Some resolver)
              visitors useFieldResolvers fuel = Ok rs) :
  ∀ (p : loc) o, rs_heap rs !! p = Some (CObject o) →
    ∃ (t : tyref) fields possibleTypes,
      objectParts (sTypes s !! t) = Some (o_Name o, fields, possibleTypes)
      ∧ (∀ f, f ∈ fields →
           ∃ fe fld, o_Fields o !! fd_Name f = Some fe
                     ∧ rs_heap rs !! fe = Some (CField fld)
                     ∧ f_FieldDefinition fld ∈ fields
                     ∧ fd_Name (f_FieldDefinition fld) = fd_Name f
                     ∧ f_TypeName fld = o_Name o
                     ∧ f_ValueExec fld ≠ RNil)
      ∧ (∀ n, is_Some (o_Fields o !! n) → n ∈ map fd_Name fields).
Proof.
  intros p o Hp.
  destruct (ApplyResolver_cells _ _ _ _ _ _ _ _ _ _ _ Hrun p _ Hp)
    as [(t & fields & possible & Hparts & Hdom & Hfields & _) _].
  exists t, fields, possible. split; [exact Hparts|]. split.
  - intros f Hf.
    destruct (proj2 (Hdom (fd_Name f))) as [fe Hfe].
    { apply list_elem_of_fmap. eauto. }
    destruct (Hfields _ _ Hfe) as (fld & Hfld & Hdef & Hname & Htype).
    exists fe, fld. split; [exact Hfe|]. split; [exact Hfld|].
    split; [exact Hdef|]. split; [exact Hname|]. split; [exact Htype|].
    destruct (ApplyResolver_cells _ _ _ _ _ _ _ _ _ _ _ Hrun fe _ Hfld) as [_ Hnil].
    apply Hnil; [discriminate|reflexivity].
  - intros n Hn. apply Hdom. exact Hn.
Qed.

Lemma object_nodes_match_schema_witness :
  ∃ rs, ApplyResolver SelfRef.env SelfRef.noPackerError SelfRef.packerFinishes unit
          (fun _ => Returns tt) SelfRef.schema (Some SelfRef.resolver) [] false 11 = Ok rs
        ∧ ∀ (p : loc) o, rs_heap rs !! p = Some (CObject o) →
            ∃ (t : tyref) fields possibleTypes,
              objectParts (sTypes SelfRef.schema !! t)
              = Some (o_Name o, fields, possibleTypes)
              ∧ ∀ n, is_Some (o_Fields o !! n) → n ∈ map fd_Name fields.
Proof.
  eexists. split; [vm_compute; reflexivity|].
  intros p o Hp.
  destruct (object_nodes_match_schema SelfRef.env SelfRef.noPackerError
              SelfRef.packerFinishes unit (fun _ => Returns tt) SelfRef.schema SelfRef.resolver
              [] false 11 _ ltac:(vm_compute; reflexivity) p o Hp)
    as (t & fields & possible & Hparts & _ & Hdom).
  exists t, fields, possible. split; assumption.
Defined.


(** ** Scalars, by resolver type *)

(** The type switch of [makeScalarExec] looks at the resolver type first.
    One of the four Go primitives binds to the scalar of its own built-in
    name and to no other, whatever capability the environment ascribes to
    it; any other type binds exactly to the scalars that its
    [ImplementsGraphQLType] accepts, and to none when it lacks the
    capability. *)
Theorem scalar_binding_by_type env name rt st :
  (∀ builtin, (builtin, rt) ∈ [("Int", int32Type); ("Float", float64Type);
                                ("String", stringType); ("Boolean", boolType)] →
     (is_Ok (makeScalarExec env name rt st) = true ↔ name = builtin))
  ∧ (rt ∉ [int32Type; float64Type; stringType; boolType] →
     (is_Ok (makeScalarExec env name rt st) = true
      ↔ ∃ f, unmarshalerOf env rt = Some f ∧ f name = true)).
Proof.
  rewrite makeScalarExec_accept. split.
  - intros builtin Hin.
    assert (Hcases : (builtin = "Int" ∧ rt = int32Type)
                     ∨ (builtin = "Float" ∧ rt = float64Type)
                     ∨ (builtin = "String" ∧ rt = stringType)
                     ∨ (builtin = "Boolean" ∧ rt = boolType)).
    { repeat (apply elem_of_cons in Hin as [Hin|Hin]; [inversion Hin; tauto|]).
      inversion Hin. }
    destruct Hcases as [[-> ->]|[[-> ->]|[[-> ->]|[-> ->]]]]; simpl;
      (destruct (bool_decide _) eqn:Hb;
       [apply bool_decide_eq_true in Hb|apply bool_decide_eq_false in Hb]; simpl;
       split; [tauto|congruence|discriminate|tauto]).
  - intros Hout.
    repeat (case_decide; [subst rt; exfalso; apply Hout; rewrite !elem_of_cons; tauto|]).
    destruct (unmarshalerOf env rt) as [f|].
    + destruct (f name) eqn:Hf; simpl.
      * split; [eauto|reflexivity].
      * split; [discriminate|]. intros (g & Hg & Hgn). inversion Hg; subst. congruence.
    + simpl. split; [discriminate|]. intros (g & Hg & _). discriminate.
Qed.

Lemma scalar_binding_by_type_witness :
  is_Ok (makeScalarExec Scalars.env "ID" stringType emptyState) = false
  ∧ is_Ok (makeScalarExec Scalars.env "Int" Scalars.NullInt emptyState) = true.
Proof.
  split.
  - destruct (scalar_binding_by_type Scalars.env "ID" stringType emptyState) as [H _].
    specialize (H "String" ltac:(rewrite !elem_of_cons; tauto)).
    destruct (is_Ok _); [|reflexivity].
    destruct H as [H _]. specialize (H eq_refl). discriminate.
  - destruct (scalar_binding_by_type Scalars.env "Int" Scalars.NullInt emptyState)
      as [_ H].
    apply H.
    + rewrite !elem_of_cons. intros [?|[?|[?|[?|H']]]]; try discriminate. inversion H'.
    + eexists. split; reflexivity.
Defined.
